(** * music-module: the playback queue, the connection supervisor and the
    duration helper of [MusicSubscription] / [Track], embedded in Rocq.

    Sources embedded here:
    - [src/Track.ts], lines 136-154   ([WrappedDuration], [durationWrapper],
                                       in IEEE 754 double arithmetic)
    - [src/Track.ts], lines 15-51     (the [Track] data model)
    - [src/Subscription.ts]           ([MusicSubscription]) *)

From Stdlib Require Import ZArith List String Ascii Bool Lia QArith Qround.
From Stdlib Require Import SpecFloat.
Import ListNotations.

Local Open Scope string_scope.
Local Open Scope list_scope.
Local Open Scope Z_scope.

(* ================================================================== *)
(** ** JavaScript numbers *)
(* ================================================================== *)

(** A JavaScript [number] is an IEEE 754 binary64 value. It is modelled by
    the Standard Library's specification of floating-point arithmetic
    ([SpecFloat]), at 53 bits of mantissa and infinities at exponent 1024:
    a signed zero, a signed infinity, NaN, or a finite [m * 2 ^ e] with its
    sign. Every operation rounds to the nearest value, ties to even. *)
Definition number : Set := spec_float.

(** The number a whole-number literal denotes: the double nearest to it. *)
Definition Number_of_Z (z : Z) : number := binary_normalize 53 1024 z 0 false.

Coercion Number_of_Z : Z >-> number.

(** [x / y], [x * y] and [x - y] on numbers. *)
Definition Number_div (x y : number) : number := SFdiv 53 1024 x y.
Definition Number_mul (x y : number) : number := SFmul 53 1024 x y.
Definition Number_sub (x y : number) : number := SFsub 53 1024 x y.

(** [Math.floor]: the greatest whole number not above [x]; NaN, the
    infinities and the two zeros are returned as they are, and a positive
    number below one gives [+0]. A finite number with a negative exponent is
    [m / 2 ^ (- e)], which [Z.div] floors. *)
Definition Math_floor (x : number) : number :=
  match x with
  | S754_finite s m e =>
      if 0 <=? e then x
      else
        let whole := cond_Zopp s (Zpos m) / 2 ^ (- e) in
        if whole =? 0 then S754_zero s else binary_normalize 53 1024 whole 0 s
  | _ => x
  end.

(** *** [Number::toString], radix 10 *)

(** The exact value of [m * 2 ^ e] and of [10 ^ e], as fractions. *)
Definition pow2 (e : Z) : Q :=
  if 0 <=? e then inject_Z (2 ^ e) else 1 # Z.to_pos (2 ^ (- e)).

Definition pow10 (e : Z) : Q :=
  if 0 <=? e then inject_Z (10 ^ e) else 1 # Z.to_pos (10 ^ (- e)).

Definition valueOf (m : positive) (e : Z) : Q := inject_Z (Zpos m) * pow2 e.

(** [roundsTo m e y]: the fraction [y] rounds to the double [m * 2 ^ e].
    The doubles next to it are half a unit in the last place away on either
    side (a quarter below, at a power of two); the end points round to it
    when its mantissa is even. *)
Definition roundsTo (m : positive) (e : Z) (y : Q) : bool :=
  let x := valueOf m e in
  let above := pow2 (e - 1) in
  let below := if (Zpos m =? 2 ^ 52) && (-1074 <? e) then pow2 (e - 2) else pow2 (e - 1) in
  match Qcompare (x - below) y, Qcompare y (x + above) with
  | Lt, Lt => true
  | Eq, (Lt | Eq) | Lt, Eq => Z.even (Zpos m)
  | _, _ => false
  end.

(** The [n] with [10 ^ (n - 1) <= x < 10 ^ n]: counted up from one while
    [10 ^ n <= x] when [1 <= x] ([power] is [10 ^ n]), and down from zero
    while [x < 10 ^ (n - 1)] otherwise ([power] is [10 ^ (1 - n)]). *)
Fixpoint exponentUp (fuel : nat) (n : Z) (power x : Q) : Z :=
  match fuel with
  | O => n
  | S fuel' =>
      match Qcompare x power with
      | Lt => n
      | _ => exponentUp fuel' (n + 1) (inject_Z 10 * power) x
      end
  end.

Fixpoint exponentDown (fuel : nat) (n : Z) (power x : Q) : Z :=
  match fuel with
  | O => n
  | S fuel' =>
      match Qcompare (x * power) (inject_Z 1) with
      | Lt => exponentDown fuel' (n - 1) (inject_Z 10 * power) x
      | _ => n
      end
  end.

Definition decimalExponent (x : Q) : Z :=
  match Qcompare x (inject_Z 1) with
  | Lt => exponentDown 330 0 (inject_Z 10) x
  | _ => exponentUp 310 1 (inject_Z 10) x
  end.

(** The [k]-digit numerals [s * 10 ^ (n - k)] next to [x]: the one that
    rounds to [x], and the closer one (the even one on a tie) when both do,
    which is the choice ECMA-262 recommends and engines make. A numeral
    rounded up to [10 ^ k] is [10 ^ (k - 1)] one place higher. *)
Definition numeralOf (m : positive) (e : Z) (n k : Z) : option (Z * Z) :=
  let x := valueOf m e in
  let unit := pow10 (n - k) in
  let lower := Qfloor (x / unit) in
  let upper := lower + 1 in
  let carried s := if s =? 10 ^ k then (10 ^ (k - 1), n + 1) else (s, n) in
  match roundsTo m e (inject_Z lower * unit), roundsTo m e (inject_Z upper * unit) with
  | true, false => Some (carried lower)
  | false, true => Some (carried upper)
  | true, true =>
      match Qcompare (x - inject_Z lower * unit) (inject_Z upper * unit - x) with
      | Lt => Some (carried lower)
      | Gt => Some (carried upper)
      | Eq => Some (carried (if Z.even lower then lower else upper))
      end
  | false, false => None
  end.

(** Step 5 of [Number::toString]: the [n], [k] and [s] with [k] least such
    that the [k]-digit [s * 10 ^ (n - k)] rounds to [x]. Seventeen digits
    always do. The result is [(s, n, k)]. *)
Fixpoint shortestFrom (fuel : nat) (m : positive) (e : Z) (n k : Z) : Z * Z * Z :=
  match fuel with
  | O => (Zpos m, n, k)
  | S fuel' =>
      match numeralOf m e n k with
      | Some (s, n') => (s, n', k)
      | None => shortestFrom fuel' m e n (k + 1)
      end
  end.

Definition shortest (m : positive) (e : Z) : Z * Z * Z :=
  shortestFrom 17 m e (decimalExponent (valueOf m e)) 1.

(** A nonnegative whole number in decimal digits. *)
Definition digitOf (d : Z) : ascii := ascii_of_nat (48 + Z.to_nat d).

Fixpoint decimalFrom (fuel : nat) (n : Z) (rest : string) : string :=
  match fuel with
  | O => rest
  | S fuel' =>
      let rest' := String (digitOf (n mod 10)) rest in
      if n / 10 =? 0 then rest' else decimalFrom fuel' (n / 10) rest'
  end.

Definition decimal (n : Z) : string :=
  decimalFrom (S (Z.to_nat (Z.log2 n))) n "".

Fixpoint zeros (n : nat) : string :=
  match n with
  | O => ""
  | S n' => String "0" (zeros n')
  end.

(** The numeral for [s10 * 10 ^ (n - k)], where [s10] has [k] digits:
    plain digits up to [10 ^ 21], a decimal point from [10 ^ (-6)] on, the
    exponent form otherwise. *)
Definition numeral (s10 n k : Z) : string :=
  let digits := decimal s10 in
  if (k <=? n) && (n <=? 21) then
    (digits ++ zeros (Z.to_nat (n - k)))%string
  else if (0 <? n) && (n <=? 21) then
    (substring 0 (Z.to_nat n) digits ++ "."
       ++ substring (Z.to_nat n) (Z.to_nat (k - n)) digits)%string
  else if (-6 <? n) && (n <=? 0) then
    ("0." ++ zeros (Z.to_nat (- n)) ++ digits)%string
  else
    let exponent := n - 1 in
    let sign := if exponent <? 0 then "-" else "+" in
    if k =? 1 then
      (digits ++ "e" ++ sign ++ decimal (Z.abs exponent))%string
    else
      (substring 0 1 digits ++ "." ++ substring 1 (Z.to_nat (k - 1)) digits
         ++ "e" ++ sign ++ decimal (Z.abs exponent))%string.

(** [Number::toString(x)] in radix 10, step by step as ECMA-262 has it;
    this is what a template literal applies to a number. *)
Definition Number_toString (x : number) : string :=
  match x with
  | S754_nan => "NaN"
  | S754_zero _ => "0"
  | S754_infinity s => ((if s then "-" else "") ++ "Infinity")%string
  | S754_finite s m e =>
      let '(s10, n, k) := shortest m e in
      ((if s then "-" else "") ++ numeral s10 n k)%string
  end.

(* ================================================================== *)
(** ** [durationWrapper] *)
(* ================================================================== *)

(** The [WrappedDuration] interface: three numbers and a string. *)
Record WrappedDuration := {
  decimalMinutes : number;
  flatMinutes : number;
  seconds : number;
  timestamp : string
}.

(** [durationWrapper(seconds)] (lines 143-154), operation by operation in
    double arithmetic: the quotient is rounded, [Math.floor] is taken of the
    rounded quotient, and the product and the difference are rounded too. *)
Definition durationWrapper (seconds : number) : WrappedDuration :=
  let decimalMinutes := Number_div seconds 60 in
  let minutes := Math_floor (Number_div seconds 60) in
  let secondsLeft := Number_sub seconds (Number_mul minutes 60) in
  {| decimalMinutes := decimalMinutes;
     flatMinutes := minutes;
     seconds := secondsLeft;
     timestamp := (Number_toString minutes ++ ":" ++ Number_toString secondsLeft)%string |}.

(** The double for a whole number [z] with [0 < z < 2 ^ 53]: the mantissa is
    [z] shifted up to 53 bits. *)
Definition mantissaOf (z : Z) : positive := Z.to_pos (z * 2 ^ (52 - Z.log2 z)).
Definition exponentOf (z : Z) : Z := Z.log2 z - 52.

(* ================================================================== *)
(** ** Data model ([Track.ts], and the states of the two external handles) *)
(* ================================================================== *)

(** Values the core carries but never inspects: the caller's request context
    ([reference: any]), thrown error values, and the media stream an
    [AudioResource] wraps. *)
Class Carried := {
  Reference : Type;
  Error : Type;
  Stream : Type
}.

Section DataModel.
Context {V : Carried}.

Record TrackMetadataDetails := {
  title : string;
  duration : WrappedDuration;
  uploadedBy : string;
  coverArt : string
}.

Record TrackMetadata := {
  reference : Reference;
  details : TrackMetadataDetails
}.

(** [AudioResource<TrackMetadata>] of the voice library: the stream to play and
    the metadata attached to it by [createAudioResource]. *)
Record AudioResource := {
  playStream : Stream;
  metadata : TrackMetadata
}.

Definition createAudioResource (stream : Stream) (meta : TrackMetadata) : AudioResource :=
  {| playStream := stream; metadata := meta |}.

(** [class Track]; [url] and [audioResource] are [T | undefined]. *)
Record Track := {
  query : string;
  url : option string;
  audioResource : option AudioResource;
  trackReference : Reference
}.

(** [Track.create], after the external look-ups have answered: [fetched] is the
    URL that [fetchURL] stored (if it ran), [info] the fetched metadata details
    and [stream] the probed media stream. *)
Definition Track_create (query : string) (ref : Reference) (fetched : option string)
    (info : TrackMetadataDetails) (stream : Stream) : Track :=
  {| query := query;
     url := fetched;
     audioResource :=
       Some (createAudioResource stream {| reference := ref; details := info |});
     trackReference := ref |}.

(** *** The audio player handle *)

Inductive AudioPlayerStatus :=
| Idle | Buffering | Paused | Playing | AutoPaused.

(** [AudioPlayerState]: a tagged union; every state but the idle one carries
    the resource being played. *)
Inductive AudioPlayerState :=
| AudioPlayerIdleState
| AudioPlayerBufferingState (resource : AudioResource)
| AudioPlayerPausedState (resource : AudioResource)
| AudioPlayerPlayingState (resource : AudioResource)
| AudioPlayerAutoPausedState (resource : AudioResource).

Definition playerStatus (st : AudioPlayerState) : AudioPlayerStatus :=
  match st with
  | AudioPlayerIdleState => Idle
  | AudioPlayerBufferingState _ => Buffering
  | AudioPlayerPausedState _ => Paused
  | AudioPlayerPlayingState _ => Playing
  | AudioPlayerAutoPausedState _ => AutoPaused
  end.

Definition playerResource (st : AudioPlayerState) : option AudioResource :=
  match st with
  | AudioPlayerIdleState => None
  | AudioPlayerBufferingState r
  | AudioPlayerPausedState r
  | AudioPlayerPlayingState r
  | AudioPlayerAutoPausedState r => Some r
  end.

Definition isIdle (st : AudioPlayerState) : bool :=
  match st with AudioPlayerIdleState => true | _ => false end.

Definition isPlaying (st : AudioPlayerState) : bool :=
  match st with AudioPlayerPlayingState _ => true | _ => false end.

(** What a call [audioPlayer.play(resource)] does: it throws, or it assigns a
    new state to the player (which notifies the [stateChange] listeners). *)
Inductive PlayOutcome :=
| Thrown (error : Error)
| Assigned (newState : AudioPlayerState).

(** The [error] event of the player: the error and the resource it is tied to. *)
Record AudioPlayerError := {
  errorResource : AudioResource;
  errorValue : Error
}.

(** *** The voice connection handle *)

Inductive VoiceConnectionStatus :=
| Signalling | Connecting | Ready | Disconnected | Destroyed.

Inductive VoiceConnectionDisconnectReason :=
| WebSocketClose | AdapterUnavailable | EndpointRemoved | Manual.

Inductive VoiceConnectionState :=
| VoiceConnectionSignallingState
| VoiceConnectionConnectingState
| VoiceConnectionReadyState
| VoiceConnectionDisconnectedState (reason : VoiceConnectionDisconnectReason)
                                   (closeCode : option Z)
| VoiceConnectionDestroyedState.

Definition connectionStatus (st : VoiceConnectionState) : VoiceConnectionStatus :=
  match st with
  | VoiceConnectionSignallingState => Signalling
  | VoiceConnectionConnectingState => Connecting
  | VoiceConnectionReadyState => Ready
  | VoiceConnectionDisconnectedState _ _ => Disconnected
  | VoiceConnectionDestroyedState => Destroyed
  end.

Definition VoiceConnectionStatus_eqb (a b : VoiceConnectionStatus) : bool :=
  match a, b with
  | Signalling, Signalling | Connecting, Connecting | Ready, Ready
  | Disconnected, Disconnected | Destroyed, Destroyed => true
  | _, _ => false
  end.

(** [newState.reason === WebSocketClose && newState.closeCode === 4014] *)
Definition isWebSocketClose4014 (st : VoiceConnectionState) : bool :=
  match st with
  | VoiceConnectionDisconnectedState WebSocketClose (Some code) => code =? 4014
  | _ => false
  end.

(** The fields of the [VoiceConnection] object the subscription reads. *)
Record VoiceConnection := {
  state : VoiceConnectionState;
  rejoinAttempts : Z
}.

(** *** Outgoing calls *)

(** The four notifications [MusicSubscription] emits, with their arguments.
    [playingError] is emitted with [audioResource?.metadata.reference], which
    is [undefined] when the track has no resource. *)
Inductive Notification :=
| songStarted (ref : Reference) (info : TrackMetadataDetails)
| songEnded (ref : Reference) (info : TrackMetadataDetails)
| criticalError (ref : Reference) (error : AudioPlayerError)
| playingError (ref : option Reference) (error : Error).

(** The three places where the supervisor calls [voiceConnection.destroy()]. *)
Inductive DestroySite :=
| RemovedFromChannel   (* the 4014 grace period ran out *)
| NoAttemptsLeft       (* five rejoin attempts were used up *)
| NotReadyInTime.      (* the 20 s bound ran out *)

(** Every call the subscription makes on its collaborators, in order: emitted
    notifications, calls on the player (with the state the player was in), and
    calls on the connection. *)
Inductive Call :=
| Emit (n : Notification)
| PlayerPlay (receiver : AudioPlayerState) (resource : option AudioResource)
| PlayerStop (force : bool)
| ConnectionDestroy (site : DestroySite)
| ConnectionRejoin.

(** [class MusicSubscription]. [audioPlayer] is [this.audioPlayer.state];
    [calls] is the history of outgoing calls, oldest first. *)
Record MusicSubscription := {
  voiceConnection : VoiceConnection;
  audioPlayer : AudioPlayerState;
  queue : list Track;
  queueLock : bool;
  readyLock : bool;
  calls : list Call
}.

Definition set_voiceConnection (c : VoiceConnection) (this : MusicSubscription) :=
  {| voiceConnection := c; audioPlayer := audioPlayer this; queue := queue this;
     queueLock := queueLock this; readyLock := readyLock this; calls := calls this |}.

Definition set_audioPlayer (p : AudioPlayerState) (this : MusicSubscription) :=
  {| voiceConnection := voiceConnection this; audioPlayer := p; queue := queue this;
     queueLock := queueLock this; readyLock := readyLock this; calls := calls this |}.

Definition set_queue (q : list Track) (this : MusicSubscription) :=
  {| voiceConnection := voiceConnection this; audioPlayer := audioPlayer this; queue := q;
     queueLock := queueLock this; readyLock := readyLock this; calls := calls this |}.

Definition set_queueLock (b : bool) (this : MusicSubscription) :=
  {| voiceConnection := voiceConnection this; audioPlayer := audioPlayer this;
     queue := queue this; queueLock := b; readyLock := readyLock this;
     calls := calls this |}.

Definition set_readyLock (b : bool) (this : MusicSubscription) :=
  {| voiceConnection := voiceConnection this; audioPlayer := audioPlayer this;
     queue := queue this; queueLock := queueLock this; readyLock := b;
     calls := calls this |}.

Definition call (c : Call) (this : MusicSubscription) :=
  {| voiceConnection := voiceConnection this; audioPlayer := audioPlayer this;
     queue := queue this; queueLock := queueLock this; readyLock := readyLock this;
     calls := calls this ++ [c] |}.

(** [this.emit(name, ...)] *)
Definition emit (n : Notification) (this : MusicSubscription) := call (Emit n) this.

(** [new MusicSubscription(voiceConnection)]: empty queue, both locks free, a
    fresh (idle) player. *)
Definition MusicSubscription_new (c : VoiceConnection) : MusicSubscription :=
  {| voiceConnection := c; audioPlayer := AudioPlayerIdleState; queue := [];
     queueLock := false; readyLock := false; calls := [] |}.

End DataModel.

(** The two operations of the external player handle the subscription calls.
    [AudioPlayer_play st resource] is [play(resource)] on a player in state
    [st]; [AudioPlayer_stop force st] is [stop(force)]: the state it assigns,
    or [None] when it leaves the player as it is. *)
Class AudioPlayer {V : Carried} := {
  AudioPlayer_play : AudioPlayerState -> option AudioResource -> PlayOutcome;
  AudioPlayer_stop : bool -> AudioPlayerState -> option AudioPlayerState
}.

(* ================================================================== *)
(** ** The playback queue ([Subscription.ts], lines 106-194) *)
(* ================================================================== *)

Section PlaybackQueue.
Context {V : Carried} {P : AudioPlayer}.

(** The [stateChange] listener of the audio player (lines 106-130).
    [processQueue] is the method it calls back into. *)
Definition audioPlayer_onStateChange
    (processQueue : MusicSubscription -> MusicSubscription)
    (oldState newState : AudioPlayerState) (this : MusicSubscription)
    : MusicSubscription :=
  if isIdle newState && negb (isIdle oldState) then
    match playerResource oldState with
    | Some resource =>
        processQueue
          (emit (songEnded (reference (metadata resource))
                           (details (metadata resource))) this)
    | None => this  (* no such state: only the idle state has no resource *)
    end
  else if isPlaying newState then
    match playerResource newState with
    | Some resource =>
        emit (songStarted (reference (metadata resource))
                          (details (metadata resource))) this
    | None => this
    end
  else this.

(** The player's state setter: store the new state, then notify the
    [stateChange] listener with the old and the new state. *)
Definition audioPlayer_setState
    (processQueue : MusicSubscription -> MusicSubscription)
    (newState : AudioPlayerState) (this : MusicSubscription) : MusicSubscription :=
  audioPlayer_onStateChange processQueue (audioPlayer this) newState
    (set_audioPlayer newState this).

(** [processQueue] (lines 165-194), by recursion on the queue it reads:
    [processQueueFrom q this] is the method run on a subscription whose
    [queue] is [q]. Every call it makes to itself, directly in the [catch]
    block or through the player's listener, is on the rest of that queue. *)
Fixpoint processQueueFrom (q : list Track) (this : MusicSubscription)
    : MusicSubscription :=
  if queueLock this || negb (isIdle (audioPlayer this)) then this
  else
    match q with
    | [] => this
    | nextTrack :: rest =>
        let this := set_queueLock true this in
        let this := set_queue rest this in
        let resource := audioResource nextTrack in
        let this := call (PlayerPlay (audioPlayer this) resource) this in
        match AudioPlayer_play (audioPlayer this) resource with
        | Assigned newState =>
            let this := audioPlayer_setState (processQueueFrom rest) newState this in
            set_queueLock false this
        | Thrown error =>
            let this :=
              emit (playingError
                      (option_map (fun r => reference (metadata r))
                                  (audioResource nextTrack))
                      error) this in
            let this := set_queueLock false this in
            processQueueFrom rest this
        end
    end.

Definition processQueue (this : MusicSubscription) : MusicSubscription :=
  processQueueFrom (queue this) this.

(** [enqueue(track)] (lines 148-151) *)
Definition enqueue (track : Track) (this : MusicSubscription) : MusicSubscription :=
  let this := set_queue (queue this ++ [track]) this in
  processQueue this.

(** [stop()] (lines 156-160) *)
Definition stop (this : MusicSubscription) : MusicSubscription :=
  let this := set_queueLock true this in
  let this := set_queue [] this in
  let this := call (PlayerStop true) this in
  match AudioPlayer_stop true (audioPlayer this) with
  | Some newState => audioPlayer_setState processQueue newState this
  | None => this
  end.

(** The [error] listener of the audio player (lines 132-138). *)
Definition audioPlayer_onError (error : AudioPlayerError) (this : MusicSubscription)
    : MusicSubscription :=
  emit (criticalError (reference (metadata (errorResource error))) error) this.

End PlaybackQueue.

(* ================================================================== *)
(** ** Asynchronous handlers and the event loop *)
(* ================================================================== *)

Section EventLoop.
Context {V : Carried} {P : AudioPlayer}.

(** An [async] function body: synchronous reads and updates of the
    subscription, separated by the two awaits the source uses.
    - [AwaitEntersState target timeout k]:
      [await entersState(this.voiceConnection, target, timeout)]; [k true]
      continues after the promise resolved (the connection reported [target]),
      [k false] after it rejected (the timeout ran out first; a timeout is
      the only rejection the model has).
    - [AwaitWait ms k]: [await wait(ms)]. *)
Inductive Async (A : Type) : Type :=
| Ret (a : A)
| Read (k : MusicSubscription -> Async A)
| Update (f : MusicSubscription -> MusicSubscription) (k : Async A)
| AwaitEntersState (target : VoiceConnectionStatus) (timeout : Z) (k : bool -> Async A)
| AwaitWait (ms : Z) (k : Async A).

Arguments Ret {A} a.
Arguments Read {A} k.
Arguments Update {A} f k.
Arguments AwaitEntersState {A} target timeout k.
Arguments AwaitWait {A} ms k.

Fixpoint bind {A B : Type} (m : Async A) (f : A -> Async B) : Async B :=
  match m with
  | Ret a => f a
  | Read k => Read (fun this => bind (k this) f)
  | Update g k => Update g (bind k f)
  | AwaitEntersState target timeout k =>
      AwaitEntersState target timeout (fun entered => bind (k entered) f)
  | AwaitWait ms k => AwaitWait ms (bind k f)
  end.

Definition read : Async MusicSubscription := Read Ret.
Definition update (f : MusicSubscription -> MusicSubscription) : Async unit :=
  Update f (Ret tt).
Definition entersState (target : VoiceConnectionStatus) (timeout : Z) : Async bool :=
  AwaitEntersState target timeout Ret.
Definition wait (ms : Z) : Async unit := AwaitWait ms (Ret tt).

Local Notation "x <- m ;; k" := (bind m (fun x => k))
  (at level 61, m at next level, right associativity).
Local Notation "m ;; k" := (bind m (fun _ => k))
  (at level 61, right associativity).

(** The [stateChange] listener of the voice connection (lines 35-103).
    [try { await entersState(..) } catch { C } finally { F }] runs [C] when
    the promise rejected, and [F] either way. *)
Definition voiceConnection_onStateChange
    (oldState newState : VoiceConnectionState) : Async unit :=
  if VoiceConnectionStatus_eqb (connectionStatus newState) Disconnected then
    if isWebSocketClose4014 newState then
      entered <- entersState Connecting 5000 ;;
      if entered then Ret tt
      else update (call (ConnectionDestroy RemovedFromChannel))
    else
      this <- read ;;
      if rejoinAttempts (voiceConnection this) <? 5 then
        wait ((rejoinAttempts (voiceConnection this) + 1) * 5000) ;;
        update (call ConnectionRejoin)
      else
        update (call (ConnectionDestroy NoAttemptsLeft))
  else if VoiceConnectionStatus_eqb (connectionStatus newState) Destroyed then
    update stop
  else
    this <- read ;;
    if negb (readyLock this) &&
       (VoiceConnectionStatus_eqb (connectionStatus newState) Connecting ||
        VoiceConnectionStatus_eqb (connectionStatus newState) Signalling)
    then
      update (set_readyLock true) ;;
      entered <- entersState Ready 20000 ;;
      (if entered then Ret tt
       else
         this <- read ;;
         if negb (VoiceConnectionStatus_eqb
                    (connectionStatus (state (voiceConnection this))) Destroyed)
         then update (call (ConnectionDestroy NotReadyInTime))
         else Ret tt) ;;
      update (set_readyLock false)
    else Ret tt.

(** What a suspended handler waits for: a status report of the connection
    before a deadline, or a point in time. Times are in milliseconds. *)
Inductive Wake :=
| WhenStatus (target : VoiceConnectionStatus) (deadline : Z)
| WhenTime (deadline : Z).

Definition deadline (w : Wake) : Z :=
  match w with WhenStatus _ d => d | WhenTime d => d end.

(** A suspended handler: [resume true] continues it after its await resolved,
    [resume false] after the await rejected. *)
Record Task := {
  wake : Wake;
  resume : bool -> Async unit
}.

(** The subscription together with the clock and the suspended handlers. *)
Record Runtime := {
  subscription : MusicSubscription;
  now : Z;
  pending : list Task
}.

Definition set_subscription (s : MusicSubscription) (rt : Runtime) : Runtime :=
  {| subscription := s; now := now rt; pending := pending rt |}.

Definition set_pending (ts : list Task) (rt : Runtime) : Runtime :=
  {| subscription := subscription rt; now := now rt; pending := ts |}.

Definition set_now (t : Z) (rt : Runtime) : Runtime :=
  {| subscription := subscription rt; now := t; pending := pending rt |}.

Definition suspend (t : Task) (rt : Runtime) : Runtime :=
  set_pending (pending rt ++ [t]) rt.

(** Run a handler up to its next await. [entersState] returns at once when the
    connection already has the target status. *)
Fixpoint run (p : Async unit) (rt : Runtime) : Runtime :=
  match p with
  | Ret _ => rt
  | Read k => run (k (subscription rt)) rt
  | Update f k => run k (set_subscription (f (subscription rt)) rt)
  | AwaitEntersState target timeout k =>
      if VoiceConnectionStatus_eqb
           (connectionStatus (state (voiceConnection (subscription rt)))) target
      then run (k true) rt
      else suspend {| wake := WhenStatus target (now rt + timeout); resume := k |} rt
  | AwaitWait ms k =>
      suspend {| wake := WhenTime (now rt + ms); resume := fun _ => k |} rt
  end.

(** Resume a list of tasks, in order. *)
Definition resumeAll (answer : bool) (ts : list Task) (rt : Runtime) : Runtime :=
  fold_left (fun rt t => run (resume t answer) rt) ts rt.

Definition awaitsStatus (s : VoiceConnectionStatus) (t : Task) : bool :=
  match wake t with
  | WhenStatus target _ => VoiceConnectionStatus_eqb target s
  | WhenTime _ => false
  end.

Definition isDue (t : Z) (task : Task) : bool := deadline (wake task) <=? t.

(** What can happen to a subscription. *)
Inductive Event :=
| CallEnqueue (track : Track)                  (* the host calls [enqueue] *)
| CallStop                                     (* the host calls [stop] *)
| PlayerStateChange (newState : AudioPlayerState)  (* the player changes state by itself *)
| PlayerError (error : AudioPlayerError)       (* the player reports an error *)
| ConnectionStateChange (connection : VoiceConnection)  (* the connection changes state *)
| Tick.                                        (* one millisecond passes *)

(** The connection reports a new state: the listener runs up to its first
    await, then the handlers waiting for the new status continue. *)
Definition connectionStateChange (connection : VoiceConnection) (rt : Runtime) : Runtime :=
  let oldState := state (voiceConnection (subscription rt)) in
  let rt := set_subscription (set_voiceConnection connection (subscription rt)) rt in
  let rt := run (voiceConnection_onStateChange oldState (state connection)) rt in
  let status := connectionStatus (state connection) in
  let woken := filter (awaitsStatus status) (pending rt) in
  let rt := set_pending (filter (fun t => negb (awaitsStatus status t)) (pending rt)) rt in
  resumeAll true woken rt.

(** One millisecond passes: the timers that are due fire, in the order they
    were set. A due [wait] resolves, a due [entersState] rejects. *)
Definition tick (rt : Runtime) : Runtime :=
  let rt := set_now (now rt + 1) rt in
  let due := filter (isDue (now rt)) (pending rt) in
  let rt := set_pending (filter (fun t => negb (isDue (now rt) t)) (pending rt)) rt in
  fold_left
    (fun rt t =>
       run (resume t (match wake t with WhenTime _ => true | WhenStatus _ _ => false end)) rt)
    due rt.

Definition step (rt : Runtime) (e : Event) : Runtime :=
  match e with
  | CallEnqueue track => set_subscription (enqueue track (subscription rt)) rt
  | CallStop => set_subscription (stop (subscription rt)) rt
  | PlayerStateChange newState =>
      set_subscription (audioPlayer_setState processQueue newState (subscription rt)) rt
  | PlayerError error => set_subscription (audioPlayer_onError error (subscription rt)) rt
  | ConnectionStateChange connection => connectionStateChange connection rt
  | Tick => tick rt
  end.

Definition steps (rt : Runtime) (es : list Event) : Runtime := fold_left step es rt.

(** [ms] milliseconds pass with nothing else happening. *)
Definition elapse (ms : Z) (rt : Runtime) : Runtime := Nat.iter (Z.to_nat ms) tick rt.

(** The calls on the voice connection among a history of calls. *)
Definition isConnectionCall (c : Call) : bool :=
  match c with
  | ConnectionDestroy _ | ConnectionRejoin => true
  | _ => false
  end.

Definition connectionCalls (cs : list Call) : list Call := filter isConnectionCall cs.

(** The resources passed to [audioPlayer.play], in call order. *)
Fixpoint handedOff (cs : list Call) : list (option AudioResource) :=
  match cs with
  | [] => []
  | PlayerPlay _ resource :: cs => resource :: handedOff cs
  | _ :: cs => handedOff cs
  end.

(** The notifications among a history of calls. *)
Fixpoint notifications (cs : list Call) : list Notification :=
  match cs with
  | [] => []
  | Emit n :: cs => n :: notifications cs
  | _ :: cs => notifications cs
  end.

(** The tracks the host enqueues in a sequence of events. *)
Fixpoint enqueued (es : list Event) : list Track :=
  match es with
  | [] => []
  | CallEnqueue track :: es => track :: enqueued es
  | _ :: es => enqueued es
  end.

(** A freshly constructed subscription at time [0]. *)
Definition Runtime_new (c : VoiceConnection) : Runtime :=
  {| subscription := MusicSubscription_new c; now := 0; pending := [] |}.

End EventLoop.

Arguments Ret {V A} a.
Arguments Read {V A} k.
Arguments Update {V A} f k.
Arguments AwaitEntersState {V A} target timeout k.
Arguments AwaitWait {V A} ms k.

(* ================================================================== *)
(** ** Vocabulary for the statements below *)
(* ================================================================== *)

Section Vocabulary.
Context {V : Carried} {P : AudioPlayer}.

(** [processQueue]'s guard (lines 167-171): the lock is taken, the player is
    busy, or nothing is queued. *)
Definition blocked (this : MusicSubscription) : bool :=
  queueLock this || negb (isIdle (audioPlayer this)) ||
  match queue this with [] => true | _ :: _ => false end.

(** The subscription at the moment [processQueue] calls [play] on the head
    [nextTrack] of its queue (lines 175-182): lock taken, head removed. *)
Definition atHandOff (nextTrack : Track) (rest : list Track) (this : MusicSubscription)
    : MusicSubscription :=
  call (PlayerPlay (audioPlayer this) (audioResource nextTrack))
       (set_queue rest (set_queueLock true this)).

(** The subscription when the [catch] block (lines 184-192) re-enters
    [processQueue] after [play] threw [error] on [nextTrack]. *)
Definition afterFailure (nextTrack : Track) (rest : list Track) (error : Error)
    (this : MusicSubscription) : MusicSubscription :=
  set_queueLock false
    (emit (playingError (option_map (fun r => reference (metadata r))
                                    (audioResource nextTrack)) error)
          (atHandOff nextTrack rest this)).

(** A track as [Track.create] makes it: it has a resource, and the resource's
    metadata carries the track's own request context. *)
Definition created (t : Track) : Prop :=
  exists resource,
    audioResource t = Some resource /\
    reference (metadata resource) = trackReference t.

(** Whether a call hands a resource to a player that is not idle. *)
Definition playsOverActive (c : Call) : bool :=
  match c with
  | PlayerPlay receiver _ => negb (isIdle receiver)
  | _ => false
  end.

Definition isSongNotification (n : Notification) : bool :=
  match n with
  | songStarted _ _ | songEnded _ _ => true
  | _ => false
  end.

(** The host's calls and the player's own events: everything that concerns
    the playback queue and not the connection or the clock. *)
Definition isQueueEvent (e : Event) : bool :=
  match e with
  | CallEnqueue _ | CallStop | PlayerStateChange _ | PlayerError _ => true
  | ConnectionStateChange _ | Tick => false
  end.

(** The calls on the player and the notifications among a history of calls. *)
Definition queueCalls (cs : list Call) : list Call :=
  filter (fun c => negb (isConnectionCall c)) cs.

(** What the playback queue is made of: the player's state, the queue and
    its lock, and the history of calls on the player and of notifications. *)
Definition queueSide (this : MusicSubscription) :=
  (audioPlayer this, queue this, queueLock this, queueCalls (calls this)).

(** What the connection supervisor is made of: the connection, the
    ready-guard, and the history of calls on the connection. *)
Definition connectionSide (this : MusicSubscription) :=
  (voiceConnection this, readyLock this, connectionCalls (calls this)).

(** The resources given to the player so far, followed by the resources of
    the tracks that are still queued. *)
Definition playOrder (this : MusicSubscription) : list (option AudioResource) :=
  handedOff (calls this) ++ map audioResource (queue this).

(** The calls of [destroy] made because a 4014 grace period ran out. *)
Definition isRemoval (c : Call) : bool :=
  match c with
  | ConnectionDestroy RemovedFromChannel => true
  | _ => false
  end.

Definition removals (cs : list Call) : list Call := filter isRemoval cs.

Definition is4014 (e : Event) : bool :=
  match e with
  | ConnectionStateChange c => isWebSocketClose4014 (state c)
  | _ => false
  end.

(** What the subscription expects of [audioPlayer.stop(true)]: the player is
    idle afterwards, because the call assigns the idle state or because the
    player was idle already. *)
Definition forcedStopHalts : Prop :=
  forall st,
    match AudioPlayer_stop true st with
    | Some st' => isIdle st' = true
    | None => isIdle st = true
    end.

(** The state [stop] leaves behind: lock set, player idle. *)
Definition halted (this : MusicSubscription) : Prop :=
  queueLock this = true /\ audioPlayer this = AudioPlayerIdleState.

(** The [songStarted] and [songEnded] notifications in a history of calls. *)
Definition songNotifications (cs : list Call) : list Notification :=
  filter isSongNotification (notifications cs).

Definition isPlayerStateChange (e : Event) : bool :=
  match e with PlayerStateChange _ => true | _ => false end.

Definition isEnqueue (e : Event) : bool :=
  match e with CallEnqueue _ => true | _ => false end.

(** The three ways in which the connection listener suspends itself.
    First, line 49: waiting for [Connecting] after a 4014 close; when the wait
    runs out the connection is destroyed. *)
Definition graceTask (deadline : Z) : Task :=
  {| wake := WhenStatus Connecting deadline;
     resume := fun entered =>
       if entered then Ret tt
       else update (call (ConnectionDestroy RemovedFromChannel)) |}.

(** Line 63: waiting out the backoff delay, then asking to rejoin. *)
Definition backoffTask (deadline : Z) : Task :=
  {| wake := WhenTime deadline;
     resume := fun _ => update (call ConnectionRejoin) |}.

(** Line 88: waiting for [Ready] under the ready-guard. *)
Definition readyTask (deadline : Z) : Task :=
  {| wake := WhenStatus Ready deadline;
     resume := fun entered =>
       bind (if entered then Ret tt
             else
               bind read (fun this =>
                 if negb (VoiceConnectionStatus_eqb
                            (connectionStatus (state (voiceConnection this))) Destroyed)
                 then update (call (ConnectionDestroy NotReadyInTime))
                 else Ret tt))
            (fun _ => update (set_readyLock false)) |}.

Inductive supervisorTask : Task -> Prop :=
| supervisor_grace d : supervisorTask (graceTask d)
| supervisor_backoff d : supervisorTask (backoffTask d)
| supervisor_ready d : supervisorTask (readyTask d).

(** The suspended handlers are the listener's own. *)
Definition supervised (rt : Runtime) : Prop := Forall supervisorTask (pending rt).

Definition isReadyTask (t : Task) : bool :=
  match wake t with
  | WhenStatus Ready _ => true
  | _ => false
  end.

(** The number of ready bounds that are running. *)
Definition readyBounds (rt : Runtime) : nat :=
  List.length (filter isReadyTask (pending rt)).

(** The ready-guard is set exactly while one ready bound is running, and there
    is never more than one. *)
Definition guarded (rt : Runtime) : Prop :=
  readyBounds rt = Nat.b2n (readyLock (subscription rt)).

Definition isTick (e : Event) : bool :=
  match e with Tick => true | _ => false end.

(** The milliseconds that pass in a sequence of events. *)
Definition ticks (es : list Event) : Z := Z.of_nat (List.length (filter isTick es)).

(** The events during which the connection itself reports nothing: the
    host's calls, the player's events, and the passing of time. *)
Definition isQuiet (e : Event) : bool := isQueueEvent e || isTick e.

(** The connection reports [Connecting]. *)
Definition reportsConnecting (e : Event) : bool :=
  match e with
  | ConnectionStateChange c =>
      VoiceConnectionStatus_eqb (connectionStatus (state c)) Connecting
  | _ => false
  end.

(** An event that leaves a running 4014 grace period alone: anything but a
    report of [Connecting] (which ends it) or a further 4014 close (which
    starts another one). *)
Definition undisturbed (e : Event) : bool :=
  negb (is4014 e) && negb (reportsConnecting e).

(** The connection reports [Ready]. *)
Definition reportsReady (e : Event) : bool :=
  match e with
  | ConnectionStateChange c =>
      VoiceConnectionStatus_eqb (connectionStatus (state c)) Ready
  | _ => false
  end.

(** The connection reports [Connecting] or [Signalling]. *)
Definition reportsHandshake (e : Event) : bool :=
  match e with
  | ConnectionStateChange c =>
      VoiceConnectionStatus_eqb (connectionStatus (state c)) Connecting ||
      VoiceConnectionStatus_eqb (connectionStatus (state c)) Signalling
  | _ => false
  end.

(** A disconnect that makes the listener wait and rejoin (lines 59-64). *)
Definition startsBackoff (c : VoiceConnection) : bool :=
  VoiceConnectionStatus_eqb (connectionStatus (state c)) Disconnected &&
  negb (isWebSocketClose4014 (state c)) &&
  (rejoinAttempts c <? 5).

Definition reportsRecoverable (e : Event) : bool :=
  match e with
  | ConnectionStateChange c => startsBackoff c
  | _ => false
  end.

(** The kinds of suspended handlers. *)
Definition isGraceTask (t : Task) : bool := awaitsStatus Connecting t.

Definition isBackoffTask (t : Task) : bool :=
  match wake t with WhenTime _ => true | WhenStatus _ _ => false end.

(** The suspended handlers of one kind are exactly [ws]. *)
Definition waiting (kind : Task -> bool) (ws : list Task) (rt : Runtime) : Prop :=
  filter kind (pending rt) = ws.

(** The calls of [rejoin], and the calls of [destroy] made because a ready
    bound ran out. *)
Definition isRejoin (c : Call) : bool :=
  match c with ConnectionRejoin => true | _ => false end.

Definition rejoins (cs : list Call) : list Call := filter isRejoin cs.

Definition isExpiry (c : Call) : bool :=
  match c with
  | ConnectionDestroy NotReadyInTime => true
  | _ => false
  end.

Definition expiries (cs : list Call) : list Call := filter isExpiry cs.

(** What a ready bound calls when it runs out. *)
Definition expiryCalls (c : VoiceConnection) : list Call :=
  if VoiceConnectionStatus_eqb (connectionStatus (state c)) Destroyed then []
  else [ConnectionDestroy NotReadyInTime].

(** How a timer answers the handler it wakes: a [wait] resolves, an
    [entersState] rejects. *)
Definition timedOut (t : Task) : bool :=
  match wake t with WhenTime _ => true | WhenStatus _ _ => false end.

(** What the listener does up to its first await, as a function of the
    state it finds (the connection's new state already stored): the
    subscription it leaves and the handlers it suspends. *)
Definition listenerOutcome (rt : Runtime) : MusicSubscription * list Task :=
  let this := subscription rt in
  let c := voiceConnection this in
  match connectionStatus (state c) with
  | Disconnected =>
      if isWebSocketClose4014 (state c) then (this, [graceTask (now rt + 5000)])
      else if rejoinAttempts c <? 5
           then (this, [backoffTask (now rt + (rejoinAttempts c + 1) * 5000)])
           else (call (ConnectionDestroy NoAttemptsLeft) this, [])
  | Destroyed => (stop this, [])
  | Connecting | Signalling =>
      if readyLock this then (this, [])
      else (set_readyLock true this, [readyTask (now rt + 20000)])
  | Ready => (this, [])
  end.

(** An event that empties the queue: the host's [stop], or the connection
    reporting that it is destroyed (which makes the listener call [stop]). *)
Definition stops (e : Event) : bool :=
  match e with
  | CallStop => true
  | ConnectionStateChange c =>
      VoiceConnectionStatus_eqb (connectionStatus (state c)) Destroyed
  | _ => false
  end.

End Vocabulary.

(* ================================================================== *)
(** ** A concrete player and sample tracks, for running the model *)
(* ================================================================== *)

Module Demo.

(** Request contexts are numbers, errors are messages, and a stream is a flag
    telling whether it can still be played. *)
Definition carried : Carried :=
  {| Reference := nat; Error := string; Stream := bool |}.

(** A player that refuses a missing resource and a stream that has ended, and
    otherwise starts playing at once; a forced stop makes it idle. *)
Definition player : @AudioPlayer carried :=
  {| AudioPlayer_play := fun _ (resource : option (@AudioResource carried)) =>
       match resource with
       | None => @Thrown carried "resource is undefined"%string
       | Some r =>
           if (playStream r : bool) then Assigned (AudioPlayerPlayingState r)
           else @Thrown carried "resource has already ended"%string
       end;
     AudioPlayer_stop := fun force st =>
       if isIdle st then None
       else if force then Some AudioPlayerIdleState else None |}.

Definition info (name : string) (secs : Z) : @TrackMetadataDetails :=
  {| title := name; duration := durationWrapper secs;
     uploadedBy := "uploader(user)"; coverArt := "cover.png" |}.

(** Three tracks made by [Track.create]: A and C are playable, B's stream has
    already ended. *)
Definition trackA : @Track carried :=
  @Track_create carried "song a" 1%nat (Some "https://www.youtube.com/a"%string)
                (info "A" 65) true.
Definition trackB : @Track carried :=
  @Track_create carried "song b" 2%nat (Some "https://www.youtube.com/b"%string)
                (info "B" 120) false.
Definition trackC : @Track carried :=
  @Track_create carried "song c" 3%nat (Some "https://www.youtube.com/c"%string)
                (info "C" 3600) true.

Definition connection : VoiceConnection :=
  {| state := VoiceConnectionSignallingState; rejoinAttempts := 0 |}.

Definition fresh : @MusicSubscription carried := MusicSubscription_new connection.

Definition start : @Runtime carried := Runtime_new connection.

End Demo.

(* ================================================================== *)
(** ** Further vocabulary, for the properties of whole runs *)
(* ================================================================== *)

Section RunVocabulary.
Context {V : Carried} {P : AudioPlayer}.

(** What the subscription expects of [audioPlayer.play(resource)]: when the
    call does not throw, the player is busy with the resource afterwards. *)
Definition playStarts : Prop :=
  forall st resource newState,
    AudioPlayer_play st resource = Assigned newState -> isIdle newState = false.

(** The clock, and the reports of a connection that is not destroyed. *)
Definition isConnectionWeather (e : Event) : bool :=
  match e with
  | Tick => true
  | ConnectionStateChange c =>
      negb (VoiceConnectionStatus_eqb (connectionStatus (state c)) Destroyed)
  | _ => false
  end.

(** The calls [processQueue] makes for a track on which [play] throws
    [error], the player being idle. *)
Definition failureCalls (failed : Track * Error) : list Call :=
  [PlayerPlay AudioPlayerIdleState (audioResource (fst failed));
   Emit (playingError (option_map (fun r => reference (metadata r))
                                  (audioResource (fst failed)))
                      (snd failed))].

(** The notification that follows a successful [play]: [songStarted] when the
    player went straight to [Playing], nothing otherwise. *)
Definition startCalls (newState : AudioPlayerState) : list Call :=
  match newState with
  | AudioPlayerPlayingState resource =>
      [Emit (songStarted (reference (metadata resource)) (details (metadata resource)))]
  | _ => []
  end.

(** [play] throws on each of the tracks, the player being idle. *)
Definition allThrow (failed : list (Track * Error)) : Prop :=
  Forall (fun f => AudioPlayer_play AudioPlayerIdleState (audioResource (fst f))
                   = Thrown (snd f)) failed.

(** The [criticalError] notifications in a history of calls, and the errors
    the player reports in a sequence of events. *)
Definition isCriticalError (n : Notification) : bool :=
  match n with criticalError _ _ => true | _ => false end.

Definition criticalErrors (cs : list Call) : list Notification :=
  List.filter isCriticalError (notifications cs).

Definition playerErrors (es : list Event) : list AudioPlayerError :=
  flat_map (fun e => match e with PlayerError error => [error] | _ => [] end) es.

(** The [playingError] notifications in a history of calls, and the ones
    that the calls of [play] in it call for: one for each call that throws,
    with the request context of the resource and the error thrown. *)
Definition isPlayingError (n : Notification) : bool :=
  match n with playingError _ _ => true | _ => false end.

Definition playingErrors (cs : list Call) : list Notification :=
  List.filter isPlayingError (notifications cs).

Definition failedPlay (c : Call) : list Notification :=
  match c with
  | PlayerPlay receiver resource =>
      match AudioPlayer_play receiver resource with
      | Thrown error =>
          [playingError (option_map (fun r => reference (metadata r)) resource) error]
      | Assigned _ => []
      end
  | _ => []
  end.

Definition failedPlays (cs : list Call) : list Notification := flat_map failedPlay cs.

(** Every call of [play] that threw is reported, and nothing else is. *)
Definition reportsFailures (this : MusicSubscription) : Prop :=
  playingErrors (calls this) = failedPlays (calls this).

(** The backoff delays that are running. *)
Definition backoffs (rt : Runtime) : nat :=
  List.length (filter isBackoffTask (pending rt)).

End RunVocabulary.

Section SupervisorRunVocabulary.
Context {V : Carried}.

(** A disconnect that finds the rejoin attempts used up (lines 65-70). *)
Definition exhausted (c : VoiceConnection) : bool :=
  VoiceConnectionStatus_eqb (connectionStatus (state c)) Disconnected &&
  negb (isWebSocketClose4014 (state c)) &&
  negb (rejoinAttempts c <? 5).

Definition reportsExhausted (e : Event) : bool :=
  match e with
  | ConnectionStateChange c => exhausted c
  | _ => false
  end.

(** The calls of [destroy] made because no rejoin attempt was left. *)
Definition isSurrender (c : Call) : bool :=
  match c with
  | ConnectionDestroy NoAttemptsLeft => true
  | _ => false
  end.

Definition surrenders (cs : list Call) : list Call := filter isSurrender cs.

End SupervisorRunVocabulary.

(* ================================================================== *)
(** ** [isURL] ([Track.ts], lines 9-13) *)
(* ================================================================== *)

(** Regular expressions, as far as the pattern of [urlRegex] uses them.
    A character class is a list of ranges, a single character being the
    range from itself to itself. [Never] matches nothing; it is not written
    in patterns and arises only while a pattern is matched. *)
Inductive RegExp :=
| Never
| Empty
| CharacterClass (ranges : list (ascii * ascii))
| Sequence (r1 r2 : RegExp)
| Alternative (r1 r2 : RegExp)
| Star (r : RegExp).

Definition inRange (c : ascii) (range : ascii * ascii) : bool :=
  (N_of_ascii (fst range) <=? N_of_ascii c)%N && (N_of_ascii c <=? N_of_ascii (snd range))%N.

Definition inClass (c : ascii) (ranges : list (ascii * ascii)) : bool :=
  existsb (inRange c) ranges.

(** The derived forms: [c], [r?], [r+], [r{n}], [r{0,n}], [r{lo,hi}] and a
    literal string. *)
Definition only (c : ascii) : ascii * ascii := (c, c).

Definition Character (c : ascii) : RegExp := CharacterClass [only c].

Definition Optional (r : RegExp) : RegExp := Alternative r Empty.

Definition Plus (r : RegExp) : RegExp := Sequence r (Star r).

Fixpoint Exactly (n : nat) (r : RegExp) : RegExp :=
  match n with
  | O => Empty
  | S n => Sequence r (Exactly n r)
  end.

Fixpoint AtMost (n : nat) (r : RegExp) : RegExp :=
  match n with
  | O => Empty
  | S n => Optional (Sequence r (AtMost n r))
  end.

Definition Between (lo hi : nat) (r : RegExp) : RegExp :=
  Sequence (Exactly lo r) (AtMost (hi - lo) r).

Fixpoint Literal (cs : list ascii) : RegExp :=
  match cs with
  | [] => Empty
  | c :: cs => Sequence (Character c) (Literal cs)
  end.

(** The classes of the pattern: [\d] is [0-9] and [\w] is [A-Za-z0-9_]. *)
Definition digits : ascii * ascii := ("0"%char, "9"%char).
Definition lowerCase : ascii * ascii := ("a"%char, "z"%char).
Definition upperCase : ascii * ascii := ("A"%char, "Z"%char).
Definition wordCharacters : list (ascii * ascii) :=
  [upperCase; lowerCase; digits; only "_"%char].

(** The pattern of line 9, part by part:
    - [(https?:\/\/)?]   an optional scheme,
    - [([\da-z.-]+)]     the host,
    - [\.]               a dot,
    - [([a-z.]{2,6})]    the domain,
    - the path: the class [[/\w.-]], starred, in a group that is starred again,
    - [\/?]              an optional slash.
    The pattern has no flags and stands between the anchors [^] and [$], so
    [test] asks whether the whole text matches it. *)
Definition urlRegex : RegExp :=
  Sequence
    (Optional (Sequence (Literal (list_ascii_of_string "http"))
                (Sequence (Optional (Character "s"%char))
                          (Literal (list_ascii_of_string "://")))))
    (Sequence
       (Plus (CharacterClass [digits; lowerCase; only "."%char; only "-"%char]))
       (Sequence
          (Character "."%char)
          (Sequence
             (Between 2 6 (CharacterClass [lowerCase; only "."%char]))
             (Sequence
                (Star (Star (CharacterClass
                               (only "/"%char :: wordCharacters
                                ++ [only "."%char; only "-"%char]))))
                (Optional (Character "/"%char)))))).

(** Matching, one character at a time: [nullable r] tells whether [r]
    matches the empty text, and [derivative c r] matches what [r] matches
    after a leading [c]. *)
Fixpoint nullable (r : RegExp) : bool :=
  match r with
  | Never => false
  | Empty => true
  | CharacterClass _ => false
  | Sequence r1 r2 => nullable r1 && nullable r2
  | Alternative r1 r2 => nullable r1 || nullable r2
  | Star _ => true
  end.

Fixpoint ranges_eqb (a b : list (ascii * ascii)) : bool :=
  match a, b with
  | [], [] => true
  | x :: a, y :: b =>
      Ascii.eqb (fst x) (fst y) && Ascii.eqb (snd x) (snd y) && ranges_eqb a b
  | _, _ => false
  end.

Fixpoint RegExp_eqb (r r' : RegExp) : bool :=
  match r, r' with
  | Never, Never => true
  | Empty, Empty => true
  | CharacterClass a, CharacterClass b => ranges_eqb a b
  | Sequence r1 r2, Sequence r1' r2' => RegExp_eqb r1 r1' && RegExp_eqb r2 r2'
  | Alternative r1 r2, Alternative r1' r2' => RegExp_eqb r1 r1' && RegExp_eqb r2 r2'
  | Star r, Star r' => RegExp_eqb r r'
  | _, _ => false
  end.

(** [Sequence] and [Alternative], without the parts that cannot match and
    without writing the same alternative twice. *)
Definition sequence (r1 r2 : RegExp) : RegExp :=
  match r1, r2 with
  | Never, _ => Never
  | _, Never => Never
  | Empty, _ => r2
  | _, _ => Sequence r1 r2
  end.

Definition alternative (r1 r2 : RegExp) : RegExp :=
  match r1, r2 with
  | Never, _ => r2
  | _, Never => r1
  | _, _ => if RegExp_eqb r1 r2 then r1 else Alternative r1 r2
  end.

Fixpoint derivative (c : ascii) (r : RegExp) : RegExp :=
  match r with
  | Never | Empty => Never
  | CharacterClass ranges => if inClass c ranges then Empty else Never
  | Sequence r1 r2 =>
      if nullable r1
      then alternative (sequence (derivative c r1) r2) (derivative c r2)
      else sequence (derivative c r1) r2
  | Alternative r1 r2 => alternative (derivative c r1) (derivative c r2)
  | Star r1 => sequence (derivative c r1) (Star r1)
  end.

Fixpoint matches (r : RegExp) (text : list ascii) : bool :=
  match text with
  | [] => nullable r
  | c :: text => matches (derivative c r) text
  end.

(** [regex.test(text)] for an anchored pattern without flags. Texts are
    strings of 8-bit characters; a character beyond that range, which a
    JavaScript string may hold, is in none of the classes of [urlRegex]. *)
Definition RegExp_test (r : RegExp) (text : string) : bool :=
  matches r (list_ascii_of_string text).

(** [isURL(text)] (lines 11-13) *)
Definition isURL (text : string) : bool := RegExp_test urlRegex text.

(** The texts a pattern matches, said without reference to how matching is
    carried out. *)
Inductive Matches : RegExp -> list ascii -> Prop :=
| Matches_Empty : Matches Empty []
| Matches_CharacterClass ranges c :
    inClass c ranges = true -> Matches (CharacterClass ranges) [c]
| Matches_Sequence r1 r2 s1 s2 :
    Matches r1 s1 -> Matches r2 s2 -> Matches (Sequence r1 r2) (s1 ++ s2)
| Matches_Alternative_l r1 r2 s : Matches r1 s -> Matches (Alternative r1 r2) s
| Matches_Alternative_r r1 r2 s : Matches r2 s -> Matches (Alternative r1 r2) s
| Matches_Star_nil r : Matches (Star r) []
| Matches_Star_cons r s1 s2 :
    Matches r s1 -> Matches (Star r) s2 -> Matches (Star r) (s1 ++ s2).

(** The characters of the three parts of a URL, as [isURL] sees them. *)
Definition isDigit (c : ascii) : bool :=
  (48 <=? N_of_ascii c)%N && (N_of_ascii c <=? 57)%N.

Definition isLower (c : ascii) : bool :=
  (97 <=? N_of_ascii c)%N && (N_of_ascii c <=? 122)%N.

Definition isUpper (c : ascii) : bool :=
  (65 <=? N_of_ascii c)%N && (N_of_ascii c <=? 90)%N.

Definition hostCharacter (c : ascii) : bool :=
  isDigit c || isLower c || Ascii.eqb c "."%char || Ascii.eqb c "-"%char.

Definition domainCharacter (c : ascii) : bool := isLower c || Ascii.eqb c "."%char.

Definition pathCharacter (c : ascii) : bool :=
  isUpper c || isLower c || isDigit c || Ascii.eqb c "_"%char
  || Ascii.eqb c "/"%char || Ascii.eqb c "."%char || Ascii.eqb c "-"%char.

(** The characters that can occur anywhere in a text [isURL] accepts. *)
Definition urlCharacter (c : ascii) : bool := pathCharacter c || Ascii.eqb c ":"%char.

(** The shape of the texts [isURL] accepts: an optional scheme, a host, a
    dot, a domain of two to six characters, a path, and an optional slash. *)
Definition urlShaped (text : list ascii) : Prop :=
  exists scheme host domain path slash,
    text = scheme ++ host ++ "."%char :: domain ++ path ++ slash /\
    (scheme = [] \/ scheme = list_ascii_of_string "http://" \/
     scheme = list_ascii_of_string "https://") /\
    host <> [] /\ forallb hostCharacter host = true /\
    (2 <= List.length domain <= 6)%nat /\ forallb domainCharacter domain = true /\
    forallb pathCharacter path = true /\
    (slash = [] \/ slash = ["/"%char]).

(* ================================================================== *)
(** ** [Track.create] and its helpers ([Track.ts], lines 36-134) *)
(* ================================================================== *)

(** JavaScript's [a << b] on integers: both operands are taken as 32-bit
    integers, and only the low five bits of the shift count are used. *)
Definition ToInt32 (n : Z) : Z := (n + 2 ^ 31) mod 2 ^ 32 - 2 ^ 31.

Definition JS_shiftLeft (a b : Z) : Z := ToInt32 (Z.shiftl (ToInt32 a) (b mod 32)).

Section TrackCreation.
Context {V : Carried}.

(** What [ytdl.getBasicInfo] answers, as far as [fetchMetadata] reads it.
    [lengthSeconds] is the number that [Number(videoDetails.lengthSeconds)]
    yields, [authorUser] is [author.user], which may be [undefined], and
    [thumbnails] holds the [url] of each thumbnail. *)
Record VideoInfo := {
  videoTitle : string;
  lengthSeconds : number;
  authorName : string;
  authorUser : option string;
  thumbnails : list string
}.

(** The options [createAudioResource] passes to [ytdl] (lines 101-107). *)
Record YtdlOptions := {
  ytdl_quality : string;
  ytdl_filter : string;
  highWaterMark : Z;
  liveBuffer : Z;
  dlChunkSize : Z
}.

Definition ytdlOptions : YtdlOptions :=
  {| ytdl_quality := "lowestaudio";
     ytdl_filter := "audioonly";
     highWaterMark := JS_shiftLeft 1 62;
     liveBuffer := JS_shiftLeft 1 62;
     dlChunkSize := 0 |}.

(** Every call [Track.create] makes on the libraries it uses, in order. *)
Inductive Outcall :=
| PuppeteerLaunch
| BrowserNewPage
| PageGoto (address : string)
| PageWaitForSelector (selector : string)
| PageEval (selector : string)
| BrowserClose
| Ytdl (url : option string) (options : YtdlOptions)
| GetBasicInfo (url : option string)
| DemuxProbe (stream : Stream)
| StreamDestroy (stream : Stream).

Definition isBrowserCall (c : Outcall) : bool :=
  match c with
  | PuppeteerLaunch | BrowserNewPage | PageGoto _ | PageWaitForSelector _
  | PageEval _ | BrowserClose => true
  | _ => false
  end.

Definition isBrowserClose (c : Outcall) : bool :=
  match c with BrowserClose => true | _ => false end.

Definition isStreamDestroy (c : Outcall) : bool :=
  match c with StreamDestroy _ => true | _ => false end.

Definition isDemuxProbe (c : Outcall) : bool :=
  match c with DemuxProbe _ => true | _ => false end.

(** The calls made on the stream once it is open. *)
Definition isStreamCall (c : Outcall) : bool := isDemuxProbe c || isStreamDestroy c.

(** How the headless browser answers the steps of [fetchURL]: each step
    throws or goes through; [hrefOfFirstHit] is what [getAttribute('href')]
    gives for the element found, [None] being [null]. *)
Record Browser := {
  launch : Error + unit;
  newPage : Error + unit;
  goto : string -> Error + unit;
  waitForSelector : string -> Error + unit;
  hrefOfFirstHit : string -> Error + option string;
  close : Error + unit
}.

(** The world outside: the browser, the two entry points of the download
    library, and the built-in [encodeURIComponent]. [ytdl] hands back its
    stream at once; what the stream does later arrives as events. *)
Record World := {
  puppeteer : Browser;
  getBasicInfo : option string -> Error + VideoInfo;
  ytdl : option string -> YtdlOptions -> Stream;
  encodeURIComponent : string -> string
}.

(** A stretch of code that makes calls on the outside and may throw. *)
Definition Script (A : Type) : Type := list Outcall -> list Outcall * (Error + A).

Definition Script_ret {A} (a : A) : Script A := fun log => (log, inr a).

Definition Script_bind {A B} (m : Script A) (f : A -> Script B) : Script B :=
  fun log =>
    match m log with
    | (log, inl e) => (log, inl e)
    | (log, inr a) => f a log
    end.

(** Make a call and take its answer: a value, or the error it throws. *)
Definition perform {A} (c : Outcall) (answer : Error + A) : Script A :=
  fun log => (log ++ [c], answer).

Local Notation "x <- m ;; k" := (Script_bind m (fun x => k))
  (at level 61, m at next level, right associativity).

(** String concatenation with a value that may be [null] or [undefined]. *)
Definition orElse (missing : string) (s : option string) : string :=
  match s with Some s => s | None => missing end.

(** [fetchURL] (lines 53-73). The [catch] block rethrows, so an error of any
    step is the error of the method; [this.url] is what the method yields. *)
Definition fetchURL (w : World) (query : string) : Script string :=
  _ <- perform PuppeteerLaunch (launch (puppeteer w)) ;;
  _ <- perform BrowserNewPage (newPage (puppeteer w)) ;;
  let address :=
    ("https://www.youtube.com/results?search_query=" ++ encodeURIComponent w query)%string in
  _ <- perform (PageGoto address) (goto (puppeteer w) address) ;;
  _ <- perform (PageWaitForSelector "a#video-title")
               (waitForSelector (puppeteer w) "a#video-title") ;;
  href <- perform (PageEval "a#video-title") (hrefOfFirstHit (puppeteer w) "a#video-title") ;;
  let url := ("https://www.youtube.com" ++ orElse "null" href)%string in
  _ <- perform BrowserClose (close (puppeteer w)) ;;
  Script_ret url.

(** Why [fetchMetadata] rejects: [getBasicInfo] failed, or there is no first
    thumbnail to read the [url] of. (The promise is rejected with the text
    ["Metadata fetch error: "] followed by the message of the error.) *)
Inductive MetadataFailure :=
| BasicInfoFailed (error : Error)
| NoThumbnail.

(** [fetchMetadata] (lines 75-95) *)
Definition fetchMetadata (w : World) (url : option string) (log : list Outcall)
    : list Outcall * (MetadataFailure + TrackMetadataDetails) :=
  (log ++ [GetBasicInfo url],
   match getBasicInfo w url with
   | inl error => inl (BasicInfoFailed error)
   | inr videoInfo =>
       match thumbnails videoInfo with
       | [] => inl NoThumbnail
       | cover :: _ =>
           inr {| title := videoTitle videoInfo;
                  duration := durationWrapper (lengthSeconds videoInfo);
                  uploadedBy := (authorName videoInfo ++ "("
                                 ++ orElse "undefined" (authorUser videoInfo) ++ ")")%string;
                  coverArt := cover |}
       end
   end).

(** What can happen once [createAudioResource] has attached its listeners
    to the stream: the stream becomes readable, the stream reports an error,
    and the probe that was started answers or fails. *)
Inductive StreamEvent :=
| Readable
| StreamError (error : Error)
| Probed (probe : Stream)
| ProbeFailed (error : Error).

(** The promise [createAudioResource] returns and the listeners it has
    attached: [settled] is [None] while the promise is pending, the two
    [once] listeners are armed until they have run, and [probing] tells
    whether [demuxProbe] has been called and has not answered. *)
Record Download := {
  settled : option (Error + AudioResource);
  readableArmed : bool;
  errorArmed : bool;
  probing : bool;
  outcalls : list Outcall
}.

(** [resolve] and [reject]: the first one to be called settles the promise. *)
Definition settle (outcome : Error + AudioResource) (d : Download) : Download :=
  {| settled := match settled d with Some o => Some o | None => Some outcome end;
     readableArmed := readableArmed d; errorArmed := errorArmed d;
     probing := probing d; outcalls := outcalls d |}.

(** [onError] (lines 111-114) *)
Definition onError (stream : Stream) (error : Error) (d : Download) : Download :=
  let d := {| settled := settled d; readableArmed := readableArmed d;
              errorArmed := errorArmed d; probing := probing d;
              outcalls := outcalls d ++ [StreamDestroy stream] |} in
  settle (inl error) d.

(** The listeners of lines 116-132 at work. *)
Definition onStreamEvent (stream : Stream) (ref : Reference)
    (details : TrackMetadataDetails) (d : Download) (e : StreamEvent) : Download :=
  match e with
  | Readable =>
      if readableArmed d then
        {| settled := settled d; readableArmed := false; errorArmed := errorArmed d;
           probing := true; outcalls := outcalls d ++ [DemuxProbe stream] |}
      else d
  | Probed probe =>
      if probing d then
        settle (inr (createAudioResource probe {| reference := ref; details := details |}))
          {| settled := settled d; readableArmed := readableArmed d;
             errorArmed := errorArmed d; probing := false; outcalls := outcalls d |}
      else d
  | ProbeFailed error =>
      if probing d then
        onError stream error
          {| settled := settled d; readableArmed := readableArmed d;
             errorArmed := errorArmed d; probing := false; outcalls := outcalls d |}
      else d
  | StreamError error =>
      if errorArmed d then
        onError stream error
          {| settled := settled d; readableArmed := readableArmed d;
             errorArmed := false; probing := probing d; outcalls := outcalls d |}
      else d
  end.

(** A promise, as its awaiter finds it: fulfilled, rejected, or never
    settled. *)
Inductive Promise (A : Type) :=
| Fulfilled (value : A)
| Rejected (reason : Error)
| Pending.

Arguments Fulfilled {A} value.
Arguments Rejected {A} reason.
Arguments Pending {A}.

(** [createAudioResource] (lines 97-134), followed through the [events] of
    its stream. The executor of the promise is an [async] function: when
    [fetchMetadata] rejects, the [await] of line 109 throws inside it, which
    rejects the executor's own promise and leaves the promise that was
    returned pending for good, with no listener attached. *)
Definition Track_createAudioResource (w : World) (ref : Reference) (url : option string)
    (events : list StreamEvent) (log : list Outcall)
    : list Outcall * Promise AudioResource :=
  let stream := ytdl w url ytdlOptions in
  let log := log ++ [Ytdl url ytdlOptions] in
  match fetchMetadata w url log with
  | (log, inl _) => (log, Pending)
  | (log, inr details) =>
      let d := fold_left (onStreamEvent stream ref details) events
                 {| settled := None; readableArmed := true; errorArmed := true;
                    probing := false; outcalls := log |} in
      (outcalls d,
       match settled d with
       | None => Pending
       | Some (inr resource) => Fulfilled resource
       | Some (inl error) => Rejected error
       end)
  end.

(** Line 48: the link of the track. [fetchURL] runs only when [isURL]
    turns the query away, and nothing else assigns [url]. *)
Definition Track_lookup (w : World) (query : string)
    : list Outcall * (Error + option string) :=
  if isURL query then ([], inr None)
  else
    match fetchURL w query [] with
    | (log, inl error) => (log, inl error)
    | (log, inr url) => (log, inr (Some url))
    end.

(** [Track.create] (lines 46-51), with the calls it makes on the way. *)
Definition Track_create_run (w : World) (query : string) (ref : Reference)
    (events : list StreamEvent) : list Outcall * Promise Track :=
  match Track_lookup w query with
  | (log, inl error) => (log, Rejected error)
  | (log, inr url) =>
      match Track_createAudioResource w ref url events log with
      | (log, Fulfilled resource) =>
          (log, Fulfilled {| query := query; url := url;
                             audioResource := Some resource; trackReference := ref |})
      | (log, Rejected error) => (log, Rejected error)
      | (log, Pending) => (log, Pending)
      end
  end.

(** The details [fetchMetadata] yields for a link, or why it rejects. *)
Definition metadataOf (w : World) (url : option string)
    : MetadataFailure + TrackMetadataDetails :=
  snd (fetchMetadata w url []).

(** The events before the one that settles the promise: the stream has
    become readable, perhaps more than once. *)
Definition isReadable (e : StreamEvent) : bool :=
  match e with Readable => true | _ => false end.

Definition isStreamError (e : StreamEvent) : bool :=
  match e with StreamError _ => true | _ => false end.

End TrackCreation.

Arguments Fulfilled {V A} value.
Arguments Rejected {V A} reason.
Arguments Pending {V A}.

(* ================================================================== *)
(** ** A concrete outside world, for running [Track.create] *)
(* ================================================================== *)

Module DemoWorld.

(** Stands in for [encodeURIComponent] on the sample queries, whose only
    reserved character is the space. *)
Fixpoint encodeSpaces (s : string) : string :=
  match s with
  | EmptyString => EmptyString
  | String c s =>
      if Ascii.eqb c " "%char then ("%20" ++ encodeSpaces s)%string
      else String c (encodeSpaces s)
  end.

(** A browser in which every step goes through and the first hit links to
    a video. *)
Definition browser : @Browser Demo.carried :=
  {| launch := inr tt;
     newPage := inr tt;
     goto := fun _ => inr tt;
     waitForSelector := fun _ => inr tt;
     hrefOfFirstHit := fun _ => inr (Some "/watch?v=dQw4w9WgXcQ"%string);
     close := inr tt |}.

(** A browser that cannot reach the site. *)
Definition offline : @Browser Demo.carried :=
  {| launch := inr tt;
     newPage := inr tt;
     goto := fun _ => inl ("net::ERR_INTERNET_DISCONNECTED"%string : @Error Demo.carried);
     waitForSelector := fun _ => inr tt;
     hrefOfFirstHit := fun _ => inr None;
     close := inr tt |}.

Definition video : VideoInfo :=
  {| videoTitle := "Never Gonna Give You Up";
     lengthSeconds := 213;
     authorName := "Rick Astley";
     authorUser := None;
     thumbnails := ["https://i.ytimg.com/vi/dQw4w9WgXcQ/default.jpg"%string] |}.

(** The download library knows the video behind every link, and nothing
    about a link that is missing. *)
Definition world : @World Demo.carried :=
  {| puppeteer := browser;
     getBasicInfo := fun url =>
       match url with
       | Some _ => inr video
       | None => inl ("No video id found: undefined"%string : @Error Demo.carried)
       end;
     ytdl := fun _ _ => (true : @Stream Demo.carried);
     encodeURIComponent := encodeSpaces |}.

Definition unreachable : @World Demo.carried :=
  {| puppeteer := offline;
     getBasicInfo := getBasicInfo world;
     ytdl := ytdl world;
     encodeURIComponent := encodeSpaces |}.

(** The stream the probe hands back, and an error of the stream. *)
Definition probed : @Stream Demo.carried := true.

Definition aborted : @Error Demo.carried := "aborted"%string.

Definition events : list (@StreamEvent Demo.carried) := [Readable; Probed probed].

End DemoWorld.

(* ================================================================== *)
(** * Properties *)
(* ================================================================== *)

(* ================================================================== *)
(** ** Whole numbers in double arithmetic *)
(* ================================================================== *)

Lemma digits2_pos_log2 (p : positive) : Zpos (digits2_pos p) = Z.log2 (Zpos p) + 1.
Proof.
  assert (Hsize : forall q, digits2_pos q = Pos.size q)
    by (induction q as [q IH|q IH|]; simpl; rewrite ?IH; reflexivity).
  rewrite Hsize. destruct p; simpl; lia.
Qed.

Lemma digits2_pos_bounds (p : positive) (d : Z) :
  2 ^ (d - 1) <= Zpos p < 2 ^ d -> Zpos (digits2_pos p) = d.
Proof.
  intros H. rewrite digits2_pos_log2.
  assert (0 < d).
  { destruct (Z.ltb_spec 0 d) as [Hd|Hd]; [exact Hd|].
    assert (2 ^ d <= 2 ^ 0) by (apply Z.pow_le_mono_r; lia).
    change (2 ^ 0) with 1 in *. lia. }
  rewrite (Z.log2_unique (Zpos p) (d - 1)); [lia|lia|].
  replace (Z.succ (d - 1)) with d by lia. exact H.
Qed.

Lemma iter_pos_nat {A} (f : A -> A) (p : positive) (x : A) :
  iter_pos f p x = Nat.iter (Pos.to_nat p) f x.
Proof.
  revert x. induction p as [p IH|p IH|]; intros x; cbn [iter_pos].
  - rewrite !IH, Pos2Nat.inj_xI, <- Nat.iter_add, <- Nat.iter_succ_r.
    f_equal. lia.
  - rewrite !IH, Pos2Nat.inj_xO, <- Nat.iter_add. f_equal. lia.
  - reflexivity.
Qed.

Lemma shr_1_even (m : Z) :
  0 < m ->
  shr_1 {| shr_m := 2 * m; shr_r := false; shr_s := false |}
    = {| shr_m := m; shr_r := false; shr_s := false |}.
Proof. intros H. destruct m as [|p|p]; try lia. reflexivity. Qed.

Lemma shr_exact (n : nat) (m : Z) :
  0 < m ->
  Nat.iter n shr_1 {| shr_m := m * 2 ^ Z.of_nat n; shr_r := false; shr_s := false |}
    = {| shr_m := m; shr_r := false; shr_s := false |}.
Proof.
  intros Hm. induction n as [|n IH].
  - simpl. f_equal. lia.
  - rewrite Nat.iter_succ_r.
    replace (m * 2 ^ Z.of_nat (S n)) with (2 * (m * 2 ^ Z.of_nat n))
      by (rewrite Nat2Z.inj_succ, Z.pow_succ_r; lia).
    rewrite shr_1_even by (apply Z.mul_pos_pos; [exact Hm | apply Z.pow_pos_nonneg; lia]).
    exact IH.
Qed.

(** A mantissa of 53 bits followed by [n] zero bits is rounded to itself. *)
Lemma binary_round_aux_exact (sx : bool) (mc : positive) (ec n : Z) :
  2 ^ 52 <= Zpos mc < 2 ^ 53 -> -1074 <= ec <= 971 -> 0 <= n ->
  binary_round_aux 53 1024 sx (Zpos mc * 2 ^ n) (ec - n) loc_Exact
    = S754_finite sx mc ec.
Proof.
  intros Hmc Hec Hn.
  assert (Hpow : 0 < 2 ^ n) by (apply Z.pow_pos_nonneg; lia).
  assert (Hdigits : Zdigits2 (Zpos mc * 2 ^ n) = 53 + n).
  { destruct (Zpos mc * 2 ^ n) as [|p|p] eqn:Hp; try lia.
    cbn [Zdigits2]. apply digits2_pos_bounds. rewrite <- Hp.
    replace (53 + n - 1) with (52 + n) by lia.
    rewrite !Z.pow_add_r by lia. nia. }
  unfold binary_round_aux, shr_fexp. rewrite Hdigits.
  replace (fexp 53 1024 (53 + n + (ec - n))) with ec by (unfold fexp, emin; lia).
  replace (ec - (ec - n)) with n by lia.
  assert (Hshr : shr (shr_record_of_loc (Zpos mc * 2 ^ n) loc_Exact) (ec - n) n
                 = ({| shr_m := Zpos mc; shr_r := false; shr_s := false |}, ec)).
  { unfold shr. destruct n as [|p|p]; try lia.
    - cbn [shr_record_of_loc]. change (2 ^ 0) with 1. rewrite Z.mul_1_r. f_equal. lia.
    - rewrite iter_pos_nat. f_equal; [|lia].
      cbn [shr_record_of_loc].
      replace (2 ^ Z.pos p) with (2 ^ Z.of_nat (Pos.to_nat p))
        by (rewrite positive_nat_Z; reflexivity).
      apply shr_exact. lia. }
  rewrite Hshr. cbn [shr_m loc_of_shr_record round_nearest_even].
  replace (Zdigits2 (Zpos mc)) with 53
    by (symmetry; cbn [Zdigits2]; apply digits2_pos_bounds; lia).
  replace (fexp 53 1024 (53 + ec) - ec) with 0 by (unfold fexp, emin; lia).
  cbn [shr shr_record_of_loc shr_m].
  replace (ec <=? 1024 - 53) with true by (symmetry; apply Z.leb_le; lia).
  reflexivity.
Qed.

Lemma whole_log2 (z : Z) : 0 < z < 2 ^ 53 -> 0 <= Z.log2 z <= 52.
Proof.
  intros H. split; [apply Z.log2_nonneg|].
  assert (Z.log2 z < 53) by (apply Z.log2_lt_pow2; lia). lia.
Qed.

Lemma mantissaOf_value (z : Z) :
  0 < z < 2 ^ 53 ->
  Zpos (mantissaOf z) = z * 2 ^ (52 - Z.log2 z) /\
  2 ^ 52 <= Zpos (mantissaOf z) < 2 ^ 53.
Proof.
  intros H. pose proof (whole_log2 z H) as Hl.
  pose proof (Z.log2_spec z ltac:(lia)) as Hs.
  assert (Hp : 0 < 2 ^ (52 - Z.log2 z)) by (apply Z.pow_pos_nonneg; lia).
  unfold mantissaOf. rewrite Z2Pos.id by nia. split; [reflexivity|].
  replace (2 ^ 52) with (2 ^ Z.log2 z * 2 ^ (52 - Z.log2 z))
    by (rewrite <- Z.pow_add_r by lia; f_equal; lia).
  replace (2 ^ 53) with (2 ^ Z.succ (Z.log2 z) * 2 ^ (52 - Z.log2 z))
    by (rewrite <- Z.pow_add_r by lia; f_equal; lia).
  nia.
Qed.

Lemma binary_round_aux_whole (sx : bool) (z M E : Z) :
  0 < z < 2 ^ 53 -> E <= exponentOf z -> M = z * 2 ^ (- E) ->
  binary_round_aux 53 1024 sx M E loc_Exact
    = S754_finite sx (mantissaOf z) (exponentOf z).
Proof.
  intros Hz HE ->. pose proof (whole_log2 z Hz) as Hl.
  destruct (mantissaOf_value z Hz) as [Hm Hb].
  unfold exponentOf in *.
  replace (z * 2 ^ (- E))
    with (Zpos (mantissaOf z) * 2 ^ (Z.log2 z - 52 - E)).
  2:{ rewrite Hm, <- Z.mul_assoc, <- Z.pow_add_r by lia. do 2 f_equal. lia. }
  replace E with (Z.log2 z - 52 - (Z.log2 z - 52 - E)) at 2 by lia.
  apply binary_round_aux_exact; lia.
Qed.

Lemma iter_xO (m d : positive) : Zpos (Pos.iter xO m d) = Zpos m * 2 ^ Zpos d.
Proof.
  induction d as [|d IH] using Pos.peano_ind.
  - cbn [Pos.iter]. rewrite Pos2Z.inj_xO. change (2 ^ 1) with 2. lia.
  - rewrite Pos.iter_succ, Pos2Z.inj_xO, IH, Pos2Z.inj_succ, Z.pow_succ_r by lia. lia.
Qed.

Lemma binary_round_whole (sx : bool) (z E : Z) :
  0 < z < 2 ^ 53 -> E <= 0 ->
  binary_round 53 1024 sx (Z.to_pos (z * 2 ^ (- E))) E
    = S754_finite sx (mantissaOf z) (exponentOf z).
Proof.
  intros Hz HE. pose proof (whole_log2 z Hz) as Hl.
  pose proof (Z.log2_spec z ltac:(lia)) as Hs.
  assert (Hp : 0 < 2 ^ (- E)) by (apply Z.pow_pos_nonneg; lia).
  assert (Hpos : Zpos (Z.to_pos (z * 2 ^ (- E))) = z * 2 ^ (- E))
    by (apply Z2Pos.id; nia).
  unfold binary_round.
  replace (Zpos (digits2_pos (Z.to_pos (z * 2 ^ (- E))))) with (Z.log2 z + 1 - E).
  2:{ symmetry. apply digits2_pos_bounds. rewrite Hpos.
      replace (Z.log2 z + 1 - E - 1) with (Z.log2 z + - E) by lia.
      replace (Z.log2 z + 1 - E) with (Z.succ (Z.log2 z) + - E) by lia.
      rewrite !Z.pow_add_r by lia. nia. }
  replace (fexp 53 1024 (Z.log2 z + 1 - E + E)) with (exponentOf z)
    by (unfold fexp, emin, exponentOf; lia).
  unfold shl_align. destruct (exponentOf z - E) as [|d|d] eqn:Hd.
  - apply binary_round_aux_whole; [exact Hz|lia|exact Hpos].
  - apply binary_round_aux_whole; [exact Hz|lia|exact Hpos].
  - apply binary_round_aux_whole; [exact Hz|lia|].
    rewrite iter_xO, Hpos, <- Z.mul_assoc, <- Z.pow_add_r by lia.
    do 2 f_equal. lia.
Qed.

(** Whole numbers below [2 ^ 53] are doubles. *)
Lemma Number_of_Z_whole (z : Z) :
  0 < z < 2 ^ 53 ->
  Number_of_Z z = S754_finite false (mantissaOf z) (exponentOf z).
Proof.
  intros Hz. unfold Number_of_Z, binary_normalize.
  destruct z as [|p|p]; try lia.
  rewrite <- (binary_round_whole false (Zpos p) 0 Hz ltac:(lia)).
  change (2 ^ (- 0)) with 1. rewrite Z.mul_1_r. reflexivity.
Qed.

Lemma Number_of_Z_negative (z : Z) :
  0 < z < 2 ^ 53 ->
  Number_of_Z (- z) = S754_finite true (mantissaOf z) (exponentOf z).
Proof.
  intros Hz. unfold Number_of_Z, binary_normalize.
  destruct z as [|p|p]; try lia. cbn [Z.opp].
  rewrite <- (binary_round_whole true (Zpos p) 0 Hz ltac:(lia)).
  change (2 ^ (- 0)) with 1. rewrite Z.mul_1_r. reflexivity.
Qed.

(** A product of whole numbers that stays below [2 ^ 53] is exact. *)
Lemma Number_mul_whole (a b : Z) :
  0 < a -> 0 < b -> a * b < 2 ^ 53 ->
  Number_mul (Number_of_Z a) (Number_of_Z b) = Number_of_Z (a * b).
Proof.
  intros Ha Hb Hab.
  assert (Ha' : 0 < a < 2 ^ 53) by nia.
  assert (Hb' : 0 < b < 2 ^ 53) by nia.
  assert (Hab' : 0 < a * b < 2 ^ 53) by nia.
  rewrite (Number_of_Z_whole a Ha'), (Number_of_Z_whole b Hb'),
    (Number_of_Z_whole (a * b) Hab').
  unfold Number_mul, SFmul. cbn [xorb].
  destruct (mantissaOf_value a Ha') as [Hma _].
  destruct (mantissaOf_value b Hb') as [Hmb _].
  pose proof (whole_log2 a Ha') as Hla. pose proof (whole_log2 b Hb') as Hlb.
  pose proof (Z.log2_mul_below a b ltac:(lia) ltac:(lia)) as Hbelow.
  apply binary_round_aux_whole; [exact Hab'|unfold exponentOf; lia|].
  rewrite Pos2Z.inj_mul, Hma, Hmb. unfold exponentOf.
  replace (- (Z.log2 a - 52 + (Z.log2 b - 52)))
    with ((52 - Z.log2 a) + (52 - Z.log2 b)) by lia.
  rewrite Z.pow_add_r by lia. ring.
Qed.

Lemma shl_align_fst (m : positive) (e e' : Z) :
  e' <= e -> Zpos (fst (shl_align m e e')) = Zpos m * 2 ^ (e - e').
Proof.
  intros H. unfold shl_align. destruct (e' - e) as [|d|d] eqn:Hd; cbn [fst].
  - replace (e - e') with 0 by lia. change (2 ^ 0) with 1. lia.
  - lia.
  - rewrite iter_xO. do 2 f_equal. lia.
Qed.

Lemma aligned_whole (z e' : Z) :
  0 < z < 2 ^ 53 -> e' <= exponentOf z ->
  Zpos (fst (shl_align (mantissaOf z) (exponentOf z) e')) = z * 2 ^ (- e').
Proof.
  intros Hz He. pose proof (whole_log2 z Hz) as Hl.
  destruct (mantissaOf_value z Hz) as [Hm _].
  rewrite shl_align_fst by exact He. rewrite Hm. unfold exponentOf in *.
  rewrite <- Z.mul_assoc, <- Z.pow_add_r by lia. do 2 f_equal. lia.
Qed.

(** A difference of whole numbers below [2 ^ 53] is exact. *)
Lemma Number_sub_whole (a b : Z) :
  0 < b -> b <= a -> a < 2 ^ 53 ->
  Number_sub (Number_of_Z a) (Number_of_Z b) = Number_of_Z (a - b).
Proof.
  intros Hb Hba Ha.
  assert (Ha' : 0 < a < 2 ^ 53) by lia.
  assert (Hb' : 0 < b < 2 ^ 53) by lia.
  rewrite (Number_of_Z_whole a Ha'), (Number_of_Z_whole b Hb').
  unfold Number_sub, SFsub. cbn [cond_Zopp].
  set (ez := Z.min (exponentOf a) (exponentOf b)).
  pose proof (whole_log2 a Ha') as Hla. pose proof (whole_log2 b Hb') as Hlb.
  assert (Hez : ez <= 0) by (unfold ez, exponentOf; lia).
  rewrite (aligned_whole a ez Ha') by (unfold ez; lia).
  rewrite (aligned_whole b ez Hb') by (unfold ez; lia).
  rewrite <- Z.mul_sub_distr_r.
  assert (Hp : 0 < 2 ^ (- ez)) by (apply Z.pow_pos_nonneg; lia).
  destruct (Z.eq_dec a b) as [->|Hne].
  - rewrite !Z.sub_diag. reflexivity.
  - assert (Hd : 0 < a - b < 2 ^ 53) by lia.
    rewrite (Number_of_Z_whole (a - b) Hd).
    rewrite <- (binary_round_whole false (a - b) ez Hd Hez).
    unfold binary_normalize.
    destruct ((a - b) * 2 ^ (- ez)) as [|p|p] eqn:Hp'; try nia.
    reflexivity.
Qed.

Lemma loc_of_shr_record_of_loc (m : Z) (l : location) :
  loc_of_shr_record (shr_record_of_loc m l) = l.
Proof. destruct l as [|[]]; reflexivity. Qed.

(** The last step of every rounding: a mantissa of 53 bits is kept, and
    [2 ^ 53] is renormalised. *)
Lemma round_renormalise (sx : bool) (q1 e : Z) :
  2 ^ 52 <= q1 <= 2 ^ 53 -> -1074 <= e <= 960 ->
  exists mr er,
    (let '(mrs, e') := shr_fexp 53 1024 q1 e loc_Exact in
     match shr_m mrs with
     | Z0 => S754_zero sx
     | Zpos m => if e' <=? 1024 - 53 then S754_finite sx m e' else S754_infinity sx
     | Zneg _ => S754_nan
     end) = S754_finite sx mr er /\
    e <= er <= e + 1 /\ Zpos mr * 2 ^ (er - e) = q1.
Proof.
  intros Hq He. unfold shr_fexp.
  destruct (Z.eq_dec q1 (2 ^ 53)) as [->|Hne].
  - exists (Z.to_pos (2 ^ 52)), (e + 1).
    replace (fexp 53 1024 (Zdigits2 (2 ^ 53) + e) - e) with 1
      by (change (Zdigits2 (2 ^ 53)) with 54; unfold fexp, emin; lia).
    cbn [shr]. change (iter_pos shr_1 1 (shr_record_of_loc (2 ^ 53) loc_Exact))
      with {| shr_m := 2 ^ 52; shr_r := false; shr_s := false |}.
    cbn [shr_m]. change (2 ^ 52) with (Zpos (Z.to_pos (2 ^ 52))) at 1.
    cbv iota beta.
    replace (e + 1 <=? 1024 - 53) with true by (symmetry; apply Z.leb_le; lia).
    split; [reflexivity|]. split; [lia|].
    replace (e + 1 - e) with 1 by lia. reflexivity.
  - exists (Z.to_pos q1), e.
    assert (Hpos : Zpos (Z.to_pos q1) = q1) by (apply Z2Pos.id; lia).
    replace (Zdigits2 q1) with 53.
    2:{ rewrite <- Hpos. symmetry. cbn [Zdigits2]. apply digits2_pos_bounds. lia. }
    replace (fexp 53 1024 (53 + e) - e) with 0 by (unfold fexp, emin; lia).
    cbn [shr shr_record_of_loc shr_m]. rewrite <- Hpos at 1. cbv iota beta.
    replace (e <=? 1024 - 53) with true by (symmetry; apply Z.leb_le; lia).
    split; [reflexivity|]. split; [lia|].
    replace (e - e) with 0 by lia. change (2 ^ 0) with 1. lia.
Qed.

(** Rounding a quotient of 53 or 54 bits: the 54th bit is rounded away, up
    only when it is set, and always when it is set and more follows. *)
Lemma binary_round_aux_quotient (sx : bool) (q e : Z) (loc : location) :
  2 ^ 52 <= q < 2 ^ 54 -> -1074 <= e <= 950 ->
  exists mr er (up : bool),
    binary_round_aux 53 1024 sx q e loc = S754_finite sx mr er /\
    e <= er <= e + 2 /\
    (q < 2 ^ 53 ->
       Zpos mr * 2 ^ (er - e) = q + Z.b2z up /\
       (loc = loc_Exact -> up = false)) /\
    (2 ^ 53 <= q ->
       Zpos mr * 2 ^ (er - e) = 2 * (q / 2 + Z.b2z up) /\
       (up = true -> Z.odd q = true) /\
       (Z.odd q = true -> loc <> loc_Exact -> up = true)).
Proof.
  intros Hq He. unfold binary_round_aux.
  destruct (Z.ltb_spec q (2 ^ 53)) as [Hlt|Hge].
  - (* 53 bits: no shift *)
    assert (Hpos : Zpos (Z.to_pos q) = q) by (apply Z2Pos.id; lia).
    unfold shr_fexp at 1.
    replace (Zdigits2 q) with 53.
    2:{ rewrite <- Hpos. symmetry. cbn [Zdigits2]. apply digits2_pos_bounds. lia. }
    replace (fexp 53 1024 (53 + e) - e) with 0 by (unfold fexp, emin; lia).
    cbn [shr shr_m]. rewrite loc_of_shr_record_of_loc.
    replace (shr_m (shr_record_of_loc q loc)) with q by (destruct loc as [|[]]; reflexivity).
    set (up := negb (Z.eqb (round_nearest_even q loc) q)).
    assert (Hup : round_nearest_even q loc = q + Z.b2z up).
    { unfold up, round_nearest_even.
      destruct loc as [|[]]; try destruct (Z.even q);
        rewrite ?Z.eqb_refl; cbn [negb Z.b2z]; try lia;
        replace (q + 1 =? q) with false by (symmetry; apply Z.eqb_neq; lia);
        reflexivity. }
    destruct (round_renormalise sx (round_nearest_even q loc) e) as (mr & er & Hr & Her & Hv);
      [rewrite Hup; destruct up; cbn [Z.b2z]; lia | lia |].
    exists mr, er, up. split; [exact Hr|]. split; [lia|]. split.
    + intros _. split; [rewrite Hv; exact Hup|].
      intros ->. unfold up. cbn [round_nearest_even]. rewrite Z.eqb_refl. reflexivity.
    + intros H. lia.
  - (* 54 bits: one bit is shifted out *)
    assert (Hpos : Zpos (Z.to_pos q) = q) by (apply Z2Pos.id; lia).
    unfold shr_fexp at 1.
    replace (Zdigits2 q) with 54.
    2:{ rewrite <- Hpos. symmetry. cbn [Zdigits2]. apply digits2_pos_bounds. lia. }
    replace (fexp 53 1024 (54 + e) - e) with 1 by (unfold fexp, emin; lia).
    cbn [shr iter_pos].
    set (half := shr_1 (shr_record_of_loc q loc)).
    assert (Hhalf : shr_m half = q / 2 /\ shr_r half = Z.odd q /\
                    (shr_s half = false <-> loc = loc_Exact)).
    { unfold half. clear half Hpos.
      destruct q as [|[p|p|]|p]; try lia;
        destruct loc as [|[]]; cbn [shr_record_of_loc shr_1 shr_m shr_r shr_s orb];
        (split; [rewrite <- Z.div2_div; reflexivity|]);
        (split; [reflexivity|]);
        split; intros H; first [reflexivity | discriminate H]. }
    destruct Hhalf as (Hm & Hr & Hs).
    assert (Hq2 : 2 * (q / 2) <= q < 2 * (q / 2) + 2)
      by (pose proof (Z.div_mod q 2 ltac:(lia)); pose proof (Z.mod_pos_bound q 2 ltac:(lia)); lia).
    set (up := negb (Z.eqb (round_nearest_even (shr_m half) (loc_of_shr_record half)) (shr_m half))).
    assert (Hup : round_nearest_even (shr_m half) (loc_of_shr_record half) = q / 2 + Z.b2z up /\
                  (up = true -> Z.odd q = true) /\
                  (Z.odd q = true -> loc <> loc_Exact -> up = true)).
    { unfold up. rewrite <- Hr. rewrite <- Hm.
      destruct half as [hm hr hs]. cbn [shr_m shr_r shr_s] in *.
      unfold loc_of_shr_record, round_nearest_even.
      destruct hr, hs; try destruct (Z.even hm);
        rewrite ?Z.eqb_refl; cbn [negb Z.b2z];
        try replace (hm + 1 =? hm) with false by (symmetry; apply Z.eqb_neq; lia);
        cbn [negb Z.b2z];
        (split; [lia|]);
        (split; [intros H0; first [reflexivity | discriminate H0]|]);
        intros H0 Hl; first [reflexivity | discriminate H0 | exfalso; apply Hl; apply Hs; reflexivity]. }
    destruct Hup as (Hv1 & Hodd & Hmore).
    destruct (round_renormalise sx
                (round_nearest_even (shr_m half) (loc_of_shr_record half)) (e + 1))
      as (mr & er & Hres & Her & Hv);
      [rewrite Hv1; destruct up; cbn [Z.b2z]; lia | lia |].
    exists mr, er, up. split; [exact Hres|]. split; [lia|]. split.
    + intros H. lia.
    + intros _. split; [|split; assumption].
      rewrite <- Hv1, <- Hv.
      replace (er - e) with (1 + (er - (e + 1))) by lia.
      rewrite Z.pow_add_r by lia. change (2 ^ 1) with 2. lia.
Qed.

(** The quotient of a whole number by sixty, before rounding: [q] counts
    units of [2 ^ (exponentOf z - 6)]. *)
Lemma Number_div_60 (sx : bool) (z : Z) :
  0 < z < 2 ^ 53 ->
  exists q r,
    Number_div (S754_finite sx (mantissaOf z) (exponentOf z)) (Number_of_Z 60)
      = binary_round_aux 53 1024 sx q (exponentOf z - 6)
          (if r =? 0 then loc_Exact else loc_Inexact (2 * r ?= 8444249301319680)) /\
    Zpos (mantissaOf z) * 9007199254740992 = 8444249301319680 * q + r /\
    0 <= r < 8444249301319680.
Proof.
  intros Hz. pose proof (whole_log2 z Hz) as Hl.
  destruct (mantissaOf_value z Hz) as [_ Hm].
  change (Number_of_Z 60) with (S754_finite false 8444249301319680 (-47)).
  unfold Number_div, SFdiv, SFdiv_core_binary. rewrite xorb_false_r.
  replace (Zdigits2 (Zpos (mantissaOf z))) with 53
    by (symmetry; cbn [Zdigits2]; apply digits2_pos_bounds; lia).
  change (Zdigits2 8444249301319680) with 53.
  replace (Z.min (fexp 53 1024 (53 + exponentOf z - (53 + -47))) (exponentOf z - -47))
    with (exponentOf z - 6) by (unfold fexp, emin, exponentOf; lia).
  replace (exponentOf z - -47 - (exponentOf z - 6)) with 53 by lia.
  rewrite Z.shiftl_mul_pow2 by lia. change (2 ^ 53) with 9007199254740992.
  pose proof (Z.div_eucl_eq (Zpos (mantissaOf z) * 9007199254740992) 8444249301319680
                ltac:(lia)) as Heq.
  pose proof (Z.mod_pos_bound (Zpos (mantissaOf z) * 9007199254740992) 8444249301319680
                ltac:(lia)) as Hr.
  unfold Z.modulo in Hr.
  destruct (Z.div_eucl (Zpos (mantissaOf z) * 9007199254740992) 8444249301319680)
    as [q r].
  exists q, r. split; [|split; [exact Heq | exact Hr]].
  unfold new_location. change (Z.even 8444249301319680) with true. cbv iota.
  reflexivity.
Qed.

(** The rounded quotient of a whole number by sixty has the floor (and,
    negated, the floor) of the exact quotient: the nearest doubles are
    at most [2 ^ (-5)] apart there, and the quotient is at least [1 / 60]
    away from the next whole number. *)
Lemma Number_div_60_whole (sx : bool) (z : Z) :
  0 < z < 2 ^ 53 ->
  exists mr er,
    Number_div (S754_finite sx (mantissaOf z) (exponentOf z)) (Number_of_Z 60)
      = S754_finite sx mr er /\
    er < 0 /\
    Zpos mr / 2 ^ (- er) = z / 60 /\
    (- Zpos mr) / 2 ^ (- er) = (- z) / 60.
Proof.
  intros Hz. pose proof (whole_log2 z Hz) as Hl.
  destruct (mantissaOf_value z Hz) as [HM Hm].
  destruct (Number_div_60 sx z Hz) as (q & r & Hdiv & Heq & Hr).
  set (M := Zpos (mantissaOf z)) in *.
  set (a := 2 ^ (52 - Z.log2 z)) in *.
  assert (Ha : 1 <= a) by (pose proof (Z.pow_pos_nonneg 2 (52 - Z.log2 z)); lia).
  set (e := exponentOf z - 6) in *.
  assert (He : -58 <= e <= -6) by (unfold e, exponentOf; lia).
  assert (Hq : 2 ^ 52 <= q < 2 ^ 54) by lia.
  destruct (binary_round_aux_quotient sx q e
              (if r =? 0 then loc_Exact else loc_Inexact (2 * r ?= 8444249301319680))
              Hq ltac:(lia))
    as (mr & er & up & Hres & Her & Hsmall & Hlarge).
  exists mr, er. split; [rewrite Hdiv; exact Hres|]. split; [lia|].
  (* the exact quotient, in units of [2 ^ e] *)
  pose proof (Z.div_mod z 60 ltac:(lia)) as Hz60.
  pose proof (Z.mod_pos_bound z 60 ltac:(lia)) as Ht.
  set (k := z / 60) in *. set (t := z mod 60) in *.
  set (K := a * k). set (T := a * t).
  assert (HMK : M = 60 * K + T) by (unfold K, T; rewrite HM, Hz60; ring).
  assert (HT : 0 <= T <= 59 * a) by (unfold T; nia).
  assert (HT0 : t = 0 -> T = 0) by (unfold T; intros ->; ring).
  assert (HT1 : 1 <= t -> a <= T) by (unfold T; nia).
  set (U := Zpos mr * 2 ^ (er - e)) in *.
  assert (Hunits : 2 ^ (- er) * 2 ^ (er - e) = 64 * a).
  { rewrite <- Z.pow_add_r by lia. unfold a, e, exponentOf.
    replace (- er + (er - (Z.log2 z - 52 - 6))) with (6 + (52 - Z.log2 z)) by lia.
    rewrite Z.pow_add_r by lia. reflexivity. }
  assert (Hc : 0 < 2 ^ (er - e)) by (apply Z.pow_pos_nonneg; lia).
  assert (Hb : 0 < 2 ^ (- er)) by (apply Z.pow_pos_nonneg; lia).
  assert (Hfloor : forall x, (x * 2 ^ (er - e)) / (64 * a) = x / 2 ^ (- er)).
  { intros x. rewrite <- Hunits. apply Z.div_mul_cancel_r; lia. }
  rewrite <- (Hfloor (Zpos mr)), <- (Hfloor (- Zpos mr)).
  replace (- Zpos mr * 2 ^ (er - e)) with (- U) by (unfold U; ring).
  fold U.
  assert (Hq2 : 2 * (q / 2) <= q < 2 * (q / 2) + 2)
    by (pose proof (Z.div_mod q 2 ltac:(lia)); pose proof (Z.mod_pos_bound q 2 ltac:(lia)); lia).
  assert (Hodd : q = 2 * (q / 2) + (if Z.odd q then 1 else 0))
    by (rewrite <- Z.div2_div; apply Zdiv2_odd_eqn).
  assert (Hloc : r <> 0 ->
            (if r =? 0 then loc_Exact else loc_Inexact (2 * r ?= 8444249301319680))
              <> loc_Exact).
  { intros Hne. destruct (Z.eqb_spec r 0) as [H0|H0]; [contradiction|discriminate]. }
  assert (Hexact : r = 0 ->
            (if r =? 0 then loc_Exact else loc_Inexact (2 * r ?= 8444249301319680))
              = loc_Exact) by (intros ->; reflexivity).
  (* the rounded quotient, in the same units *)
  assert (HU : 64 * K <= U < 64 * K + 64 * a /\
               (t = 0 -> U = 64 * K) /\ (1 <= t -> 64 * K < U)).
  { destruct (Z.ltb_spec q (2 ^ 53)) as [Hlt|Hge].
    - destruct (Hsmall Hlt) as [HUq Hup].
      destruct up; cbn [Z.b2z] in HUq.
      + split; [lia|]. split; [|lia].
        intros Ht0. specialize (HT0 Ht0).
        assert (r = 0) by lia. specialize (Hup (Hexact H)). discriminate.
      + split; [lia|]. split; [intros Ht0; specialize (HT0 Ht0); lia|].
        intros Ht1. specialize (HT1 Ht1). lia.
    - destruct (Hlarge Hge) as (HUq & Hupodd & Hmore).
      destruct up; cbn [Z.b2z] in HUq.
      + rewrite (Hupodd eq_refl) in Hodd.
        split; [lia|]. split; [|lia].
        intros Ht0. specialize (HT0 Ht0). lia.
      + destruct (Z.odd q) eqn:Hoq.
        * assert (Hr0 : r = 0).
          { destruct (Z.eq_dec r 0) as [H0|H0]; [exact H0|].
            specialize (Hmore eq_refl (Hloc H0)). discriminate. }
          split; [lia|]. split; [intros Ht0; specialize (HT0 Ht0); lia|].
          intros Ht1. specialize (HT1 Ht1). lia.
        * split; [lia|]. split; [intros Ht0; specialize (HT0 Ht0); lia|].
          intros Ht1. specialize (HT1 Ht1). lia. }
  destruct HU as (HU & HU0 & HU1).
  split.
  - symmetry. apply (Z.div_unique U (64 * a) k (U - 64 * K)); [lia|unfold K; ring].
  - pose proof (Z.div_mod (- z) 60 ltac:(lia)) as Hn.
    pose proof (Z.mod_pos_bound (- z) 60 ltac:(lia)) as Hnt.
    destruct (Z.eq_dec t 0) as [Ht0|Ht0].
    + replace (- z / 60) with (- k) by lia.
      symmetry. apply (Z.div_unique (- U) (64 * a) (- k) 0); [lia|].
      rewrite (HU0 Ht0). unfold K. ring.
    + replace (- z / 60) with (- k - 1) by lia.
      symmetry. apply (Z.div_unique (- U) (64 * a) (- k - 1) (64 * K + 64 * a - U));
        [lia|unfold K; ring].
Qed.

(* ================================================================== *)
(** ** Whole numbers in decimal *)
(* ================================================================== *)

Lemma append_empty (s : string) : (s ++ "")%string = s.
Proof. induction s as [|c s IH]; cbn [append]; [reflexivity | rewrite IH; reflexivity]. Qed.

Lemma append_associative (s t u : string) : ((s ++ t) ++ u)%string = (s ++ (t ++ u))%string.
Proof. induction s as [|c s IH]; cbn [append]; [reflexivity | rewrite IH; reflexivity]. Qed.

Lemma zeros_last (n : nat) : (zeros n ++ "0")%string = zeros (S n).
Proof. induction n as [|n IH]; [reflexivity|]. cbn [zeros append] in *. rewrite IH. reflexivity. Qed.

Lemma decimalFrom_rest (fuel : nat) (n : Z) (rest : string) :
  decimalFrom fuel n rest = (decimalFrom fuel n "" ++ rest)%string.
Proof.
  revert n rest. induction fuel as [|fuel IH]; intros n rest; cbn [decimalFrom].
  - reflexivity.
  - destruct (n / 10 =? 0); [reflexivity|].
    rewrite IH. rewrite (IH (n / 10) (String (digitOf (n mod 10)) "")).
    rewrite append_associative. reflexivity.
Qed.

Lemma decimalFrom_enough (fuel fuel' : nat) (n : Z) (rest : string) :
  (1 <= fuel)%nat -> (1 <= fuel')%nat ->
  0 <= n < 2 ^ Z.of_nat fuel -> n < 2 ^ Z.of_nat fuel' ->
  decimalFrom fuel n rest = decimalFrom fuel' n rest.
Proof.
  revert fuel' n rest. induction fuel as [|fuel IH]; intros fuel' n rest Hf Hf' Hn Hn'; [lia|].
  destruct fuel' as [|fuel']; [lia|]. cbn [decimalFrom].
  destruct (Z.eqb_spec (n / 10) 0) as [Hz|Hz]; [reflexivity|].
  pose proof (Z.div_mod n 10 ltac:(lia)) as Hdm.
  pose proof (Z.mod_pos_bound n 10 ltac:(lia)) as Hmod.
  assert (Hten : 1 <= n / 10) by lia.
  rewrite Nat2Z.inj_succ, Z.pow_succ_r in Hn, Hn' by lia.
  assert (Hfuel : forall f : nat, n < 2 * 2 ^ Z.of_nat f -> (1 <= f)%nat).
  { intros f H. destruct f as [|f]; [|lia]. change (2 ^ Z.of_nat 0) with 1 in H. lia. }
  apply IH; [apply Hfuel; lia | apply Hfuel; lia | lia | lia].
Qed.

Lemma decimal_times_ten (a : Z) :
  0 < a -> decimal (10 * a) = (decimal a ++ "0")%string.
Proof.
  intros Ha. unfold decimal at 1. cbn [decimalFrom].
  replace (10 * a mod 10) with 0 by (rewrite Z.mul_comm, Z.mod_mul; lia).
  replace (10 * a / 10) with a by (rewrite Z.mul_comm, Z.div_mul; lia).
  destruct (Z.eqb_spec a 0) as [H0|_]; [lia|].
  rewrite decimalFrom_rest. change (String (digitOf 0) "") with "0"%string. f_equal.
  unfold decimal.
  pose proof (Z.log2_spec a Ha) as Hs.
  pose proof (Z.log2_nonneg a) as Hl.
  assert (Hmono : 3 + Z.log2 a <= Z.log2 (10 * a)).
  { apply Z.log2_le_pow2; [lia|]. rewrite Z.pow_add_r by lia. change (2 ^ 3) with 8. lia. }
  assert (Hp : 2 ^ (Z.log2 a + 1) <= 2 ^ Z.log2 (10 * a))
    by (apply Z.pow_le_mono_r; lia).
  replace (Z.succ (Z.log2 a)) with (Z.log2 a + 1) in Hs by lia.
  apply decimalFrom_enough; rewrite ?Nat2Z.inj_succ, ?Z2Nat.id by lia; lia.
Qed.

Lemma decimal_shift (a : Z) (j : nat) :
  0 < a -> decimal (a * 10 ^ Z.of_nat j) = (decimal a ++ zeros j)%string.
Proof.
  intros Ha. induction j as [|j IH].
  - change (10 ^ Z.of_nat 0) with 1. rewrite Z.mul_1_r, append_empty. reflexivity.
  - rewrite Nat2Z.inj_succ, Z.pow_succ_r by lia.
    replace (a * (10 * 10 ^ Z.of_nat j)) with (10 * (a * 10 ^ Z.of_nat j)) by ring.
    rewrite decimal_times_ten
      by (apply Z.mul_pos_pos; [exact Ha | apply Z.pow_pos_nonneg; lia]).
    rewrite IH, append_associative, zeros_last. reflexivity.
Qed.

Lemma Qcompare_inject_Z (a b : Z) : Qcompare (inject_Z a) (inject_Z b) = (a ?= b)%Z.
Proof. unfold Qcompare, inject_Z. cbn [Qnum Qden]. rewrite !Z.mul_1_r. reflexivity. Qed.

Lemma valueOf_whole (z : Z) :
  0 < z < 2 ^ 53 -> valueOf (mantissaOf z) (exponentOf z) == inject_Z z.
Proof.
  intros Hz. pose proof (whole_log2 z Hz) as Hl.
  destruct (mantissaOf_value z Hz) as [HM _].
  unfold valueOf. rewrite HM. unfold pow2, exponentOf.
  assert (Hp : 0 < 2 ^ (52 - Z.log2 z)) by (apply Z.pow_pos_nonneg; lia).
  destruct (Z.leb_spec 0 (Z.log2 z - 52)) as [H0|H0].
  - replace (Z.log2 z - 52) with 0 by lia. replace (52 - Z.log2 z) with 0 by lia.
    change (2 ^ 0) with 1. rewrite Z.mul_1_r. apply Qmult_1_r.
  - replace (- (Z.log2 z - 52)) with (52 - Z.log2 z) by lia.
    unfold Qeq, Qmult, inject_Z. cbn [Qnum Qden].
    rewrite Pos.mul_1_l, Z2Pos.id by lia. ring.
Qed.

(** Half a unit in the last place of a whole number is at most a half. *)
Lemma pow2_small (e : Z) : e < 0 -> exists p, pow2 e = 1 # p /\ (2 <= p)%positive.
Proof.
  intros He. unfold pow2. destruct (Z.leb_spec 0 e) as [H|_]; [lia|].
  exists (Z.to_pos (2 ^ (- e))). split; [reflexivity|].
  assert (2 ^ 1 <= 2 ^ (- e)) by (apply Z.pow_le_mono_r; lia).
  change (2 ^ 1) with 2 in *.
  assert (H2 : 2 <= Zpos (Z.to_pos (2 ^ (- e)))) by (rewrite Z2Pos.id; lia).
  exact H2.
Qed.

Lemma below_whole (z y : Z) (x h : Q) (p : positive) :
  x == inject_Z z -> h = 1 # p -> (2 <= p)%positive ->
  Qcompare (x - h) (inject_Z y) = if z <=? y then Lt else Gt.
Proof.
  intros Hx -> Hp. rewrite Hx.
  destruct (Z.leb_spec z y) as [H|H].
  - apply (proj1 (Qlt_alt _ _)). unfold Qlt, Qminus, Qplus, Qopp, inject_Z. cbn [Qnum Qden]. nia.
  - apply (proj1 (Qgt_alt _ _)). unfold Qlt, Qminus, Qplus, Qopp, inject_Z. cbn [Qnum Qden]. nia.
Qed.

Lemma above_whole (z y : Z) (x h : Q) (p : positive) :
  x == inject_Z z -> h = 1 # p -> (2 <= p)%positive ->
  Qcompare (inject_Z y) (x + h) = if y <=? z then Lt else Gt.
Proof.
  intros Hx -> Hp. rewrite Hx.
  destruct (Z.leb_spec y z) as [H|H].
  - apply (proj1 (Qlt_alt _ _)). unfold Qlt, Qplus, inject_Z. cbn [Qnum Qden]. nia.
  - apply (proj1 (Qgt_alt _ _)). unfold Qlt, Qplus, inject_Z. cbn [Qnum Qden]. nia.
Qed.

(** Among whole numbers, only [z] itself rounds to the double for [z]. *)
Lemma roundsTo_whole (z y : Z) (w : Q) :
  0 < z < 2 ^ 53 -> w == inject_Z y ->
  roundsTo (mantissaOf z) (exponentOf z) w = (y =? z).
Proof.
  intros Hz Hw. pose proof (whole_log2 z Hz) as Hl.
  pose proof (valueOf_whole z Hz) as Hx.
  unfold roundsTo. cbv zeta.
  destruct (pow2_small (exponentOf z - 1) ltac:(unfold exponentOf; lia)) as (p & Hp & Hp2).
  assert (Hbelow : exists p', (if (Zpos (mantissaOf z) =? 2 ^ 52) && (-1074 <? exponentOf z)
                               then pow2 (exponentOf z - 2) else pow2 (exponentOf z - 1))
                              = 1 # p' /\ (2 <= p')%positive).
  { destruct ((Zpos (mantissaOf z) =? 2 ^ 52) && (-1074 <? exponentOf z));
      [apply pow2_small; unfold exponentOf; lia | exists p; split; assumption]. }
  destruct Hbelow as (p' & Hp' & Hp2').
  match goal with
  | |- match Qcompare ?lo w with _ => _ end = _ =>
      assert (Hlo : Qcompare lo w = if z <=? y then Lt else Gt)
        by (rewrite Hw; exact (below_whole z y _ _ p' Hx Hp' Hp2'))
  end.
  assert (Hhi : Qcompare w (valueOf (mantissaOf z) (exponentOf z) + pow2 (exponentOf z - 1))
                = if y <=? z then Lt else Gt)
    by (rewrite Hw; exact (above_whole z y _ _ p Hx Hp Hp2)).
  rewrite Hlo, Hhi.
  destruct (Z.leb_spec z y), (Z.leb_spec y z), (Z.eqb_spec y z); try lia; reflexivity.
Qed.

Lemma exponentUp_whole (fuel : nat) (n z : Z) (power x : Q) :
  x == inject_Z z -> power == inject_Z (10 ^ n) -> 1 <= n ->
  10 ^ (n - 1) <= z < 10 ^ (n + Z.of_nat fuel) ->
  let r := exponentUp fuel n power x in
  n <= r <= n + Z.of_nat fuel /\ 10 ^ (r - 1) <= z < 10 ^ r.
Proof.
  revert n power. induction fuel as [|fuel IH]; intros n power Hx Hp Hn Hz; cbn [exponentUp].
  - cbv zeta. replace (n + Z.of_nat 0) with n in Hz by lia. lia.
  - assert (Hc : Qcompare x power = (z ?= 10 ^ n)%Z)
      by (rewrite Hx, Hp; apply Qcompare_inject_Z).
    rewrite Hc.
    assert (Hnext : let r := exponentUp fuel (n + 1) (inject_Z 10 * power) x in
                    10 ^ n <= z ->
                    n + 1 <= r <= n + 1 + Z.of_nat fuel /\ 10 ^ (r - 1) <= z < 10 ^ r).
    { intros r Hge. apply IH; [exact Hx| |lia|].
      - replace (10 ^ (n + 1)) with (10 * 10 ^ n)
          by (rewrite Z.pow_add_r by lia; change (10 ^ 1) with 10; ring).
        rewrite inject_Z_mult, Hp. reflexivity.
      - replace (n + 1 - 1) with n by lia.
        replace (n + 1 + Z.of_nat fuel) with (n + Z.of_nat (S fuel)) by lia. lia. }
    cbv zeta in *.
    destruct (Z.compare_spec z (10 ^ n)) as [Heq|Hlt|Hgt].
    + destruct (Hnext ltac:(lia)). lia.
    + lia.
    + destruct (Hnext ltac:(lia)). lia.
Qed.

Lemma decimalExponent_whole (z : Z) (x : Q) :
  x == inject_Z z -> 0 < z < 2 ^ 53 ->
  1 <= decimalExponent x <= 16 /\
  10 ^ (decimalExponent x - 1) <= z < 10 ^ decimalExponent x.
Proof.
  intros Hx Hz. unfold decimalExponent.
  assert (Hc : Qcompare x (inject_Z 1) = (z ?= 1)%Z)
    by (rewrite Hx; apply Qcompare_inject_Z).
  rewrite Hc.
  assert (Hup : let r := exponentUp 310 1 (inject_Z 10) x in
                1 <= r <= 1 + Z.of_nat 310 /\ 10 ^ (r - 1) <= z < 10 ^ r).
  { apply exponentUp_whole; [exact Hx|reflexivity|lia|].
    change (10 ^ (1 - 1)) with 1. split; [lia|].
    assert (2 ^ 53 < 10 ^ (1 + Z.of_nat 310)) by (vm_compute; reflexivity). lia. }
  cbv zeta in Hup. destruct Hup as [Hr Hpow].
  assert (Hsmall : exponentUp 310 1 (inject_Z 10) x <= 16).
  { destruct (Z.leb_spec (exponentUp 310 1 (inject_Z 10) x) 16) as [H|H]; [exact H|].
    assert (10 ^ 16 <= 10 ^ (exponentUp 310 1 (inject_Z 10) x - 1))
      by (apply Z.pow_le_mono_r; lia).
    assert (2 ^ 53 < 10 ^ 16) by (vm_compute; reflexivity). lia. }
  destruct (Z.compare_spec z 1); try lia; (split; [lia|exact Hpow]).
Qed.

Lemma numeralOf_whole (z n k : Z) :
  0 < z < 2 ^ 53 -> 10 ^ (n - 1) <= z < 10 ^ n -> 1 <= k <= n ->
  numeralOf (mantissaOf z) (exponentOf z) n k
    = if z / 10 ^ (n - k) * 10 ^ (n - k) =? z then Some (z / 10 ^ (n - k), n) else None.
Proof.
  intros Hz Hn Hk. pose proof (valueOf_whole z Hz) as Hx.
  set (p := 10 ^ (n - k)).
  assert (Hp : 0 < p) by (apply Z.pow_pos_nonneg; lia).
  assert (Hunit : pow10 (n - k) = inject_Z p).
  { unfold pow10. destruct (Z.leb_spec 0 (n - k)); [reflexivity|lia]. }
  unfold numeralOf. cbv zeta. rewrite Hunit.
  assert (Hlow : Qfloor (valueOf (mantissaOf z) (exponentOf z) / inject_Z p) = z / p).
  { rewrite (Zdiv_Qdiv z p). apply Qfloor_comp. rewrite Hx. reflexivity. }
  rewrite Hlow.
  rewrite (roundsTo_whole z (z / p * p) _ Hz) by (rewrite inject_Z_mult; reflexivity).
  rewrite (roundsTo_whole z ((z / p + 1) * p) _ Hz) by (rewrite inject_Z_mult; reflexivity).
  pose proof (Z.div_mod z p ltac:(lia)) as Hdm.
  pose proof (Z.mod_pos_bound z p Hp) as Hmod.
  replace ((z / p + 1) * p =? z) with false by (symmetry; apply Z.eqb_neq; nia).
  destruct (z / p * p =? z); [|reflexivity].
  assert (Hdigits : z / p < 10 ^ k).
  { assert (Hsplit : 10 ^ n = 10 ^ k * p)
      by (unfold p; rewrite <- Z.pow_add_r by lia; f_equal; lia).
    apply Z.div_lt_upper_bound; [exact Hp|]. rewrite Z.mul_comm, <- Hsplit. lia. }
  replace (z / p =? 10 ^ k) with false by (symmetry; apply Z.eqb_neq; lia).
  reflexivity.
Qed.

Lemma shortestFrom_whole (fuel : nat) (z n k : Z) :
  0 < z < 2 ^ 53 -> 10 ^ (n - 1) <= z < 10 ^ n -> 1 <= k <= n -> n <= 21 ->
  n - k < Z.of_nat fuel ->
  let '(s10, n', k') := shortestFrom fuel (mantissaOf z) (exponentOf z) n k in
  numeral s10 n' k' = decimal z.
Proof.
  intros Hz Hn. revert k. induction fuel as [|fuel IH]; intros k Hk Hn21 Hfuel; [lia|].
  cbn [shortestFrom]. rewrite (numeralOf_whole z n k Hz Hn Hk).
  set (p := 10 ^ (n - k)).
  assert (Hp : 0 < p) by (apply Z.pow_pos_nonneg; lia).
  destruct (Z.eqb_spec (z / p * p) z) as [Heq|Hne].
  - unfold numeral.
    replace ((k <=? n) && (n <=? 21)) with true
      by (symmetry; apply andb_true_intro; split; apply Z.leb_le; lia).
    assert (Hpos : 0 < z / p) by nia.
    rewrite <- (decimal_shift (z / p) (Z.to_nat (n - k)) Hpos).
    rewrite Z2Nat.id by lia. fold p. rewrite Heq. reflexivity.
  - destruct (Z.eq_dec k n) as [->|Hkn].
    + exfalso. apply Hne. unfold p. replace (n - n) with 0 by lia.
      change (10 ^ 0) with 1. rewrite Z.div_1_r. lia.
    + apply IH; lia.
Qed.

(** [String(z)] for a whole number [z] below [2 ^ 53] is [z] in decimal. *)
Lemma Number_toString_whole (z : Z) :
  0 <= z < 2 ^ 53 -> Number_toString (Number_of_Z z) = decimal z.
Proof.
  intros Hz. destruct (Z.eq_dec z 0) as [->|Hne]; [reflexivity|].
  assert (Hz' : 0 < z < 2 ^ 53) by lia.
  rewrite (Number_of_Z_whole z Hz'). unfold Number_toString, shortest.
  pose proof (valueOf_whole z Hz') as Hx.
  destruct (decimalExponent_whole z _ Hx Hz') as [Hn Hpow].
  pose proof (shortestFrom_whole 17 z _ 1 Hz' Hpow ltac:(lia) ltac:(lia) ltac:(lia)) as Hs.
  destruct (shortestFrom 17 (mantissaOf z) (exponentOf z)
              (decimalExponent (valueOf (mantissaOf z) (exponentOf z))) 1) as [[s10 n'] k'].
  rewrite Hs. reflexivity.
Qed.

Lemma Number_toString_negative (z : Z) :
  0 < z < 2 ^ 53 -> Number_toString (Number_of_Z (- z)) = ("-" ++ decimal z)%string.
Proof.
  intros Hz.
  rewrite (Number_of_Z_negative z Hz). unfold Number_toString, shortest.
  pose proof (valueOf_whole z Hz) as Hx.
  destruct (decimalExponent_whole z _ Hx Hz) as [Hn Hpow].
  pose proof (shortestFrom_whole 17 z _ 1 Hz Hpow ltac:(lia) ltac:(lia) ltac:(lia)) as Hs.
  destruct (shortestFrom 17 (mantissaOf z) (exponentOf z)
              (decimalExponent (valueOf (mantissaOf z) (exponentOf z))) 1) as [[s10 n'] k'].
  rewrite Hs. reflexivity.
Qed.

(* ================================================================== *)
(** ** [durationWrapper] on whole numbers *)
(* ================================================================== *)

Lemma Math_floor_div_60 (z : Z) :
  0 <= z < 2 ^ 53 ->
  Math_floor (Number_div (Number_of_Z z) (Number_of_Z 60)) = Number_of_Z (z / 60).
Proof.
  intros Hz. destruct (Z.eq_dec z 0) as [->|Hne]; [reflexivity|].
  assert (Hz' : 0 < z < 2 ^ 53) by lia.
  rewrite (Number_of_Z_whole z Hz').
  destruct (Number_div_60_whole false z Hz') as (mr & er & -> & Her & Hfloor & _).
  unfold Math_floor. replace (0 <=? er) with false by (symmetry; apply Z.leb_gt; lia).
  cbn [cond_Zopp]. rewrite Hfloor.
  destruct (Z.eqb_spec (z / 60) 0) as [->|_]; reflexivity.
Qed.

Lemma Math_floor_div_60_negative (z : Z) :
  0 < z < 2 ^ 53 ->
  Math_floor (Number_div (Number_of_Z (- z)) (Number_of_Z 60)) = Number_of_Z (- z / 60).
Proof.
  intros Hz. rewrite (Number_of_Z_negative z Hz).
  destruct (Number_div_60_whole true z Hz) as (mr & er & -> & Her & _ & Hfloor).
  unfold Math_floor. replace (0 <=? er) with false by (symmetry; apply Z.leb_gt; lia).
  cbn [cond_Zopp]. change (Z.neg mr) with (- Zpos mr). rewrite Hfloor.
  pose proof (Z.div_mod (- z) 60 ltac:(lia)) as Hdm.
  pose proof (Z.mod_pos_bound (- z) 60 ltac:(lia)) as Hmod.
  destruct (Z.eqb_spec (- z / 60) 0) as [H0|_]; [lia|].
  unfold Number_of_Z, binary_normalize. destruct (- z / 60); [lia|reflexivity|reflexivity].
Qed.

Lemma Number_mul_negative (a b : Z) :
  0 < a -> 0 < b -> a * b < 2 ^ 53 ->
  Number_mul (Number_of_Z (- a)) (Number_of_Z b) = Number_of_Z (- (a * b)).
Proof.
  intros Ha Hb Hab.
  assert (Ha' : 0 < a < 2 ^ 53) by nia.
  assert (Hb' : 0 < b < 2 ^ 53) by nia.
  assert (Hab' : 0 < a * b < 2 ^ 53) by nia.
  rewrite (Number_of_Z_negative a Ha'), (Number_of_Z_whole b Hb'),
    (Number_of_Z_negative (a * b) Hab').
  unfold Number_mul, SFmul. cbn [xorb].
  destruct (mantissaOf_value a Ha') as [Hma _].
  destruct (mantissaOf_value b Hb') as [Hmb _].
  pose proof (whole_log2 a Ha') as Hla. pose proof (whole_log2 b Hb') as Hlb.
  pose proof (Z.log2_mul_below a b ltac:(lia) ltac:(lia)) as Hbelow.
  apply binary_round_aux_whole; [exact Hab'|unfold exponentOf; lia|].
  rewrite Pos2Z.inj_mul, Hma, Hmb. unfold exponentOf.
  replace (- (Z.log2 a - 52 + (Z.log2 b - 52)))
    with ((52 - Z.log2 a) + (52 - Z.log2 b)) by lia.
  rewrite Z.pow_add_r by lia. ring.
Qed.

Lemma Number_sub_negative (a b : Z) :
  0 < a -> a <= b -> b < 2 ^ 53 ->
  Number_sub (Number_of_Z (- a)) (Number_of_Z (- b)) = Number_of_Z (b - a).
Proof.
  intros Ha Hab Hb.
  assert (Ha' : 0 < a < 2 ^ 53) by lia.
  assert (Hb' : 0 < b < 2 ^ 53) by lia.
  rewrite (Number_of_Z_negative a Ha'), (Number_of_Z_negative b Hb').
  unfold Number_sub, SFsub. cbn [cond_Zopp].
  set (ez := Z.min (exponentOf a) (exponentOf b)).
  pose proof (whole_log2 a Ha') as Hla. pose proof (whole_log2 b Hb') as Hlb.
  assert (Hez : ez <= 0) by (unfold ez, exponentOf; lia).
  rewrite (aligned_whole a ez Ha') by (unfold ez; lia).
  rewrite (aligned_whole b ez Hb') by (unfold ez; lia).
  replace (- (a * 2 ^ (- ez)) - - (b * 2 ^ (- ez))) with ((b - a) * 2 ^ (- ez)) by ring.
  assert (Hp : 0 < 2 ^ (- ez)) by (apply Z.pow_pos_nonneg; lia).
  destruct (Z.eq_dec a b) as [->|Hne].
  - rewrite !Z.sub_diag. reflexivity.
  - assert (Hd : 0 < b - a < 2 ^ 53) by lia.
    rewrite (Number_of_Z_whole (b - a) Hd).
    rewrite <- (binary_round_whole false (b - a) ez Hd Hez).
    unfold binary_normalize.
    destruct ((b - a) * 2 ^ (- ez)) as [|p|p] eqn:Hp'; try nia.
    reflexivity.
Qed.

(** Below [2 ^ 53] every step of [durationWrapper] is exact but the
    division, and the division is floored before it is used. *)
Lemma durationWrapper_whole (s : Z) :
  0 <= s < 2 ^ 53 ->
  flatMinutes (durationWrapper s) = Number_of_Z (s / 60) /\
  seconds (durationWrapper s) = Number_of_Z (s mod 60).
Proof.
  intros Hs. unfold durationWrapper. cbn [flatMinutes seconds].
  rewrite (Math_floor_div_60 s Hs). split; [reflexivity|].
  pose proof (Z.div_mod s 60 ltac:(lia)) as Hdm.
  pose proof (Z.mod_pos_bound s 60 ltac:(lia)) as Hmod.
  destruct (Z.eq_dec (s / 60) 0) as [H0|H0].
  - rewrite H0. replace (s mod 60) with s by lia.
    destruct (Z.eq_dec s 0) as [->|Hne]; [reflexivity|].
    rewrite (Number_of_Z_whole s ltac:(lia)). reflexivity.
  - assert (Hk : 0 < s / 60) by (pose proof (Z.div_pos s 60 ltac:(lia) ltac:(lia)); lia).
    rewrite (Number_mul_whole (s / 60) 60 Hk ltac:(lia) ltac:(lia)).
    rewrite (Number_sub_whole s (s / 60 * 60) ltac:(lia) ltac:(lia) ltac:(lia)).
    f_equal. lia.
Qed.

Lemma durationWrapper_whole_negative (s : Z) :
  0 < s <= 2 ^ 52 ->
  flatMinutes (durationWrapper (- s)) = Number_of_Z (- s / 60) /\
  seconds (durationWrapper (- s)) = Number_of_Z (- s mod 60).
Proof.
  intros Hs. unfold durationWrapper. cbn [flatMinutes seconds].
  assert (H52 : 2 ^ 52 + 60 < 2 ^ 53) by (vm_compute; reflexivity).
  rewrite (Math_floor_div_60_negative s ltac:(lia)). split; [reflexivity|].
  pose proof (Z.div_mod (- s) 60 ltac:(lia)) as Hdm.
  pose proof (Z.mod_pos_bound (- s) 60 ltac:(lia)) as Hmod.
  set (c := - (- s / 60)).
  assert (Hc : 0 < c) by (unfold c; lia).
  replace (- s / 60) with (- c) by (unfold c; lia).
  rewrite (Number_mul_negative c 60 Hc ltac:(lia) ltac:(unfold c; lia)).
  rewrite (Number_sub_negative s (c * 60) ltac:(lia) ltac:(unfold c; lia) ltac:(unfold c; lia)).
  f_equal. unfold c. lia.
Qed.

Example durationWrapper_65 : timestamp (durationWrapper 65) = "1:5"%string.
Proof. vm_compute. reflexivity. Qed.

Example durationWrapper_3600 : timestamp (durationWrapper 3600) = "60:0"%string.
Proof. vm_compute. reflexivity. Qed.

(** The quotient is a double, not a fraction: for 73 seconds it is the
    double nearest to [73 / 60], which prints with seventeen digits. *)
Example durationWrapper_73 :
  decimalMinutes (durationWrapper 73) = S754_finite false 5479379546634103 (-52) /\
  Number_toString (decimalMinutes (durationWrapper 73)) = "1.2166666666666666"%string /\
  timestamp (durationWrapper 73) = "1:13"%string.
Proof. vm_compute. repeat split. Qed.

(** Numbers that are not whole, or not numbers. *)
Example durationWrapper_half :
  timestamp (durationWrapper (Number_div 1 2)) = "0:0.5"%string.
Proof. vm_compute. reflexivity. Qed.

Example durationWrapper_NaN : timestamp (durationWrapper S754_nan) = "NaN:NaN"%string.
Proof. vm_compute. reflexivity. Qed.

(** From [10 ^ 21] on a number prints with an exponent. *)
Example durationWrapper_exponent :
  timestamp (durationWrapper (6 * 10 ^ 22)) = "1e+21:0"%string.
Proof. vm_compute. reflexivity. Qed.

(** A number below sixty prints as one digit when it is below ten and as two
    digits otherwise: nothing is padded. *)
Lemma decimal_below_60 (k : Z) :
  0 <= k < 60 ->
  String.length (decimal k) = (if k <? 10 then 1%nat else 2%nat).
Proof.
  intros Hk.
  assert (Hall : forallb
            (fun n => Nat.eqb (String.length (decimal (Z.of_nat n)))
                              (if Z.of_nat n <? 10 then 1%nat else 2%nat))
            (seq 0 60) = true) by (vm_compute; reflexivity).
  rewrite forallb_forall in Hall.
  specialize (Hall (Z.to_nat k)).
  rewrite Z2Nat.id in Hall by lia.
  apply Nat.eqb_eq, Hall, in_seq. lia.
Qed.

(** C10, as the code has it. For a whole number of seconds [s] with
    [0 <= s < 2 ^ 53] (the whole numbers that double arithmetic keeps
    apart), [durationWrapper s] has [flatMinutes] the floor of [s / 60],
    which is [Math.floor] of the rounded quotient [decimalMinutes], and
    [seconds] the remainder [s - 60 * flatMinutes], a whole number from 0
    to 59; the timestamp is the two numbers printed in decimal and joined by
    a colon, the seconds taking one character when below ten (no zero
    padding), as in ["1:5"] for 65 seconds. *)
Theorem durationWrapper_floor_and_remainder (s : Z) :
  0 <= s < 2 ^ 53 ->
  let d := durationWrapper s in
  let minutes := s / 60 in
  let secondsLeft := s - 60 * minutes in
  (60 * minutes <= s < 60 * (minutes + 1)) /\
  0 <= secondsLeft < 60 /\
  flatMinutes d = Number_of_Z minutes /\
  seconds d = Number_of_Z secondsLeft /\
  flatMinutes d = Math_floor (decimalMinutes d) /\
  timestamp d = (decimal minutes ++ ":" ++ decimal secondsLeft)%string /\
  String.length (decimal secondsLeft) = (if secondsLeft <? 10 then 1%nat else 2%nat) /\
  timestamp (durationWrapper 65) = "1:5"%string.
Proof.
  intros Hs d minutes secondsLeft. subst secondsLeft minutes.
  pose proof (Z.div_mod s 60 ltac:(lia)) as Hdm.
  pose proof (Z.mod_pos_bound s 60 ltac:(lia)) as Hmod.
  assert (Hrem : s - 60 * (s / 60) = s mod 60) by lia.
  assert (Hmin : 0 <= s / 60 < 2 ^ 53)
    by (pose proof (Z.div_pos s 60 ltac:(lia) ltac:(lia)); lia).
  destruct (durationWrapper_whole s Hs) as [Hflat Hsec]. fold d in Hflat, Hsec.
  split; [lia|]. split; [lia|].
  split; [exact Hflat|]. split; [rewrite Hrem; exact Hsec|].
  split; [reflexivity|]. split; [|split].
  - change (timestamp d)
      with (Number_toString (flatMinutes d) ++ ":" ++ Number_toString (seconds d))%string.
    rewrite Hflat, Hsec, Hrem.
    rewrite (Number_toString_whole (s / 60) Hmin).
    rewrite (Number_toString_whole (s mod 60) ltac:(lia)). reflexivity.
  - apply decimal_below_60. lia.
  - vm_compute. reflexivity.
Qed.

Lemma durationWrapper_floor_and_remainder_witness :
  0 <= 65 < 2 ^ 53 /\
  flatMinutes (durationWrapper 65) = Number_of_Z 1 /\
  seconds (durationWrapper 65) = Number_of_Z 5 /\
  timestamp (durationWrapper 65) = "1:5"%string.
Proof.
  split; [lia|].
  destruct (durationWrapper_floor_and_remainder 65 ltac:(lia))
    as (_ & _ & Hflat & Hsec & _ & Hstamp & _).
  split; [exact Hflat|]. split; [exact Hsec | exact Hstamp].
Defined.

(** C10 as stated, for every nonnegative whole number of seconds, fails
    where doubles are further apart than one: [2 ^ 60] is a double, sixty
    times the floored quotient rounds back to [2 ^ 60], and the seconds come
    out as 0 where [s - 60 * floor (s / 60)] is 16. *)
Lemma durationWrapper_loses_the_seconds :
  let s := 2 ^ 60 in
  let d := durationWrapper s in
  0 <= s /\
  Number_of_Z s = S754_finite false (2 ^ 52) 8 /\
  s - 60 * (s / 60) = 16 /\
  flatMinutes d = Number_of_Z (s / 60) /\
  seconds d = Number_of_Z 0 /\
  seconds d <> Number_of_Z (s - 60 * (s / 60)) /\
  timestamp d = "19215358410114116:0"%string.
Proof.
  vm_compute. repeat split; try discriminate.
Qed.

(** ** The playback queue *)

Section QueueProperties.
Context {V : Carried} {P : AudioPlayer}.

Lemma created_Track_create q ref fetched info stream :
  created (Track_create q ref fetched info stream).
Proof. eexists. split; reflexivity. Qed.

(** A state change out of the idle state never calls back into
    [processQueue]: it announces the new track, or does nothing. *)
Lemma audioPlayer_setState_from_idle pq newState this :
  isIdle (audioPlayer this) = true ->
  audioPlayer_setState pq newState this
  = match newState with
    | AudioPlayerPlayingState resource =>
        emit (songStarted (reference (metadata resource))
                          (details (metadata resource)))
             (set_audioPlayer newState this)
    | _ => set_audioPlayer newState this
    end.
Proof.
  intros Hidle. unfold audioPlayer_setState, audioPlayer_onStateChange.
  rewrite Hidle, andb_false_r. destruct newState; reflexivity.
Qed.

Lemma processQueueFrom_blocked q this :
  queueLock this || negb (isIdle (audioPlayer this)) = true ->
  processQueueFrom q this = this.
Proof. intros H. destruct q; simpl; rewrite H; reflexivity. Qed.

(** The unfolding of [processQueue] when [play] accepts the head. *)
Lemma processQueue_accepted this nextTrack rest newState :
  queueLock this = false ->
  isIdle (audioPlayer this) = true ->
  queue this = nextTrack :: rest ->
  AudioPlayer_play (audioPlayer this) (audioResource nextTrack) = Assigned newState ->
  processQueue this
  = set_queueLock false
      (audioPlayer_setState processQueue newState (atHandOff nextTrack rest this)).
Proof.
  intros Hlock Hidle Hq Hplay. unfold processQueue. rewrite Hq.
  cbn [processQueueFrom]. rewrite Hlock, Hidle. cbn [orb negb].
  cbn [audioPlayer call set_queue set_queueLock]. rewrite Hplay.
  fold (atHandOff nextTrack rest this).
  rewrite !audioPlayer_setState_from_idle by exact Hidle.
  reflexivity.
Qed.

(** The unfolding of [processQueue] when [play] throws on the head. *)
Lemma processQueue_thrown this nextTrack rest error :
  queueLock this = false ->
  isIdle (audioPlayer this) = true ->
  queue this = nextTrack :: rest ->
  AudioPlayer_play (audioPlayer this) (audioResource nextTrack) = Thrown error ->
  processQueue this = processQueue (afterFailure nextTrack rest error this).
Proof.
  intros Hlock Hidle Hq Hplay. unfold processQueue at 1. rewrite Hq.
  cbn [processQueueFrom]. rewrite Hlock, Hidle. cbn [orb negb].
  cbn [audioPlayer call set_queue set_queueLock]. rewrite Hplay.
  reflexivity.
Qed.

Lemma blocked_false this :
  blocked this = false ->
  queueLock this = false /\ isIdle (audioPlayer this) = true /\
  exists nextTrack rest, queue this = nextTrack :: rest.
Proof.
  unfold blocked. intros H.
  apply orb_false_elim in H as [H Hq]. apply orb_false_elim in H as [Hl Hi].
  apply negb_false_iff in Hi. destruct (queue this) as [|t rest]; [discriminate|].
  eauto.
Qed.

Lemma processQueue_blocked this : blocked this = true -> processQueue this = this.
Proof.
  unfold blocked, processQueue. intros H.
  destruct (queueLock this || negb (isIdle (audioPlayer this))) eqn:Hg.
  - apply processQueueFrom_blocked, Hg.
  - destruct (queue this); [|discriminate]. cbn [processQueueFrom]. rewrite Hg.
    reflexivity.
Qed.

(** Induction along the calls [processQueue] makes to itself: either the guard
    stops it, or [play] accepts the head, or [play] throws and the method runs
    again on the rest of the queue. *)
Lemma processQueue_induction (Q : MusicSubscription -> MusicSubscription -> Prop) :
  (forall this, blocked this = true -> Q this this) ->
  (forall this nextTrack rest newState,
      queueLock this = false -> isIdle (audioPlayer this) = true ->
      queue this = nextTrack :: rest ->
      AudioPlayer_play (audioPlayer this) (audioResource nextTrack) = Assigned newState ->
      Q this (set_queueLock false
                (audioPlayer_setState processQueue newState
                   (atHandOff nextTrack rest this)))) ->
  (forall this nextTrack rest error,
      queueLock this = false -> isIdle (audioPlayer this) = true ->
      queue this = nextTrack :: rest ->
      AudioPlayer_play (audioPlayer this) (audioResource nextTrack) = Thrown error ->
      Q (afterFailure nextTrack rest error this)
        (processQueue (afterFailure nextTrack rest error this)) ->
      Q this (processQueue (afterFailure nextTrack rest error this))) ->
  forall this, Q this (processQueue this).
Proof.
  intros Hblocked Haccepted Hthrown this.
  remember (queue this) as q eqn:Hq. revert this Hq.
  induction q as [|t rest IH]; intros this Hq.
  - rewrite processQueue_blocked.
    + apply Hblocked. unfold blocked. rewrite <- Hq. apply orb_true_r.
    + unfold blocked. rewrite <- Hq. apply orb_true_r.
  - destruct (blocked this) eqn:Hb.
    + rewrite processQueue_blocked by exact Hb. apply Hblocked, Hb.
    + apply blocked_false in Hb as (Hlock & Hidle & _).
      symmetry in Hq.
      destruct (AudioPlayer_play (audioPlayer this) (audioResource t)) as [e|st] eqn:Hplay.
      * rewrite (processQueue_thrown this t rest e) by assumption.
        apply Hthrown; try assumption. apply IH. reflexivity.
      * rewrite (processQueue_accepted this t rest st) by assumption.
        apply Haccepted; assumption.
Qed.

Lemma handedOff_app (a b : list Call) : handedOff (a ++ b) = handedOff a ++ handedOff b.
Proof.
  induction a as [|c a IH]; [reflexivity|].
  destruct c; cbn [app handedOff]; rewrite IH; reflexivity.
Qed.

Lemma notifications_app (a b : list Call) :
  notifications (a ++ b) = notifications a ++ notifications b.
Proof.
  induction a as [|c a IH]; [reflexivity|].
  destruct c; cbn [app notifications]; rewrite IH; reflexivity.
Qed.

Lemma connectionCalls_app (a b : list Call) :
  connectionCalls (a ++ b) = connectionCalls a ++ connectionCalls b.
Proof. apply filter_app. Qed.

(** The state [processQueue] leaves behind when [play] accepted the head. *)
Lemma accepted_state this nextTrack rest newState :
  isIdle (audioPlayer this) = true ->
  set_queueLock false
    (audioPlayer_setState processQueue newState (atHandOff nextTrack rest this))
  = {| voiceConnection := voiceConnection this;
       audioPlayer := newState;
       queue := rest;
       queueLock := false;
       readyLock := readyLock this;
       calls := calls this
                ++ [PlayerPlay (audioPlayer this) (audioResource nextTrack)]
                ++ match newState with
                   | AudioPlayerPlayingState resource =>
                       [Emit (songStarted (reference (metadata resource))
                                          (details (metadata resource)))]
                   | _ => []
                   end |}.
Proof.
  intros Hidle. rewrite audioPlayer_setState_from_idle by exact Hidle.
  destruct newState; unfold set_queueLock, emit, call, set_audioPlayer, atHandOff, call,
    set_queue, set_queueLock; cbn; rewrite <- ?app_assoc, ?app_nil_r; reflexivity.
Qed.

(** [processQueue] touches neither the connection, nor the ready-guard, nor,
    in the end, the queue lock; and it makes no call on the connection. *)
Lemma processQueue_frame this :
  voiceConnection (processQueue this) = voiceConnection this /\
  readyLock (processQueue this) = readyLock this /\
  queueLock (processQueue this) = queueLock this /\
  connectionCalls (calls (processQueue this)) = connectionCalls (calls this).
Proof.
  apply (processQueue_induction
    (fun this res =>
       voiceConnection res = voiceConnection this /\
       readyLock res = readyLock this /\
       queueLock res = queueLock this /\
       connectionCalls (calls res) = connectionCalls (calls this))).
  - intros; repeat split; reflexivity.
  - intros s t rest st Hlock Hidle Hq Hplay.
    rewrite accepted_state by exact Hidle.
    cbn [voiceConnection readyLock queueLock calls].
    repeat split; try congruence.
    rewrite !connectionCalls_app. destruct st; cbn; apply app_nil_r.
  - intros s t rest e Hlock Hidle Hq Hplay (Hv & Hr & Hl & Hc).
    rewrite Hv, Hr, Hl, Hc. unfold afterFailure, atHandOff, emit.
    cbn [voiceConnection readyLock queueLock calls call set_queueLock set_queue].
    repeat split; try congruence.
    rewrite !connectionCalls_app. cbn. rewrite !app_nil_r. reflexivity.
Qed.

(** The queue only ever loses items from its front. *)
Lemma processQueue_suffix this :
  exists k, queue (processQueue this) = skipn k (queue this).
Proof.
  apply (processQueue_induction
    (fun this res => exists k, queue res = skipn k (queue this))).
  - intros s _. exists 0%nat. reflexivity.
  - intros s t rest st Hlock Hidle Hq Hplay.
    rewrite accepted_state by exact Hidle. exists 1%nat. rewrite Hq. reflexivity.
  - intros s t rest e Hlock Hidle Hq Hplay [k Hk].
    exists (S k). rewrite Hk, Hq. reflexivity.
Qed.

Lemma processQueue_length this :
  (List.length (queue (processQueue this)) <= List.length (queue this))%nat.
Proof.
  destruct (processQueue_suffix this) as [k ->]. rewrite length_skipn. lia.
Qed.

(** When the guard does not stop it, [processQueue] shortens the queue. *)
Lemma processQueue_progress this :
  blocked this = false ->
  (List.length (queue (processQueue this)) < List.length (queue this))%nat.
Proof.
  intros Hb. apply blocked_false in Hb as (Hlock & Hidle & t & rest & Hq).
  destruct (AudioPlayer_play (audioPlayer this) (audioResource t)) as [e|st] eqn:Hplay.
  - rewrite (processQueue_thrown this t rest e) by assumption.
    pose proof (processQueue_length (afterFailure t rest e this)) as Hlen.
    cbn in Hlen. rewrite Hq. cbn. lia.
  - rewrite (processQueue_accepted this t rest st) by assumption.
    rewrite accepted_state by exact Hidle. rewrite Hq. cbn. lia.
Qed.

(** The resources given to [play] so far, followed by the resources of the
    tracks still queued, do not change when [processQueue] runs. *)
Lemma processQueue_fifo this :
  handedOff (calls (processQueue this)) ++ map audioResource (queue (processQueue this))
  = handedOff (calls this) ++ map audioResource (queue this).
Proof.
  apply (processQueue_induction
    (fun this res =>
       handedOff (calls res) ++ map audioResource (queue res)
       = handedOff (calls this) ++ map audioResource (queue this))).
  - reflexivity.
  - intros s t rest st Hlock Hidle Hq Hplay.
    rewrite accepted_state by exact Hidle. cbn [calls queue]. rewrite Hq.
    rewrite !handedOff_app. cbn [handedOff map].
    destruct st; cbn [handedOff]; rewrite <- !app_assoc; reflexivity.
  - intros s t rest e Hlock Hidle Hq Hplay IH.
    rewrite IH, Hq. cbn. rewrite <- !app_assoc, !handedOff_app. cbn.
    rewrite <- app_assoc. reflexivity.
Qed.

(** [processQueue] calls [play] on an idle player only. *)
Lemma processQueue_plays_when_idle this :
  existsb playsOverActive (calls (processQueue this))
  = existsb playsOverActive (calls this).
Proof.
  apply (processQueue_induction
    (fun this res =>
       existsb playsOverActive (calls res) = existsb playsOverActive (calls this))).
  - reflexivity.
  - intros s t rest st Hlock Hidle Hq Hplay.
    rewrite accepted_state by exact Hidle. cbn [calls].
    rewrite !existsb_app. cbn [existsb playsOverActive]. rewrite Hidle.
    destruct st; cbn; rewrite ?orb_false_r; reflexivity.
  - intros s t rest e Hlock Hidle Hq Hplay IH.
    rewrite IH. cbn. rewrite <- app_assoc, !existsb_app. cbn. rewrite Hidle.
    cbn. apply orb_false_r.
Qed.

(** [processQueue] only adds to the history of calls. *)
Lemma processQueue_calls_extend this :
  exists later, calls (processQueue this) = calls this ++ later.
Proof.
  apply (processQueue_induction
    (fun this res => exists later, calls res = calls this ++ later)).
  - intros s _. exists []. symmetry. apply app_nil_r.
  - intros s t rest st Hlock Hidle Hq Hplay.
    rewrite accepted_state by exact Hidle. cbn [calls]. eauto.
  - intros s t rest e Hlock Hidle Hq Hplay [later Hlater].
    rewrite Hlater. unfold afterFailure, atHandOff, emit.
    cbn [calls call set_queueLock set_queue]. rewrite <- !app_assoc. eauto.
Qed.

(** When the guard does not stop it, the first thing [processQueue] does is
    to call [play] with the resource of the head of the queue. *)
Lemma processQueue_attempts_head this nextTrack rest :
  queueLock this = false -> isIdle (audioPlayer this) = true ->
  queue this = nextTrack :: rest ->
  exists later,
    calls (processQueue this)
    = calls this ++ PlayerPlay (audioPlayer this) (audioResource nextTrack) :: later.
Proof.
  intros Hlock Hidle Hq.
  destruct (AudioPlayer_play (audioPlayer this) (audioResource nextTrack))
    as [e|st] eqn:Hplay.
  - rewrite (processQueue_thrown this nextTrack rest e) by assumption.
    destruct (processQueue_calls_extend (afterFailure nextTrack rest e this))
      as [later ->].
    unfold afterFailure, atHandOff, emit.
    cbn [calls call set_queueLock set_queue]. rewrite <- !app_assoc. cbn [app]. eauto.
  - rewrite (processQueue_accepted this nextTrack rest st) by assumption.
    rewrite accepted_state by exact Hidle. cbn [calls app]. eauto.
Qed.

(** C2. [processQueue] returns the subscription exactly as it found it (no
    field changed, no call made) if and only if the queue lock is set, or the
    queue is empty, or the player is not idle. In every other state it goes
    on to call [play] with the resource of the head of the queue, at a moment
    when the lock is held and the head is already off the queue; and when the
    player accepts the resource the method ends with the lock free, the rest
    of the queue, and the player in the state [play] gave it. *)
Theorem processQueue_noop_iff_blocked this :
  (processQueue this = this <->
   queueLock this = true \/ queue this = [] \/ isIdle (audioPlayer this) = false) /\
  (forall nextTrack rest,
      queueLock this = false -> isIdle (audioPlayer this) = true ->
      queue this = nextTrack :: rest ->
      queueLock (atHandOff nextTrack rest this) = true /\
      queue (atHandOff nextTrack rest this) = rest /\
      calls (atHandOff nextTrack rest this)
        = calls this ++ [PlayerPlay (audioPlayer this) (audioResource nextTrack)] /\
      (exists later,
          calls (processQueue this) = calls (atHandOff nextTrack rest this) ++ later) /\
      forall newState,
        AudioPlayer_play (audioPlayer this) (audioResource nextTrack) = Assigned newState ->
        processQueue this
          = set_queueLock false
              (audioPlayer_setState processQueue newState
                 (atHandOff nextTrack rest this)) /\
        queueLock (processQueue this) = false /\
        queue (processQueue this) = rest /\
        audioPlayer (processQueue this) = newState).
Proof.
  split.
  - split.
    + intros Hsame. destruct (blocked this) eqn:Hb.
      * unfold blocked in Hb. apply orb_true_iff in Hb as [Hb|Hb].
        -- apply orb_true_iff in Hb as [Hb|Hb]; [left; exact Hb|].
           right; right. apply negb_true_iff, Hb.
        -- right; left. destruct (queue this); [reflexivity|discriminate].
      * apply processQueue_progress in Hb. rewrite Hsame in Hb. lia.
    + intros H. apply processQueue_blocked. unfold blocked.
      destruct H as [H|[H|H]]; rewrite H; cbn; rewrite ?orb_true_r; reflexivity.
  - intros t rest Hlock Hidle Hq.
    split; [reflexivity|]. split; [reflexivity|]. split; [reflexivity|].
    split.
    { destruct (processQueue_attempts_head this t rest Hlock Hidle Hq) as [later Hlater].
      exists later. rewrite Hlater. unfold atHandOff.
      cbn [calls call set_queue set_queueLock]. rewrite <- app_assoc. reflexivity. }
    intros st Hplay.
    rewrite (processQueue_accepted this t rest st) by assumption.
    split; [reflexivity|].
    rewrite accepted_state by exact Hidle.
    split; [reflexivity|]. split; reflexivity.
Qed.

(** C3. When [play] throws on the head of the queue, a [playingError]
    carrying that track's request context and the thrown error is emitted,
    the lock is released, and [processQueue] runs again on a queue that is
    exactly one item shorter: the failed track is gone for good (the queue
    that remains is a tail of the old one) and the next track, if there is
    one, is the next to be handed to the player. *)
Theorem processQueue_failure_skips_to_next this nextTrack rest error :
  queueLock this = false ->
  isIdle (audioPlayer this) = true ->
  queue this = nextTrack :: rest ->
  created nextTrack ->
  AudioPlayer_play (audioPlayer this) (audioResource nextTrack) = Thrown error ->
  let retry := afterFailure nextTrack rest error this in
  calls retry
    = calls this
      ++ [PlayerPlay (audioPlayer this) (audioResource nextTrack);
          Emit (playingError (Some (trackReference nextTrack)) error)] /\
  queueLock retry = false /\
  queue retry = rest /\
  S (List.length (queue retry)) = List.length (queue this) /\
  processQueue this = processQueue retry /\
  (exists k, queue (processQueue this) = skipn k rest) /\
  (forall next rest',
      rest = next :: rest' ->
      exists later,
        calls (processQueue this)
        = calls retry ++ PlayerPlay (audioPlayer this) (audioResource next) :: later).
Proof.
  intros Hlock Hidle Hq (resource & Hres & Href) Hplay retry.
  assert (Hcalls : calls retry
    = calls this
      ++ [PlayerPlay (audioPlayer this) (audioResource nextTrack);
          Emit (playingError (Some (trackReference nextTrack)) error)]).
  { subst retry. unfold afterFailure, atHandOff, emit.
    cbn [calls call set_queueLock set_queue]. rewrite Hres. cbn [option_map].
    rewrite Href, <- app_assoc. reflexivity. }
  assert (Hsame : processQueue this = processQueue retry)
    by (apply processQueue_thrown; assumption).
  split; [exact Hcalls|].
  split; [reflexivity|]. split; [reflexivity|].
  split; [rewrite Hq; reflexivity|].
  split; [exact Hsame|].
  split.
  - rewrite Hsame. apply (processQueue_suffix retry).
  - intros next rest' Hrest. rewrite Hsame.
    apply (processQueue_attempts_head retry next rest'); [reflexivity|exact Hidle|exact Hrest].
Qed.

(** *** The queue operations leave the connection side alone *)

Lemma connectionSide_processQueue this :
  connectionSide (processQueue this) = connectionSide this.
Proof.
  unfold connectionSide.
  destruct (processQueue_frame this) as (-> & -> & _ & ->). reflexivity.
Qed.

Lemma connectionSide_call_other c this :
  isConnectionCall c = false -> connectionSide (call c this) = connectionSide this.
Proof.
  intros Hc. unfold connectionSide. cbn [voiceConnection readyLock calls call].
  rewrite connectionCalls_app. cbn. rewrite Hc. rewrite app_nil_r. reflexivity.
Qed.

Lemma connectionSide_setState newState this :
  connectionSide (audioPlayer_setState processQueue newState this) = connectionSide this.
Proof.
  unfold audioPlayer_setState, audioPlayer_onStateChange.
  destruct (isIdle newState && negb (isIdle (audioPlayer this))).
  - destruct (playerResource (audioPlayer this)); [|reflexivity].
    rewrite connectionSide_processQueue. unfold emit.
    rewrite connectionSide_call_other by reflexivity. reflexivity.
  - destruct (isPlaying newState); [|reflexivity].
    destruct (playerResource newState); [|reflexivity].
    unfold emit. rewrite connectionSide_call_other by reflexivity. reflexivity.
Qed.

Lemma connectionSide_enqueue track this :
  connectionSide (enqueue track this) = connectionSide this.
Proof. unfold enqueue. rewrite connectionSide_processQueue. reflexivity. Qed.

Lemma connectionSide_stop this : connectionSide (stop this) = connectionSide this.
Proof.
  unfold stop.
  cbn [audioPlayer call set_queue set_queueLock].
  destruct (AudioPlayer_stop true (audioPlayer this)).
  - rewrite connectionSide_setState, connectionSide_call_other by reflexivity.
    reflexivity.
  - rewrite connectionSide_call_other by reflexivity. reflexivity.
Qed.

Lemma connectionSide_onError error this :
  connectionSide (audioPlayer_onError error this) = connectionSide this.
Proof. apply connectionSide_call_other. reflexivity. Qed.

(** *** Play order under the queue operations *)

Lemma playOrder_processQueue this : playOrder (processQueue this) = playOrder this.
Proof. apply processQueue_fifo. Qed.

Lemma playOrder_emit n this : playOrder (emit n this) = playOrder this.
Proof.
  unfold playOrder, emit. cbn [calls queue call]. rewrite handedOff_app. cbn.
  rewrite app_nil_r. reflexivity.
Qed.

Lemma playOrder_setState newState this :
  playOrder (audioPlayer_setState processQueue newState this) = playOrder this.
Proof.
  unfold audioPlayer_setState, audioPlayer_onStateChange.
  destruct (isIdle newState && negb (isIdle (audioPlayer this))).
  - destruct (playerResource (audioPlayer this)); [|reflexivity].
    rewrite playOrder_processQueue, playOrder_emit. reflexivity.
  - destruct (isPlaying newState); [|reflexivity].
    destruct (playerResource newState); [|reflexivity].
    rewrite playOrder_emit. reflexivity.
Qed.

Lemma playOrder_enqueue track this :
  playOrder (enqueue track this) = playOrder this ++ [audioResource track].
Proof.
  unfold enqueue. rewrite playOrder_processQueue. unfold playOrder.
  cbn [calls queue set_queue]. rewrite map_app, app_assoc. reflexivity.
Qed.

Lemma playsOverActive_emit n this :
  existsb playsOverActive (calls (emit n this)) = existsb playsOverActive (calls this).
Proof.
  unfold emit. cbn [calls call]. rewrite existsb_app. cbn. rewrite !orb_false_r.
  reflexivity.
Qed.

Lemma playsOverActive_setState newState this :
  existsb playsOverActive (calls (audioPlayer_setState processQueue newState this))
  = existsb playsOverActive (calls this).
Proof.
  unfold audioPlayer_setState, audioPlayer_onStateChange.
  destruct (isIdle newState && negb (isIdle (audioPlayer this))).
  - destruct (playerResource (audioPlayer this)); [|reflexivity].
    rewrite processQueue_plays_when_idle, playsOverActive_emit. reflexivity.
  - destruct (isPlaying newState); [|reflexivity].
    destruct (playerResource newState); [|reflexivity].
    rewrite playsOverActive_emit. reflexivity.
Qed.

Lemma playsOverActive_enqueue track this :
  existsb playsOverActive (calls (enqueue track this))
  = existsb playsOverActive (calls this).
Proof. unfold enqueue. rewrite processQueue_plays_when_idle. reflexivity. Qed.

(** C9. When the player's state changes, the listener emits [songStarted]
    exactly when the new state is the playing one, and [songEnded] exactly
    when the new state is idle and the old one was not; in every other case it
    emits nothing. Both carry the request context and the details stored in
    the metadata of the resource concerned (the new state's for [songStarted],
    the old state's for [songEnded]), which for a track made by [Track.create]
    is the track's own request context. After [songEnded] the listener calls
    [processQueue]: with the lock free and a track waiting, that track's
    resource is handed to the (now idle) player, and if the player starts it
    at once the next [songStarted] carries that track's request context. *)
Theorem audioPlayer_stateChange_notifications this newState :
  let oldState := audioPlayer this in
  let this' := audioPlayer_setState processQueue newState this in
  (forall resource,
      isIdle newState = true -> playerResource oldState = Some resource ->
      this' = processQueue
                (emit (songEnded (reference (metadata resource))
                                 (details (metadata resource)))
                      (set_audioPlayer newState this))) /\
  (forall resource,
      newState = AudioPlayerPlayingState resource ->
      this' = emit (songStarted (reference (metadata resource))
                                (details (metadata resource)))
                   (set_audioPlayer newState this)) /\
  (isPlaying newState = false ->
   isIdle newState = false \/ isIdle oldState = true ->
   this' = set_audioPlayer newState this) /\
  (forall track resource,
      created track -> audioResource track = Some resource ->
      reference (metadata resource) = trackReference track) /\
  (forall resource next rest nextResource,
      isIdle newState = true -> playerResource oldState = Some resource ->
      queueLock this = false -> queue this = next :: rest ->
      created next -> audioResource next = Some nextResource ->
      AudioPlayer_play newState (Some nextResource)
        = Assigned (AudioPlayerPlayingState nextResource) ->
      queue this' = rest /\
      audioPlayer this' = AudioPlayerPlayingState nextResource /\
      calls this'
      = calls this
        ++ [Emit (songEnded (reference (metadata resource))
                            (details (metadata resource)));
            PlayerPlay newState (Some nextResource);
            Emit (songStarted (trackReference next)
                              (details (metadata nextResource)))]).
Proof.
  intros oldState this'. subst oldState this'.
  assert (Hended : forall resource,
      isIdle newState = true -> playerResource (audioPlayer this) = Some resource ->
      audioPlayer_setState processQueue newState this
      = processQueue
          (emit (songEnded (reference (metadata resource))
                           (details (metadata resource)))
                (set_audioPlayer newState this))).
  { intros resource Hnew Hold. unfold audioPlayer_setState, audioPlayer_onStateChange.
    rewrite Hnew, Hold. destruct (audioPlayer this); try discriminate; reflexivity. }
  split; [exact Hended|]. split; [|split; [|split]].
  - intros resource ->. reflexivity.
  - intros Hplaying Hcase. unfold audioPlayer_setState, audioPlayer_onStateChange.
    rewrite Hplaying. destruct Hcase as [H|H]; rewrite H; cbn; rewrite ?andb_false_r;
      reflexivity.
  - intros track resource (r & Hr & Href) Hres. congruence.
  - intros resource next rest nextResource Hnew Hold Hlock Hq (r & Hr & Href) Hres Hplay.
    assert (r = nextResource) by congruence. subst r.
    rewrite (Hended resource Hnew Hold).
    destruct newState; try discriminate.
    set (s := emit _ _).
    rewrite (processQueue_accepted s next rest (AudioPlayerPlayingState nextResource));
      try reflexivity; try assumption.
    + rewrite accepted_state by reflexivity. subst s. cbn.
      rewrite Hres, Href, <- app_assoc. auto.
    + subst s. cbn. rewrite Hres. exact Hplay.
Qed.

(** *** [stop] *)

Lemma isIdle_eq st : isIdle st = true -> st = AudioPlayerIdleState.
Proof. destruct st; cbn; congruence. Qed.

(** What [stop] does, given a player that halts on a forced stop: it empties
    the queue, keeps the lock, leaves the player idle, and emits [songEnded]
    for the resource it interrupted, if there was one. *)
Lemma stop_result this :
  forcedStopHalts ->
  stop this
  = {| voiceConnection := voiceConnection this;
       audioPlayer := AudioPlayerIdleState;
       queue := [];
       queueLock := true;
       readyLock := readyLock this;
       calls := calls this ++ PlayerStop true ::
                match playerResource (audioPlayer this) with
                | Some resource =>
                    [Emit (songEnded (reference (metadata resource))
                                     (details (metadata resource)))]
                | None => []
                end |}.
Proof.
  intros Hhalts. unfold stop. cbn [audioPlayer call set_queue set_queueLock].
  specialize (Hhalts (audioPlayer this)).
  destruct (AudioPlayer_stop true (audioPlayer this)) as [st'|].
  - apply isIdle_eq in Hhalts. subst st'.
    unfold audioPlayer_setState, audioPlayer_onStateChange.
    cbn [audioPlayer call set_queue set_queueLock set_audioPlayer isIdle isPlaying andb].
    destruct (audioPlayer this) eqn:Hp; cbn [isIdle negb playerResource];
      try (rewrite processQueue_blocked by reflexivity;
           unfold emit, call; cbn; rewrite <- app_assoc; reflexivity).
    reflexivity.
  - apply isIdle_eq in Hhalts. unfold call, set_queue, set_queueLock. cbn.
    rewrite Hhalts. reflexivity.
Qed.

Lemma stop_halted this : forcedStopHalts -> halted (stop this) /\ queue (stop this) = [].
Proof. intros H. rewrite stop_result by exact H. repeat split. Qed.

(** On a halted subscription [processQueue] does nothing. *)
Lemma processQueue_halted this : queueLock this = true -> processQueue this = this.
Proof. intros H. apply processQueue_blocked. unfold blocked. rewrite H. reflexivity. Qed.

Lemma enqueue_halted track this :
  queueLock this = true ->
  enqueue track this = set_queue (queue this ++ [track]) this.
Proof. intros H. unfold enqueue. apply processQueue_halted. exact H. Qed.

End QueueProperties.

(** ** The connection supervisor *)

Section SupervisorProperties.
Context {V : Carried} {P : AudioPlayer}.

(** *** What the listener does, case by case *)

Lemma isWebSocketClose4014_Disconnected st :
  isWebSocketClose4014 st = true -> connectionStatus st = Disconnected.
Proof. destruct st; cbn; congruence. Qed.

Lemma listener_4014 oldState newState rt :
  state (voiceConnection (subscription rt)) = newState ->
  isWebSocketClose4014 newState = true ->
  run (voiceConnection_onStateChange oldState newState) rt
  = suspend (graceTask (now rt + 5000)) rt.
Proof.
  intros Hst H4014. unfold voiceConnection_onStateChange.
  rewrite (isWebSocketClose4014_Disconnected _ H4014), H4014.
  cbn -[Z.add]. rewrite Hst, (isWebSocketClose4014_Disconnected _ H4014).
  reflexivity.
Qed.

Lemma listener_backoff oldState newState rt :
  connectionStatus newState = Disconnected ->
  isWebSocketClose4014 newState = false ->
  rejoinAttempts (voiceConnection (subscription rt)) < 5 ->
  run (voiceConnection_onStateChange oldState newState) rt
  = suspend
      (backoffTask (now rt + (rejoinAttempts (voiceConnection (subscription rt)) + 1) * 5000))
      rt.
Proof.
  intros Hst H4014 Hn. unfold voiceConnection_onStateChange.
  rewrite Hst, H4014. cbn -[Z.add Z.mul Z.ltb].
  apply Z.ltb_lt in Hn. rewrite Hn. reflexivity.
Qed.

Lemma listener_give_up oldState newState rt :
  connectionStatus newState = Disconnected ->
  isWebSocketClose4014 newState = false ->
  5 <= rejoinAttempts (voiceConnection (subscription rt)) ->
  run (voiceConnection_onStateChange oldState newState) rt
  = set_subscription (call (ConnectionDestroy NoAttemptsLeft) (subscription rt)) rt.
Proof.
  intros Hst H4014 Hn. unfold voiceConnection_onStateChange.
  rewrite Hst, H4014. cbn -[Z.add Z.mul Z.ltb].
  apply Z.ltb_ge in Hn. rewrite Hn. reflexivity.
Qed.

Lemma listener_destroyed oldState newState rt :
  connectionStatus newState = Destroyed ->
  run (voiceConnection_onStateChange oldState newState) rt
  = set_subscription (stop (subscription rt)) rt.
Proof.
  intros Hst. unfold voiceConnection_onStateChange. rewrite Hst. reflexivity.
Qed.

Lemma listener_guard oldState newState rt :
  state (voiceConnection (subscription rt)) = newState ->
  connectionStatus newState = Connecting \/ connectionStatus newState = Signalling ->
  readyLock (subscription rt) = false ->
  run (voiceConnection_onStateChange oldState newState) rt
  = suspend (readyTask (now rt + 20000))
      (set_subscription (set_readyLock true (subscription rt)) rt).
Proof.
  intros Hst Hstatus Hlock. unfold voiceConnection_onStateChange.
  destruct Hstatus as [Hs|Hs]; rewrite Hs; cbn -[Z.add]; rewrite Hlock;
    cbn -[Z.add]; rewrite Hst, Hs; reflexivity.
Qed.

Lemma listener_idle oldState newState rt :
  connectionStatus newState = Ready \/
  (readyLock (subscription rt) = true /\
   (connectionStatus newState = Connecting \/ connectionStatus newState = Signalling)) ->
  run (voiceConnection_onStateChange oldState newState) rt = rt.
Proof.
  intros H. unfold voiceConnection_onStateChange.
  destruct H as [Hs|[Hlock [Hs|Hs]]]; rewrite Hs; cbn; rewrite ?Hlock, ?andb_false_r;
    reflexivity.
Qed.

(** *** What the suspended handlers do when they continue *)

Lemma run_graceTask d entered rt :
  run (resume (graceTask d) entered) rt
  = if entered then rt
    else set_subscription
           (call (ConnectionDestroy RemovedFromChannel) (subscription rt)) rt.
Proof. destruct entered; reflexivity. Qed.

Lemma run_backoffTask d entered rt :
  run (resume (backoffTask d) entered) rt
  = set_subscription (call ConnectionRejoin (subscription rt)) rt.
Proof. reflexivity. Qed.

Lemma run_readyTask d entered rt :
  run (resume (readyTask d) entered) rt
  = set_subscription
      (set_readyLock false
         (if entered then subscription rt
          else if VoiceConnectionStatus_eqb
                    (connectionStatus (state (voiceConnection (subscription rt))))
                    Destroyed
               then subscription rt
               else call (ConnectionDestroy NotReadyInTime) (subscription rt)))
      rt.
Proof.
  destruct entered; [reflexivity|]. cbn.
  destruct (VoiceConnectionStatus_eqb _ Destroyed); reflexivity.
Qed.

Lemma queueSide_call_connection c this :
  isConnectionCall c = true -> queueSide (call c this) = queueSide this.
Proof.
  intros Hc. unfold queueSide, queueCalls. cbn [audioPlayer queue queueLock calls call].
  rewrite filter_app. cbn. rewrite Hc. cbn. rewrite app_nil_r. reflexivity.
Qed.

Lemma handedOff_queueCalls cs : handedOff (queueCalls cs) = handedOff cs.
Proof.
  induction cs as [|c cs IH]; [reflexivity|].
  unfold queueCalls in *. destruct c; cbn; rewrite ?IH; reflexivity.
Qed.

Lemma notifications_queueCalls cs : notifications (queueCalls cs) = notifications cs.
Proof.
  induction cs as [|c cs IH]; [reflexivity|].
  unfold queueCalls in *. destruct c; cbn; rewrite ?IH; reflexivity.
Qed.

Lemma playsOverActive_queueCalls cs :
  existsb playsOverActive (queueCalls cs) = existsb playsOverActive cs.
Proof.
  induction cs as [|c cs IH]; [reflexivity|].
  unfold queueCalls in *. destruct c; cbn; rewrite ?IH; reflexivity.
Qed.

(** A continuing handler of the listener leaves the queue side alone, keeps
    the clock, and suspends nothing new. *)
Lemma run_supervisorTask t entered rt :
  supervisorTask t ->
  queueSide (subscription (run (resume t entered) rt)) = queueSide (subscription rt) /\
  voiceConnection (subscription (run (resume t entered) rt))
    = voiceConnection (subscription rt) /\
  now (run (resume t entered) rt) = now rt /\
  pending (run (resume t entered) rt) = pending rt.
Proof.
  intros [d|d|d].
  - rewrite run_graceTask. destruct entered; [repeat split|].
    cbn [subscription set_subscription now pending].
    rewrite queueSide_call_connection by reflexivity. repeat split.
  - rewrite run_backoffTask. cbn [subscription set_subscription now pending].
    rewrite queueSide_call_connection by reflexivity. repeat split.
  - rewrite run_readyTask. cbn [subscription set_subscription now pending].
    destruct entered; [repeat split|].
    destruct (VoiceConnectionStatus_eqb _ Destroyed); [repeat split|].
    split; [|repeat split].
    change (queueSide (set_readyLock false ?s)) with (queueSide s).
    apply queueSide_call_connection. reflexivity.
Qed.

Lemma resume_supervisorTasks (answer : Task -> bool) ts rt :
  Forall supervisorTask ts ->
  let rt' := fold_left (fun rt t => run (resume t (answer t)) rt) ts rt in
  queueSide (subscription rt') = queueSide (subscription rt) /\
  voiceConnection (subscription rt') = voiceConnection (subscription rt) /\
  now rt' = now rt /\
  pending rt' = pending rt.
Proof.
  intros Hts. revert rt. induction Hts as [|t ts Ht _ IH]; intros rt.
  - repeat split.
  - cbn [fold_left].
    destruct (run_supervisorTask t (answer t) rt Ht) as (Hq & Hv & Hn & Hp).
    destruct (IH (run (resume t (answer t)) rt)) as (Hq' & Hv' & Hn' & Hp').
    cbn zeta in *. rewrite Hq', Hv', Hn', Hp'. auto.
Qed.

Lemma Forall_filter {A} (Q : A -> Prop) (f : A -> bool) (l : list A) :
  Forall Q l -> Forall Q (filter f l).
Proof.
  intros H. apply Forall_forall. intros x Hx. apply filter_In in Hx as [Hx _].
  rewrite Forall_forall in H. auto.
Qed.

(** *** Events, one by one *)

Lemma tick_supervised rt :
  supervised rt ->
  supervised (tick rt) /\
  queueSide (subscription (tick rt)) = queueSide (subscription rt) /\
  voiceConnection (subscription (tick rt)) = voiceConnection (subscription rt) /\
  now (tick rt) = now rt + 1 /\
  pending (tick rt) = filter (fun t => negb (isDue (now rt + 1) t)) (pending rt).
Proof.
  intros Hs. unfold tick. cbn [now pending set_now set_pending].
  match goal with
  | |- context [fold_left ?f ?ts ?r] =>
      destruct (resume_supervisorTasks
                  (fun t => match wake t with WhenTime _ => true | WhenStatus _ _ => false end)
                  ts r) as (Hq & Hv & Hn & Hp)
  end.
  { apply Forall_filter, Hs. }
  cbn zeta in *. unfold supervised. rewrite Hq, Hv, Hn, Hp.
  cbn [subscription now pending set_now set_pending].
  repeat split. apply Forall_filter, Hs.
Qed.

Lemma queueEvent_frame e rt :
  isQueueEvent e = true ->
  connectionSide (subscription (step rt e)) = connectionSide (subscription rt) /\
  now (step rt e) = now rt /\
  pending (step rt e) = pending rt.
Proof.
  destruct e; try discriminate; intros _; cbn [step subscription set_subscription now pending].
  - rewrite connectionSide_enqueue. auto.
  - rewrite connectionSide_stop. auto.
  - rewrite connectionSide_setState. auto.
  - rewrite connectionSide_onError. auto.
Qed.

Lemma removals_connectionCalls cs : removals (connectionCalls cs) = removals cs.
Proof.
  induction cs as [|c cs IH]; [reflexivity|].
  unfold removals, connectionCalls in *.
  destruct c as [| | |[]|]; cbn; rewrite ?IH; reflexivity.
Qed.

Lemma removals_of_side this this' :
  connectionSide this' = connectionSide this ->
  removals (calls this') = removals (calls this).
Proof.
  unfold connectionSide. intros H. injection H as _ _ Hc.
  rewrite <- (removals_connectionCalls (calls this')), Hc.
  apply removals_connectionCalls.
Qed.

Lemma removals_call c this :
  isRemoval c = false -> removals (calls (call c this)) = removals (calls this).
Proof.
  intros Hc. unfold removals. cbn [calls call]. rewrite filter_app. cbn.
  rewrite Hc. apply app_nil_r.
Qed.

(** The listener, run up to its first await, suspends at most one handler of
    its own, and touches the queue side only by calling [stop] when the
    connection is destroyed. It never destroys the connection for a 4014
    close by itself, and it starts a grace period only for such a close. *)
Lemma listener_shape oldState rt :
  let newState := state (voiceConnection (subscription rt)) in
  exists this' ts,
    run (voiceConnection_onStateChange oldState newState) rt
    = set_pending (pending rt ++ ts) (set_subscription this' rt) /\
    Forall supervisorTask ts /\
    voiceConnection this' = voiceConnection (subscription rt) /\
    (if VoiceConnectionStatus_eqb (connectionStatus newState) Destroyed
     then this' = stop (subscription rt)
     else queueSide this' = queueSide (subscription rt)) /\
    removals (calls this') = removals (calls (subscription rt)) /\
    (isWebSocketClose4014 newState = false ->
     Forall (fun t => awaitsStatus Connecting t = false) ts) /\
    Nat.b2n (readyLock this')
    = (Nat.b2n (readyLock (subscription rt)) + List.length (filter isReadyTask ts))%nat.
Proof.
  intros newState.
  assert (Hself : forall r this',
             set_subscription this' r
             = set_pending (pending r ++ []) (set_subscription this' r)).
  { intros [s n p] this'. unfold set_pending, set_subscription. cbn.
    rewrite app_nil_r. reflexivity. }
  assert (Hnothing : exists this' ts,
             rt = set_pending (pending rt ++ ts) (set_subscription this' rt) /\
             Forall supervisorTask ts /\
             voiceConnection this' = voiceConnection (subscription rt) /\
             queueSide this' = queueSide (subscription rt) /\
             removals (calls this') = removals (calls (subscription rt)) /\
             (isWebSocketClose4014 newState = false ->
              Forall (fun t => awaitsStatus Connecting t = false) ts) /\
             Nat.b2n (readyLock this')
             = (Nat.b2n (readyLock (subscription rt))
                + List.length (filter isReadyTask ts))%nat).
  { exists (subscription rt), []. rewrite <- Hself.
    split; [destruct rt; reflexivity|]. cbn. rewrite Nat.add_0_r.
    repeat split; constructor. }
  assert (Hguard : readyLock (subscription rt) = false ->
             connectionStatus newState = Connecting \/
             connectionStatus newState = Signalling ->
             exists this' ts,
               suspend (readyTask (now rt + 20000))
                 (set_subscription (set_readyLock true (subscription rt)) rt)
               = set_pending (pending rt ++ ts) (set_subscription this' rt) /\
               Forall supervisorTask ts /\
               voiceConnection this' = voiceConnection (subscription rt) /\
               queueSide this' = queueSide (subscription rt) /\
               removals (calls this') = removals (calls (subscription rt)) /\
               (isWebSocketClose4014 newState = false ->
                Forall (fun t => awaitsStatus Connecting t = false) ts) /\
               Nat.b2n (readyLock this')
               = (Nat.b2n (readyLock (subscription rt))
                  + List.length (filter isReadyTask ts))%nat).
  { intros Hlock _.
    exists (set_readyLock true (subscription rt)), [readyTask (now rt + 20000)].
    rewrite Hlock. repeat split; repeat constructor. }
  destruct (isWebSocketClose4014 newState) eqn:H4014.
  { rewrite listener_4014 by auto.
    exists (subscription rt), [graceTask (now rt + 5000)].
    rewrite (isWebSocketClose4014_Disconnected _ H4014). cbn [VoiceConnectionStatus_eqb].
    cbn [filter isReadyTask graceTask wake List.length]. rewrite Nat.add_0_r.
    repeat split; try discriminate. repeat constructor. }
  destruct (connectionStatus newState) eqn:Hstatus; cbn [VoiceConnectionStatus_eqb].
  - (* Signalling *)
    destruct (readyLock (subscription rt)) eqn:Hlock.
    + rewrite listener_idle by auto. exact Hnothing.
    + rewrite listener_guard by auto. apply Hguard; auto.
  - (* Connecting *)
    destruct (readyLock (subscription rt)) eqn:Hlock.
    + rewrite listener_idle by auto. exact Hnothing.
    + rewrite listener_guard by auto. apply Hguard; auto.
  - (* Ready *)
    rewrite listener_idle by auto. exact Hnothing.
  - (* Disconnected *)
    destruct (Z_lt_le_dec (rejoinAttempts (voiceConnection (subscription rt))) 5) as [Hn|Hn].
    + rewrite listener_backoff by auto.
      eexists (subscription rt), [backoffTask _].
      cbn [filter isReadyTask backoffTask wake List.length]. rewrite Nat.add_0_r.
      repeat split; repeat constructor.
    + rewrite listener_give_up by auto.
      exists (call (ConnectionDestroy NoAttemptsLeft) (subscription rt)), [].
      split; [apply Hself|]. split; [constructor|]. split; [reflexivity|].
      split; [apply queueSide_call_connection; reflexivity|].
      split; [apply removals_call; reflexivity|].
      split; [constructor|]. cbn. rewrite Nat.add_0_r. reflexivity.
  - (* Destroyed *)
    rewrite listener_destroyed by auto.
    exists (stop (subscription rt)), [].
    split; [apply Hself|]. split; [constructor|].
    pose proof (connectionSide_stop (subscription rt)) as Hc.
    split; [unfold connectionSide in Hc; congruence|].
    split; [reflexivity|].
    split; [apply removals_of_side, Hc|].
    split; [constructor|]. cbn [filter List.length]. rewrite Nat.add_0_r.
    unfold connectionSide in Hc. injection Hc as _ Hr _. rewrite Hr. reflexivity.
Qed.

Lemma connectionStateChange_supervised connection rt :
  supervised rt ->
  let rt' := connectionStateChange connection rt in
  supervised rt' /\
  now rt' = now rt /\
  voiceConnection (subscription rt') = connection /\
  (if VoiceConnectionStatus_eqb (connectionStatus (state connection)) Destroyed
   then queueSide (subscription rt')
        = queueSide (stop (set_voiceConnection connection (subscription rt)))
   else queueSide (subscription rt') = queueSide (subscription rt)).
Proof.
  intros Hs rt'. subst rt'. unfold connectionStateChange.
  set (rt0 := set_subscription (set_voiceConnection connection (subscription rt)) rt).
  destruct (listener_shape (state (voiceConnection (subscription rt))) rt0)
    as (this' & ts & Hrun & Hts & Hv & Hq & _).
  cbn [rt0 subscription set_subscription voiceConnection set_voiceConnection] in Hrun, Hv, Hq.
  cbn zeta. fold rt0. rewrite Hrun.
  cbn [pending set_pending now subscription set_subscription rt0].
  assert (Hall : Forall supervisorTask (pending rt ++ ts))
    by (apply Forall_app; split; assumption).
  match goal with
  | |- context [resumeAll true ?woken ?r] =>
      destruct (resume_supervisorTasks (fun _ => true) woken r) as (Hq' & Hv' & Hn' & Hp')
  end.
  { apply Forall_filter, Hall. }
  cbn zeta in *. unfold resumeAll, supervised. rewrite Hq', Hv', Hn', Hp'.
  cbn [pending set_pending now subscription set_subscription].
  split; [apply Forall_filter, Hall|]. split; [reflexivity|]. split; [exact Hv|].
  destruct (VoiceConnectionStatus_eqb (connectionStatus (state connection)) Destroyed).
  - rewrite Hq. reflexivity.
  - exact Hq.
Qed.

(** Whatever happens, the suspended handlers are the listener's own. *)
Lemma step_supervised rt e : supervised rt -> supervised (step rt e).
Proof.
  intros Hs. destruct e; try exact Hs.
  - apply (connectionStateChange_supervised connection rt Hs).
  - apply (tick_supervised rt Hs).
Qed.

Lemma steps_supervised es rt : supervised rt -> supervised (steps rt es).
Proof.
  revert rt. induction es as [|e es IH]; intros rt Hs; [exact Hs|].
  apply IH, step_supervised, Hs.
Qed.

Lemma Runtime_new_supervised c : supervised (Runtime_new c).
Proof. constructor. Qed.

(** *** Play order along a run *)

Lemma playOrder_queueSide this this' :
  queueSide this' = queueSide this ->
  playOrder this' = playOrder this /\
  existsb playsOverActive (calls this') = existsb playsOverActive (calls this).
Proof.
  unfold queueSide, playOrder. intros H. injection H as Hp Hq Hl Hc.
  rewrite <- (handedOff_queueCalls (calls this')), <- (handedOff_queueCalls (calls this)).
  rewrite <- (playsOverActive_queueCalls (calls this')),
          <- (playsOverActive_queueCalls (calls this)).
  rewrite Hc, Hq. auto.
Qed.

Lemma step_playOrder rt e :
  supervised rt ->
  stops e = false ->
  playOrder (subscription (step rt e))
    = playOrder (subscription rt) ++ map audioResource (enqueued [e]) /\
  existsb playsOverActive (calls (subscription (step rt e)))
    = existsb playsOverActive (calls (subscription rt)).
Proof.
  intros Hs Hstop. destruct e; cbn [step enqueued map subscription set_subscription];
    rewrite ?app_nil_r.
  - rewrite playOrder_enqueue, playsOverActive_enqueue. auto.
  - discriminate.
  - rewrite playOrder_setState, playsOverActive_setState. auto.
  - unfold audioPlayer_onError. rewrite playOrder_emit, playsOverActive_emit. auto.
  - destruct (connectionStateChange_supervised connection rt Hs) as (_ & _ & _ & Hq).
    cbn [stops] in Hstop. rewrite Hstop in Hq. apply playOrder_queueSide, Hq.
  - destruct (tick_supervised rt Hs) as (_ & Hq & _). apply playOrder_queueSide, Hq.
Qed.

Lemma steps_playOrder es rt :
  supervised rt ->
  existsb stops es = false ->
  playOrder (subscription (steps rt es))
    = playOrder (subscription rt) ++ map audioResource (enqueued es) /\
  existsb playsOverActive (calls (subscription (steps rt es)))
    = existsb playsOverActive (calls (subscription rt)).
Proof.
  revert rt. induction es as [|e es IH]; intros rt Hs Hstop.
  - cbn. rewrite app_nil_r. auto.
  - cbn [existsb] in Hstop. apply orb_false_elim in Hstop as [He Hes].
    destruct (step_playOrder rt e Hs He) as [Ho Ha].
    destruct (IH (step rt e) (step_supervised rt e Hs) Hes) as [Ho' Ha'].
    cbn [steps fold_left]. fold (steps (step rt e) es).
    rewrite Ho', Ha', Ho, Ha. split; [|reflexivity].
    rewrite <- app_assoc, <- map_app. f_equal. f_equal.
    destruct e; reflexivity.
Qed.

(** *** After [stop] *)

Lemma queueSide_fields this this' :
  queueSide this' = queueSide this ->
  audioPlayer this' = audioPlayer this /\ queue this' = queue this /\
  queueLock this' = queueLock this /\
  handedOff (calls this') = handedOff (calls this) /\
  notifications (calls this') = notifications (calls this).
Proof.
  unfold queueSide. intros H. injection H as Hp Hq Hl Hc.
  rewrite <- (handedOff_queueCalls (calls this')), <- (handedOff_queueCalls (calls this)).
  rewrite <- (notifications_queueCalls (calls this')),
          <- (notifications_queueCalls (calls this)).
  rewrite Hc. auto.
Qed.

(** [stop] on a halted subscription: the queue goes, nothing else changes
    but the record of the call itself. *)
Lemma stop_when_halted this :
  forcedStopHalts -> halted this ->
  halted (stop this) /\ queue (stop this) = [] /\
  handedOff (calls (stop this)) = handedOff (calls this) /\
  notifications (calls (stop this)) = notifications (calls this).
Proof.
  intros Hhalts [Hlock Hidle]. rewrite stop_result by exact Hhalts.
  rewrite Hidle. cbn [playerResource calls queue].
  rewrite handedOff_app, notifications_app. cbn. rewrite !app_nil_r.
  repeat split.
Qed.

(** Once halted, a subscription stays halted as long as the player does not
    change state by itself; nothing is handed to the player, no notification
    about a song is emitted, and the queue only collects what is enqueued. *)
Lemma step_halted rt e :
  forcedStopHalts -> supervised rt -> halted (subscription rt) ->
  isPlayerStateChange e = false ->
  halted (subscription (step rt e)) /\
  handedOff (calls (subscription (step rt e))) = handedOff (calls (subscription rt)) /\
  songNotifications (calls (subscription (step rt e)))
    = songNotifications (calls (subscription rt)) /\
  queue (subscription (step rt e))
    = if stops e then [] else queue (subscription rt) ++ enqueued [e].
Proof.
  intros Hhalts Hs Hh He. pose proof Hh as [Hlock Hidle].
  destruct e; try discriminate;
    cbn [step subscription set_subscription stops enqueued].
  - rewrite enqueue_halted by exact Hlock. repeat split; assumption.
  - destruct (stop_when_halted _ Hhalts Hh) as (Hh' & Hq & Ho & Hn).
    unfold songNotifications. rewrite Hn. auto.
  - unfold audioPlayer_onError, emit, songNotifications.
    cbn [calls queue call]. rewrite handedOff_app, notifications_app, filter_app.
    cbn. rewrite !app_nil_r. repeat split; assumption.
  - destruct (connectionStateChange_supervised connection rt Hs) as (_ & _ & _ & Hq).
    destruct (VoiceConnectionStatus_eqb (connectionStatus (state connection)) Destroyed).
    + apply queueSide_fields in Hq as (Hp' & Hq' & Hl' & Ho' & Hn').
      destruct (stop_when_halted (set_voiceConnection connection (subscription rt))
                  Hhalts Hh) as ((Hl2 & Hp2) & Hq2 & Ho2 & Hn2).
      unfold halted, songNotifications.
      rewrite Hp', Hq', Hl', Ho', Hn', Hn2, Ho2. auto.
    + apply queueSide_fields in Hq as (Hp' & Hq' & Hl' & Ho' & Hn').
      unfold halted, songNotifications.
      rewrite Hp', Hq', Hl', Ho', Hn', app_nil_r. auto.
  - destruct (tick_supervised rt Hs) as (_ & Hq & _).
    apply queueSide_fields in Hq as (Hp' & Hq' & Hl' & Ho' & Hn').
    unfold halted, songNotifications.
    rewrite Hp', Hq', Hl', Ho', Hn', app_nil_r. auto.
Qed.

Lemma steps_halted es rt :
  forcedStopHalts -> supervised rt -> halted (subscription rt) ->
  existsb isPlayerStateChange es = false ->
  halted (subscription (steps rt es)) /\
  handedOff (calls (subscription (steps rt es))) = handedOff (calls (subscription rt)) /\
  songNotifications (calls (subscription (steps rt es)))
    = songNotifications (calls (subscription rt)) /\
  (existsb stops es = false ->
   queue (subscription (steps rt es)) = queue (subscription rt) ++ enqueued es) /\
  (existsb isEnqueue es = false -> queue (subscription rt) = [] ->
   queue (subscription (steps rt es)) = []).
Proof.
  intros Hhalts. revert rt. induction es as [|e es IH]; intros rt Hs Hh Hes.
  - cbn. rewrite app_nil_r. auto.
  - cbn [existsb] in Hes. apply orb_false_elim in Hes as [He Hes].
    destruct (step_halted rt e Hhalts Hs Hh He) as (Hh1 & Ho1 & Hn1 & Hq1).
    destruct (IH (step rt e) (step_supervised rt e Hs) Hh1 Hes)
      as (Hh2 & Ho2 & Hn2 & Hq2 & Hq3).
    cbn [steps fold_left]. fold (steps (step rt e) es).
    rewrite Ho2, Hn2, Ho1, Hn1. repeat split; try apply Hh2.
    + intros Hstops. cbn [existsb] in Hstops.
      apply orb_false_elim in Hstops as [Hstop Hstops].
      rewrite (Hq2 Hstops), Hq1, Hstop, <- app_assoc. f_equal.
      destruct e; reflexivity.
    + intros Henq Hempty. cbn [existsb] in Henq.
      apply orb_false_elim in Henq as [Henq1 Henq].
      apply (Hq3 Henq). rewrite Hq1. destruct (stops e); [reflexivity|].
      rewrite Hempty. destruct e; try reflexivity. discriminate.
Qed.

(** C5, as the code has it. Take any state a subscription can be in once
    [stop] has run, whatever followed the first [stop]: time passing, the
    connection changing state or being destroyed, player errors, further
    stops, new enqueues; anything but a state change the player makes by
    itself. There the lock is set and the player is idle, and calling [stop]
    again leaves the lock and the player's state as they are, emits no
    notification, and leaves the queue empty as the first [stop] left it.
    The second [stop] is a no-op on the queue exactly when nothing waits in
    it: when nothing was enqueued since, the queue is empty already; when no
    further [stop] came in between, the queue holds what was enqueued since
    the first one, and the second [stop] removes it. The player is assumed
    to halt on a forced stop. *)
Theorem stop_is_idempotent rt es :
  forcedStopHalts ->
  supervised rt ->
  existsb isPlayerStateChange es = false ->
  let first := subscription (step rt CallStop) in
  let stopped := subscription (steps (step rt CallStop) es) in
  let again := stop stopped in
  (queue first = [] /\ queueLock first = true /\
   audioPlayer first = AudioPlayerIdleState) /\
  (queueLock stopped = true /\ audioPlayer stopped = AudioPlayerIdleState) /\
  (queue again = queue first /\
   queueLock again = queueLock stopped /\
   audioPlayer again = audioPlayer stopped /\
   notifications (calls again) = notifications (calls stopped)) /\
  (existsb isEnqueue es = false ->
   queue stopped = [] /\ queue again = queue stopped) /\
  (existsb stops es = false ->
   queue stopped = enqueued es /\
   (queue again = queue stopped <-> enqueued es = [])).
Proof.
  intros Hhalts Hs Hplayer first stopped again.
  destruct (stop_halted (subscription rt) Hhalts) as [Hh Hq].
  destruct (steps_halted es (step rt CallStop) Hhalts (step_supervised rt CallStop Hs)
              Hh Hplayer) as (Hh' & _ & _ & Hsince & Hempty).
  fold stopped in Hh', Hempty, Hsince.
  destruct (stop_when_halted stopped Hhalts Hh') as ((Hl2 & Hp2) & Hq2 & _ & Hn2).
  fold again in Hl2, Hp2, Hq2, Hn2. destruct Hh' as [Hl Hp]. destruct Hh as [Hl0 Hp0].
  change (subscription (step rt CallStop)) with first in Hl0, Hp0, Hempty, Hsince.
  change (stop (subscription rt)) with first in Hq.
  split; [auto|]. split; [auto|]. split; [repeat split; congruence|].
  split.
  - intros Henq. specialize (Hempty Henq Hq). split; congruence.
  - intros Hstops. specialize (Hsince Hstops). rewrite Hq in Hsince.
    cbn [app] in Hsince. split; [exact Hsince|].
    rewrite Hq2, Hsince. split; intros H; congruence.
Qed.

(** C4, as the code has it. After [stop] the queue is empty, the player has
    been told to stop at once and is idle (the call itself emits [songEnded]
    for the resource it interrupted, if any), and the queue lock is set. The
    lock is never released again: whatever happens afterwards (new tracks
    enqueued, time passing, connection events, player errors), as long as the
    idle player does not change state by itself, the player stays idle,
    nothing is handed to it and no [songStarted] or [songEnded] is emitted. A
    later [enqueue] only appends to the queue. The player is assumed to halt
    on a forced stop. *)
Theorem stop_halts_for_good rt es :
  forcedStopHalts ->
  supervised rt ->
  existsb isPlayerStateChange es = false ->
  let stopped := subscription (step rt CallStop) in
  let later := subscription (steps (step rt CallStop) es) in
  queue stopped = [] /\
  audioPlayer stopped = AudioPlayerIdleState /\
  queueLock stopped = true /\
  In (PlayerStop true) (calls stopped) /\
  notifications (calls stopped)
    = notifications (calls (subscription rt))
      ++ match playerResource (audioPlayer (subscription rt)) with
         | Some resource => [songEnded (reference (metadata resource))
                                       (details (metadata resource))]
         | None => []
         end /\
  queueLock later = true /\
  audioPlayer later = AudioPlayerIdleState /\
  handedOff (calls later) = handedOff (calls stopped) /\
  songNotifications (calls later) = songNotifications (calls stopped) /\
  (existsb stops es = false -> queue later = enqueued es).
Proof.
  intros Hhalts Hs Hplayer stopped later.
  destruct (stop_halted (subscription rt) Hhalts) as [[Hl Hp] Hq].
  destruct (steps_halted es (step rt CallStop) Hhalts (step_supervised rt CallStop Hs)
              (conj Hl Hp) Hplayer) as ([Hl' Hp'] & Ho & Hn & Hqueue & _).
  fold later in Hl', Hp', Ho, Hn, Hqueue. fold stopped in Ho, Hn, Hqueue.
  repeat split; try assumption.
  - subst stopped. cbn [step subscription set_subscription].
    rewrite stop_result by exact Hhalts. cbn [calls].
    apply in_or_app. right. left. reflexivity.
  - subst stopped. cbn [step subscription set_subscription].
    rewrite stop_result by exact Hhalts. cbn [calls].
    rewrite notifications_app. cbn [notifications].
    destruct (playerResource (audioPlayer (subscription rt))); reflexivity.
  - intros Hstops. rewrite (Hqueue Hstops).
    change (queue stopped) with (queue (stop (subscription rt))). rewrite Hq.
    reflexivity.
Qed.

(** *** Waiting *)

Lemma ticks_cons e es : ticks (e :: es) = (if isTick e then 1 else 0) + ticks es.
Proof.
  unfold ticks. cbn [filter]. destruct (isTick e); cbn [List.length]; lia.
Qed.

Lemma ticks_nonneg es : 0 <= ticks es.
Proof. unfold ticks. lia. Qed.

Lemma tick_not_due rt :
  forallb (fun t => negb (isDue (now rt + 1) t)) (pending rt) = true ->
  tick rt = set_now (now rt + 1) rt.
Proof.
  intros H. unfold tick. cbn [now pending set_now set_pending].
  assert (Hnone : filter (isDue (now rt + 1)) (pending rt) = []).
  { rewrite forallb_forall in H.
    destruct (filter (isDue (now rt + 1)) (pending rt)) as [|t ts] eqn:Hf; [reflexivity|].
    assert (Hin : In t (filter (isDue (now rt + 1)) (pending rt)))
      by (rewrite Hf; left; reflexivity).
    apply filter_In in Hin as [Hin Hdue]. apply H in Hin. rewrite Hdue in Hin.
    discriminate. }
  assert (Hall : filter (fun t => negb (isDue (now rt + 1) t)) (pending rt) = pending rt).
  { rewrite forallb_forall in H. clear Hnone.
    induction (pending rt) as [|t ts IH]; [reflexivity|]. cbn.
    rewrite (H t) by (left; reflexivity). f_equal. apply IH.
    intros x Hx. apply H. right. exact Hx. }
  rewrite Hnone, Hall. destruct rt; reflexivity.
Qed.

(** While a single handler is suspended and its deadline is ahead, quiet
    events leave it suspended and leave the connection side as it is. *)
Lemma steps_waiting es rt t :
  pending rt = [t] ->
  forallb isQuiet es = true ->
  now rt + ticks es < deadline (wake t) ->
  pending (steps rt es) = [t] /\
  now (steps rt es) = now rt + ticks es /\
  connectionSide (subscription (steps rt es)) = connectionSide (subscription rt).
Proof.
  revert rt. induction es as [|e es IH]; intros rt Hp Hquiet Hlt.
  - cbn. unfold ticks. cbn. rewrite Z.add_0_r. auto.
  - cbn [forallb] in Hquiet. apply andb_true_iff in Hquiet as [He Hes].
    rewrite ticks_cons in Hlt. pose proof (ticks_nonneg es) as Hnn.
    cbn [steps fold_left]. fold (steps (step rt e) es). rewrite ticks_cons.
    unfold isQuiet in He. destruct (isQueueEvent e) eqn:Hqe.
    + destruct (queueEvent_frame e rt Hqe) as (Hc & Hn & Hp').
      assert (Htick : isTick e = false) by (destruct e; try discriminate; reflexivity).
      rewrite Htick in *.
      destruct (IH (step rt e)) as (Hp2 & Hn2 & Hc2); try congruence.
      * rewrite Hn. lia.
      * rewrite Hp2, Hn2, Hc2, Hn, Hc. repeat split; lia.
    + destruct e; try discriminate. cbn [isTick] in *. cbn [step].
      assert (Hnd : tick rt = set_now (now rt + 1) rt).
      { apply tick_not_due. rewrite Hp. cbn. unfold isDue.
        rewrite andb_true_r. apply negb_true_iff, Z.leb_gt. lia. }
      rewrite Hnd.
      destruct (IH (set_now (now rt + 1) rt)) as (Hp2 & Hn2 & Hc2); try assumption.
      * cbn [now set_now]. lia.
      * rewrite Hp2, Hn2, Hc2. cbn [now set_now subscription]. repeat split; lia.
Qed.

(** With nothing suspended, quiet events leave the connection side as it is. *)
Lemma steps_nothing_pending es rt :
  pending rt = [] ->
  forallb isQuiet es = true ->
  pending (steps rt es) = [] /\
  connectionSide (subscription (steps rt es)) = connectionSide (subscription rt).
Proof.
  revert rt. induction es as [|e es IH]; intros rt Hp Hquiet; [auto|].
  cbn [forallb] in Hquiet. apply andb_true_iff in Hquiet as [He Hes].
  cbn [steps fold_left]. fold (steps (step rt e) es).
  unfold isQuiet in He. destruct (isQueueEvent e) eqn:Hqe.
  - destruct (queueEvent_frame e rt Hqe) as (Hc & Hn & Hp').
    destruct (IH (step rt e)) as (Hp2 & Hc2); try congruence.
    rewrite Hp2, Hc2, Hc. auto.
  - destruct e; try discriminate. cbn [step].
    rewrite tick_not_due by (rewrite Hp; reflexivity).
    destruct (IH (set_now (now rt + 1) rt)) as (Hp2 & Hc2); auto.
Qed.

(** The tick on which the only suspended handler is due: it runs. *)
Lemma tick_due rt t :
  pending rt = [t] ->
  deadline (wake t) <= now rt + 1 ->
  tick rt
  = run (resume t (match wake t with WhenTime _ => true | WhenStatus _ _ => false end))
        (set_pending [] (set_now (now rt + 1) rt)).
Proof.
  intros Hp Hdue. unfold tick. cbn [now pending set_now set_pending].
  rewrite Hp. cbn [filter]. unfold isDue.
  apply Z.leb_le in Hdue. rewrite Hdue. reflexivity.
Qed.

(** *** Connection events, with at most one handler suspended *)

Ltac listener_step lemma :=
  unfold step, connectionStateChange;
  cbn [subscription set_subscription voiceConnection set_voiceConnection state];
  rewrite lemma by (cbn [subscription set_subscription voiceConnection
                         set_voiceConnection state readyLock]; auto);
  cbn [suspend pending set_pending set_subscription subscription now].

Lemma disconnected_backoff rt c :
  pending rt = [] ->
  connectionStatus (state c) = Disconnected ->
  isWebSocketClose4014 (state c) = false ->
  rejoinAttempts c < 5 ->
  step rt (ConnectionStateChange c)
  = {| subscription := set_voiceConnection c (subscription rt);
       now := now rt;
       pending := [backoffTask (now rt + (rejoinAttempts c + 1) * 5000)] |}.
Proof.
  intros Hp Hst H4014 Hn. listener_step listener_backoff.
  rewrite Hp, Hst. reflexivity.
Qed.

Lemma disconnected_4014 rt c :
  pending rt = [] ->
  isWebSocketClose4014 (state c) = true ->
  step rt (ConnectionStateChange c)
  = {| subscription := set_voiceConnection c (subscription rt);
       now := now rt;
       pending := [graceTask (now rt + 5000)] |}.
Proof.
  intros Hp H4014. listener_step listener_4014.
  rewrite Hp, (isWebSocketClose4014_Disconnected _ H4014). reflexivity.
Qed.

Lemma connecting_starts_bound rt c :
  pending rt = [] ->
  connectionStatus (state c) = Connecting \/ connectionStatus (state c) = Signalling ->
  readyLock (subscription rt) = false ->
  step rt (ConnectionStateChange c)
  = {| subscription := set_readyLock true (set_voiceConnection c (subscription rt));
       now := now rt;
       pending := [readyTask (now rt + 20000)] |}.
Proof.
  intros Hp Hst Hlock. listener_step listener_guard.
  rewrite Hp. destruct Hst as [-> | ->]; reflexivity.
Qed.

Lemma connecting_ends_grace rt c d :
  pending rt = [graceTask d] ->
  connectionStatus (state c) = Connecting ->
  step rt (ConnectionStateChange c)
  = {| subscription :=
         if readyLock (subscription rt) then set_voiceConnection c (subscription rt)
         else set_readyLock true (set_voiceConnection c (subscription rt));
       now := now rt;
       pending := if readyLock (subscription rt) then []
                  else [readyTask (now rt + 20000)] |}.
Proof.
  intros Hp Hst. destruct (readyLock (subscription rt)) eqn:Hlock.
  - listener_step listener_idle. rewrite Hp, Hst. reflexivity.
  - listener_step listener_guard. rewrite Hp, Hst. reflexivity.
Qed.

Lemma connecting_under_guard rt c d :
  pending rt = [readyTask d] ->
  connectionStatus (state c) = Connecting \/ connectionStatus (state c) = Signalling ->
  readyLock (subscription rt) = true ->
  step rt (ConnectionStateChange c)
  = {| subscription := set_voiceConnection c (subscription rt);
       now := now rt;
       pending := [readyTask d] |}.
Proof.
  intros Hp Hst Hlock. listener_step listener_idle.
  rewrite Hp. destruct Hst as [-> | ->]; reflexivity.
Qed.

Lemma ready_ends_bound rt c d :
  pending rt = [readyTask d] ->
  connectionStatus (state c) = Ready ->
  step rt (ConnectionStateChange c)
  = {| subscription := set_readyLock false (set_voiceConnection c (subscription rt));
       now := now rt;
       pending := [] |}.
Proof.
  intros Hp Hst. listener_step listener_idle.
  rewrite Hp, Hst. reflexivity.
Qed.

Lemma destroyed_under_guard rt c d :
  pending rt = [readyTask d] ->
  connectionStatus (state c) = Destroyed ->
  step rt (ConnectionStateChange c)
  = {| subscription := stop (set_voiceConnection c (subscription rt));
       now := now rt;
       pending := [readyTask d] |}.
Proof.
  intros Hp Hst. listener_step listener_destroyed.
  rewrite Hp, Hst. reflexivity.
Qed.

Lemma connectionCalls_of_side this this' :
  connectionSide this' = connectionSide this ->
  connectionCalls (calls this') = connectionCalls (calls this) /\
  readyLock this' = readyLock this /\
  voiceConnection this' = voiceConnection this.
Proof. unfold connectionSide. intros H. injection H as Hv Hr Hc. auto. Qed.

(** The ready bound, from the moment it is started. *)
Lemma ready_bound_waiting rt d es :
  pending rt = [readyTask d] ->
  forallb isQuiet es = true ->
  now rt + ticks es < d ->
  pending (steps rt es) = [readyTask d] /\
  now (steps rt es) = now rt + ticks es /\
  readyLock (subscription (steps rt es)) = readyLock (subscription rt) /\
  voiceConnection (subscription (steps rt es)) = voiceConnection (subscription rt) /\
  connectionCalls (calls (subscription (steps rt es)))
  = connectionCalls (calls (subscription rt)).
Proof.
  intros Hp Hquiet Hlt.
  destruct (steps_waiting es rt (readyTask d) Hp Hquiet Hlt) as (Hp' & Hn' & Hc).
  apply connectionCalls_of_side in Hc as (Hc & Hl & Hv). auto.
Qed.

(** The tick on which the ready bound runs out. *)
Lemma ready_bound_expires rt d :
  pending rt = [readyTask d] ->
  d <= now rt + 1 ->
  pending (tick rt) = [] /\
  now (tick rt) = now rt + 1 /\
  readyLock (subscription (tick rt)) = false /\
  connectionCalls (calls (subscription (tick rt)))
  = connectionCalls (calls (subscription rt))
    ++ (if VoiceConnectionStatus_eqb
             (connectionStatus (state (voiceConnection (subscription rt)))) Destroyed
        then []
        else [ConnectionDestroy NotReadyInTime]).
Proof.
  intros Hp Hdue. rewrite (tick_due rt (readyTask d) Hp) by exact Hdue.
  rewrite run_readyTask.
  cbn [wake readyTask subscription set_subscription set_pending set_now now pending
       readyLock set_readyLock calls].
  destruct (VoiceConnectionStatus_eqb _ Destroyed).
  - rewrite app_nil_r. auto.
  - cbn [calls call]. rewrite connectionCalls_app. auto.
Qed.

(** *** The ready-guard and the number of running bounds *)

Lemma readyLock_after_resume (answer : Task -> bool) ts rt :
  Forall supervisorTask ts ->
  readyLock (subscription (fold_left (fun rt t => run (resume t (answer t)) rt) ts rt))
  = if existsb isReadyTask ts then false else readyLock (subscription rt).
Proof.
  intros Hts. revert rt. induction Hts as [|t ts Ht _ IH]; intros rt; [reflexivity|].
  cbn [fold_left existsb]. rewrite IH. destruct Ht as [d|d|d].
  - rewrite run_graceTask. cbn [isReadyTask graceTask wake orb].
    destruct (answer _); reflexivity.
  - rewrite run_backoffTask. reflexivity.
  - rewrite run_readyTask. cbn [isReadyTask readyTask wake orb].
    destruct (existsb isReadyTask ts); reflexivity.
Qed.

Lemma filter_split_length {A} (f g : A -> bool) (l : list A) :
  (List.length (filter f (filter g l))
   + List.length (filter f (filter (fun x => negb (g x)) l)))%nat
  = List.length (filter f l).
Proof.
  induction l as [|x l IH]; [reflexivity|].
  cbn [filter]. destruct (g x); cbn [negb filter]; destruct (f x); cbn [List.length]; lia.
Qed.

Lemma existsb_filter_length {A} (f : A -> bool) (l : list A) :
  existsb f l = negb (Nat.eqb (List.length (filter f l)) 0).
Proof.
  induction l as [|x l IH]; [reflexivity|].
  cbn [existsb filter]. destruct (f x); [reflexivity|exact IH].
Qed.

(** Resuming some of the suspended handlers and keeping the others keeps the
    guard in step with the number of bounds. *)
Lemma guard_after_resume (answer : Task -> bool) (sel : Task -> bool) all rt :
  Forall supervisorTask all ->
  List.length (filter isReadyTask all) = Nat.b2n (readyLock (subscription rt)) ->
  List.length (filter isReadyTask (filter (fun t => negb (sel t)) all))
  = Nat.b2n (readyLock (subscription
      (fold_left (fun rt t => run (resume t (answer t)) rt) (filter sel all) rt))).
Proof.
  intros Hall Hcount.
  rewrite readyLock_after_resume by (apply Forall_filter, Hall).
  rewrite existsb_filter_length.
  pose proof (filter_split_length isReadyTask sel all) as Hsplit.
  destruct (readyLock (subscription rt)); cbn [Nat.b2n] in *;
    destruct (List.length (filter isReadyTask (filter sel all))) as [|k] eqn:Hk;
    cbn [Nat.eqb negb Nat.b2n]; lia.
Qed.

Lemma step_guarded rt e : supervised rt -> guarded rt -> guarded (step rt e).
Proof.
  intros Hs Hg. destruct (isQueueEvent e) eqn:Hqe.
  { destruct (queueEvent_frame e rt Hqe) as (Hc & _ & Hp).
    apply connectionCalls_of_side in Hc as (_ & Hl & _).
    unfold guarded in *. unfold readyBounds in *. rewrite Hp, Hl. exact Hg. }
  destruct e; try discriminate.
  - cbn [step]. unfold connectionStateChange.
    set (rt0 := set_subscription (set_voiceConnection connection (subscription rt)) rt).
    destruct (listener_shape (state (voiceConnection (subscription rt))) rt0)
      as (this' & ts & Hrun & Hts & _ & _ & _ & _ & Hcount).
    cbn [rt0 subscription set_subscription voiceConnection set_voiceConnection readyLock]
      in Hrun, Hcount.
    cbn zeta. fold rt0. rewrite Hrun.
    cbn [pending set_pending now subscription set_subscription rt0].
    assert (Hall : Forall supervisorTask (pending rt ++ ts))
      by (apply Forall_app; split; assumption).
    unfold guarded, resumeAll. unfold readyBounds.
    match goal with
    | |- context [fold_left ?f ?woken ?r] =>
        destruct (resume_supervisorTasks (fun _ => true) woken r) as (_ & _ & _ & Hp');
          [apply Forall_filter, Hall|]
    end.
    cbn zeta in Hp'. rewrite Hp'. cbn [pending set_pending].
    apply (guard_after_resume (fun _ => true)); [exact Hall|].
    cbn [subscription set_pending set_subscription].
    rewrite filter_app, length_app, Hcount.
    unfold guarded in Hg. unfold readyBounds in Hg. rewrite Hg.
    reflexivity.
  - cbn [step]. unfold tick. cbn [now pending set_now set_pending].
    unfold guarded. unfold readyBounds.
    match goal with
    | |- context [fold_left ?f ?due ?r] =>
        destruct (resume_supervisorTasks
                    (fun t => match wake t with WhenTime _ => true | WhenStatus _ _ => false end)
                    due r) as (_ & _ & _ & Hp');
          [apply Forall_filter, Hs|]
    end.
    cbn zeta in Hp'. rewrite Hp'. cbn [pending set_pending].
    apply (guard_after_resume
             (fun t => match wake t with WhenTime _ => true | WhenStatus _ _ => false end));
      [exact Hs|exact Hg].
Qed.

Lemma steps_guarded es rt :
  supervised rt -> guarded rt -> guarded (steps rt es).
Proof.
  revert rt. induction es as [|e es IH]; intros rt Hs Hg; [exact Hg|].
  cbn [steps fold_left]. fold (steps (step rt e) es).
  apply IH; [apply step_supervised, Hs|apply step_guarded; assumption].
Qed.

(** *** Filters, and the clock along a run *)

Lemma filter_comm {A} (f g : A -> bool) (l : list A) :
  filter f (filter g l) = filter g (filter f l).
Proof.
  induction l as [|x l IH]; [reflexivity|].
  cbn [filter]. destruct (f x) eqn:Hf, (g x) eqn:Hg; cbn [filter];
    rewrite ?Hf, ?Hg, IH; reflexivity.
Qed.

Lemma step_now rt e :
  supervised rt -> now (step rt e) = now rt + (if isTick e then 1 else 0).
Proof.
  intros Hs. destruct e; cbn [step isTick now set_subscription]; try lia.
  - destruct (connectionStateChange_supervised connection rt Hs) as (_ & Hn & _).
    rewrite Hn. lia.
  - destruct (tick_supervised rt Hs) as (_ & _ & _ & Hn & _). exact Hn.
Qed.


(** *** One wait among other events *)

Lemma listener_run oldState rt :
  run (voiceConnection_onStateChange oldState
         (state (voiceConnection (subscription rt)))) rt
  = set_pending (pending rt ++ snd (listenerOutcome rt))
      (set_subscription (fst (listenerOutcome rt)) rt).
Proof.
  assert (Hself : forall this',
             set_subscription this' rt
             = set_pending (pending rt ++ []) (set_subscription this' rt)).
  { intros this'. destruct rt as [s n p]. unfold set_pending, set_subscription. cbn.
    rewrite app_nil_r. reflexivity. }
  assert (Hrt : rt = set_pending (pending rt ++ []) (set_subscription (subscription rt) rt)).
  { rewrite <- Hself. destruct rt; reflexivity. }
  unfold listenerOutcome.
  destruct (isWebSocketClose4014 (state (voiceConnection (subscription rt)))) eqn:H4014.
  { rewrite listener_4014 by auto.
    rewrite (isWebSocketClose4014_Disconnected _ H4014). reflexivity. }
  destruct (connectionStatus (state (voiceConnection (subscription rt)))) eqn:Hstatus.
  - destruct (readyLock (subscription rt)) eqn:Hlock.
    + rewrite listener_idle by auto. exact Hrt.
    + rewrite listener_guard by auto. reflexivity.
  - destruct (readyLock (subscription rt)) eqn:Hlock.
    + rewrite listener_idle by auto. exact Hrt.
    + rewrite listener_guard by auto. reflexivity.
  - rewrite listener_idle by auto. exact Hrt.
  - destruct (rejoinAttempts (voiceConnection (subscription rt)) <? 5) eqn:Hn.
    + rewrite listener_backoff by (auto; apply Z.ltb_lt, Hn). reflexivity.
    + rewrite listener_give_up by (auto; apply Z.ltb_ge, Hn). apply Hself.
  - rewrite listener_destroyed by auto. apply Hself.
Qed.

Lemma listenerOutcome_supervisor rt : Forall supervisorTask (snd (listenerOutcome rt)).
Proof.
  unfold listenerOutcome.
  destruct (connectionStatus _); cbn;
    repeat match goal with |- context [if ?b then _ else _] => destruct b end;
    cbn; repeat constructor.
Qed.

Lemma filter_nil_Forall {A} (f : A -> bool) (l : list A) :
  filter f l = [] <-> Forall (fun x => f x = false) l.
Proof.
  induction l as [|x l IH]; cbn [filter].
  - split; constructor.
  - destruct (f x) eqn:Hx; split; intros H.
    + discriminate.
    + inversion H; congruence.
    + constructor; [exact Hx|apply IH, H].
    + inversion H; subst. apply IH. assumption.
Qed.

Section OneWait.

(** The kind of wait that is watched, and the calls that are watched. *)
Variable kind : Task -> bool.
Variable seen : Call -> bool.

(** The watched calls a wait of that kind makes when it times out. *)
Variable fired : VoiceConnection -> list Call.

Hypothesis seen_connection : forall c, seen c = true -> isConnectionCall c = true.

Hypothesis others_unseen : forall t answer rt,
  supervisorTask t -> kind t = false ->
  filter seen (calls (subscription (run (resume t answer) rt)))
  = filter seen (calls (subscription rt)).

Hypothesis kind_fires : forall t rt,
  supervisorTask t -> kind t = true ->
  filter seen (calls (subscription (run (resume t (timedOut t)) rt)))
  = filter seen (calls (subscription rt)) ++ fired (voiceConnection (subscription rt)).

Lemma seen_of_side this this' :
  connectionSide this' = connectionSide this ->
  filter seen (calls this') = filter seen (calls this).
Proof.
  assert (Hfilter : forall cs, filter seen (connectionCalls cs) = filter seen cs).
  { induction cs as [|c cs IH]; [reflexivity|]. unfold connectionCalls in *.
    cbn [filter]. destruct (isConnectionCall c) eqn:Hc; cbn [filter].
    - rewrite IH. reflexivity.
    - destruct (seen c) eqn:Hs; [|exact IH].
      apply seen_connection in Hs. congruence. }
  unfold connectionSide. intros H. injection H as _ _ Hc.
  rewrite <- (Hfilter (calls this')), Hc. apply Hfilter.
Qed.

Lemma resume_unseen (answer : Task -> bool) ts rt :
  Forall supervisorTask ts -> filter kind ts = [] ->
  filter seen (calls (subscription
     (fold_left (fun rt t => run (resume t (answer t)) rt) ts rt)))
  = filter seen (calls (subscription rt)).
Proof.
  intros Hts. revert rt. induction Hts as [|t ts Ht _ IH]; intros rt Hnone.
  - reflexivity.
  - cbn [filter] in Hnone. destruct (kind t) eqn:Hk; [discriminate|].
    cbn [fold_left]. rewrite IH by exact Hnone. apply others_unseen; assumption.
Qed.

(** When timers fire, each wait of the kind among them makes its calls, and
    nothing else makes a watched call. *)
Lemma seen_after_timeouts ts rt :
  Forall supervisorTask ts ->
  filter seen (calls (subscription
     (fold_left (fun rt t => run (resume t (timedOut t)) rt) ts rt)))
  = filter seen (calls (subscription rt))
    ++ List.concat (repeat (fired (voiceConnection (subscription rt)))
                      (List.length (filter kind ts))).
Proof.
  intros Hts. revert rt. induction Hts as [|t ts Ht _ IH]; intros rt.
  - cbn. rewrite app_nil_r. reflexivity.
  - cbn [fold_left filter]. rewrite IH.
    destruct (run_supervisorTask t (timedOut t) rt Ht) as (_ & Hv & _).
    rewrite Hv. destruct (kind t) eqn:Hk.
    + rewrite kind_fires by assumption. cbn [List.length repeat List.concat].
      rewrite <- app_assoc. reflexivity.
    + rewrite others_unseen by assumption. reflexivity.
Qed.

Lemma tick_fold rt :
  tick rt
  = fold_left (fun rt t => run (resume t (timedOut t)) rt)
      (filter (isDue (now rt + 1)) (pending rt))
      (set_pending (filter (fun t => negb (isDue (now rt + 1) t)) (pending rt))
                   (set_now (now rt + 1) rt)).
Proof. reflexivity. Qed.

(** A tick before the deadline of every wait of the kind. *)
Lemma tick_waiting ws rt :
  supervised rt -> waiting kind ws rt ->
  Forall (fun w => now rt + 1 < deadline (wake w)) ws ->
  waiting kind ws (tick rt) /\
  filter seen (calls (subscription (tick rt))) = filter seen (calls (subscription rt)).
Proof.
  intros Hs Hw Hlate.
  assert (Hkeep : filter (fun t => negb (isDue (now rt + 1) t)) ws = ws
                  /\ filter (isDue (now rt + 1)) ws = []).
  { clear Hw. induction Hlate as [|w ws Hw1 _ [IH1 IH2]]; [split; reflexivity|].
    assert (Hd : isDue (now rt + 1) w = false) by (apply Z.leb_gt; lia).
    cbn [filter]. rewrite Hd. cbn [negb]. rewrite IH1, IH2. split; reflexivity. }
  destruct (tick_supervised rt Hs) as (_ & _ & _ & _ & Hp).
  split.
  - unfold waiting in *. rewrite Hp, filter_comm, Hw. apply Hkeep.
  - rewrite tick_fold, seen_after_timeouts by (apply Forall_filter, Hs).
    unfold waiting in Hw. rewrite filter_comm, Hw, (proj2 Hkeep). cbn.
    apply app_nil_r.
Qed.

(** The tick on which the one wait of the kind is due. *)
Lemma tick_fires w rt :
  supervised rt -> waiting kind [w] rt ->
  deadline (wake w) <= now rt + 1 ->
  waiting kind [] (tick rt) /\
  filter seen (calls (subscription (tick rt)))
  = filter seen (calls (subscription rt)) ++ fired (voiceConnection (subscription rt)).
Proof.
  intros Hs Hw Hdue.
  assert (Hd : isDue (now rt + 1) w = true) by (apply Z.leb_le; exact Hdue).
  destruct (tick_supervised rt Hs) as (_ & _ & _ & _ & Hp).
  split.
  - unfold waiting in *. rewrite Hp, filter_comm, Hw. cbn [filter]. rewrite Hd.
    reflexivity.
  - rewrite tick_fold, seen_after_timeouts by (apply Forall_filter, Hs).
    unfold waiting in Hw. rewrite filter_comm, Hw. cbn [filter]. rewrite Hd.
    cbn [set_pending set_now subscription List.length repeat List.concat].
    rewrite app_nil_r. reflexivity.
Qed.

(** A report of the connection that neither starts nor ends a wait of the
    kind. *)
Lemma connection_keeps_waiting ws rt c :
  supervised rt -> waiting kind ws rt ->
  let rt0 := set_subscription (set_voiceConnection c (subscription rt)) rt in
  filter kind (snd (listenerOutcome rt0)) = [] ->
  filter seen (calls (fst (listenerOutcome rt0))) = filter seen (calls (subscription rt)) ->
  Forall (fun t => awaitsStatus (connectionStatus (state c)) t = false) ws ->
  waiting kind ws (step rt (ConnectionStateChange c)) /\
  filter seen (calls (subscription (step rt (ConnectionStateChange c))))
  = filter seen (calls (subscription rt)).
Proof.
  intros Hs Hw rt0 Hnone Hseen Hasleep.
  pose proof (listener_run (state (voiceConnection (subscription rt))) rt0) as Hrun.
  cbn [rt0 subscription set_subscription voiceConnection set_voiceConnection] in Hrun.
  cbn [step]. unfold connectionStateChange. cbn zeta. fold rt0. rewrite Hrun. clear Hrun.
  set (this' := fst (listenerOutcome rt0)) in *.
  set (ts := snd (listenerOutcome rt0)) in *.
  cbn [pending set_pending now subscription set_subscription rt0].
  assert (Hall : Forall supervisorTask (pending rt ++ ts))
    by (apply Forall_app; split; [exact Hs|apply listenerOutcome_supervisor]).
  set (woken := filter (awaitsStatus (connectionStatus (state c))) (pending rt ++ ts)).
  assert (Hkinds : filter kind (pending rt ++ ts) = ws).
  { rewrite filter_app. unfold waiting in Hw. rewrite Hw, Hnone. apply app_nil_r. }
  assert (Hwoken : filter kind woken = []).
  { apply filter_nil_Forall, Forall_forall. intros t Ht.
    apply filter_In in Ht as [Hin Ht].
    destruct (kind t) eqn:Hk; [|reflexivity].
    assert (Hws : In t ws) by (rewrite <- Hkinds; apply filter_In; auto).
    rewrite Forall_forall in Hasleep. rewrite (Hasleep t Hws) in Ht. discriminate. }
  unfold resumeAll.
  match goal with
  | |- context [fold_left ?f woken ?r] =>
      destruct (resume_supervisorTasks (fun _ => true) woken r) as (_ & _ & _ & Hp');
        [apply Forall_filter, Hall|];
      pose proof (resume_unseen (fun _ => true) woken r
                    (Forall_filter _ _ _ Hall) Hwoken) as Hr
  end.
  cbn zeta in Hp'. unfold waiting in *. rewrite Hp', Hr.
  cbn [pending set_pending subscription set_subscription].
  split; [|exact Hseen].
  rewrite filter_comm, Hkinds.
  clear - Hasleep. induction Hasleep as [|t l Ht _ IH]; [reflexivity|].
  cbn [filter]. rewrite Ht. cbn [negb]. rewrite IH. reflexivity.
Qed.

(** Whole runs: while the waits of the kind are [ws] and their deadlines are
    ahead, allowed events keep them waiting and make no watched call. *)

Variable ws : list Task.
Variable Extra : Runtime -> Prop.
Variable allowed : Event -> bool.

Hypothesis extra_step : forall rt e, supervised rt -> Extra rt -> Extra (step rt e).

Hypothesis calm : forall rt c,
  supervised rt -> Extra rt -> waiting kind ws rt ->
  allowed (ConnectionStateChange c) = true ->
  waiting kind ws (step rt (ConnectionStateChange c)) /\
  filter seen (calls (subscription (step rt (ConnectionStateChange c))))
  = filter seen (calls (subscription rt)).

Lemma step_among rt e :
  supervised rt -> Extra rt -> waiting kind ws rt -> allowed e = true ->
  Forall (fun w => now (step rt e) < deadline (wake w)) ws ->
  waiting kind ws (step rt e) /\
  filter seen (calls (subscription (step rt e))) = filter seen (calls (subscription rt)).
Proof.
  intros Hs Hx Hw He Hlate. destruct (isQueueEvent e) eqn:Hqe.
  { destruct (queueEvent_frame e rt Hqe) as (Hc & _ & Hp).
    unfold waiting in *. rewrite Hp. split; [exact Hw|]. apply seen_of_side, Hc. }
  destruct e; try discriminate.
  - apply calm; assumption.
  - cbn [step] in *. apply tick_waiting; try assumption.
    destruct (tick_supervised rt Hs) as (_ & _ & _ & Hn & _).
    rewrite Hn in Hlate. exact Hlate.
Qed.

Lemma steps_among es rt :
  supervised rt -> Extra rt -> waiting kind ws rt -> forallb allowed es = true ->
  Forall (fun w => now rt + ticks es < deadline (wake w)) ws ->
  waiting kind ws (steps rt es) /\
  filter seen (calls (subscription (steps rt es))) = filter seen (calls (subscription rt)) /\
  now (steps rt es) = now rt + ticks es /\
  supervised (steps rt es) /\
  Extra (steps rt es).
Proof.
  revert rt. induction es as [|e es IH]; intros rt Hs Hx Hw Hes Hlate.
  - cbn. unfold ticks. cbn. rewrite Z.add_0_r. auto.
  - cbn [forallb] in Hes. apply andb_true_iff in Hes as [He Hes].
    pose proof (ticks_nonneg es) as Hnn.
    pose proof (step_now rt e Hs) as Hstep.
    destruct (step_among rt e Hs Hx Hw He) as [Hw' Hr'].
    { eapply Forall_impl; [|exact Hlate]. cbn beta. intros w Hlt.
      rewrite ticks_cons in Hlt. rewrite Hstep. destruct (isTick e); lia. }
    destruct (IH (step rt e) (step_supervised rt e Hs) (extra_step rt e Hs Hx) Hw' Hes)
      as (Hw2 & Hr2 & Hn2 & Hs2 & Hx2).
    { eapply Forall_impl; [|exact Hlate]. cbn beta. intros w Hlt.
      rewrite ticks_cons in Hlt. rewrite Hstep. lia. }
    cbn [steps fold_left]. fold (steps (step rt e) es).
    rewrite ticks_cons, Hn2, Hr2, Hstep, Hr'. repeat split; try assumption. lia.
Qed.

End OneWait.

(** A handler that is woken by a report of the connection makes no call. *)
Lemma resolve_makes_no_call s ts rt :
  Forall supervisorTask ts ->
  Forall (fun t => awaitsStatus s t = true) ts ->
  calls (subscription (fold_left (fun rt t => run (resume t true) rt) ts rt))
  = calls (subscription rt).
Proof.
  intros Hts. revert rt. induction Hts as [|t ts Ht _ IH]; intros rt Hwoken.
  - reflexivity.
  - inversion Hwoken as [|? ? Hw1 Hw2]; subst. cbn [fold_left]. rewrite IH by exact Hw2.
    destruct Ht as [d|d|d].
    + rewrite run_graceTask. reflexivity.
    + discriminate.
    + rewrite run_readyTask. reflexivity.
Qed.

(** A report of the connection that ends the waits of one kind: they are
    woken, and nothing is called on their account. *)
Lemma connection_ends_waiting (kind : Task -> bool) (seen : Call -> bool) ws rt c :
  supervised rt -> waiting kind ws rt ->
  let rt0 := set_subscription (set_voiceConnection c (subscription rt)) rt in
  filter kind (snd (listenerOutcome rt0)) = [] ->
  filter seen (calls (fst (listenerOutcome rt0))) = filter seen (calls (subscription rt)) ->
  Forall (fun t => awaitsStatus (connectionStatus (state c)) t = true) ws ->
  waiting kind [] (step rt (ConnectionStateChange c)) /\
  filter seen (calls (subscription (step rt (ConnectionStateChange c))))
  = filter seen (calls (subscription rt)).
Proof.
  intros Hs Hw rt0 Hnone Hseen Hawake.
  pose proof (listener_run (state (voiceConnection (subscription rt))) rt0) as Hrun.
  cbn [rt0 subscription set_subscription voiceConnection set_voiceConnection] in Hrun.
  cbn [step]. unfold connectionStateChange. cbn zeta. fold rt0. rewrite Hrun. clear Hrun.
  set (this' := fst (listenerOutcome rt0)) in *.
  set (ts := snd (listenerOutcome rt0)) in *.
  cbn [pending set_pending now subscription set_subscription rt0].
  assert (Hall : Forall supervisorTask (pending rt ++ ts))
    by (apply Forall_app; split; [exact Hs|apply listenerOutcome_supervisor]).
  assert (Hkinds : filter kind (pending rt ++ ts) = ws).
  { rewrite filter_app. unfold waiting in Hw. rewrite Hw, Hnone. apply app_nil_r. }
  set (woken := filter (awaitsStatus (connectionStatus (state c))) (pending rt ++ ts)).
  unfold resumeAll.
  match goal with
  | |- context [fold_left ?f woken ?r] =>
      destruct (resume_supervisorTasks (fun _ => true) woken r) as (_ & _ & _ & Hp');
        [apply Forall_filter, Hall|];
      pose proof (resolve_makes_no_call (connectionStatus (state c)) woken r
                    (Forall_filter _ _ _ Hall)) as Hr
  end.
  cbn zeta in Hp'. unfold waiting. rewrite Hp', Hr.
  - cbn [pending set_pending subscription set_subscription].
    split; [|exact Hseen]. rewrite filter_comm, Hkinds.
    clear - Hawake. induction Hawake as [|t l Ht _ IH]; [reflexivity|].
    cbn [filter]. rewrite Ht. exact IH.
  - apply Forall_forall. intros t Ht. apply filter_In in Ht as [_ Ht]. exact Ht.
Qed.

Lemma forallb_negb {A} (f : A -> bool) (l : list A) :
  forallb (fun x => negb (f x)) l = negb (existsb f l).
Proof.
  induction l as [|x l IH]; [reflexivity|]. cbn. rewrite IH. destruct (f x); reflexivity.
Qed.

(** The listener calls nothing on the connection but [destroy] when the
    rejoin attempts are used up. *)
Lemma listenerOutcome_seen (seen : Call -> bool) rt :
  (forall c, seen c = true -> isConnectionCall c = true) ->
  seen (ConnectionDestroy NoAttemptsLeft) = false ->
  filter seen (calls (fst (listenerOutcome rt))) = filter seen (calls (subscription rt)).
Proof.
  intros Hconn Hother. unfold listenerOutcome.
  destruct (connectionStatus _); cbn;
    repeat match goal with |- context [if ?b then _ else _] => destruct b end;
    cbn [fst calls call set_readyLock]; try reflexivity.
  - rewrite filter_app. cbn. rewrite Hother. apply app_nil_r.
  - apply (seen_of_side seen Hconn), connectionSide_stop.
Qed.

(** **** Grace periods and the [destroy] calls they end in *)

Lemma isRemoval_connection c : isRemoval c = true -> isConnectionCall c = true.
Proof. destruct c; try discriminate; reflexivity. Qed.

Lemma grace_others t answer rt :
  supervisorTask t -> isGraceTask t = false ->
  filter isRemoval (calls (subscription (run (resume t answer) rt)))
  = filter isRemoval (calls (subscription rt)).
Proof.
  intros [d|d|d] Hk.
  - discriminate.
  - rewrite run_backoffTask. cbn [subscription set_subscription calls call].
    rewrite filter_app. apply app_nil_r.
  - rewrite run_readyTask. cbn [subscription set_subscription].
    destruct answer; [reflexivity|].
    destruct (VoiceConnectionStatus_eqb _ Destroyed); [reflexivity|].
    cbn [calls set_readyLock call]. rewrite filter_app. apply app_nil_r.
Qed.

Lemma grace_fires t rt :
  supervisorTask t -> isGraceTask t = true ->
  filter isRemoval (calls (subscription (run (resume t (timedOut t)) rt)))
  = filter isRemoval (calls (subscription rt))
    ++ (fun _ : VoiceConnection => [ConnectionDestroy RemovedFromChannel])
         (voiceConnection (subscription rt)).
Proof.
  intros [d|d|d] Hk; try discriminate.
  cbn [timedOut graceTask wake]. rewrite run_graceTask.
  cbn [subscription set_subscription calls call]. rewrite filter_app. reflexivity.
Qed.

Lemma grace_listener rt :
  isWebSocketClose4014 (state (voiceConnection (subscription rt))) = false ->
  filter isGraceTask (snd (listenerOutcome rt)) = [].
Proof.
  intros H4014. unfold listenerOutcome. rewrite H4014.
  destruct (connectionStatus _); cbn;
    repeat match goal with |- context [if ?b then _ else _] => destruct b end;
    reflexivity.
Qed.

Lemma grace_calm d rt c :
  supervised rt -> True -> waiting isGraceTask [graceTask d] rt ->
  undisturbed (ConnectionStateChange c) = true ->
  waiting isGraceTask [graceTask d] (step rt (ConnectionStateChange c)) /\
  filter isRemoval (calls (subscription (step rt (ConnectionStateChange c))))
  = filter isRemoval (calls (subscription rt)).
Proof.
  intros Hs _ Hw Hallowed. unfold undisturbed in Hallowed.
  apply andb_true_iff in Hallowed as [H4014 Hc].
  apply negb_true_iff in H4014, Hc. cbn in H4014, Hc.
  apply (connection_keeps_waiting isGraceTask isRemoval grace_others _ rt c Hs Hw).
  - apply grace_listener. exact H4014.
  - rewrite listenerOutcome_seen; [reflexivity|exact isRemoval_connection|reflexivity].
  - repeat constructor. cbn [awaitsStatus graceTask wake].
    destruct (connectionStatus (state c)); cbn in *; congruence.
Qed.

Lemma grace_free_calm rt c :
  supervised rt -> True -> waiting isGraceTask [] rt ->
  negb (is4014 (ConnectionStateChange c)) = true ->
  waiting isGraceTask [] (step rt (ConnectionStateChange c)) /\
  filter isRemoval (calls (subscription (step rt (ConnectionStateChange c))))
  = filter isRemoval (calls (subscription rt)).
Proof.
  intros Hs _ Hw Hallowed. apply negb_true_iff in Hallowed. cbn in Hallowed.
  apply (connection_keeps_waiting isGraceTask isRemoval grace_others _ rt c Hs Hw).
  - apply grace_listener. exact Hallowed.
  - rewrite listenerOutcome_seen; [reflexivity|exact isRemoval_connection|reflexivity].
  - constructor.
Qed.

(** **** Backoff delays and the [rejoin] calls they end in *)

Lemma isRejoin_connection c : isRejoin c = true -> isConnectionCall c = true.
Proof. destruct c; try discriminate; reflexivity. Qed.

Lemma backoff_others t answer rt :
  supervisorTask t -> isBackoffTask t = false ->
  filter isRejoin (calls (subscription (run (resume t answer) rt)))
  = filter isRejoin (calls (subscription rt)).
Proof.
  intros [d|d|d] Hk.
  - rewrite run_graceTask. destruct answer; [reflexivity|].
    cbn [subscription set_subscription calls call]. rewrite filter_app. apply app_nil_r.
  - discriminate.
  - rewrite run_readyTask. cbn [subscription set_subscription].
    destruct answer; [reflexivity|].
    destruct (VoiceConnectionStatus_eqb _ Destroyed); [reflexivity|].
    cbn [calls set_readyLock call]. rewrite filter_app. apply app_nil_r.
Qed.

Lemma backoff_fires t rt :
  supervisorTask t -> isBackoffTask t = true ->
  filter isRejoin (calls (subscription (run (resume t (timedOut t)) rt)))
  = filter isRejoin (calls (subscription rt))
    ++ (fun _ : VoiceConnection => [ConnectionRejoin]) (voiceConnection (subscription rt)).
Proof.
  intros [d|d|d] Hk; try discriminate.
  rewrite run_backoffTask.
  cbn [subscription set_subscription calls call]. rewrite filter_app. reflexivity.
Qed.

Lemma backoff_listener rt :
  startsBackoff (voiceConnection (subscription rt)) = false ->
  filter isBackoffTask (snd (listenerOutcome rt)) = [].
Proof.
  unfold startsBackoff, listenerOutcome.
  destruct (connectionStatus _); cbn;
    repeat match goal with |- context [if ?b then _ else _] => destruct b end;
    cbn; congruence.
Qed.

Lemma backoff_calm ws rt c :
  supervised rt -> True -> waiting isBackoffTask ws rt ->
  negb (reportsRecoverable (ConnectionStateChange c)) = true ->
  waiting isBackoffTask ws (step rt (ConnectionStateChange c)) /\
  filter isRejoin (calls (subscription (step rt (ConnectionStateChange c))))
  = filter isRejoin (calls (subscription rt)).
Proof.
  intros Hs _ Hw Hallowed. apply negb_true_iff in Hallowed. cbn in Hallowed.
  apply (connection_keeps_waiting isBackoffTask isRejoin backoff_others ws rt c Hs Hw).
  - apply backoff_listener. exact Hallowed.
  - rewrite listenerOutcome_seen; [reflexivity|exact isRejoin_connection|reflexivity].
  - unfold waiting in Hw. rewrite <- Hw. apply Forall_forall. intros t Ht.
    apply filter_In in Ht as [_ Ht]. unfold isBackoffTask, awaitsStatus in *.
    destruct (wake t); [discriminate|reflexivity].
Qed.

(** **** Ready bounds and the [destroy] calls they end in *)

Lemma isExpiry_connection c : isExpiry c = true -> isConnectionCall c = true.
Proof. destruct c; try discriminate; reflexivity. Qed.

Lemma bound_others t answer rt :
  supervisorTask t -> isReadyTask t = false ->
  filter isExpiry (calls (subscription (run (resume t answer) rt)))
  = filter isExpiry (calls (subscription rt)).
Proof.
  intros [d|d|d] Hk.
  - rewrite run_graceTask. destruct answer; [reflexivity|].
    cbn [subscription set_subscription calls call]. rewrite filter_app. apply app_nil_r.
  - rewrite run_backoffTask. cbn [subscription set_subscription calls call].
    rewrite filter_app. apply app_nil_r.
  - discriminate.
Qed.

Lemma bound_fires t rt :
  supervisorTask t -> isReadyTask t = true ->
  filter isExpiry (calls (subscription (run (resume t (timedOut t)) rt)))
  = filter isExpiry (calls (subscription rt))
    ++ expiryCalls (voiceConnection (subscription rt)).
Proof.
  intros [d|d|d] Hk; try discriminate.
  cbn [timedOut readyTask wake]. rewrite run_readyTask. unfold expiryCalls.
  cbn [subscription set_subscription].
  destruct (VoiceConnectionStatus_eqb _ Destroyed).
  - rewrite app_nil_r. reflexivity.
  - cbn [calls set_readyLock call]. rewrite filter_app. reflexivity.
Qed.

Lemma bound_listener rt :
  readyLock (subscription rt) = true \/
  (let status := connectionStatus (state (voiceConnection (subscription rt))) in
   VoiceConnectionStatus_eqb status Connecting || VoiceConnectionStatus_eqb status Signalling
   = false) ->
  filter isReadyTask (snd (listenerOutcome rt)) = [].
Proof.
  unfold listenerOutcome.
  destruct (connectionStatus _); cbn;
    repeat match goal with |- context [if ?b then _ else _] => destruct b end;
    cbn; intros [H|H]; congruence.
Qed.

Lemma guarded_locked d rt :
  guarded rt -> waiting isReadyTask [readyTask d] rt -> readyLock (subscription rt) = true.
Proof.
  unfold guarded, readyBounds, waiting. intros Hg Hw. rewrite Hw in Hg.
  destruct (readyLock (subscription rt)); [reflexivity|discriminate].
Qed.

Lemma guarded_free rt :
  guarded rt -> waiting isReadyTask [] rt -> readyLock (subscription rt) = false.
Proof.
  unfold guarded, readyBounds, waiting. intros Hg Hw. rewrite Hw in Hg.
  destruct (readyLock (subscription rt)); [discriminate|reflexivity].
Qed.

Lemma bound_calm d rt c :
  supervised rt -> guarded rt -> waiting isReadyTask [readyTask d] rt ->
  negb (reportsReady (ConnectionStateChange c)) = true ->
  waiting isReadyTask [readyTask d] (step rt (ConnectionStateChange c)) /\
  filter isExpiry (calls (subscription (step rt (ConnectionStateChange c))))
  = filter isExpiry (calls (subscription rt)).
Proof.
  intros Hs Hg Hw Hallowed. apply negb_true_iff in Hallowed. cbn in Hallowed.
  apply (connection_keeps_waiting isReadyTask isExpiry bound_others _ rt c Hs Hw).
  - apply bound_listener. left. apply (guarded_locked d rt Hg Hw).
  - rewrite listenerOutcome_seen; [reflexivity|exact isExpiry_connection|reflexivity].
  - repeat constructor. cbn [awaitsStatus readyTask wake].
    destruct (connectionStatus (state c)); cbn in *; congruence.
Qed.

Lemma bound_free_calm rt c :
  supervised rt -> True -> waiting isReadyTask [] rt ->
  negb (reportsHandshake (ConnectionStateChange c)) = true ->
  waiting isReadyTask [] (step rt (ConnectionStateChange c)) /\
  filter isExpiry (calls (subscription (step rt (ConnectionStateChange c))))
  = filter isExpiry (calls (subscription rt)).
Proof.
  intros Hs _ Hw Hallowed. apply negb_true_iff in Hallowed. cbn in Hallowed.
  apply (connection_keeps_waiting isReadyTask isExpiry bound_others _ rt c Hs Hw).
  - apply bound_listener. right. exact Hallowed.
  - rewrite listenerOutcome_seen; [reflexivity|exact isExpiry_connection|reflexivity].
  - constructor.
Qed.


(** **** Whole runs, for each kind of wait *)

Lemma grace_run d es rt :
  supervised rt -> waiting isGraceTask [graceTask d] rt ->
  forallb undisturbed es = true -> now rt + ticks es < d ->
  waiting isGraceTask [graceTask d] (steps rt es) /\
  removals (calls (subscription (steps rt es))) = removals (calls (subscription rt)) /\
  now (steps rt es) = now rt + ticks es /\
  supervised (steps rt es).
Proof.
  intros Hs Hw Hes Hlate.
  destruct (steps_among isGraceTask isRemoval
              (fun _ => [ConnectionDestroy RemovedFromChannel])
              isRemoval_connection grace_others grace_fires
              [graceTask d] (fun _ => True) undisturbed (fun _ _ _ _ => I)
              (grace_calm d) es rt Hs I Hw Hes)
    as (Hw' & Hr & Hn & Hs' & _); [repeat constructor; exact Hlate|auto].
Qed.

Lemma grace_free_run es rt :
  supervised rt -> waiting isGraceTask [] rt -> existsb is4014 es = false ->
  removals (calls (subscription (steps rt es))) = removals (calls (subscription rt)).
Proof.
  intros Hs Hw Hes.
  apply (steps_among isGraceTask isRemoval
           (fun _ => [ConnectionDestroy RemovedFromChannel])
           isRemoval_connection grace_others grace_fires
           [] (fun _ => True) (fun e => negb (is4014 e)) (fun _ _ _ _ => I)
           grace_free_calm es rt Hs I Hw); [|constructor].
  rewrite forallb_negb, Hes. reflexivity.
Qed.

Lemma backoff_run d es rt :
  supervised rt -> waiting isBackoffTask [backoffTask d] rt ->
  existsb reportsRecoverable es = false -> now rt + ticks es < d ->
  waiting isBackoffTask [backoffTask d] (steps rt es) /\
  rejoins (calls (subscription (steps rt es))) = rejoins (calls (subscription rt)) /\
  now (steps rt es) = now rt + ticks es /\
  supervised (steps rt es).
Proof.
  intros Hs Hw Hes Hlate.
  destruct (steps_among isBackoffTask isRejoin (fun _ => [ConnectionRejoin])
              isRejoin_connection backoff_others backoff_fires
              [backoffTask d] (fun _ => True) (fun e => negb (reportsRecoverable e))
              (fun _ _ _ _ => I) (backoff_calm [backoffTask d]) es rt Hs I Hw)
    as (Hw' & Hr & Hn & Hs' & _); [|repeat constructor; exact Hlate|auto].
  rewrite forallb_negb, Hes. reflexivity.
Qed.

Lemma backoff_free_run es rt :
  supervised rt -> waiting isBackoffTask [] rt ->
  existsb reportsRecoverable es = false ->
  rejoins (calls (subscription (steps rt es))) = rejoins (calls (subscription rt)).
Proof.
  intros Hs Hw Hes.
  apply (steps_among isBackoffTask isRejoin (fun _ => [ConnectionRejoin])
           isRejoin_connection backoff_others backoff_fires
           [] (fun _ => True) (fun e => negb (reportsRecoverable e))
           (fun _ _ _ _ => I) (backoff_calm []) es rt Hs I Hw); [|constructor].
  rewrite forallb_negb, Hes. reflexivity.
Qed.

Lemma bound_run d es rt :
  supervised rt -> guarded rt -> waiting isReadyTask [readyTask d] rt ->
  existsb reportsReady es = false -> now rt + ticks es < d ->
  waiting isReadyTask [readyTask d] (steps rt es) /\
  expiries (calls (subscription (steps rt es))) = expiries (calls (subscription rt)) /\
  now (steps rt es) = now rt + ticks es /\
  supervised (steps rt es) /\
  guarded (steps rt es).
Proof.
  intros Hs Hg Hw Hes Hlate.
  apply (steps_among isReadyTask isExpiry expiryCalls
           isExpiry_connection bound_others bound_fires
           [readyTask d] guarded (fun e => negb (reportsReady e))
           (fun rt e Hs Hg => step_guarded rt e Hs Hg) (bound_calm d) es rt Hs Hg Hw).
  - rewrite forallb_negb, Hes. reflexivity.
  - repeat constructor. exact Hlate.
Qed.

Lemma bound_free_run es rt :
  supervised rt -> waiting isReadyTask [] rt ->
  existsb reportsHandshake es = false ->
  expiries (calls (subscription (steps rt es))) = expiries (calls (subscription rt)).
Proof.
  intros Hs Hw Hes.
  apply (steps_among isReadyTask isExpiry expiryCalls
           isExpiry_connection bound_others bound_fires
           [] (fun _ => True) (fun e => negb (reportsHandshake e))
           (fun _ _ _ _ => I) bound_free_calm es rt Hs I Hw); [|constructor].
  rewrite forallb_negb, Hes. reflexivity.
Qed.

(** **** The moment a wait starts *)

Lemma filter_all {A} (f : A -> bool) (l : list A) :
  Forall (fun x => f x = true) l -> filter f l = l.
Proof.
  induction 1 as [|x l Hx _ IH]; [reflexivity|].
  cbn [filter]. rewrite Hx, IH. reflexivity.
Qed.

(** A report of the connection: the listener runs, the handlers that waited
    for the reported status continue, and they make no call. *)
Lemma connectionStateChange_outcome rt c :
  supervised rt ->
  let rt0 := set_subscription (set_voiceConnection c (subscription rt)) rt in
  let rt1 := step rt (ConnectionStateChange c) in
  calls (subscription rt1) = calls (fst (listenerOutcome rt0)) /\
  pending rt1
  = filter (fun t => negb (awaitsStatus (connectionStatus (state c)) t))
      (pending rt ++ snd (listenerOutcome rt0)).
Proof.
  intros Hs rt0 rt1. subst rt1.
  pose proof (listener_run (state (voiceConnection (subscription rt))) rt0) as Hrun.
  cbn [rt0 subscription set_subscription voiceConnection set_voiceConnection] in Hrun.
  cbn [step]. unfold connectionStateChange. cbn zeta. fold rt0. rewrite Hrun. clear Hrun.
  set (this' := fst (listenerOutcome rt0)) in *.
  set (ts := snd (listenerOutcome rt0)) in *.
  cbn [pending set_pending now subscription set_subscription rt0].
  assert (Hall : Forall supervisorTask (pending rt ++ ts))
    by (apply Forall_app; split; [exact Hs|apply listenerOutcome_supervisor]).
  set (woken := filter (awaitsStatus (connectionStatus (state c))) (pending rt ++ ts)).
  unfold resumeAll.
  match goal with
  | |- context [fold_left ?f woken ?r] =>
      destruct (resume_supervisorTasks (fun _ => true) woken r) as (_ & _ & _ & Hp');
        [apply Forall_filter, Hall|];
      pose proof (resolve_makes_no_call (connectionStatus (state c)) woken r
                    (Forall_filter _ _ _ Hall)) as Hr
  end.
  cbn zeta in Hp'. rewrite Hp', Hr.
  - split; reflexivity.
  - apply Forall_forall. intros t Ht. apply filter_In in Ht as [_ Ht]. exact Ht.
Qed.

(** No handler of the listener waits for [Disconnected]: a disconnect wakes
    nobody. *)
Lemma disconnected_outcome rt c :
  supervised rt ->
  connectionStatus (state c) = Disconnected ->
  let rt0 := set_subscription (set_voiceConnection c (subscription rt)) rt in
  let rt1 := step rt (ConnectionStateChange c) in
  calls (subscription rt1) = calls (fst (listenerOutcome rt0)) /\
  pending rt1 = pending rt ++ snd (listenerOutcome rt0).
Proof.
  intros Hs Hst rt0 rt1.
  destruct (connectionStateChange_outcome rt c Hs) as [Hc Hp].
  split; [exact Hc|]. fold rt1 rt0 in Hp. rewrite Hp, Hst. apply filter_all.
  assert (Hall : Forall supervisorTask (pending rt ++ snd (listenerOutcome rt0)))
    by (apply Forall_app; split; [exact Hs|apply listenerOutcome_supervisor]).
  eapply Forall_impl; [|exact Hall]. intros t [d|d|d]; reflexivity.
Qed.

Lemma grace_starts rt c :
  supervised rt ->
  isWebSocketClose4014 (state c) = true ->
  let rt1 := step rt (ConnectionStateChange c) in
  calls (subscription rt1) = calls (subscription rt) /\
  pending rt1 = pending rt ++ [graceTask (now rt + 5000)].
Proof.
  intros Hs H4014 rt1.
  pose proof (isWebSocketClose4014_Disconnected _ H4014) as Hst.
  destruct (disconnected_outcome rt c Hs Hst) as [Hc Hp]. fold rt1 in Hc, Hp.
  unfold listenerOutcome in Hc, Hp.
  cbn [subscription set_subscription voiceConnection set_voiceConnection now] in Hc, Hp.
  rewrite Hst, H4014 in Hc, Hp. auto.
Qed.

Lemma backoff_starts rt c :
  supervised rt ->
  connectionStatus (state c) = Disconnected ->
  isWebSocketClose4014 (state c) = false ->
  rejoinAttempts c < 5 ->
  let rt1 := step rt (ConnectionStateChange c) in
  calls (subscription rt1) = calls (subscription rt) /\
  pending rt1 = pending rt ++ [backoffTask (now rt + (rejoinAttempts c + 1) * 5000)].
Proof.
  intros Hs Hst H4014 Hn rt1.
  destruct (disconnected_outcome rt c Hs Hst) as [Hc Hp]. fold rt1 in Hc, Hp.
  unfold listenerOutcome in Hc, Hp.
  cbn [subscription set_subscription voiceConnection set_voiceConnection now] in Hc, Hp.
  apply Z.ltb_lt in Hn. rewrite Hst, H4014, Hn in Hc, Hp. auto.
Qed.

Lemma no_attempts_left rt c :
  supervised rt ->
  connectionStatus (state c) = Disconnected ->
  isWebSocketClose4014 (state c) = false ->
  5 <= rejoinAttempts c ->
  let rt1 := step rt (ConnectionStateChange c) in
  calls (subscription rt1) = calls (subscription rt) ++ [ConnectionDestroy NoAttemptsLeft] /\
  pending rt1 = pending rt.
Proof.
  intros Hs Hst H4014 Hn rt1.
  destruct (disconnected_outcome rt c Hs Hst) as [Hc Hp]. fold rt1 in Hc, Hp.
  unfold listenerOutcome in Hc, Hp.
  cbn [subscription set_subscription voiceConnection set_voiceConnection now] in Hc, Hp.
  apply Z.ltb_ge in Hn. rewrite Hst, H4014, Hn in Hc, Hp.
  cbn [fst snd] in Hc, Hp. rewrite app_nil_r in Hp. auto.
Qed.

Lemma guarded_idle rt :
  guarded rt -> readyLock (subscription rt) = false -> waiting isReadyTask [] rt.
Proof.
  unfold guarded, readyBounds, waiting. intros Hg Hl. rewrite Hl in Hg.
  apply length_zero_iff_nil, Hg.
Qed.

Lemma bound_starts rt c :
  supervised rt -> guarded rt ->
  connectionStatus (state c) = Connecting \/ connectionStatus (state c) = Signalling ->
  readyLock (subscription rt) = false ->
  let rt1 := step rt (ConnectionStateChange c) in
  calls (subscription rt1) = calls (subscription rt) /\
  waiting isReadyTask [readyTask (now rt + 20000)] rt1.
Proof.
  intros Hs Hg Hst Hl rt1.
  destruct (connectionStateChange_outcome rt c Hs) as [Hc Hp]. fold rt1 in Hc, Hp.
  assert (Hout : listenerOutcome
                   (set_subscription (set_voiceConnection c (subscription rt)) rt)
                 = (set_readyLock true (set_voiceConnection c (subscription rt)),
                    [readyTask (now rt + 20000)])).
  { unfold listenerOutcome.
    cbn [subscription set_subscription voiceConnection set_voiceConnection now readyLock].
    rewrite Hl. destruct Hst as [-> | ->]; reflexivity. }
  rewrite Hout in Hc, Hp. cbn [fst snd] in Hc, Hp.
  split; [exact Hc|].
  unfold waiting. rewrite Hp, filter_comm, filter_app, (guarded_idle rt Hg Hl).
  cbn [filter app isReadyTask readyTask wake awaitsStatus].
  destruct Hst as [-> | ->]; reflexivity.
Qed.


(** *** The three waits of the listener *)

(** C6. The connection reports [Disconnected] with a WebSocket close of code
    4014. The listener calls nothing at first and starts one wait of 5000 ms
    for [Connecting].
    - If the connection reports [Connecting] before 5000 ms have passed,
      nothing is called on its account: no [destroy] for this close is issued
      then, and none is ever issued later unless another 4014 close arrives.
    - If 5000 ms pass without a report of [Connecting], the tick that
      completes them issues [destroy], once; no further [destroy] for this
      reason follows unless another 4014 close arrives.
    Both are shown twice. First from a state in which no other handler of
    the listener is suspended and with the connection silent during the
    wait: then no call at all is made on the connection before the outcome.
    Then from any state in which no such wait is already running (other
    waits of the listener may be), with the connection reporting anything
    but [Connecting] or another 4014 close during the wait. The host and the
    player may do anything in the meantime. *)
Theorem close_4014_waits_for_connecting rt c :
  supervised rt ->
  isWebSocketClose4014 (state c) = true ->
  let before := connectionCalls (calls (subscription rt)) in
  let removed := removals (calls (subscription rt)) in
  let rt1 := step rt (ConnectionStateChange c) in
  (calls (subscription rt1) = calls (subscription rt) /\
   pending rt1 = pending rt ++ [graceTask (now rt + 5000)]) /\
  (pending rt = [] ->
   forall es,
     forallb isQuiet es = true ->
     (ticks es < 5000 ->
      connectionCalls (calls (subscription (steps rt1 es))) = before /\
      forall c', connectionStatus (state c') = Connecting ->
        connectionCalls
          (calls (subscription (step (steps rt1 es) (ConnectionStateChange c'))))
        = before) /\
     (ticks es = 4999 ->
      let rt2 := step (steps rt1 es) Tick in
      connectionCalls (calls (subscription rt2))
        = before ++ [ConnectionDestroy RemovedFromChannel] /\
      now rt2 = now rt + 5000 /\
      pending rt2 = [] /\
      forall es', forallb isQuiet es' = true ->
        connectionCalls (calls (subscription (steps rt2 es')))
        = before ++ [ConnectionDestroy RemovedFromChannel])) /\
  (waiting isGraceTask [] rt ->
   forall es,
     forallb undisturbed es = true ->
     (ticks es < 5000 ->
      removals (calls (subscription (steps rt1 es))) = removed /\
      forall c', connectionStatus (state c') = Connecting ->
        let rt2 := step (steps rt1 es) (ConnectionStateChange c') in
        removals (calls (subscription rt2)) = removed /\
        waiting isGraceTask [] rt2 /\
        forall es', existsb is4014 es' = false ->
          removals (calls (subscription (steps rt2 es'))) = removed) /\
     (ticks es = 4999 ->
      let rt2 := step (steps rt1 es) Tick in
      removals (calls (subscription rt2))
        = removed ++ [ConnectionDestroy RemovedFromChannel] /\
      waiting isGraceTask [] rt2 /\
      forall es', existsb is4014 es' = false ->
        removals (calls (subscription (steps rt2 es')))
        = removed ++ [ConnectionDestroy RemovedFromChannel])).
Proof.
  intros Hs0 H4014 before removed rt1.
  split; [exact (grace_starts rt c Hs0 H4014)|]. split.
  - (* nothing else is suspended, and the connection is silent during the wait *)
    intros Hp es Hquiet.
    subst rt1. rewrite disconnected_4014 by auto.
    set (d := now rt + 5000). set (t := graceTask d).
    set (rt1 := {| subscription := _; now := now rt; pending := [t] |}).
    assert (Hwait : ticks es < 5000 ->
              pending (steps rt1 es) = [t] /\
              now (steps rt1 es) = now rt + ticks es /\
              connectionCalls (calls (subscription (steps rt1 es))) = before).
    { intros Hticks.
      destruct (steps_waiting es rt1 t eq_refl Hquiet) as (Hp' & Hn' & Hc).
      { subst d. cbn. lia. }
      apply connectionCalls_of_side in Hc as (Hc & _). auto. }
    split.
    + intros Hticks. destruct (Hwait Hticks) as (Hp' & Hn' & Hc).
      split; [exact Hc|]. intros c' Hc'.
      rewrite (connecting_ends_grace _ c' _ Hp' Hc'). cbn [subscription].
      destruct (readyLock (subscription (steps rt1 es))); exact Hc.
    + intros Hticks rt2. destruct (Hwait ltac:(lia)) as (Hp' & Hn' & Hc).
      assert (Hrt2 : rt2
                = set_subscription
                    (call (ConnectionDestroy RemovedFromChannel)
                          (subscription (steps rt1 es)))
                    (set_pending [] (set_now (now (steps rt1 es) + 1) (steps rt1 es)))).
      { subst rt2. cbn [step].
        rewrite (tick_due _ t Hp') by (rewrite Hn'; subst d; cbn; lia).
        subst t. rewrite run_graceTask. reflexivity. }
      assert (Hcalls : connectionCalls (calls (subscription rt2))
                       = before ++ [ConnectionDestroy RemovedFromChannel]).
      { rewrite Hrt2. cbn [subscription set_subscription calls call].
        rewrite connectionCalls_app, Hc. reflexivity. }
      split; [exact Hcalls|]. split; [rewrite Hrt2; cbn; lia|].
      split; [rewrite Hrt2; reflexivity|].
      intros es' Hes'.
      destruct (steps_nothing_pending es' rt2) as (_ & Hc'); auto.
      { rewrite Hrt2. reflexivity. }
      apply connectionCalls_of_side in Hc' as (Hc' & _). rewrite Hc'. exact Hcalls.
  - (* other waits may be running, and the connection reports other states *)
    intros Hw0 es Hes.
    set (d := now rt + 5000).
    destruct (grace_starts rt c Hs0 H4014) as [Hc1 Hp1]. fold rt1 d in Hc1, Hp1.
    assert (Hs1 : supervised rt1) by apply step_supervised, Hs0.
    assert (Hn1 : now rt1 = now rt)
      by (unfold rt1; rewrite step_now by exact Hs0; cbn; lia).
    assert (Hw1 : waiting isGraceTask [graceTask d] rt1).
    { unfold waiting in *. rewrite Hp1, filter_app, Hw0. reflexivity. }
    assert (Hr1 : removals (calls (subscription rt1)) = removed)
      by (rewrite Hc1; reflexivity).
    assert (Hwait : ticks es < 5000 ->
              waiting isGraceTask [graceTask d] (steps rt1 es) /\
              removals (calls (subscription (steps rt1 es))) = removed /\
              now (steps rt1 es) = now rt + ticks es /\
              supervised (steps rt1 es)).
    { intros Hticks.
      destruct (grace_run d es rt1 Hs1 Hw1 Hes) as (Hw & Hr & Hn & Hs).
      { rewrite Hn1. subst d. lia. }
      rewrite Hr, Hn, Hn1. auto. }
    split.
    + intros Hticks. destruct (Hwait Hticks) as (Hw & Hr & Hn & Hs).
      split; [exact Hr|]. intros c' Hc' rt2.
      assert (Hnot : isWebSocketClose4014 (state c') = false)
        by (destruct (state c'); try discriminate; reflexivity).
      destruct (connection_ends_waiting isGraceTask isRemoval _ (steps rt1 es) c' Hs Hw)
        as [Hw2 Hr2].
      { apply grace_listener. exact Hnot. }
      { rewrite listenerOutcome_seen; [reflexivity|exact isRemoval_connection|reflexivity]. }
      { repeat constructor. cbn [awaitsStatus graceTask wake]. rewrite Hc'. reflexivity. }
      fold rt2 in Hw2, Hr2. unfold removals in *. rewrite Hr2.
      split; [exact Hr|]. split; [exact Hw2|].
      intros es' Hes'.
      pose proof (grace_free_run es' rt2 (step_supervised _ _ Hs) Hw2 Hes') as Hlater.
      unfold removals in Hlater. rewrite Hlater, Hr2. exact Hr.
    + intros Hticks rt2. destruct (Hwait ltac:(lia)) as (Hw & Hr & Hn & Hs).
      destruct (tick_fires isGraceTask isRemoval
                  (fun _ => [ConnectionDestroy RemovedFromChannel])
                  grace_others grace_fires (graceTask d) (steps rt1 es) Hs Hw)
        as [Hw2 Hr2].
      { rewrite Hn. subst d. cbn. lia. }
      change (tick (steps rt1 es)) with rt2 in Hw2, Hr2.
      unfold removals in *. rewrite Hr2, Hr.
      split; [reflexivity|]. split; [exact Hw2|].
      intros es' Hes'.
      pose proof (grace_free_run es' rt2 (step_supervised _ Tick Hs) Hw2 Hes') as Hlater.
      unfold removals in Hlater. rewrite Hlater, Hr2, Hr. reflexivity.
Qed.

(** C7. The connection reports [Disconnected] for another reason than a
    WebSocket close with code 4014. With a rejoin-attempt counter [n] below 5
    the listener calls nothing at first and starts one wait of
    [(n + 1) * 5000] milliseconds; for as long as fewer than that have passed
    no [rejoin] is called, and on the tick that completes them exactly one
    [rejoin] is called. These delays are 5000, 10000, 15000, 20000 and 25000
    ms for [n] = 0..4. With a counter of 5 or more the listener calls
    [destroy] at once and does not wait.
    The delay is shown twice. First from a state in which no other handler
    of the listener is suspended and with the connection silent during the
    delay: then no call at all is made on the connection before [rejoin],
    and nothing is left waiting after it. Then from any state in which no
    such delay is already running (the other waits of the listener may be),
    with the connection reporting anything but a further disconnect of this
    kind during the delay: no [rejoin] is called before the delay is over,
    one is called on the tick that completes it, and none follows unless such
    a disconnect arrives. The host and the player may do anything in the
    meantime. *)
Theorem disconnect_backoff_then_rejoin rt c es :
  supervised rt ->
  connectionStatus (state c) = Disconnected ->
  isWebSocketClose4014 (state c) = false ->
  forallb isQuiet es = true ->
  let n := rejoinAttempts c in
  let before := connectionCalls (calls (subscription rt)) in
  let rejoined := rejoins (calls (subscription rt)) in
  let rt1 := step rt (ConnectionStateChange c) in
  (n < 5 ->
   calls (subscription rt1) = calls (subscription rt) /\
   pending rt1 = pending rt ++ [backoffTask (now rt + (n + 1) * 5000)]) /\
  (0 <= n < 5 ->
   pending rt = [] ->
   (ticks es < (n + 1) * 5000 ->
    connectionCalls (calls (subscription (steps rt1 es))) = before) /\
   (ticks es = (n + 1) * 5000 - 1 ->
    let rt2 := step (steps rt1 es) Tick in
    connectionCalls (calls (subscription rt2)) = before ++ [ConnectionRejoin] /\
    now rt2 = now rt + (n + 1) * 5000 /\
    pending rt2 = [])) /\
  (0 <= n < 5 ->
   waiting isBackoffTask [] rt ->
   forall busy,
     existsb reportsRecoverable busy = false ->
     (ticks busy < (n + 1) * 5000 ->
      rejoins (calls (subscription (steps rt1 busy))) = rejoined) /\
     (ticks busy = (n + 1) * 5000 - 1 ->
      let rt2 := step (steps rt1 busy) Tick in
      rejoins (calls (subscription rt2)) = rejoined ++ [ConnectionRejoin] /\
      waiting isBackoffTask [] rt2 /\
      forall later, existsb reportsRecoverable later = false ->
        rejoins (calls (subscription (steps rt2 later)))
        = rejoined ++ [ConnectionRejoin])) /\
  (5 <= n ->
   calls (subscription rt1)
     = calls (subscription rt) ++ [ConnectionDestroy NoAttemptsLeft] /\
   pending rt1 = pending rt) /\
  map (fun n => (n + 1) * 5000) [0; 1; 2; 3; 4] = [5000; 10000; 15000; 20000; 25000].
Proof.
  intros Hs0 Hst H4014 Hquiet n before rejoined rt1.
  split; [|split; [|split; [|split; [|reflexivity]]]].
  - intros Hn. exact (backoff_starts rt c Hs0 Hst H4014 Hn).
  - (* nothing else is suspended, and the connection is silent *)
    intros Hn Hp. subst rt1. rewrite disconnected_backoff by (auto; lia).
    fold n. set (d := now rt + (n + 1) * 5000). set (t := backoffTask d).
    set (rt1 := {| subscription := _; now := now rt; pending := [t] |}).
    split.
    + intros Hticks.
      destruct (steps_waiting es rt1 t eq_refl Hquiet) as (_ & _ & Hc).
      { subst d. cbn. lia. }
      apply connectionCalls_of_side in Hc as (Hc & _). rewrite Hc. reflexivity.
    + intros Hticks rt2.
      destruct (steps_waiting es rt1 t eq_refl Hquiet) as (Hp' & Hn' & Hc).
      { subst d. cbn. lia. }
      apply connectionCalls_of_side in Hc as (Hc & _).
      subst rt2. cbn [step].
      rewrite (tick_due _ t Hp') by (rewrite Hn'; subst d; cbn; lia).
      subst t. rewrite run_backoffTask.
      cbn [subscription set_subscription set_pending set_now now pending calls call].
      rewrite connectionCalls_app, Hc, Hn'. cbn [rt1 now].
      repeat split. lia.
  - (* other waits may be running, and the connection reports other states *)
    intros Hn Hw0 busy Hbusy.
    set (d := now rt + (n + 1) * 5000).
    destruct (backoff_starts rt c Hs0 Hst H4014 (proj2 Hn)) as [Hc1 Hp1].
    fold rt1 n d in Hc1, Hp1.
    assert (Hs1 : supervised rt1) by apply step_supervised, Hs0.
    assert (Hn1 : now rt1 = now rt)
      by (unfold rt1; rewrite step_now by exact Hs0; cbn; lia).
    assert (Hw1 : waiting isBackoffTask [backoffTask d] rt1).
    { unfold waiting in *. rewrite Hp1, filter_app, Hw0. reflexivity. }
    assert (Hwait : ticks busy < (n + 1) * 5000 ->
              waiting isBackoffTask [backoffTask d] (steps rt1 busy) /\
              rejoins (calls (subscription (steps rt1 busy))) = rejoined /\
              now (steps rt1 busy) = now rt + ticks busy /\
              supervised (steps rt1 busy)).
    { intros Hticks.
      destruct (backoff_run d busy rt1 Hs1 Hw1 Hbusy) as (Hw & Hr & Hn' & Hs).
      { rewrite Hn1. subst d. lia. }
      rewrite Hr, Hn', Hn1, Hc1. auto. }
    split.
    + intros Hticks. apply (Hwait Hticks).
    + intros Hticks rt2. destruct (Hwait ltac:(lia)) as (Hw & Hr & Hn' & Hs).
      destruct (tick_fires isBackoffTask isRejoin (fun _ => [ConnectionRejoin])
                  backoff_others backoff_fires (backoffTask d) (steps rt1 busy) Hs Hw)
        as [Hw2 Hr2].
      { rewrite Hn'. subst d. cbn. lia. }
      change (tick (steps rt1 busy)) with rt2 in Hw2, Hr2.
      unfold rejoins in *. rewrite Hr2, Hr.
      split; [reflexivity|]. split; [exact Hw2|].
      intros later Hlater.
      pose proof (backoff_free_run later rt2 (step_supervised _ Tick Hs) Hw2 Hlater)
        as Hafter.
      unfold rejoins in Hafter. rewrite Hafter, Hr2, Hr. reflexivity.
  - intros Hn. exact (no_attempts_left rt c Hs0 Hst H4014 Hn).
Qed.

(** C8. The connection reports [Connecting] or [Signalling] while the
    ready-guard is free. The listener sets the guard and starts one bound of
    20000 ms, calling nothing. While fewer than 20000 ms have passed the
    guard stays set and the bound keeps running; a further report of
    [Connecting] or [Signalling] then changes neither (no second bound is
    started), and a report of [Ready] ends the bound and frees the guard
    without any call on the connection, then or later. If 20000 ms pass
    without [Ready], the tick that completes them frees the guard and calls
    [destroy]; but if the connection has reported [Destroyed] in the
    meantime, the guard is freed and [destroy] is not called. In every state
    a subscription can reach from its construction, the number of running
    bounds is one when the guard is set and zero when it is free.
    The bound is shown twice. First from a state in which no other handler
    of the listener is suspended and with the connection silent in between
    the reports named. Then from any state in which the guard is free and in
    step with the bounds (other waits of the listener may be running), with
    the connection reporting anything but [Ready] during the bound, any
    number of times: the guard stays set, exactly one bound runs and it calls
    nothing until the 20000 ms are over; on the tick that completes them, or
    on a report of [Ready] before, the guard is free and no bound runs; the
    bound calls [destroy] only when it expires with the connection not
    [Destroyed], and no such call follows unless [Connecting] or [Signalling]
    is reported again. The host and the player may do anything in the
    meantime. *)
Theorem ready_bound_under_guard rt c es :
  supervised rt ->
  guarded rt ->
  connectionStatus (state c) = Connecting \/ connectionStatus (state c) = Signalling ->
  readyLock (subscription rt) = false ->
  forallb isQuiet es = true ->
  let before := connectionCalls (calls (subscription rt)) in
  let expired := expiries (calls (subscription rt)) in
  let rt1 := step rt (ConnectionStateChange c) in
  (readyLock (subscription rt1) = true /\
   readyBounds rt1 = 1%nat /\
   waiting isReadyTask [readyTask (now rt + 20000)] rt1 /\
   calls (subscription rt1) = calls (subscription rt)) /\
  (pending rt = [] ->
   pending rt1 = [readyTask (now rt + 20000)] /\
   (ticks es < 20000 ->
    (readyLock (subscription (steps rt1 es)) = true /\
     pending (steps rt1 es) = [readyTask (now rt + 20000)] /\
     connectionCalls (calls (subscription (steps rt1 es))) = before) /\
    (forall c',
        connectionStatus (state c') = Connecting \/
        connectionStatus (state c') = Signalling ->
        let rt2 := step (steps rt1 es) (ConnectionStateChange c') in
        readyLock (subscription rt2) = true /\
        pending rt2 = [readyTask (now rt + 20000)] /\
        connectionCalls (calls (subscription rt2)) = before) /\
    (forall c',
        connectionStatus (state c') = Ready ->
        let rt2 := step (steps rt1 es) (ConnectionStateChange c') in
        readyLock (subscription rt2) = false /\
        pending rt2 = [] /\
        forall es', forallb isQuiet es' = true ->
          connectionCalls (calls (subscription (steps rt2 es'))) = before)) /\
   (ticks es = 19999 ->
    let rt2 := step (steps rt1 es) Tick in
    readyLock (subscription rt2) = false /\
    pending rt2 = [] /\
    now rt2 = now rt + 20000 /\
    connectionCalls (calls (subscription rt2))
      = before ++ [ConnectionDestroy NotReadyInTime]) /\
   (forall c' es',
       connectionStatus (state c') = Destroyed ->
       forallb isQuiet es' = true ->
       ticks es + ticks es' = 19999 ->
       let rt2 :=
         step (steps (step (steps rt1 es) (ConnectionStateChange c')) es') Tick in
       readyLock (subscription rt2) = false /\
       pending rt2 = [] /\
       connectionCalls (calls (subscription rt2)) = before)) /\
  (forall c0 es0,
      let reached := steps (Runtime_new c0) es0 in
      readyBounds reached = Nat.b2n (readyLock (subscription reached))) /\
  (forall busy,
     existsb reportsReady busy = false ->
     (ticks busy < 20000 ->
      let rt2 := steps rt1 busy in
      readyLock (subscription rt2) = true /\
      readyBounds rt2 = 1%nat /\
      expiries (calls (subscription rt2)) = expired /\
      forall c',
        connectionStatus (state c') = Ready ->
        let rt3 := step rt2 (ConnectionStateChange c') in
        readyLock (subscription rt3) = false /\
        readyBounds rt3 = 0%nat /\
        expiries (calls (subscription rt3)) = expired /\
        forall later, existsb reportsHandshake later = false ->
          expiries (calls (subscription (steps rt3 later))) = expired) /\
     (ticks busy = 19999 ->
      let rt2 := step (steps rt1 busy) Tick in
      readyLock (subscription rt2) = false /\
      readyBounds rt2 = 0%nat /\
      expiries (calls (subscription rt2))
        = expired ++ expiryCalls (voiceConnection (subscription (steps rt1 busy))) /\
      forall later, existsb reportsHandshake later = false ->
        expiries (calls (subscription (steps rt2 later)))
        = expiries (calls (subscription rt2)))).
Proof.
  intros Hs0 Hg0 Hst Hlock Hquiet before expired rt1.
  set (d := now rt + 20000).
  destruct (bound_starts rt c Hs0 Hg0 Hst Hlock) as [Hc1 Hw1]. fold rt1 d in Hc1, Hw1.
  assert (Hs1 : supervised rt1) by apply step_supervised, Hs0.
  assert (Hg1 : guarded rt1) by (apply step_guarded; assumption).
  assert (Hn1 : now rt1 = now rt)
    by (unfold rt1; rewrite step_now by exact Hs0; cbn; lia).
  split; [|split; [|split]].
  - split; [exact (guarded_locked d rt1 Hg1 Hw1)|].
    split; [unfold readyBounds; rewrite Hw1; reflexivity|]. auto.
  - (* nothing else is suspended, and the connection is silent in between *)
    intros Hp. clear Hc1 Hw1 Hs1 Hg1 Hn1.
    subst rt1. rewrite connecting_starts_bound by auto. fold d.
    set (rt1 := {| subscription := _; now := now rt; pending := [readyTask d] |}).
    assert (Hwait : ticks es < 20000 ->
              pending (steps rt1 es) = [readyTask d] /\
              now (steps rt1 es) = now rt + ticks es /\
              readyLock (subscription (steps rt1 es)) = true /\
              voiceConnection (subscription (steps rt1 es)) = c /\
              connectionCalls (calls (subscription (steps rt1 es))) = before).
    { intros Hticks. apply (ready_bound_waiting rt1 d es eq_refl Hquiet).
      subst d. cbn. lia. }
    assert (Hnot : VoiceConnectionStatus_eqb (connectionStatus (state c)) Destroyed = false)
      by (destruct Hst as [-> | ->]; reflexivity).
    split; [reflexivity|]. split; [|split].
    + intros Hticks. destruct (Hwait Hticks) as (Hp' & Hn' & Hl' & Hv' & Hc').
      split; [auto|]. split.
      * intros c' Hc2 rt2. subst rt2.
        rewrite (connecting_under_guard _ c' d Hp' Hc2 Hl'). cbn. auto.
      * intros c' Hc2 rt2.
        assert (Hrt2 : rt2 = _) by exact (ready_ends_bound _ c' d Hp' Hc2).
        split; [rewrite Hrt2; reflexivity|]. split; [rewrite Hrt2; reflexivity|].
        intros es' Hes'.
        destruct (steps_nothing_pending es' rt2) as (_ & Hside); auto.
        { rewrite Hrt2. reflexivity. }
        apply connectionCalls_of_side in Hside as (Hside & _). rewrite Hside, Hrt2.
        exact Hc'.
    + intros Hticks rt2. destruct (Hwait ltac:(lia)) as (Hp' & Hn' & Hl' & Hv' & Hc').
      destruct (ready_bound_expires (steps rt1 es) d Hp') as (Hp2 & Hn2 & Hl2 & Hc2).
      { rewrite Hn'. subst d. lia. }
      subst rt2. cbn [step]. rewrite Hp2, Hn2, Hl2, Hc2, Hv', Hnot, Hc', Hn'.
      repeat split. subst d. lia.
    + intros c' es' Hc2 Hes' Hticks rt2. pose proof (ticks_nonneg es') as Hnn.
      destruct (Hwait ltac:(lia)) as (Hp' & Hn' & Hl' & Hv' & Hc').
      set (rt3 := step (steps rt1 es) (ConnectionStateChange c')).
      assert (Hrt3 : rt3 = _) by exact (destroyed_under_guard _ c' d Hp' Hc2).
      assert (Hside : connectionSide (subscription rt3)
                      = connectionSide
                          (set_voiceConnection c' (subscription (steps rt1 es)))).
      { rewrite Hrt3. apply connectionSide_stop. }
      apply connectionCalls_of_side in Hside as (Hc3 & Hl3 & Hv3).
      destruct (ready_bound_waiting rt3 d es') as (Hp4 & Hn4 & Hl4 & Hv4 & Hc4); auto.
      { rewrite Hrt3. reflexivity. }
      { rewrite Hrt3. cbn [now]. rewrite Hn'. subst d. lia. }
      destruct (ready_bound_expires (steps rt3 es') d Hp4) as (Hp5 & Hn5 & Hl5 & Hc5).
      { rewrite Hn4, Hrt3. cbn [now]. rewrite Hn'. subst d. lia. }
      subst rt2. fold rt3.
      change (step (steps rt3 es') Tick) with (tick (steps rt3 es')).
      rewrite Hp5, Hl5, Hc5, Hv4, Hv3, Hc4, Hc3.
      cbn [voiceConnection set_voiceConnection calls]. rewrite Hc2, Hc'.
      cbn [VoiceConnectionStatus_eqb]. rewrite app_nil_r. auto.
  - intros c0 es0 reached.
    apply (steps_guarded es0 (Runtime_new c0)); [apply Runtime_new_supervised|].
    reflexivity.
  - (* other waits may be running, and the connection reports other states *)
    intros busy Hbusy.
    assert (Hrun : ticks busy < 20000 ->
              waiting isReadyTask [readyTask d] (steps rt1 busy) /\
              expiries (calls (subscription (steps rt1 busy))) = expired /\
              now (steps rt1 busy) = now rt + ticks busy /\
              supervised (steps rt1 busy) /\
              guarded (steps rt1 busy)).
    { intros Hticks.
      destruct (bound_run d busy rt1 Hs1 Hg1 Hw1 Hbusy) as (Hw & Hx & Hn & Hs & Hg).
      { rewrite Hn1. subst d. lia. }
      rewrite Hx, Hn, Hn1, Hc1. auto. }
    split.
    + intros Hticks rt2. destruct (Hrun Hticks) as (Hw & Hx & Hn & Hs & Hg).
      fold rt2 in Hw, Hx, Hn, Hs, Hg.
      split; [exact (guarded_locked d rt2 Hg Hw)|].
      split; [unfold readyBounds; rewrite Hw; reflexivity|].
      split; [exact Hx|].
      intros c' Hc' rt3.
      destruct (connection_ends_waiting isReadyTask isExpiry _ rt2 c' Hs Hw)
        as [Hw3 Hx3].
      { apply bound_listener. right.
        cbn [subscription set_subscription voiceConnection set_voiceConnection].
        rewrite Hc'. reflexivity. }
      { rewrite listenerOutcome_seen; [reflexivity|exact isExpiry_connection|reflexivity]. }
      { repeat constructor. cbn [awaitsStatus readyTask wake]. rewrite Hc'. reflexivity. }
      fold rt3 in Hw3, Hx3.
      assert (Hg3 : guarded rt3) by (apply step_guarded; assumption).
      split; [exact (guarded_free rt3 Hg3 Hw3)|].
      split; [unfold readyBounds; rewrite Hw3; reflexivity|].
      unfold expiries in *. rewrite Hx3.
      split; [exact Hx|].
      intros later Hlater.
      pose proof (bound_free_run later rt3 (step_supervised _ _ Hs) Hw3 Hlater) as Hafter.
      unfold expiries in Hafter. rewrite Hafter, Hx3. exact Hx.
    + intros Hticks rt2. destruct (Hrun ltac:(lia)) as (Hw & Hx & Hn & Hs & Hg).
      destruct (tick_fires isReadyTask isExpiry expiryCalls bound_others bound_fires
                  (readyTask d) (steps rt1 busy) Hs Hw) as [Hw2 Hx2].
      { rewrite Hn. subst d. cbn. lia. }
      change (tick (steps rt1 busy)) with rt2 in Hw2, Hx2.
      assert (Hg2 : guarded rt2) by (apply (step_guarded _ Tick); assumption).
      split; [exact (guarded_free rt2 Hg2 Hw2)|].
      split; [unfold readyBounds; rewrite Hw2; reflexivity|].
      unfold expiries in *. rewrite Hx2, Hx.
      split; [reflexivity|].
      intros later Hlater.
      pose proof (bound_free_run later rt2 (step_supervised _ Tick Hs) Hw2 Hlater)
        as Hafter.
      unfold expiries in Hafter. rewrite Hafter, Hx2, Hx. reflexivity.
Qed.

End SupervisorProperties.

(* ================================================================== *)
(** ** Whole runs of a subscription *)
(* ================================================================== *)

Section RunProperties.
Context {V : Carried} {P : AudioPlayer}.

(** *** The lock, and the head of the queue *)

Lemma setState_queueLock newState this :
  queueLock (audioPlayer_setState processQueue newState this) = queueLock this.
Proof.
  unfold audioPlayer_setState, audioPlayer_onStateChange.
  destruct (isIdle newState && negb (isIdle (audioPlayer this))).
  - destruct (playerResource (audioPlayer this)) as [r|]; [|reflexivity].
    destruct (processQueue_frame
                (emit (songEnded (reference (metadata r)) (details (metadata r)))
                      (set_audioPlayer newState this))) as (_ & _ & Hl & _).
    rewrite Hl. reflexivity.
  - destruct (isPlaying newState); [|reflexivity].
    destruct (playerResource newState); reflexivity.
Qed.

Lemma step_queueLock rt e :
  supervised rt -> stops e = false ->
  queueLock (subscription (step rt e)) = queueLock (subscription rt).
Proof.
  intros Hs Hstop. destruct e; cbn [step subscription set_subscription].
  - unfold enqueue. destruct (processQueue_frame
                                (set_queue (queue (subscription rt) ++ [track])
                                           (subscription rt))) as (_ & _ & Hl & _).
    rewrite Hl. reflexivity.
  - discriminate.
  - apply setState_queueLock.
  - reflexivity.
  - destruct (connectionStateChange_supervised connection rt Hs) as (_ & _ & _ & Hq).
    cbn [stops] in Hstop. rewrite Hstop in Hq.
    apply queueSide_fields in Hq as (_ & _ & Hl & _). exact Hl.
  - destruct (tick_supervised rt Hs) as (_ & Hq & _).
    apply queueSide_fields in Hq as (_ & _ & Hl & _). exact Hl.
Qed.

(** X1. The queue lock is only ever held while [processQueue] is at work:
    as long as the subscription is not stopped (by the host or by the
    connection being destroyed), the lock is free after every event, whatever
    the player does and whether or not [play] throws. *)
Theorem queueLock_free_between_events rt es :
  supervised rt ->
  queueLock (subscription rt) = false ->
  existsb stops es = false ->
  queueLock (subscription (steps rt es)) = false.
Proof.
  revert rt. induction es as [|e es IH]; intros rt Hs Hl Hstop; [exact Hl|].
  cbn [existsb] in Hstop. apply orb_false_elim in Hstop as [He Hes].
  cbn [steps fold_left]. fold (steps (step rt e) es).
  apply IH; [apply step_supervised, Hs| |exact Hes].
  rewrite step_queueLock by assumption. exact Hl.
Qed.

(** After [processQueue] has run with the lock free, either the player is
    busy or the queue is empty. *)
Lemma processQueue_settles this :
  playStarts ->
  queueLock this = false ->
  isIdle (audioPlayer (processQueue this)) = true ->
  queue (processQueue this) = [].
Proof.
  intros Hplay.
  apply (processQueue_induction
    (fun this res =>
       queueLock this = false -> isIdle (audioPlayer res) = true -> queue res = [])).
  - intros s Hb Hl Hi. unfold blocked in Hb. rewrite Hl, Hi in Hb. cbn in Hb.
    destruct (queue s); [reflexivity|discriminate].
  - intros s t rest st _ Hidle _ Hst _. rewrite accepted_state by exact Hidle.
    cbn [audioPlayer]. intros Hi. rewrite (Hplay _ _ _ Hst) in Hi. discriminate.
  - intros s t rest e _ _ _ _ IH _. apply IH. reflexivity.
Qed.

Lemma setState_settles newState this :
  playStarts ->
  queueLock this = false ->
  (isIdle (audioPlayer this) = true -> queue this = []) ->
  let this' := audioPlayer_setState processQueue newState this in
  isIdle (audioPlayer this') = true -> queue this' = [].
Proof.
  intros Hplay Hl Hinv. unfold audioPlayer_setState, audioPlayer_onStateChange.
  cbn [audioPlayer set_audioPlayer].
  destruct (isIdle newState) eqn:Hnew, (isIdle (audioPlayer this)) eqn:Hold;
    cbn [andb negb].
  - apply isIdle_eq in Hnew. subst newState. cbn. intros _. apply Hinv. reflexivity.
  - destruct (playerResource (audioPlayer this)) as [r|] eqn:Hr.
    + apply processQueue_settles; [exact Hplay|exact Hl].
    + destruct (audioPlayer this); discriminate.
  - destruct (isPlaying newState).
    + destruct (playerResource newState); cbn; intros Hi; congruence.
    + cbn. intros Hi. congruence.
  - destruct (isPlaying newState).
    + destruct (playerResource newState); cbn; intros Hi; congruence.
    + cbn. intros Hi. congruence.
Qed.

Lemma step_settles rt e :
  playStarts -> supervised rt -> stops e = false ->
  queueLock (subscription rt) = false ->
  (isIdle (audioPlayer (subscription rt)) = true -> queue (subscription rt) = []) ->
  isIdle (audioPlayer (subscription (step rt e))) = true ->
  queue (subscription (step rt e)) = [].
Proof.
  intros Hplay Hs Hstop Hl Hinv.
  destruct e; cbn [step subscription set_subscription].
  - apply processQueue_settles; [exact Hplay|exact Hl].
  - discriminate.
  - apply setState_settles; assumption.
  - exact Hinv.
  - destruct (connectionStateChange_supervised connection rt Hs) as (_ & _ & _ & Hq).
    cbn [stops] in Hstop. rewrite Hstop in Hq.
    apply queueSide_fields in Hq as (Hp & Hq & _). cbn zeta in *.
    rewrite Hp, Hq. exact Hinv.
  - destruct (tick_supervised rt Hs) as (_ & Hq & _).
    apply queueSide_fields in Hq as (Hp & Hq & _). rewrite Hp, Hq. exact Hinv.
Qed.

(** X2. No track is left waiting behind an idle player. Take a player whose
    [play] either throws or leaves the player busy. From a new subscription,
    after any events that do not stop it: whenever the player is idle, the
    queue is empty; a queued track waits only while the player is busy with
    another one. *)
Theorem idle_player_means_empty_queue c es :
  playStarts ->
  existsb stops es = false ->
  let this := subscription (steps (Runtime_new c) es) in
  isIdle (audioPlayer this) = true -> queue this = [].
Proof.
  intros Hplay Hstop.
  assert (Hgen : forall es rt,
             supervised rt -> existsb stops es = false ->
             queueLock (subscription rt) = false ->
             (isIdle (audioPlayer (subscription rt)) = true ->
              queue (subscription rt) = []) ->
             isIdle (audioPlayer (subscription (steps rt es))) = true ->
             queue (subscription (steps rt es)) = []).
  { clear es Hstop. induction es as [|e es IH]; intros rt Hs Hstop Hl Hinv; [exact Hinv|].
    cbn [existsb] in Hstop. apply orb_false_elim in Hstop as [He Hes].
    cbn [steps fold_left]. fold (steps (step rt e) es).
    apply IH; [apply step_supervised, Hs|exact Hes| |].
    - rewrite step_queueLock by assumption. exact Hl.
    - apply step_settles; assumption. }
  apply Hgen; [apply Runtime_new_supervised|exact Hstop|reflexivity|reflexivity].
Qed.

(** *** Hand-off along a run *)

Lemma steps_queueLock es rt :
  supervised rt -> existsb stops es = false ->
  queueLock (subscription (steps rt es)) = queueLock (subscription rt).
Proof.
  revert rt. induction es as [|e es IH]; intros rt Hs Hstop; [reflexivity|].
  cbn [existsb] in Hstop. apply orb_false_elim in Hstop as [He Hes].
  cbn [steps fold_left]. fold (steps (step rt e) es).
  rewrite IH by (try apply step_supervised; assumption).
  apply step_queueLock; assumption.
Qed.

Lemma steps_settle es rt :
  playStarts -> supervised rt -> existsb stops es = false ->
  queueLock (subscription rt) = false ->
  (isIdle (audioPlayer (subscription rt)) = true -> queue (subscription rt) = []) ->
  isIdle (audioPlayer (subscription (steps rt es))) = true ->
  queue (subscription (steps rt es)) = [].
Proof.
  intros Hplay. revert rt.
  induction es as [|e es IH]; intros rt Hs Hstop Hl Hinv; [exact Hinv|].
  cbn [existsb] in Hstop. apply orb_false_elim in Hstop as [He Hes].
  cbn [steps fold_left]. fold (steps (step rt e) es).
  apply IH; [apply step_supervised, Hs|exact Hes| |].
  - rewrite step_queueLock by assumption. exact Hl.
  - apply step_settles; assumption.
Qed.

(** Behind a busy player [enqueue] only appends. *)
Lemma enqueue_behind_busy track this :
  isIdle (audioPlayer this) = false ->
  enqueue track this = set_queue (queue this ++ [track]) this.
Proof.
  intros Hbusy. unfold enqueue. apply processQueue_blocked.
  unfold blocked. cbn [audioPlayer queueLock set_queue]. rewrite Hbusy.
  cbn [negb]. rewrite orb_true_r. reflexivity.
Qed.

(** When [play] accepts the head of the queue of an idle, unlocked
    subscription, [processQueue] hands it over and pops it. *)
Lemma processQueue_hands_over this head rest newState :
  queueLock this = false -> isIdle (audioPlayer this) = true ->
  queue this = head :: rest ->
  AudioPlayer_play AudioPlayerIdleState (audioResource head) = Assigned newState ->
  queue (processQueue this) = rest /\
  audioPlayer (processQueue this) = newState /\
  handedOff (calls (processQueue this)) = handedOff (calls this) ++ [audioResource head].
Proof.
  intros Hl Hidle Hq Hplay. pose proof (isIdle_eq _ Hidle) as Hst.
  rewrite (processQueue_accepted this head rest newState Hl Hidle Hq)
    by (rewrite Hst; exact Hplay).
  rewrite accepted_state by exact Hidle. cbn [queue audioPlayer calls].
  split; [reflexivity|]. split; [reflexivity|].
  rewrite !handedOff_app. cbn [handedOff].
  destruct newState; cbn [handedOff]; rewrite ?app_nil_r; reflexivity.
Qed.

Lemma enqueue_hands_over track this head rest newState :
  queueLock this = false -> isIdle (audioPlayer this) = true ->
  queue this ++ [track] = head :: rest ->
  AudioPlayer_play AudioPlayerIdleState (audioResource head) = Assigned newState ->
  queue (enqueue track this) = rest /\
  audioPlayer (enqueue track this) = newState /\
  handedOff (calls (enqueue track this)) = handedOff (calls this) ++ [audioResource head].
Proof.
  intros Hl Hidle Hq Hplay. unfold enqueue.
  apply (processQueue_hands_over (set_queue (queue this ++ [track]) this) head rest newState);
    assumption.
Qed.

Lemma idle_hands_over this head rest newState :
  queueLock this = false -> isIdle (audioPlayer this) = false ->
  queue this = head :: rest ->
  AudioPlayer_play AudioPlayerIdleState (audioResource head) = Assigned newState ->
  let next := audioPlayer_setState processQueue AudioPlayerIdleState this in
  queue next = rest /\ audioPlayer next = newState /\
  handedOff (calls next) = handedOff (calls this) ++ [audioResource head].
Proof.
  intros Hl Hbusy Hq Hplay next. subst next.
  unfold audioPlayer_setState, audioPlayer_onStateChange.
  cbn [audioPlayer set_audioPlayer isIdle]. rewrite Hbusy. cbn [andb negb].
  destruct (playerResource (audioPlayer this)) as [r|] eqn:Hr.
  - set (ended := emit (songEnded (reference (metadata r)) (details (metadata r)))
                       (set_audioPlayer AudioPlayerIdleState this)).
    destruct (processQueue_hands_over ended head rest newState Hl eq_refl Hq Hplay)
      as (Hq' & Hp' & Ho').
    split; [exact Hq'|]. split; [exact Hp'|].
    rewrite Ho'. unfold ended, emit. cbn [calls call set_audioPlayer].
    rewrite handedOff_app. cbn [handedOff]. rewrite app_nil_r. reflexivity.
  - destruct (audioPlayer this); discriminate.
Qed.

(** C1. Start from a new subscription and let anything happen that does not
    stop it: tracks are enqueued, the player changes state or fails, time
    passes, the connection comes and goes. In the state reached:
    - the resources given to [play], in the order of the calls, followed by
      those of the tracks still queued, are exactly the enqueued tracks'
      resources in enqueue order; every call of [play] was made on an idle
      player, so no track is started while another one is active; and the
      lock is free;
    - [enqueue] appends to the tail: behind a busy player the track is added
      at the end of the queue and nothing else changes;
    - the drain pops the head: when the player is idle at an [enqueue], or
      goes idle while tracks wait, and [play] accepts the track at the head
      of the queue, that track is handed to the player and removed from the
      queue, and the player is in the state [play] returned;
    - nothing waits behind an idle player: when a successful [play] leaves
      the player busy, an idle player means that every enqueued track has
      been handed over, in enqueue order. *)
Theorem tracks_play_in_enqueue_order c es :
  existsb stops es = false ->
  let rt := steps (Runtime_new c) es in
  let this := subscription rt in
  (handedOff (calls this) ++ map audioResource (queue this)
     = map audioResource (enqueued es) /\
   existsb playsOverActive (calls this) = false /\
   queueLock this = false) /\
  (forall track,
     let next := subscription (step rt (CallEnqueue track)) in
     (isIdle (audioPlayer this) = false ->
      next = set_queue (queue this ++ [track]) this) /\
     (forall head rest newState,
        isIdle (audioPlayer this) = true ->
        queue this ++ [track] = head :: rest ->
        AudioPlayer_play AudioPlayerIdleState (audioResource head) = Assigned newState ->
        queue next = rest /\ audioPlayer next = newState /\
        handedOff (calls next) = handedOff (calls this) ++ [audioResource head])) /\
  (forall head rest newState,
     isIdle (audioPlayer this) = false ->
     queue this = head :: rest ->
     AudioPlayer_play AudioPlayerIdleState (audioResource head) = Assigned newState ->
     let next := subscription (step rt (PlayerStateChange AudioPlayerIdleState)) in
     queue next = rest /\ audioPlayer next = newState /\
     handedOff (calls next) = handedOff (calls this) ++ [audioResource head]) /\
  (playStarts ->
   isIdle (audioPlayer this) = true ->
   queue this = [] /\ handedOff (calls this) = map audioResource (enqueued es)).
Proof.
  intros Hstop rt this.
  pose proof (Runtime_new_supervised c) as Hs.
  destruct (steps_playOrder es (Runtime_new c) Hs Hstop) as [Ho Ha].
  assert (Hl : queueLock this = false)
    by (unfold this, rt; rewrite steps_queueLock by assumption; reflexivity).
  change (playOrder (subscription (steps (Runtime_new c) es)))
    with (handedOff (calls this) ++ map audioResource (queue this)) in Ho.
  cbn [app] in Ho.
  split; [exact (conj Ho (conj Ha Hl))|].
  split; [|split].
  - intros track next. subst next. cbn [step subscription set_subscription]. split.
    + apply enqueue_behind_busy.
    + intros head rest newState Hidle Hq Hplay.
      apply enqueue_hands_over; assumption.
  - intros head rest newState Hbusy Hq Hplay next. subst next.
    cbn [step subscription set_subscription].
    apply idle_hands_over; assumption.
  - intros Hplay Hidle.
    assert (Hq : queue this = []).
    { unfold this, rt. apply steps_settle; try assumption; reflexivity. }
    split; [exact Hq|]. rewrite Hq in Ho. cbn [map] in Ho.
    rewrite app_nil_r in Ho. exact Ho.
Qed.

(** *** A run of failing tracks *)

Lemma processQueue_past_failures failed :
  allThrow failed ->
  forall this rest,
    queueLock this = false ->
    audioPlayer this = AudioPlayerIdleState ->
    queue this = map fst failed ++ rest ->
    processQueue this
    = processQueue
        {| voiceConnection := voiceConnection this;
           audioPlayer := AudioPlayerIdleState;
           queue := rest;
           queueLock := false;
           readyLock := readyLock this;
           calls := calls this ++ flat_map failureCalls failed |}.
Proof.
  induction 1 as [|[t e] failed Ht _ IH]; intros this rest Hl Hp Hq.
  - cbn in *. rewrite app_nil_r. destruct this; cbn in *; subst. reflexivity.
  - cbn [map fst app] in Hq. cbn [fst snd] in Ht.
    rewrite (processQueue_thrown this t (map fst failed ++ rest) e);
      [|exact Hl|rewrite Hp; reflexivity|exact Hq|rewrite Hp; exact Ht].
    rewrite (IH (afterFailure t (map fst failed ++ rest) e this) rest);
      [|reflexivity|exact Hp|reflexivity].
    f_equal. unfold afterFailure, atHandOff, emit.
    cbn [voiceConnection readyLock calls call set_queueLock set_queue flat_map failureCalls
         fst snd].
    rewrite Hp, <- !app_assoc. reflexivity.
Qed.

(** X3. [processQueue] skips every track it cannot start. With the lock free
    and the player idle, let [play] throw on each of the first tracks of the
    queue. Then [processQueue] calls [play] on each of them in turn and emits
    one [playingError] for each, in queue order, and
    - when the queue holds nothing else, it ends with the queue empty, the
      player idle and the lock free;
    - when [play] accepts the track that follows, that track is handed to
      the player (with [songStarted] if the player went to [Playing]), the
      tracks behind it stay queued, and the lock is free. *)
Theorem processQueue_skips_every_failure this failed :
  queueLock this = false ->
  audioPlayer this = AudioPlayerIdleState ->
  allThrow failed ->
  (queue this = map fst failed ->
   queue (processQueue this) = [] /\
   audioPlayer (processQueue this) = AudioPlayerIdleState /\
   queueLock (processQueue this) = false /\
   calls (processQueue this) = calls this ++ flat_map failureCalls failed) /\
  (forall next rest newState,
      queue this = map fst failed ++ next :: rest ->
      AudioPlayer_play AudioPlayerIdleState (audioResource next) = Assigned newState ->
      queue (processQueue this) = rest /\
      audioPlayer (processQueue this) = newState /\
      queueLock (processQueue this) = false /\
      calls (processQueue this)
      = calls this ++ flat_map failureCalls failed
        ++ [PlayerPlay AudioPlayerIdleState (audioResource next)]
        ++ startCalls newState).
Proof.
  intros Hl Hp Hfailed. split.
  - intros Hq.
    rewrite (processQueue_past_failures failed Hfailed this []);
      [|exact Hl|exact Hp|rewrite app_nil_r; exact Hq].
    rewrite processQueue_blocked by reflexivity. repeat split.
  - intros next rest newState Hq Hnext.
    rewrite (processQueue_past_failures failed Hfailed this (next :: rest));
      [|exact Hl|exact Hp|exact Hq].
    rewrite (processQueue_accepted _ next rest newState);
      [|reflexivity|reflexivity|reflexivity|exact Hnext].
    rewrite accepted_state by reflexivity.
    cbn [queue audioPlayer queueLock calls]. rewrite <- !app_assoc.
    repeat split.
Qed.

(** *** The connection and the queue *)

Lemma step_weather rt e :
  supervised rt -> isConnectionWeather e = true ->
  queueSide (subscription (step rt e)) = queueSide (subscription rt).
Proof.
  intros Hs He. destruct e; try discriminate; cbn [step].
  - destruct (connectionStateChange_supervised connection rt Hs) as (_ & _ & _ & Hq).
    cbn [isConnectionWeather] in He. apply negb_true_iff in He. rewrite He in Hq.
    exact Hq.
  - apply (tick_supervised rt Hs).
Qed.

(** X4. Trouble on the connection never interrupts playback by itself. While
    the connection reports anything but [Destroyed] and time passes (so that
    grace periods, backoff delays and ready bounds start, end and expire, and
    [destroy] and [rejoin] are called), the player's state, the queue, the
    queue lock, the resources handed to the player and the notifications
    emitted all stay exactly as they were. *)
Theorem connection_trouble_leaves_playback_alone rt es :
  supervised rt ->
  forallb isConnectionWeather es = true ->
  let this := subscription rt in
  let this' := subscription (steps rt es) in
  audioPlayer this' = audioPlayer this /\
  queue this' = queue this /\
  queueLock this' = queueLock this /\
  handedOff (calls this') = handedOff (calls this) /\
  notifications (calls this') = notifications (calls this).
Proof.
  intros Hs Hes this this'. apply queueSide_fields. subst this this'.
  revert rt Hs. induction es as [|e es IH]; intros rt Hs; [reflexivity|].
  cbn [forallb] in Hes. apply andb_true_iff in Hes as [He Hes].
  cbn [steps fold_left]. fold (steps (step rt e) es).
  rewrite (IH Hes (step rt e) (step_supervised rt e Hs)).
  apply step_weather; assumption.
Qed.

(** X5. A connection that reports [Destroyed] ends the subscription: the
    listener calls [stop]. Whatever the state before, the queue is then
    empty, the player has been told to stop at once and is idle (with
    [songEnded] emitted for the resource it interrupted, if any), and the
    queue lock is set for good: whatever follows (new tracks, time, further
    reports, player errors), as long as the idle player does not change state
    by itself, nothing is handed to the player, no [songStarted] or
    [songEnded] is emitted, and an [enqueue] only appends to the queue. The
    player is assumed to halt on a forced stop. *)
Theorem destroyed_connection_ends_playback rt c es :
  forcedStopHalts ->
  supervised rt ->
  connectionStatus (state c) = Destroyed ->
  existsb isPlayerStateChange es = false ->
  let ended := subscription (step rt (ConnectionStateChange c)) in
  let later := subscription (steps (step rt (ConnectionStateChange c)) es) in
  queue ended = [] /\
  audioPlayer ended = AudioPlayerIdleState /\
  queueLock ended = true /\
  handedOff (calls ended) = handedOff (calls (subscription rt)) /\
  notifications (calls ended)
    = notifications (calls (subscription rt))
      ++ match playerResource (audioPlayer (subscription rt)) with
         | Some resource => [songEnded (reference (metadata resource))
                                       (details (metadata resource))]
         | None => []
         end /\
  queueLock later = true /\
  audioPlayer later = AudioPlayerIdleState /\
  handedOff (calls later) = handedOff (calls ended) /\
  songNotifications (calls later) = songNotifications (calls ended) /\
  (existsb stops es = false -> queue later = enqueued es).
Proof.
  intros Hhalts Hs Hst Hplayer ended later.
  destruct (connectionStateChange_supervised c rt Hs) as (_ & _ & _ & Hq).
  rewrite Hst in Hq. cbn [VoiceConnectionStatus_eqb] in Hq.
  change (connectionStateChange c rt) with (step rt (ConnectionStateChange c)) in Hq.
  fold ended in Hq.
  apply queueSide_fields in Hq as (Hp & Hq & Hl & Ho & Hn).
  rewrite stop_result in Hp, Hq, Hl, Ho, Hn by exact Hhalts.
  cbn [audioPlayer queue queueLock calls set_voiceConnection] in Hp, Hq, Hl, Ho, Hn.
  assert (Hh : halted ended) by (split; assumption).
  destruct (steps_halted es (step rt (ConnectionStateChange c)) Hhalts
              (step_supervised rt _ Hs) Hh Hplayer) as ([Hl' Hp'] & Ho' & Hn' & Hqueue & _).
  fold later in Hl', Hp', Ho', Hn', Hqueue. fold ended in Ho', Hn', Hqueue.
  split; [exact Hq|]. split; [exact Hp|]. split; [exact Hl|].
  split.
  { rewrite Ho, handedOff_app. cbn [handedOff].
    destruct (playerResource (audioPlayer (subscription rt))); cbn; apply app_nil_r. }
  split.
  { rewrite Hn, notifications_app. cbn [notifications].
    destruct (playerResource (audioPlayer (subscription rt))); reflexivity. }
  split; [exact Hl'|]. split; [exact Hp'|]. split; [exact Ho'|]. split; [exact Hn'|].
  intros Hstops. rewrite (Hqueue Hstops), Hq. reflexivity.
Qed.

(** *** Errors of the player *)

Lemma criticalErrors_app a b : criticalErrors (a ++ b) = criticalErrors a ++ criticalErrors b.
Proof. unfold criticalErrors. rewrite notifications_app. apply filter_app. Qed.

Lemma processQueue_criticalErrors this :
  criticalErrors (calls (processQueue this)) = criticalErrors (calls this).
Proof.
  apply (processQueue_induction
    (fun this res => criticalErrors (calls res) = criticalErrors (calls this))).
  - reflexivity.
  - intros s t rest st _ Hidle _ _. rewrite accepted_state by exact Hidle.
    cbn [calls]. rewrite !criticalErrors_app.
    destruct st; cbn; rewrite ?app_nil_r; reflexivity.
  - intros s t rest e _ _ _ _ IH. rewrite IH. unfold afterFailure, atHandOff, emit.
    cbn [calls call set_queueLock set_queue]. rewrite !criticalErrors_app.
    cbn. rewrite !app_nil_r. reflexivity.
Qed.

Lemma setState_criticalErrors newState this :
  criticalErrors (calls (audioPlayer_setState processQueue newState this))
  = criticalErrors (calls this).
Proof.
  unfold audioPlayer_setState, audioPlayer_onStateChange.
  destruct (isIdle newState && negb (isIdle (audioPlayer this))).
  - destruct (playerResource (audioPlayer this)) as [r|]; [|reflexivity].
    rewrite processQueue_criticalErrors. unfold emit. cbn [calls call set_audioPlayer].
    rewrite criticalErrors_app. cbn. apply app_nil_r.
  - destruct (isPlaying newState); [|reflexivity].
    destruct (playerResource newState); [|reflexivity].
    unfold emit. cbn [calls call set_audioPlayer].
    rewrite criticalErrors_app. cbn. apply app_nil_r.
Qed.

Lemma stop_criticalErrors this :
  criticalErrors (calls (stop this)) = criticalErrors (calls this).
Proof.
  unfold stop.
  assert (Hcall : criticalErrors
                    (calls (call (PlayerStop true) (set_queue [] (set_queueLock true this))))
                  = criticalErrors (calls this)).
  { unfold call, set_queue, set_queueLock. cbn [calls]. rewrite criticalErrors_app.
    cbn. apply app_nil_r. }
  destruct (AudioPlayer_stop true _).
  - rewrite setState_criticalErrors. exact Hcall.
  - exact Hcall.
Qed.

Lemma criticalErrors_queueSide this this' :
  queueSide this' = queueSide this ->
  criticalErrors (calls this') = criticalErrors (calls this).
Proof.
  intros H. apply queueSide_fields in H as (_ & _ & _ & _ & Hn).
  unfold criticalErrors. rewrite Hn. reflexivity.
Qed.

Lemma step_criticalErrors rt e :
  supervised rt ->
  criticalErrors (calls (subscription (step rt e)))
  = criticalErrors (calls (subscription rt))
    ++ map (fun error => criticalError (reference (metadata (errorResource error))) error)
           (playerErrors [e]).
Proof.
  intros Hs. destruct e; cbn [step subscription set_subscription playerErrors flat_map map app];
    rewrite ?app_nil_r.
  - unfold enqueue. rewrite processQueue_criticalErrors. reflexivity.
  - apply stop_criticalErrors.
  - apply setState_criticalErrors.
  - unfold audioPlayer_onError, emit. cbn [calls call]. rewrite criticalErrors_app.
    reflexivity.
  - destruct (connectionStateChange_supervised connection rt Hs) as (_ & _ & _ & Hq).
    cbn zeta in Hq.
    destruct (VoiceConnectionStatus_eqb (connectionStatus (state connection)) Destroyed).
    + rewrite (criticalErrors_queueSide _ _ Hq), stop_criticalErrors. reflexivity.
    + apply (criticalErrors_queueSide _ _ Hq).
  - destruct (tick_supervised rt Hs) as (_ & Hq & _).
    apply (criticalErrors_queueSide _ _ Hq).
Qed.

(** X18. [criticalError] is emitted for the errors the player reports, and
    for nothing else. Along any run of a subscription, whatever else happens
    (tracks enqueued, started, skipped or ended, stops, connection trouble,
    timers), the [criticalError] notifications emitted are exactly one for
    each [error] event of the player, in the order of the events, each with
    the request context of the resource the error is tied to and the error
    itself. *)
Theorem criticalError_reports_each_player_error rt es :
  supervised rt ->
  criticalErrors (calls (subscription (steps rt es)))
  = criticalErrors (calls (subscription rt))
    ++ map (fun error => criticalError (reference (metadata (errorResource error))) error)
           (playerErrors es).
Proof.
  revert rt. induction es as [|e es IH]; intros rt Hs.
  - cbn. rewrite app_nil_r. reflexivity.
  - cbn [steps fold_left]. fold (steps (step rt e) es).
    rewrite (IH (step rt e) (step_supervised rt e Hs)), (step_criticalErrors rt e Hs).
    rewrite <- app_assoc, <- map_app. f_equal. f_equal.
    unfold playerErrors. cbn [flat_map]. rewrite app_nil_r. reflexivity.
Qed.

(** *** Tracks that cannot be started *)

Lemma playingErrors_app a b : playingErrors (a ++ b) = playingErrors a ++ playingErrors b.
Proof. unfold playingErrors. rewrite notifications_app. apply filter_app. Qed.

Lemma failedPlays_app a b : failedPlays (a ++ b) = failedPlays a ++ failedPlays b.
Proof. apply flat_map_app. Qed.

Lemma reportsFailures_call c this :
  playingErrors [c] = failedPlays [c] ->
  reportsFailures this -> reportsFailures (call c this).
Proof.
  unfold reportsFailures. cbn [calls call]. intros Hc H.
  rewrite playingErrors_app, failedPlays_app, H, Hc. reflexivity.
Qed.

Lemma processQueue_reportsFailures this :
  reportsFailures this -> reportsFailures (processQueue this).
Proof.
  apply (processQueue_induction (fun this res => reportsFailures this -> reportsFailures res)).
  - auto.
  - intros s t rest st _ Hidle _ Hplay H. rewrite accepted_state by exact Hidle.
    unfold reportsFailures in *. cbn [calls].
    rewrite !playingErrors_app, !failedPlays_app, H.
    cbn [failedPlays flat_map failedPlay]. rewrite Hplay.
    destruct st; reflexivity.
  - intros s t rest e _ _ _ Hplay IH H. apply IH.
    unfold reportsFailures in H |- *. unfold afterFailure, atHandOff, emit.
    cbn [calls call set_queueLock set_queue].
    rewrite !playingErrors_app, !failedPlays_app, H.
    cbn [failedPlays flat_map failedPlay]. rewrite Hplay.
    cbn. rewrite ?app_nil_r, <- ?app_assoc. reflexivity.
Qed.

Lemma setState_reportsFailures newState this :
  reportsFailures this ->
  reportsFailures (audioPlayer_setState processQueue newState this).
Proof.
  intros H. unfold audioPlayer_setState, audioPlayer_onStateChange.
  destruct (isIdle newState && negb (isIdle (audioPlayer this))).
  - destruct (playerResource (audioPlayer this)) as [r|]; [|exact H].
    apply processQueue_reportsFailures. apply reportsFailures_call; [reflexivity|exact H].
  - destruct (isPlaying newState); [|exact H].
    destruct (playerResource newState); [|exact H].
    apply reportsFailures_call; [reflexivity|exact H].
Qed.

Lemma stop_reportsFailures this : reportsFailures this -> reportsFailures (stop this).
Proof.
  intros H. unfold stop.
  assert (Hcall : reportsFailures (call (PlayerStop true)
                                     (set_queue [] (set_queueLock true this))))
    by (apply reportsFailures_call; [reflexivity|exact H]).
  destruct (AudioPlayer_stop true _); [apply setState_reportsFailures|]; exact Hcall.
Qed.

Lemma playingErrors_queueCalls cs : playingErrors (queueCalls cs) = playingErrors cs.
Proof. unfold playingErrors. rewrite notifications_queueCalls. reflexivity. Qed.

Lemma failedPlays_queueCalls cs : failedPlays (queueCalls cs) = failedPlays cs.
Proof.
  induction cs as [|c cs IH]; [reflexivity|].
  unfold queueCalls, failedPlays in *. cbn [filter].
  destruct c; cbn [isConnectionCall negb flat_map failedPlay app]; rewrite ?IH; reflexivity.
Qed.

Lemma reportsFailures_queueSide this this' :
  queueSide this' = queueSide this -> reportsFailures this -> reportsFailures this'.
Proof.
  unfold queueSide, reportsFailures. intros H. injection H as _ _ _ Hc.
  rewrite <- (playingErrors_queueCalls (calls this')), <- (failedPlays_queueCalls (calls this')),
    Hc, playingErrors_queueCalls, failedPlays_queueCalls. auto.
Qed.

Lemma step_reportsFailures rt e :
  supervised rt ->
  reportsFailures (subscription rt) -> reportsFailures (subscription (step rt e)).
Proof.
  intros Hs H. destruct e; cbn [step subscription set_subscription].
  - unfold enqueue. apply processQueue_reportsFailures. exact H.
  - apply stop_reportsFailures, H.
  - apply setState_reportsFailures, H.
  - unfold audioPlayer_onError. apply reportsFailures_call; [reflexivity|exact H].
  - destruct (connectionStateChange_supervised connection rt Hs) as (_ & _ & _ & Hq).
    cbn zeta in Hq.
    destruct (VoiceConnectionStatus_eqb (connectionStatus (state connection)) Destroyed).
    + apply (reportsFailures_queueSide _ _ Hq), stop_reportsFailures. exact H.
    + apply (reportsFailures_queueSide _ _ Hq), H.
  - destruct (tick_supervised rt Hs) as (_ & Hq & _).
    apply (reportsFailures_queueSide _ _ Hq), H.
Qed.

(** X19. Every track that could not be started is reported, and nothing else
    is reported as one. In every state a subscription reaches from its
    construction, the [playingError] notifications emitted so far are exactly
    one for each call of [play] that threw, in the order of the calls, each
    with the request context of the resource that was handed over
    ([undefined] when the track had no resource) and the error [play]
    threw. *)
Theorem playingError_reports_each_failed_play c es :
  let this := subscription (steps (Runtime_new c) es) in
  playingErrors (calls this) = failedPlays (calls this).
Proof.
  intros this. subst this.
  assert (Hgen : forall es rt,
             supervised rt -> reportsFailures (subscription rt) ->
             reportsFailures (subscription (steps rt es))).
  { clear es. induction es as [|e es IH]; intros rt Hs H; [exact H|].
    cbn [steps fold_left]. fold (steps (step rt e) es).
    apply IH; [apply step_supervised, Hs|apply step_reportsFailures; assumption]. }
  apply Hgen; [apply Runtime_new_supervised|reflexivity].
Qed.

End RunProperties.

(* ================================================================== *)
(** ** Whole runs of the connection supervisor *)
(* ================================================================== *)

Section SupervisorRunProperties.
Context {V : Carried} {P : AudioPlayer}.

Lemma steps_cat rt es es' : steps rt (es ++ es') = steps (steps rt es) es'.
Proof. apply fold_left_app. Qed.

Lemma ticks_cat es es' : ticks (es ++ es') = ticks es + ticks es'.
Proof. unfold ticks. rewrite filter_app, length_app. lia. Qed.

Lemma length_concat_repeat {A} (x : A) n :
  List.length (List.concat (repeat [x] n)) = n.
Proof. induction n as [|n IH]; [reflexivity|]. cbn. rewrite IH. reflexivity. Qed.

Lemma filter_none {A} (l : list A) : filter (fun _ => false) l = [].
Proof. induction l as [|x l IH]; [reflexivity|exact IH]. Qed.

(** *** Counting disconnects and the calls that answer them *)

Lemma isSurrender_connection c : isSurrender c = true -> isConnectionCall c = true.
Proof. destruct c; try discriminate; reflexivity. Qed.

(** No suspended handler ever gives up the connection for want of attempts. *)
Lemma surrender_others t answer rt :
  supervisorTask t -> (fun _ : Task => false) t = false ->
  filter isSurrender (calls (subscription (run (resume t answer) rt)))
  = filter isSurrender (calls (subscription rt)).
Proof.
  intros [d|d|d] _.
  - rewrite run_graceTask. destruct answer; [reflexivity|].
    cbn [subscription set_subscription calls call]. rewrite filter_app. apply app_nil_r.
  - rewrite run_backoffTask. cbn [subscription set_subscription calls call].
    rewrite filter_app. apply app_nil_r.
  - rewrite run_readyTask. cbn [subscription set_subscription].
    destruct answer; [reflexivity|].
    destruct (VoiceConnectionStatus_eqb _ Destroyed); [reflexivity|].
    cbn [calls set_readyLock call]. rewrite filter_app. apply app_nil_r.
Qed.

Lemma backoff_never_woken s ts :
  filter isBackoffTask (filter (fun t => negb (awaitsStatus s t)) ts)
  = filter isBackoffTask ts.
Proof.
  induction ts as [|t ts IH]; [reflexivity|].
  cbn [filter]. destruct (awaitsStatus s t) eqn:Ha; cbn [negb filter].
  - assert (Hk : isBackoffTask t = false).
    { unfold isBackoffTask, awaitsStatus in *. destruct (wake t); first [discriminate|reflexivity]. }
    rewrite Hk. exact IH.
  - rewrite IH. reflexivity.
Qed.

Lemma listener_backoffs rt :
  List.length (filter isBackoffTask (snd (listenerOutcome rt)))
  = Nat.b2n (startsBackoff (voiceConnection (subscription rt))).
Proof.
  unfold startsBackoff, listenerOutcome.
  destruct (connectionStatus _); cbn;
    repeat match goal with |- context [if ?b then _ else _] => destruct b end;
    reflexivity.
Qed.

Lemma listener_surrenders rt :
  filter isSurrender (calls (fst (listenerOutcome rt)))
  = filter isSurrender (calls (subscription rt))
    ++ (if exhausted (voiceConnection (subscription rt))
        then [ConnectionDestroy NoAttemptsLeft] else []).
Proof.
  unfold exhausted, listenerOutcome.
  destruct (connectionStatus _) eqn:Hst;
    destruct (isWebSocketClose4014 _), (rejoinAttempts _ <? 5),
             (readyLock (subscription rt));
    cbn [fst calls call set_readyLock negb andb VoiceConnectionStatus_eqb];
    rewrite ?app_nil_r; try reflexivity;
    try (rewrite filter_app; reflexivity);
    apply (seen_of_side isSurrender isSurrender_connection), connectionSide_stop.
Qed.

Lemma step_accounts rt e :
  supervised rt ->
  (List.length (rejoins (calls (subscription (step rt e)))) + backoffs (step rt e)
   = List.length (rejoins (calls (subscription rt))) + backoffs rt
     + Nat.b2n (reportsRecoverable e))%nat /\
  surrenders (calls (subscription (step rt e)))
  = surrenders (calls (subscription rt))
    ++ (if reportsExhausted e then [ConnectionDestroy NoAttemptsLeft] else []).
Proof.
  intros Hs. unfold rejoins, surrenders, backoffs.
  destruct (isQueueEvent e) eqn:Hqe.
  { destruct (queueEvent_frame e rt Hqe) as (Hc & _ & Hp).
    rewrite Hp, (seen_of_side isRejoin isRejoin_connection _ _ Hc),
      (seen_of_side isSurrender isSurrender_connection _ _ Hc).
    destruct e; try discriminate; cbn; rewrite app_nil_r; split; lia || reflexivity. }
  destruct e; try discriminate.
  - (* a report of the connection *)
    destruct (connectionStateChange_outcome rt connection Hs) as [Hc Hp].
    cbn zeta in Hc, Hp. rewrite Hc, Hp, backoff_never_woken, filter_app, length_app.
    rewrite listenerOutcome_seen by (exact isRejoin_connection || reflexivity).
    rewrite listener_backoffs, listener_surrenders.
    cbn [subscription set_subscription voiceConnection set_voiceConnection calls
         reportsRecoverable reportsExhausted].
    split; [lia|reflexivity].
  - (* a tick *)
    cbn [step reportsRecoverable reportsExhausted Nat.b2n].
    destruct (tick_supervised rt Hs) as (_ & _ & _ & _ & Hp). rewrite Hp.
    rewrite (tick_fold rt).
    rewrite (seen_after_timeouts isBackoffTask isRejoin (fun _ => [ConnectionRejoin])
               backoff_others backoff_fires) by (apply Forall_filter, Hs).
    rewrite (resume_unseen (fun _ => false) isSurrender surrender_others timedOut);
      [|apply Forall_filter, Hs|apply filter_none].
    cbn [subscription set_pending set_now calls].
    rewrite length_app, length_concat_repeat, app_nil_r.
    pose proof (filter_split_length isBackoffTask (isDue (now rt + 1)) (pending rt)) as Hsplit.
    split; [lia|reflexivity].
Qed.

(** X6. Disconnects and the calls that answer them balance at every moment.
    Along any run of a subscription, each disconnect that is not a 4014 close
    and finds fewer than five rejoin attempts used starts one delay, and each
    delay ends in exactly one [rejoin]: the number of [rejoin] calls made so
    far plus the number of delays still running grows by exactly the number
    of such disconnects. No report of the connection cancels a delay. And
    [destroy] for want of attempts is called exactly once, at once, for each
    disconnect that finds the attempts used up, and at no other time. *)
Theorem disconnects_and_answers_balance rt es :
  supervised rt ->
  (List.length (rejoins (calls (subscription (steps rt es)))) + backoffs (steps rt es)
   = List.length (rejoins (calls (subscription rt))) + backoffs rt
     + List.length (filter reportsRecoverable es))%nat /\
  surrenders (calls (subscription (steps rt es)))
  = surrenders (calls (subscription rt))
    ++ map (fun _ => ConnectionDestroy NoAttemptsLeft) (filter reportsExhausted es).
Proof.
  revert rt. induction es as [|e es IH]; intros rt Hs.
  - cbn. rewrite app_nil_r. split; [lia|reflexivity].
  - destruct (step_accounts rt e Hs) as [Hr Hx].
    destruct (IH (step rt e) (step_supervised rt e Hs)) as [Hr' Hx'].
    cbn [steps fold_left]. fold (steps (step rt e) es).
    rewrite Hx', Hx, <- app_assoc. cbn [filter].
    split.
    + destruct (reportsRecoverable e); cbn [Nat.b2n List.length] in *; lia.
    + destruct (reportsExhausted e); reflexivity.
Qed.

(** *** A grace period that outlives the connection *)

Lemma quiet_undisturbed es : forallb isQuiet es = true -> forallb undisturbed es = true.
Proof.
  induction es as [|e es IH]; [reflexivity|]. cbn [forallb].
  intros H. apply andb_true_iff in H as [He Hes]. rewrite (IH Hes), andb_true_r.
  destruct e; try reflexivity. discriminate.
Qed.

Lemma quiet_keeps_connection es rt :
  supervised rt -> forallb isQuiet es = true ->
  voiceConnection (subscription (steps rt es)) = voiceConnection (subscription rt).
Proof.
  revert rt. induction es as [|e es IH]; intros rt Hs Hes; [reflexivity|].
  cbn [forallb] in Hes. apply andb_true_iff in Hes as [He Hes].
  cbn [steps fold_left]. fold (steps (step rt e) es).
  rewrite (IH (step rt e) (step_supervised rt e Hs) Hes).
  destruct (isQueueEvent e) eqn:Hqe.
  - destruct (queueEvent_frame e rt Hqe) as (Hc & _).
    apply connectionCalls_of_side in Hc as (_ & _ & Hv). exact Hv.
  - destruct e; try discriminate. apply (tick_supervised rt Hs).
Qed.

(** X7. The 4014 grace period does not look at the connection before it
    destroys it. After a 4014 close, let the connection report [Destroyed]
    within the 5000 ms (it was destroyed by someone else) and nothing
    afterwards. On the tick that completes the 5000 ms the listener still
    calls [destroy], on a connection whose state is [Destroyed]: unlike the
    20 s ready bound (lines 94-98), the [catch] block of lines 55-58 has no
    check of the state. *)
Theorem grace_period_destroys_a_destroyed_connection rt c c' before after :
  supervised rt ->
  waiting isGraceTask [] rt ->
  isWebSocketClose4014 (state c) = true ->
  connectionStatus (state c') = Destroyed ->
  forallb undisturbed before = true ->
  forallb isQuiet after = true ->
  ticks before + ticks after = 4999 ->
  let rt1 := step rt (ConnectionStateChange c) in
  let rt2 := steps (step (steps rt1 before) (ConnectionStateChange c')) after in
  connectionStatus (state (voiceConnection (subscription rt2))) = Destroyed /\
  removals (calls (subscription rt2)) = removals (calls (subscription rt)) /\
  removals (calls (subscription (step rt2 Tick)))
  = removals (calls (subscription rt)) ++ [ConnectionDestroy RemovedFromChannel].
Proof.
  intros Hs0 Hw0 H4014 Hst Hbefore Hafter Hticks rt1 rt2.
  set (d := now rt + 5000).
  destruct (grace_starts rt c Hs0 H4014) as [Hc1 Hp1]. fold rt1 d in Hc1, Hp1.
  assert (Hs1 : supervised rt1) by apply step_supervised, Hs0.
  assert (Hn1 : now rt1 = now rt)
    by (unfold rt1; rewrite step_now by exact Hs0; cbn; lia).
  assert (Hw1 : waiting isGraceTask [graceTask d] rt1).
  { unfold waiting in *. rewrite Hp1, filter_app, Hw0. reflexivity. }
  set (es := before ++ ConnectionStateChange c' :: after).
  assert (Hrt2 : rt2 = steps rt1 es).
  { unfold rt2, es. rewrite steps_cat. reflexivity. }
  assert (Hes : forallb undisturbed es = true).
  { unfold es. rewrite forallb_app, Hbefore. cbn [forallb andb].
    rewrite (quiet_undisturbed after Hafter), andb_true_r.
    unfold undisturbed, is4014, reportsConnecting.
    destruct (state c'); try discriminate; reflexivity. }
  assert (Hes_ticks : ticks es = 4999).
  { unfold es. rewrite ticks_cat, ticks_cons. cbn [isTick]. lia. }
  destruct (grace_run d es rt1 Hs1 Hw1 Hes) as (Hw & Hr & Hn & Hs).
  { rewrite Hn1. subst d. lia. }
  rewrite <- Hrt2 in Hw, Hr, Hn, Hs.
  split.
  { unfold rt2. rewrite quiet_keeps_connection by
      (try exact Hafter; apply step_supervised, steps_supervised, Hs1).
    destruct (connectionStateChange_supervised c' (steps rt1 before)
                (steps_supervised before rt1 Hs1)) as (_ & _ & Hv & _).
    cbn [step]. cbn zeta in Hv. rewrite Hv. exact Hst. }
  assert (Hr2 : removals (calls (subscription rt2)) = removals (calls (subscription rt)))
    by (rewrite Hr, Hc1; reflexivity).
  split; [exact Hr2|].
  destruct (tick_fires isGraceTask isRemoval
              (fun _ => [ConnectionDestroy RemovedFromChannel])
              grace_others grace_fires (graceTask d) rt2 Hs Hw) as [_ Hfired].
  { rewrite Hn, Hn1, Hes_ticks. subst d. cbn. lia. }
  cbn [step]. unfold removals in *. rewrite Hfired, Hr2. reflexivity.
Qed.

End SupervisorRunProperties.

(* ================================================================== *)
(** ** [isURL] *)
(* ================================================================== *)

Example isURL_plain_link : isURL "https://www.youtube.com/watch" = true.
Proof. vm_compute. reflexivity. Qed.

Example isURL_watch_link : isURL "https://www.youtube.com/watch?v=dQw4w9WgXcQ" = false.
Proof. vm_compute. reflexivity. Qed.

Example isURL_title : isURL "never gonna give you up topic" = false.
Proof. vm_compute. reflexivity. Qed.

Example isURL_dotted_title : isURL "mr.brightside" = true.
Proof. vm_compute. reflexivity. Qed.

(** *** Matching decides what a pattern matches *)

Lemma ranges_eqb_eq a b : ranges_eqb a b = true -> a = b.
Proof.
  revert b. induction a as [|[x1 y1] a IH]; intros [|[x2 y2] b]; cbn; try discriminate.
  - reflexivity.
  - intros H. apply andb_true_iff in H as [H Hab]. apply andb_true_iff in H as [Hx Hy].
    apply Ascii.eqb_eq in Hx, Hy. subst. rewrite (IH b Hab). reflexivity.
Qed.

Lemma RegExp_eqb_eq r r' : RegExp_eqb r r' = true -> r = r'.
Proof.
  revert r'. induction r as [| |a|r1 IH1 r2 IH2|r1 IH1 r2 IH2|r IH];
    intros [| |b|r1' r2'|r1' r2'|r']; cbn; try discriminate; intros H.
  - reflexivity.
  - reflexivity.
  - rewrite (ranges_eqb_eq a b H). reflexivity.
  - apply andb_true_iff in H as [H1 H2]. rewrite (IH1 _ H1), (IH2 _ H2). reflexivity.
  - apply andb_true_iff in H as [H1 H2]. rewrite (IH1 _ H1), (IH2 _ H2). reflexivity.
  - rewrite (IH _ H). reflexivity.
Qed.

Lemma Matches_Sequence_iff r1 r2 s :
  Matches (Sequence r1 r2) s <->
  exists s1 s2, s = s1 ++ s2 /\ Matches r1 s1 /\ Matches r2 s2.
Proof.
  split.
  - intros H. inversion H; subst. eauto.
  - intros (s1 & s2 & -> & H1 & H2). constructor; assumption.
Qed.

Lemma Matches_Alternative_iff r1 r2 s :
  Matches (Alternative r1 r2) s <-> Matches r1 s \/ Matches r2 s.
Proof.
  split.
  - intros H. inversion H; subst; auto.
  - intros [H|H]; [apply Matches_Alternative_l|apply Matches_Alternative_r]; exact H.
Qed.

Lemma nullable_Matches r : nullable r = true <-> Matches r [].
Proof.
  induction r as [| |a|r1 IH1 r2 IH2|r1 IH1 r2 IH2|r IH]; cbn.
  - split; [discriminate|]. intros H. inversion H.
  - split; [constructor|reflexivity].
  - split; [discriminate|]. intros H. inversion H.
  - rewrite andb_true_iff, IH1, IH2. split.
    + intros [H1 H2]. exact (Matches_Sequence r1 r2 [] [] H1 H2).
    + intros H. apply Matches_Sequence_iff in H as (s1 & s2 & Hs & H1 & H2).
      symmetry in Hs. apply app_eq_nil in Hs as [-> ->]. auto.
  - rewrite orb_true_iff, IH1, IH2. split.
    + intros [H|H]; [apply Matches_Alternative_l|apply Matches_Alternative_r]; exact H.
    + intros H. inversion H; subst; auto.
  - split; [constructor|reflexivity].
Qed.

Lemma Matches_Never s : ~ Matches Never s.
Proof. intros H. inversion H. Qed.

Lemma Matches_Empty_iff s : Matches Empty s <-> s = [].
Proof. split; [intros H; inversion H; reflexivity|intros ->; constructor]. Qed.

Lemma sequence_Matches r1 r2 s :
  Matches (sequence r1 r2) s <-> Matches (Sequence r1 r2) s.
Proof.
  rewrite Matches_Sequence_iff.
  assert (Hnever1 : Matches Never s <->
            exists s1 s2, s = s1 ++ s2 /\ Matches Never s1 /\ Matches r2 s2).
  { split; [intros H; destruct (Matches_Never _ H)|].
    intros (s1 & _ & _ & H & _). destruct (Matches_Never _ H). }
  assert (Hnever2 : Matches Never s <->
            exists s1 s2, s = s1 ++ s2 /\ Matches r1 s1 /\ Matches Never s2).
  { split; [intros H; destruct (Matches_Never _ H)|].
    intros (_ & s2 & _ & _ & H). destruct (Matches_Never _ H). }
  assert (Hempty : Matches r2 s <->
            exists s1 s2, s = s1 ++ s2 /\ Matches Empty s1 /\ Matches r2 s2).
  { split.
    - intros H. exists [], s. repeat split; [constructor|exact H].
    - intros (s1 & s2 & -> & H1 & H2). apply Matches_Empty_iff in H1. subst. exact H2. }
  assert (Hplain : Matches (Sequence r1 r2) s <->
            exists s1 s2, s = s1 ++ s2 /\ Matches r1 s1 /\ Matches r2 s2)
    by apply Matches_Sequence_iff.
  destruct r1; cbn [sequence]; try exact Hnever1;
    destruct r2; try exact Hnever2; try exact Hempty; exact Hplain.
Qed.

Lemma alternative_Matches r1 r2 s :
  Matches (alternative r1 r2) s <-> Matches (Alternative r1 r2) s.
Proof.
  rewrite Matches_Alternative_iff.
  assert (Hnever1 : Matches r2 s <-> Matches Never s \/ Matches r2 s).
  { split; [auto|]. intros [H|H]; [destruct (Matches_Never _ H)|exact H]. }
  assert (Hnever2 : Matches r1 s <-> Matches r1 s \/ Matches Never s).
  { split; [auto|]. intros [H|H]; [exact H|destruct (Matches_Never _ H)]. }
  assert (Hplain : Matches (if RegExp_eqb r1 r2 then r1 else Alternative r1 r2) s
                   <-> Matches r1 s \/ Matches r2 s).
  { destruct (RegExp_eqb r1 r2) eqn:Heq.
    - apply RegExp_eqb_eq in Heq. subst. tauto.
    - apply Matches_Alternative_iff. }
  destruct r1; cbn [alternative]; try exact Hnever1;
    destruct r2; try exact Hnever2; exact Hplain.
Qed.

(** A starred pattern that matches a text with a first character matches it
    piece by piece, the first piece not being empty. *)
Lemma Matches_Star_cons_inv r c s :
  Matches (Star r) (c :: s) ->
  exists s1 s2, s = s1 ++ s2 /\ Matches r (c :: s1) /\ Matches (Star r) s2.
Proof.
  intros H. remember (Star r) as r' eqn:Hr. remember (c :: s) as text eqn:Ht.
  revert s Ht. induction H as [| | | | | |r0 s1 s2 H1 _ H2 IH]; intros rest Ht;
    try discriminate.
  injection Hr as ->. destruct s1 as [|c1 s1].
  - apply (IH eq_refl rest Ht).
  - cbn in Ht. injection Ht as Hc Hrest. subst. exists s1, s2. auto.
Qed.

Lemma derivative_Matches r c s :
  Matches (derivative c r) s <-> Matches r (c :: s).
Proof.
  revert s. induction r as [| |a|r1 IH1 r2 IH2|r1 IH1 r2 IH2|r IH]; intros s;
    cbn [derivative].
  - split; intros H; inversion H.
  - split; intros H; inversion H.
  - destruct (inClass c a) eqn:Hc.
    + rewrite Matches_Empty_iff. split.
      * intros ->. constructor. exact Hc.
      * intros H. inversion H. reflexivity.
    + split; intros H; inversion H; congruence.
  - assert (Hhead : Matches (sequence (derivative c r1) r2) s <->
              exists s1 s2, s = s1 ++ s2 /\ Matches r1 (c :: s1) /\ Matches r2 s2).
    { rewrite sequence_Matches, Matches_Sequence_iff.
      split; intros (s1 & s2 & Hs & H1 & H2); exists s1, s2; repeat split;
        try assumption; apply IH1; exact H1. }
    destruct (nullable r1) eqn:Hn.
    + rewrite alternative_Matches, Matches_Alternative_iff, Hhead, IH2,
        Matches_Sequence_iff.
      split.
      * intros [(s1 & s2 & -> & H1 & H2)|H2].
        -- exists (c :: s1), s2. auto.
        -- exists [], (c :: s). repeat split; [apply nullable_Matches, Hn|exact H2].
      * intros (s1 & s2 & Hs & H1 & H2). destruct s1 as [|c1 s1].
        -- cbn in Hs. subst s2. right. exact H2.
        -- cbn in Hs. injection Hs as Hc Hrest. subst. left. eauto.
    + rewrite Hhead, Matches_Sequence_iff. split.
      * intros (s1 & s2 & -> & H1 & H2). exists (c :: s1), s2. auto.
      * intros (s1 & s2 & Hs & H1 & H2). destruct s1 as [|c1 s1].
        -- apply nullable_Matches in H1. congruence.
        -- cbn in Hs. injection Hs as Hc Hrest. subst. eauto.
  - rewrite alternative_Matches, !Matches_Alternative_iff, IH1, IH2. tauto.
  - rewrite sequence_Matches, Matches_Sequence_iff. split.
    + intros (s1 & s2 & -> & H1 & H2). apply IH in H1.
      exact (Matches_Star_cons r (c :: s1) s2 H1 H2).
    + intros H. apply Matches_Star_cons_inv in H as (s1 & s2 & -> & H1 & H2).
      exists s1, s2. repeat split; [apply IH, H1|exact H2].
Qed.

Lemma matches_Matches r s : matches r s = true <-> Matches r s.
Proof.
  revert r. induction s as [|c s IH]; intros r; cbn [matches].
  - apply nullable_Matches.
  - rewrite IH. apply derivative_Matches.
Qed.

(** *** Reading the pattern *)

Lemma inRange_only c c' : inRange c' (only c) = true <-> c' = c.
Proof.
  unfold inRange, only. cbn [fst snd]. rewrite andb_true_iff, !N.leb_le. split.
  - intros [H1 H2]. assert (H : N_of_ascii c' = N_of_ascii c) by lia.
    rewrite <- (ascii_N_embedding c'), H. apply ascii_N_embedding.
  - intros ->. lia.
Qed.

Lemma Matches_CharacterClass_iff ranges s :
  Matches (CharacterClass ranges) s <-> exists c, s = [c] /\ inClass c ranges = true.
Proof.
  split.
  - intros H. inversion H; subst. eauto.
  - intros (c & -> & H). constructor. exact H.
Qed.

Lemma Matches_Character_iff c s : Matches (Character c) s <-> s = [c].
Proof.
  unfold Character. rewrite Matches_CharacterClass_iff. split.
  - intros (c' & -> & H). cbn in H. rewrite orb_false_r in H.
    apply inRange_only in H. subst. reflexivity.
  - intros ->. exists c. split; [reflexivity|]. cbn. rewrite orb_false_r.
    apply inRange_only. reflexivity.
Qed.

Lemma Matches_Literal_iff cs s : Matches (Literal cs) s <-> s = cs.
Proof.
  revert s. induction cs as [|c cs IH]; intros s; cbn [Literal].
  - apply Matches_Empty_iff.
  - rewrite Matches_Sequence_iff. split.
    + intros (s1 & s2 & -> & H1 & H2). apply Matches_Character_iff in H1.
      apply IH in H2. subst. reflexivity.
    + intros ->. exists [c], cs. repeat split; [apply Matches_Character_iff|apply IH];
        reflexivity.
Qed.

Lemma Matches_Optional_iff r s : Matches (Optional r) s <-> Matches r s \/ s = [].
Proof. unfold Optional. rewrite Matches_Alternative_iff, Matches_Empty_iff. tauto. Qed.

Lemma forallb_same {A} (f g : A -> bool) (l : list A) :
  (forall x, f x = g x) -> forallb f l = forallb g l.
Proof. intros H. induction l as [|x l IH]; [reflexivity|]. cbn. rewrite H, IH. reflexivity. Qed.

(** Whatever holds of every character of the pieces holds of every
    character of what the starred pattern matches. *)
Lemma Matches_Star_forallb r (p : ascii -> bool) :
  (forall s, Matches r s -> forallb p s = true) ->
  forall s, Matches (Star r) s -> forallb p s = true.
Proof.
  intros Hpiece s H. remember (Star r) as r' eqn:Hr.
  induction H as [| | | | | |r0 s1 s2 H1 _ H2 IH]; try discriminate.
  - reflexivity.
  - injection Hr as ->. rewrite forallb_app, (Hpiece s1 H1), (IH eq_refl). reflexivity.
Qed.

Lemma Matches_Star_class ranges s :
  Matches (Star (CharacterClass ranges)) s
  <-> forallb (fun c => inClass c ranges) s = true.
Proof.
  split.
  - apply Matches_Star_forallb. intros s' H.
    apply Matches_CharacterClass_iff in H as (c & -> & H). cbn. rewrite H. reflexivity.
  - induction s as [|c s IH]; cbn [forallb]; intros H; [constructor|].
    apply andb_true_iff in H as [Hc Hs].
    apply (Matches_Star_cons _ [c] s); [constructor; exact Hc|apply IH, Hs].
Qed.

Lemma Matches_Star_Star_class ranges s :
  Matches (Star (Star (CharacterClass ranges))) s
  <-> forallb (fun c => inClass c ranges) s = true.
Proof.
  split.
  - apply Matches_Star_forallb. intros s'. apply Matches_Star_class.
  - intros H. rewrite <- (app_nil_r s).
    apply Matches_Star_cons; [apply Matches_Star_class, H|constructor].
Qed.

Lemma Matches_Plus_class ranges s :
  Matches (Plus (CharacterClass ranges)) s
  <-> s <> [] /\ forallb (fun c => inClass c ranges) s = true.
Proof.
  unfold Plus. rewrite Matches_Sequence_iff. split.
  - intros (s1 & s2 & -> & H1 & H2).
    apply Matches_CharacterClass_iff in H1 as (c & -> & Hc).
    apply Matches_Star_class in H2. cbn. rewrite Hc, H2. split; [discriminate|reflexivity].
  - intros [Hne H]. destruct s as [|c s]; [congruence|].
    cbn in H. apply andb_true_iff in H as [Hc Hs].
    exists [c], s. repeat split; [constructor; exact Hc|apply Matches_Star_class, Hs].
Qed.

Lemma Matches_Exactly_class n ranges s :
  Matches (Exactly n (CharacterClass ranges)) s
  <-> List.length s = n /\ forallb (fun c => inClass c ranges) s = true.
Proof.
  revert s. induction n as [|n IH]; intros s; cbn [Exactly].
  - rewrite Matches_Empty_iff. split.
    + intros ->. split; reflexivity.
    + intros [H _]. apply length_zero_iff_nil, H.
  - rewrite Matches_Sequence_iff. split.
    + intros (s1 & s2 & -> & H1 & H2).
      apply Matches_CharacterClass_iff in H1 as (c & -> & Hc).
      apply IH in H2 as [Hlen Hall]. cbn. rewrite Hc, Hall, Hlen. split; reflexivity.
    + intros [Hlen H]. destruct s as [|c s]; [discriminate|].
      cbn in Hlen, H. apply andb_true_iff in H as [Hc Hs].
      exists [c], s. repeat split; [constructor; exact Hc|apply IH]. split; [lia|exact Hs].
Qed.

Lemma Matches_AtMost_class n ranges s :
  Matches (AtMost n (CharacterClass ranges)) s
  <-> (List.length s <= n)%nat /\ forallb (fun c => inClass c ranges) s = true.
Proof.
  revert s. induction n as [|n IH]; intros s; cbn [AtMost].
  - rewrite Matches_Empty_iff. split.
    + intros ->. split; [cbn; lia|reflexivity].
    + intros [H _]. apply length_zero_iff_nil. lia.
  - rewrite Matches_Optional_iff, Matches_Sequence_iff. split.
    + intros [(s1 & s2 & -> & H1 & H2)| ->]; [|split; [cbn; lia|reflexivity]].
      apply Matches_CharacterClass_iff in H1 as (c & -> & Hc).
      apply IH in H2 as [Hlen Hall]. cbn. rewrite Hc, Hall. split; [lia|reflexivity].
    + intros [Hlen H]. destruct s as [|c s]; [right; reflexivity|left].
      cbn in Hlen, H. apply andb_true_iff in H as [Hc Hs].
      exists [c], s. repeat split; [constructor; exact Hc|apply IH]. split; [lia|exact Hs].
Qed.

Lemma Matches_Between_class lo hi ranges s :
  (lo <= hi)%nat ->
  Matches (Between lo hi (CharacterClass ranges)) s
  <-> (lo <= List.length s <= hi)%nat /\ forallb (fun c => inClass c ranges) s = true.
Proof.
  intros Hle. unfold Between. rewrite Matches_Sequence_iff. split.
  - intros (s1 & s2 & -> & H1 & H2).
    apply Matches_Exactly_class in H1 as [Hlen1 Hall1].
    apply Matches_AtMost_class in H2 as [Hlen2 Hall2].
    rewrite length_app, forallb_app, Hall1, Hall2. split; [lia|reflexivity].
  - intros [Hlen H]. exists (firstn lo s), (skipn lo s).
    rewrite <- (firstn_skipn lo s) in H. rewrite forallb_app in H.
    apply andb_true_iff in H as [H1 H2].
    repeat split.
    + symmetry. apply firstn_skipn.
    + apply Matches_Exactly_class. split; [apply firstn_length_le; lia|exact H1].
    + apply Matches_AtMost_class. split; [rewrite length_skipn; lia|exact H2].
Qed.

(** The classes of the pattern and the characters they stand for. *)
Lemma hostCharacter_class c :
  inClass c [digits; lowerCase; only "."%char; only "-"%char] = hostCharacter c.
Proof. destruct c as [[] [] [] [] [] [] [] []]; reflexivity. Qed.

Lemma domainCharacter_class c :
  inClass c [lowerCase; only "."%char] = domainCharacter c.
Proof. destruct c as [[] [] [] [] [] [] [] []]; reflexivity. Qed.

Lemma pathCharacter_class c :
  inClass c (only "/"%char :: wordCharacters ++ [only "."%char; only "-"%char])
  = pathCharacter c.
Proof. destruct c as [[] [] [] [] [] [] [] []]; reflexivity. Qed.

Lemma scheme_Matches s :
  Matches (Optional (Sequence (Literal (list_ascii_of_string "http"))
                       (Sequence (Optional (Character "s"%char))
                                 (Literal (list_ascii_of_string "://"))))) s
  <-> s = [] \/ s = list_ascii_of_string "http://" \/ s = list_ascii_of_string "https://".
Proof.
  rewrite Matches_Optional_iff, Matches_Sequence_iff. split.
  - intros [(s1 & s2 & -> & H1 & H2)| ->]; [|left; reflexivity].
    apply Matches_Literal_iff in H1. subst s1.
    apply Matches_Sequence_iff in H2 as (s3 & s4 & -> & H3 & H4).
    apply Matches_Literal_iff in H4. subst s4.
    apply Matches_Optional_iff in H3 as [H3| ->].
    + apply Matches_Character_iff in H3. subst s3. right; right. reflexivity.
    + right; left. reflexivity.
  - intros [-> |[-> | ->]]; [right; reflexivity| |]; left.
    + exists (list_ascii_of_string "http"), (list_ascii_of_string "://").
      repeat split; [apply Matches_Literal_iff; reflexivity|].
      apply (Matches_Sequence _ _ [] (list_ascii_of_string "://"));
        [apply Matches_Optional_iff; right; reflexivity
        |apply Matches_Literal_iff; reflexivity].
    + exists (list_ascii_of_string "http"), (list_ascii_of_string "s://").
      repeat split; [apply Matches_Literal_iff; reflexivity|].
      apply (Matches_Sequence _ _ ["s"%char] (list_ascii_of_string "://"));
        [apply Matches_Optional_iff; left; apply Matches_Character_iff; reflexivity
        |apply Matches_Literal_iff; reflexivity].
Qed.

Lemma urlRegex_Matches s : Matches urlRegex s <-> urlShaped s.
Proof.
  unfold urlRegex, urlShaped. split.
  - intros H.
    apply Matches_Sequence_iff in H as (scheme & r1 & -> & Hscheme & H).
    apply Matches_Sequence_iff in H as (host & r2 & -> & Hhost & H).
    apply Matches_Sequence_iff in H as (dot & r3 & -> & Hdot & H).
    apply Matches_Sequence_iff in H as (domain & r4 & -> & Hdomain & H).
    apply Matches_Sequence_iff in H as (path & slash & -> & Hpath & Hslash).
    apply scheme_Matches in Hscheme.
    apply Matches_Plus_class in Hhost as [Hne Hhost].
    apply Matches_Character_iff in Hdot. subst dot.
    apply Matches_Between_class in Hdomain as [Hlen Hdomain]; [|lia].
    apply Matches_Star_Star_class in Hpath.
    apply Matches_Optional_iff in Hslash.
    rewrite (forallb_same _ _ _ hostCharacter_class) in Hhost.
    rewrite (forallb_same _ _ _ domainCharacter_class) in Hdomain.
    rewrite (forallb_same _ _ _ pathCharacter_class) in Hpath.
    exists scheme, host, domain, path, slash.
    repeat split; try assumption; try lia.
    destruct Hslash as [Hslash| ->]; [|left; reflexivity].
    apply Matches_Character_iff in Hslash. right. exact Hslash.
  - intros (scheme & host & domain & path & slash & -> & Hscheme & Hne & Hhost
            & Hlen & Hdomain & Hpath & Hslash).
    rewrite <- (forallb_same _ _ _ hostCharacter_class) in Hhost.
    rewrite <- (forallb_same _ _ _ domainCharacter_class) in Hdomain.
    rewrite <- (forallb_same _ _ _ pathCharacter_class) in Hpath.
    apply Matches_Sequence; [apply scheme_Matches, Hscheme|].
    apply Matches_Sequence; [apply Matches_Plus_class; auto|].
    apply (Matches_Sequence _ _ ["."%char]); [apply Matches_Character_iff; reflexivity|].
    apply Matches_Sequence; [apply Matches_Between_class; [lia|auto]|].
    apply Matches_Sequence; [apply Matches_Star_Star_class, Hpath|].
    apply Matches_Optional_iff. destruct Hslash as [-> | ->]; [right; reflexivity|left].
    apply Matches_Character_iff. reflexivity.
Qed.

Lemma isURL_urlShaped text :
  isURL text = true <-> urlShaped (list_ascii_of_string text).
Proof.
  unfold isURL, RegExp_test. rewrite matches_Matches. apply urlRegex_Matches.
Qed.

(** X8. [isURL] accepts exactly the texts of this shape: an optional
    ["http://"] or ["https://"]; a host, one or more characters that are
    digits, lower-case letters, dots or hyphens; a dot; a domain of two to
    six lower-case letters or dots; a path of letters of either case, digits,
    underscores, slashes, dots and hyphens; and an optional closing slash. *)
Theorem isURL_accepts_exactly_this_shape text :
  isURL text = true <-> urlShaped (list_ascii_of_string text).
Proof. apply isURL_urlShaped. Qed.

(** *** What [isURL] turns away, and what it lets through *)

Lemma forallb_impl {A} (f g : A -> bool) (l : list A) :
  (forall x, f x = true -> g x = true) -> forallb f l = true -> forallb g l = true.
Proof.
  intros H. induction l as [|x l IH]; [reflexivity|]. cbn.
  intros Hl. apply andb_true_iff in Hl as [Hx Hl]. rewrite (H x Hx), (IH Hl). reflexivity.
Qed.

Lemma forallb_existsb_negb {A} (f : A -> bool) (l : list A) :
  forallb f l = true -> existsb (fun x => negb (f x)) l = false.
Proof.
  induction l as [|x l IH]; [reflexivity|]. cbn.
  intros H. apply andb_true_iff in H as [Hx Hl]. rewrite Hx, (IH Hl). reflexivity.
Qed.

Lemma hostCharacter_urlCharacter c : hostCharacter c = true -> urlCharacter c = true.
Proof.
  destruct c as [[] [] [] [] [] [] [] []]; vm_compute; intros H;
    first [reflexivity|discriminate H].
Qed.

Lemma domainCharacter_urlCharacter c : domainCharacter c = true -> urlCharacter c = true.
Proof.
  destruct c as [[] [] [] [] [] [] [] []]; vm_compute; intros H;
    first [reflexivity|discriminate H].
Qed.

Lemma pathCharacter_urlCharacter c : pathCharacter c = true -> urlCharacter c = true.
Proof. unfold urlCharacter. intros ->. reflexivity. Qed.

Lemma urlShaped_characters s : urlShaped s -> forallb urlCharacter s = true.
Proof.
  intros (scheme & host & domain & path & slash & -> & Hscheme & _ & Hhost
          & _ & Hdomain & Hpath & Hslash).
  rewrite !forallb_app. cbn [forallb]. rewrite !forallb_app.
  rewrite (forallb_impl _ _ _ hostCharacter_urlCharacter Hhost),
    (forallb_impl _ _ _ domainCharacter_urlCharacter Hdomain),
    (forallb_impl _ _ _ pathCharacter_urlCharacter Hpath).
  destruct Hscheme as [-> |[-> | ->]]; destruct Hslash as [-> | ->]; reflexivity.
Qed.

(** X9. [isURL] turns away every text that holds a character other than a
    letter, a digit or one of [_ . - / :]. So a text with a space in it (a
    song title of several words) is no URL, and neither is a link with a
    query string, such as a YouTube watch link, because of its [?] and [=]. *)
Theorem isURL_rejects_other_characters text :
  existsb (fun c => negb (urlCharacter c)) (list_ascii_of_string text) = true ->
  isURL text = false.
Proof.
  intros Hbad. destruct (isURL text) eqn:Hurl; [|reflexivity].
  apply isURL_urlShaped, urlShaped_characters, forallb_existsb_negb in Hurl.
  congruence.
Qed.

Lemma urlShaped_dot s : urlShaped s -> In "."%char s.
Proof.
  intros (scheme & host & domain & path & slash & -> & _).
  apply in_or_app. right. apply in_or_app. right. left. reflexivity.
Qed.

Lemma urlShaped_length s : urlShaped s -> (4 <= List.length s)%nat.
Proof.
  intros (scheme & host & domain & path & slash & -> & _ & Hne & _ & Hlen & _).
  rewrite !length_app. cbn [List.length]. rewrite !length_app.
  destruct host; [congruence|]. cbn [List.length]. lia.
Qed.

Lemma urlShaped_first s c rest :
  urlShaped s -> s = c :: rest -> hostCharacter c = true.
Proof.
  intros (scheme & host & domain & path & slash & -> & Hscheme & Hne & Hhost & _) Hs.
  destruct Hscheme as [-> |[-> | ->]].
  - destruct host as [|h host]; [congruence|]. cbn in Hs, Hhost.
    injection Hs as -> _. apply andb_true_iff in Hhost as [Hh _]. exact Hh.
  - cbn in Hs. injection Hs as <- _. reflexivity.
  - cbn in Hs. injection Hs as <- _. reflexivity.
Qed.

Lemma existsb_In_eqb (c : ascii) (s : list ascii) :
  existsb (Ascii.eqb c) s = false -> ~ In c s.
Proof.
  induction s as [|x s IH]; cbn; [tauto|].
  intros H. apply orb_false_elim in H as [Hx Hs]. intros [Heq|Hin].
  - subst. rewrite Ascii.eqb_refl in Hx. discriminate.
  - exact (IH Hs Hin).
Qed.

(** X10. What every URL needs in the eyes of [isURL]: a dot somewhere, at
    least four characters (a host, the dot, and a domain of two characters),
    and a first character that is a digit, a lower-case letter, a dot or a
    hyphen. So the empty text, a single word without a dot, and a text that
    begins with a capital letter (["Https://..."], ["YouTube.com"]) are all
    turned away: the pattern is case-sensitive in the scheme and the host. *)
Theorem isURL_needs_dot_length_and_lower_start text :
  let cs := list_ascii_of_string text in
  (existsb (Ascii.eqb "."%char) cs = false -> isURL text = false) /\
  ((List.length cs < 4)%nat -> isURL text = false) /\
  (forall c rest, cs = c :: rest -> hostCharacter c = false -> isURL text = false) /\
  forallb (fun c => negb (hostCharacter c))
    (list_ascii_of_string "ABCDEFGHIJKLMNOPQRSTUVWXYZ") = true.
Proof.
  intros cs. subst cs.
  assert (Hshape : isURL text = false \/ urlShaped (list_ascii_of_string text)).
  { destruct (isURL text) eqn:Hurl; [right; apply isURL_urlShaped, Hurl|left; reflexivity]. }
  split; [|split; [|split; [|reflexivity]]].
  - intros Hdot. destruct Hshape as [H|H]; [exact H|].
    apply urlShaped_dot in H. destruct (existsb_In_eqb _ _ Hdot H).
  - intros Hlen. destruct Hshape as [H|H]; [exact H|].
    apply urlShaped_length in H. lia.
  - intros c rest Hs Hc. destruct Hshape as [H|H]; [exact H|].
    rewrite (urlShaped_first _ c rest H Hs) in Hc. discriminate.
Qed.

Lemma isLower_hostCharacter c : isLower c = true -> hostCharacter c = true.
Proof. unfold hostCharacter. intros ->. rewrite orb_true_r. reflexivity. Qed.

Lemma isLower_domainCharacter c : isLower c = true -> domainCharacter c = true.
Proof. unfold domainCharacter. intros ->. reflexivity. Qed.

Lemma isLower_pathCharacter c : isLower c = true -> pathCharacter c = true.
Proof. unfold pathCharacter. intros ->. rewrite orb_true_r. reflexivity. Qed.

(** X11. [isURL] takes some song titles for URLs. A text made of two runs of
    lower-case letters with a dot between them, the second run of at least
    two letters (such as ["mr.brightside"]), is accepted: the pattern asks
    for no scheme and lets the path follow the domain without a slash. *)
Theorem isURL_accepts_dotted_words (first second : list ascii) :
  first <> [] ->
  forallb isLower first = true ->
  (2 <= List.length second)%nat ->
  forallb isLower second = true ->
  isURL (string_of_list_ascii (first ++ "."%char :: second)) = true.
Proof.
  intros Hne Hfirst Hlen Hsecond.
  apply isURL_urlShaped. rewrite list_ascii_of_string_of_list_ascii.
  exists [], first, (firstn 6 second), (skipn 6 second), [].
  rewrite <- (firstn_skipn 6 second) in Hsecond. rewrite forallb_app in Hsecond.
  apply andb_true_iff in Hsecond as [Hdomain Hpath].
  split; [cbn [app]; rewrite app_nil_r, firstn_skipn; reflexivity|].
  split; [left; reflexivity|]. split; [exact Hne|].
  split; [exact (forallb_impl _ _ _ isLower_hostCharacter Hfirst)|].
  split.
  { rewrite length_firstn. lia. }
  split; [exact (forallb_impl _ _ _ isLower_domainCharacter Hdomain)|].
  split; [exact (forallb_impl _ _ _ isLower_pathCharacter Hpath)|left; reflexivity].
Qed.

(* ================================================================== *)
(** ** [Track.create] *)
(* ================================================================== *)

Example highWaterMark_is_a_32_bit_shift : highWaterMark ytdlOptions = 2 ^ 30.
Proof. reflexivity. Qed.

Section TrackCreationProperties.
Context {V : Carried}.

(** *** The stream's listeners *)

Lemma settle_settled outcome d o :
  settled d = Some o -> settled (settle outcome d) = Some o.
Proof. unfold settle. cbn. intros ->. reflexivity. Qed.

Lemma onStreamEvent_settled stream ref details d e o :
  settled d = Some o -> settled (onStreamEvent stream ref details d e) = Some o.
Proof.
  intros H. destruct e; cbn [onStreamEvent];
    match goal with |- context [if ?b then _ else _] => destruct b end;
    unfold onError, settle; cbn [settled]; rewrite ?H; try reflexivity; exact H.
Qed.

(** Once the promise is settled, nothing the stream does changes it. *)
Lemma download_settled stream ref details events d o :
  settled d = Some o ->
  settled (fold_left (onStreamEvent stream ref details) events d) = Some o.
Proof.
  revert d. induction events as [|e events IH]; intros d H; [exact H|].
  cbn [fold_left]. apply IH, onStreamEvent_settled, H.
Qed.

(** The listeners only ever probe the stream and destroy it. *)
Lemma download_outcalls stream ref details events d :
  exists made,
    outcalls (fold_left (onStreamEvent stream ref details) events d) = outcalls d ++ made /\
    forallb isStreamCall made = true.
Proof.
  revert d. induction events as [|e events IH]; intros d.
  - exists []. rewrite app_nil_r. auto.
  - cbn [fold_left]. destruct (IH (onStreamEvent stream ref details d e)) as (made & -> & Hm).
    assert (Hstep : exists first,
               outcalls (onStreamEvent stream ref details d e) = outcalls d ++ first /\
               forallb isStreamCall first = true).
    { destruct e; cbn [onStreamEvent].
      - destruct (readableArmed d); [exists [DemuxProbe stream]|exists []];
          cbn; rewrite ?app_nil_r; auto.
      - destruct (errorArmed d); [exists [StreamDestroy stream]|exists []];
          cbn; rewrite ?app_nil_r; auto.
      - destruct (probing d); exists []; cbn; rewrite ?app_nil_r; auto.
      - destruct (probing d); [exists [StreamDestroy stream]|exists []];
          cbn; rewrite ?app_nil_r; auto. }
    destruct Hstep as (first & -> & Hf). exists (first ++ made).
    rewrite <- app_assoc, forallb_app, Hf, Hm. auto.
Qed.

(** As long as the stream only becomes readable, the promise stays pending,
    the error listener stays armed, and a probe is under way as soon as the
    stream has become readable once. *)
Lemma download_readable stream ref details n log :
  let d := fold_left (onStreamEvent stream ref details) (repeat Readable n)
             {| settled := None; readableArmed := true; errorArmed := true;
                probing := false; outcalls := log |} in
  settled d = None /\ errorArmed d = true /\
  probing d = negb (Nat.eqb n 0) /\
  outcalls d = log ++ (if Nat.eqb n 0 then [] else [DemuxProbe stream]).
Proof.
  destruct n as [|n].
  - cbn. rewrite app_nil_r. auto.
  - cbn [repeat fold_left onStreamEvent readableArmed settled errorArmed outcalls Nat.eqb negb].
    induction n as [|n IH]; [cbn; auto|].
    cbn [repeat fold_left onStreamEvent readableArmed]. exact IH.
Qed.


(** *** The link *)

(** Take the answers of the outside one by one. *)
Ltac answer_by_answer :=
  repeat match goal with
         | |- context [match ?answer with inl _ => _ | inr _ => _ end] =>
             destruct answer
         end.

Lemma fetchURL_calls w query :
  forallb isBrowserCall (fst (fetchURL w query [])) = true.
Proof.
  unfold fetchURL, Script_bind, perform, Script_ret. answer_by_answer; reflexivity.
Qed.

Lemma fetchURL_thrown w query error :
  snd (fetchURL w query []) = inl error ->
  close (puppeteer w) = inr tt ->
  existsb isBrowserClose (fst (fetchURL w query [])) = false.
Proof.
  unfold fetchURL, Script_bind, perform, Script_ret.
  answer_by_answer; cbn; congruence.
Qed.

Lemma Track_lookup_calls w query :
  forallb isBrowserCall (fst (Track_lookup w query)) = true.
Proof.
  unfold Track_lookup. destruct (isURL query); [reflexivity|].
  pose proof (fetchURL_calls w query) as H.
  destruct (fetchURL w query []) as [log [e|u]]; exact H.
Qed.

Lemma createAudioResource_calls w ref url events log :
  exists made,
    fst (Track_createAudioResource w ref url events log)
    = log ++ Ytdl url ytdlOptions :: GetBasicInfo url :: made /\
    forallb isStreamCall made = true.
Proof.
  unfold Track_createAudioResource, fetchMetadata.
  destruct (match getBasicInfo w url with
            | inl error => inl (BasicInfoFailed error)
            | inr videoInfo => _
            end) as [failure|details].
  - exists []. cbn. rewrite <- app_assoc. auto.
  - cbn [fst].
    destruct (download_outcalls (ytdl w url ytdlOptions) ref details events
                {| settled := None; readableArmed := true; errorArmed := true;
                   probing := false;
                   outcalls := (log ++ [Ytdl url ytdlOptions]) ++ [GetBasicInfo url] |})
      as (made & -> & Hm).
    exists made. cbn [outcalls]. rewrite <- !app_assoc. auto.
Qed.

(** X12. A query that [isURL] accepts is never made the link of the track.
    [Track.create] then skips [fetchURL], and nothing else assigns [url]: no
    browser is started, [ytdl] and [getBasicInfo] are both asked about
    [undefined], and the track, if one is created, has no [url]. *)
Theorem create_from_accepted_query_has_no_link w query ref events :
  isURL query = true ->
  let run := Track_create_run w query ref events in
  (exists made,
      fst run = Ytdl None ytdlOptions :: GetBasicInfo None :: made /\
      forallb isStreamCall made = true) /\
  existsb isBrowserCall (fst run) = false /\
  (forall track, snd run = Fulfilled track -> url track = None).
Proof.
  intros Hurl run. subst run. unfold Track_create_run, Track_lookup. rewrite Hurl.
  destruct (createAudioResource_calls w ref None events []) as (made & Hlog & Hm).
  destruct (Track_createAudioResource w ref None events []) as [log [r|e|]];
    cbn [fst snd app] in *; subst log.
  all: split; [exists made; auto|]; split.
  all: try (intros track H; try discriminate; injection H as <-; reflexivity).
  all: cbn [existsb isBrowserCall orb];
    clear - Hm; induction made as [|c made IH]; [reflexivity|];
    cbn in *; apply andb_true_iff in Hm as [Hc Hm]; rewrite (IH Hm);
    destruct c; try discriminate; reflexivity.
Qed.

(** X13. When a step of the search throws, [Track.create] is rejected with
    that very error, and it has done nothing but drive the browser: no
    stream was opened and no metadata asked for. Unless it was [close] itself
    that threw, the browser has not been closed either: [fetchURL] has no
    [finally]. *)
Theorem create_is_rejected_when_the_search_throws w query ref events error :
  isURL query = false ->
  snd (fetchURL w query []) = inl error ->
  let run := Track_create_run w query ref events in
  snd run = Rejected error /\
  fst run = fst (fetchURL w query []) /\
  forallb isBrowserCall (fst run) = true /\
  (close (puppeteer w) = inr tt -> existsb isBrowserClose (fst run) = false).
Proof.
  intros Hurl Hthrown run. subst run. unfold Track_create_run, Track_lookup.
  rewrite Hurl. pose proof (fetchURL_calls w query) as Hcalls.
  pose proof (fetchURL_thrown w query error Hthrown) as Hclose.
  destruct (fetchURL w query []) as [log [e|u]]; cbn [fst snd] in *; [|discriminate].
  injection Hthrown as ->. auto.
Qed.

(** X14. When [fetchMetadata] rejects, [Track.create] never settles. The
    stream has been opened by then, and whatever it does afterwards, the
    promise stays pending: no listener was attached, the stream is neither
    probed nor destroyed, and the error reaches nobody. (The [await] of line
    109 throws inside the [async] executor of the promise, where nothing
    catches it.) *)
Theorem create_never_settles_when_metadata_fails w query ref events log url failure :
  Track_lookup w query = (log, inr url) ->
  metadataOf w url = inl failure ->
  Track_create_run w query ref events
  = (log ++ [Ytdl url ytdlOptions; GetBasicInfo url], Pending).
Proof.
  intros Hlookup Hmeta. unfold Track_create_run. rewrite Hlookup.
  unfold Track_createAudioResource, metadataOf, fetchMetadata in *. cbn [snd] in Hmeta.
  rewrite Hmeta. rewrite <- app_assoc. reflexivity.
Qed.

(** The promise of [createAudioResource] when the metadata has arrived: the
    stream becomes readable [n] times, then [e] happens. *)
Lemma createAudioResource_decided w ref url details n e later log :
  metadataOf w url = inr details ->
  let stream := ytdl w url ytdlOptions in
  let d := onStreamEvent stream ref details
             {| settled := None; readableArmed := Nat.eqb n 0; errorArmed := true;
                probing := negb (Nat.eqb n 0);
                outcalls := log ++ [Ytdl url ytdlOptions; GetBasicInfo url]
                            ++ (if Nat.eqb n 0 then [] else [DemuxProbe stream]) |} e in
  forall o, settled d = Some o ->
  snd (Track_createAudioResource w ref url (repeat Readable n ++ e :: later) log)
  = match o with inr resource => Fulfilled resource | inl error => Rejected error end /\
  exists made,
    fst (Track_createAudioResource w ref url (repeat Readable n ++ e :: later) log)
    = outcalls d ++ made.
Proof.
  intros Hmeta stream d o Hsettled.
  unfold Track_createAudioResource, metadataOf, fetchMetadata in *. cbn [snd] in Hmeta.
  rewrite Hmeta. fold stream. rewrite fold_left_app. cbn [fold_left snd fst].
  destruct (download_readable stream ref details n
              ((log ++ [Ytdl url ytdlOptions]) ++ [GetBasicInfo url]))
    as (Hs & He & Hp & Ho).
  cbn zeta in Hs, He, Hp, Ho.
  set (d0 := fold_left (onStreamEvent stream ref details) (repeat Readable n) _) in *.
  assert (Hra : readableArmed d0 = Nat.eqb n 0).
  { subst d0. clear. destruct n as [|n]; [reflexivity|].
    cbn [repeat fold_left onStreamEvent readableArmed Nat.eqb].
    induction n as [|n IH]; [reflexivity|].
    cbn [repeat fold_left onStreamEvent readableArmed]. exact IH. }
  assert (Hd : onStreamEvent stream ref details d0 e = d).
  { subst d. destruct d0 as [s0 r0 e0 p0 o0]. cbn in Hs, He, Hp, Ho, Hra. subst.
    rewrite <- !app_assoc. reflexivity. }
  rewrite Hd. rewrite (download_settled stream ref details later d o Hsettled).
  split; [destruct o; reflexivity|].
  destruct (download_outcalls stream ref details later d) as (made & -> & _).
  exists made. reflexivity.
Qed.


Lemma download_destroys stream ref details events d :
  errorArmed d = true ->
  existsb isStreamError events = true ->
  existsb isStreamDestroy
    (outcalls (fold_left (onStreamEvent stream ref details) events d)) = true.
Proof.
  revert d. induction events as [|e events IH]; intros d Harmed Herr; [discriminate|].
  cbn [fold_left]. destruct e; cbn [existsb isStreamError orb] in Herr.
  - apply IH; [|exact Herr]. cbn [onStreamEvent].
    destruct (readableArmed d); cbn; exact Harmed.
  - cbn [onStreamEvent]. rewrite Harmed.
    destruct (download_outcalls stream ref details events
                (onError stream error
                   {| settled := settled d; readableArmed := readableArmed d;
                      errorArmed := false; probing := probing d;
                      outcalls := outcalls d |})) as (made & -> & _).
    unfold onError, settle. cbn [outcalls].
    rewrite !existsb_app. cbn. rewrite orb_true_r. reflexivity.
  - apply IH; [|exact Herr]. cbn [onStreamEvent].
    destruct (probing d); unfold settle; cbn; exact Harmed.
  - cbn [onStreamEvent]. destruct (probing d).
    + destruct (download_outcalls stream ref details events
                  (onError stream error
                     {| settled := settled d; readableArmed := readableArmed d;
                        errorArmed := errorArmed d; probing := false;
                        outcalls := outcalls d |})) as (made & -> & _).
      unfold onError, settle. cbn [outcalls].
      rewrite !existsb_app. cbn. rewrite orb_true_r. reflexivity.
    + apply IH; assumption.
Qed.

Lemma create_of_resource w query ref events log url :
  Track_lookup w query = (log, inr url) ->
  snd (Track_create_run w query ref events)
  = match snd (Track_createAudioResource w ref url events log) with
    | Fulfilled resource =>
        Fulfilled {| query := query; url := url;
                     audioResource := Some resource; trackReference := ref |}
    | Rejected error => Rejected error
    | Pending => Pending
    end /\
  fst (Track_create_run w query ref events)
  = fst (Track_createAudioResource w ref url events log).
Proof.
  intros Hlookup. unfold Track_create_run. rewrite Hlookup.
  destruct (Track_createAudioResource w ref url events log) as [log' [r|e|]];
    split; reflexivity.
Qed.

(** X15. Once the link and the metadata are there, the promise of
    [Track.create] is settled by whichever answer comes first after the
    stream's listeners are attached.
    - While the stream only becomes readable, the promise is pending.
    - A stream error rejects it with that error.
    - After the stream has become readable, a failure of the probe rejects
      it with the probe's error, and an answer of the probe fulfils it with a
      track that carries the query, the link, the caller's reference and a
      resource made of the probed stream and the metadata.
    What the stream does afterwards does not change the outcome; but when
    it reports an error after a track was created, the stream of that track
    is destroyed all the same. *)
Theorem create_is_settled_by_the_first_answer w query ref log url details n later :
  Track_lookup w query = (log, inr url) ->
  metadataOf w url = inr details ->
  let promise events := snd (Track_create_run w query ref events) in
  let history events := fst (Track_create_run w query ref events) in
  promise (repeat Readable n) = Pending /\
  (forall error,
      promise (repeat Readable n ++ StreamError error :: later) = Rejected error) /\
  (forall error,
      promise (repeat Readable (S n) ++ ProbeFailed error :: later) = Rejected error) /\
  (forall probe,
      promise (repeat Readable (S n) ++ Probed probe :: later)
      = Fulfilled (Track_create query ref url details probe) /\
      (existsb isStreamError later = true ->
       existsb isStreamDestroy (history (repeat Readable (S n) ++ Probed probe :: later))
       = true)).
Proof.
  intros Hlookup Hmeta promise history. subst promise history. cbn beta.
  split; [|split; [|split]].
  - destruct (create_of_resource w query ref (repeat Readable n) log url Hlookup) as [-> _].
    unfold Track_createAudioResource, metadataOf, fetchMetadata in *. cbn [snd] in Hmeta.
    rewrite Hmeta. cbn [snd].
    destruct (download_readable (ytdl w url ytdlOptions) ref details n
                ((log ++ [Ytdl url ytdlOptions]) ++ [GetBasicInfo url])) as (-> & _).
    reflexivity.
  - intros error.
    destruct (create_of_resource w query ref
                (repeat Readable n ++ StreamError error :: later) log url Hlookup) as [-> _].
    destruct (createAudioResource_decided w ref url details n (StreamError error) later log
                Hmeta (inl error)) as [-> _]; reflexivity.
  - intros error.
    destruct (create_of_resource w query ref
                (repeat Readable (S n) ++ ProbeFailed error :: later) log url Hlookup)
      as [-> _].
    destruct (createAudioResource_decided w ref url details (S n) (ProbeFailed error)
                later log Hmeta (inl error)) as [-> _]; reflexivity.
  - intros probe.
    destruct (create_of_resource w query ref
                (repeat Readable (S n) ++ Probed probe :: later) log url Hlookup)
      as [-> ->].
    split.
    + destruct (createAudioResource_decided w ref url details (S n) (Probed probe)
                  later log Hmeta
                  (inr (createAudioResource probe {| reference := ref; details := details |})))
        as [-> _]; reflexivity.
    + intros Herr.
      unfold Track_createAudioResource, metadataOf, fetchMetadata in *. cbn [snd] in Hmeta.
      rewrite Hmeta. cbn [fst]. rewrite fold_left_app. cbn [fold_left].
      apply download_destroys; [|exact Herr].
      destruct (download_readable (ytdl w url ytdlOptions) ref details (S n)
                  ((log ++ [Ytdl url ytdlOptions]) ++ [GetBasicInfo url]))
        as (_ & He & Hp & _).
      cbn zeta in He, Hp. cbn [onStreamEvent]. rewrite Hp. exact He.
Qed.

(** X16. A search that goes through, from the query to the track. Let
    [isURL] turn the query away, let every step of the browser go through
    and find the attribute [href] (or [null]), let [getBasicInfo] answer for
    the link with at least one thumbnail, and let the stream become readable
    and the probe answer. Then [Track.create] is fulfilled with a track whose
    [url] is ["https://www.youtube.com"] followed by the attribute (by
    ["null"] when there is none), and whose resource plays the probed stream
    and carries the caller's reference, the title, the duration wrapped by
    [durationWrapper], the uploader as [name(user)] and the first thumbnail.
    The calls made are the six steps of the browser, closed at the end, then
    [ytdl] and [getBasicInfo] on the link, then the probe. *)
Theorem create_by_search_yields_the_track w query ref href info cover more n probe later :
  let address :=
    ("https://www.youtube.com/results?search_query=" ++ encodeURIComponent w query)%string in
  let link := ("https://www.youtube.com" ++ orElse "null" href)%string in
  isURL query = false ->
  launch (puppeteer w) = inr tt ->
  newPage (puppeteer w) = inr tt ->
  goto (puppeteer w) address = inr tt ->
  waitForSelector (puppeteer w) "a#video-title" = inr tt ->
  hrefOfFirstHit (puppeteer w) "a#video-title" = inr href ->
  close (puppeteer w) = inr tt ->
  getBasicInfo w (Some link) = inr info ->
  thumbnails info = cover :: more ->
  let run := Track_create_run w query ref (repeat Readable (S n) ++ Probed probe :: later) in
  snd run
  = Fulfilled
      {| query := query;
         url := Some link;
         audioResource :=
           Some {| playStream := probe;
                   metadata :=
                     {| reference := ref;
                        details :=
                          {| title := videoTitle info;
                             duration := durationWrapper (lengthSeconds info);
                             uploadedBy :=
                               (authorName info ++ "("
                                ++ orElse "undefined" (authorUser info) ++ ")")%string;
                             coverArt := cover |} |} |};
         trackReference := ref |} /\
  exists made,
    fst run
    = [PuppeteerLaunch; BrowserNewPage; PageGoto address;
       PageWaitForSelector "a#video-title"; PageEval "a#video-title"; BrowserClose;
       Ytdl (Some link) ytdlOptions; GetBasicInfo (Some link);
       DemuxProbe (ytdl w (Some link) ytdlOptions)] ++ made.
Proof.
  intros address link Hurl Hlaunch Hpage Hgoto Hwait Hhref Hclose Hinfo Hcover run.
  assert (Hlookup : Track_lookup w query
                    = ([PuppeteerLaunch; BrowserNewPage; PageGoto address;
                        PageWaitForSelector "a#video-title"; PageEval "a#video-title";
                        BrowserClose], inr (Some link))).
  { unfold Track_lookup, fetchURL, Script_bind, perform, Script_ret. rewrite Hurl.
    fold address. rewrite Hlaunch, Hpage, Hgoto, Hwait, Hhref, Hclose. reflexivity. }
  assert (Hmeta : metadataOf w (Some link)
                  = inr {| title := videoTitle info;
                           duration := durationWrapper (lengthSeconds info);
                           uploadedBy :=
                             (authorName info ++ "("
                              ++ orElse "undefined" (authorUser info) ++ ")")%string;
                           coverArt := cover |}).
  { unfold metadataOf, fetchMetadata. cbn [snd]. rewrite Hinfo, Hcover. reflexivity. }
  subst run.
  destruct (create_of_resource w query ref
              (repeat Readable (S n) ++ Probed probe :: later) _ _ Hlookup) as [-> ->].
  destruct (createAudioResource_decided w (ref) (Some link) _ (S n) (Probed probe) later
              [PuppeteerLaunch; BrowserNewPage; PageGoto address;
               PageWaitForSelector "a#video-title"; PageEval "a#video-title"; BrowserClose]
              Hmeta _ eq_refl) as [-> [made ->]].
  split; [reflexivity|].
  exists made. cbn. reflexivity.
Qed.

End TrackCreationProperties.

(* ================================================================== *)
(** ** [durationWrapper], on negative whole numbers too *)
(* ================================================================== *)

Example durationWrapper_minus_one : timestamp (durationWrapper (-1)) = "-1:59"%string.
Proof. vm_compute. reflexivity. Qed.

(** X17. On every whole number of seconds [s] from [- 2 ^ 52] to [2 ^ 52],
    negative ones included, [flatMinutes] is the floor of [s / 60] (towards
    minus infinity, as [Math.floor] of the rounded quotient) and [seconds]
    is [s - 60 * flatMinutes], from 0 to 59 whatever the sign of [s]; a
    negative [s] has negative minutes, printed with their sign. *)
Theorem durationWrapper_fields_agree (s : Z) :
  - 2 ^ 52 <= s <= 2 ^ 52 ->
  let d := durationWrapper s in
  flatMinutes d = Number_of_Z (s / 60) /\
  seconds d = Number_of_Z (s - 60 * (s / 60)) /\
  0 <= s - 60 * (s / 60) < 60 /\
  flatMinutes d = Math_floor (decimalMinutes d) /\
  (s < 0 ->
   s / 60 < 0 /\
   timestamp d
     = ("-" ++ decimal (- (s / 60)) ++ ":" ++ decimal (s - 60 * (s / 60)))%string).
Proof.
  intros Hs d.
  pose proof (Z.div_mod s 60 ltac:(lia)) as Hdm.
  pose proof (Z.mod_pos_bound s 60 ltac:(lia)) as Hmod.
  assert (Hrem : s - 60 * (s / 60) = s mod 60) by lia.
  assert (H52 : 2 ^ 52 < 2 ^ 53) by (vm_compute; reflexivity).
  assert (Hfields : flatMinutes d = Number_of_Z (s / 60) /\
                    seconds d = Number_of_Z (s mod 60)).
  { subst d. destruct (Z.leb_spec 0 s) as [Hpos|Hneg].
    - apply durationWrapper_whole. lia.
    - pose proof (durationWrapper_whole_negative (- s) ltac:(lia)) as H.
      rewrite Z.opp_involutive in H. exact H. }
  destruct Hfields as [Hflat Hsec].
  split; [exact Hflat|]. split; [rewrite Hrem; exact Hsec|]. split; [lia|].
  split; [reflexivity|].
  intros Hneg. split; [lia|].
  change (timestamp d)
    with (Number_toString (flatMinutes d) ++ ":" ++ Number_toString (seconds d))%string.
  rewrite Hflat, Hsec, Hrem.
  replace (s / 60) with (- - (s / 60)) at 1 by lia.
  rewrite (Number_toString_negative (- (s / 60)) ltac:(lia)).
  rewrite (Number_toString_whole (s mod 60) ltac:(lia)).
  rewrite append_associative. reflexivity.
Qed.

(* ================================================================== *)
(** * The model at work: the theorems on the concrete player *)
(* ================================================================== *)

#[local] Existing Instance Demo.carried.
#[local] Existing Instance Demo.player.

Lemma Demo_player_halts : @forcedStopHalts Demo.carried Demo.player.
Proof. intros st. destruct st; reflexivity. Qed.

(** The scenario of the specification: A is playing, B and C wait; A ends,
    B cannot be started, C is. *)
Example failed_track_is_skipped :
  let this := enqueue Demo.trackC (enqueue Demo.trackB (enqueue Demo.trackA Demo.fresh)) in
  queue this = [Demo.trackB; Demo.trackC] /\
  notifications
    (calls (audioPlayer_setState processQueue AudioPlayerIdleState this))
  = [songStarted 1%nat (Demo.info "A" 65);
     songEnded 1%nat (Demo.info "A" 65);
     playingError (Some 2%nat) "resource has already ended"%string;
     songStarted 3%nat (Demo.info "C" 3600)].
Proof. split; reflexivity. Qed.

(** The scenario of the specification: the connection stays in [Connecting]
    for 25 s; [destroy] is called once, when 20 s have passed. *)
Example stuck_connecting_is_destroyed_once :
  let rt :=
    step Demo.start
      (ConnectionStateChange {| state := VoiceConnectionConnectingState;
                                rejoinAttempts := 0 |}) in
  calls (subscription (elapse 19999 rt)) = [] /\
  calls (subscription (elapse 20000 rt)) = [ConnectionDestroy NotReadyInTime] /\
  calls (subscription (elapse 25000 rt)) = [ConnectionDestroy NotReadyInTime] /\
  readyLock (subscription (elapse 25000 rt)) = false.
Proof. vm_compute. repeat split. Qed.

Lemma processQueue_noop_iff_blocked_witness :
  let this := set_queue [Demo.trackA; Demo.trackC] Demo.fresh in
  queueLock this = false /\ isIdle (audioPlayer this) = true /\
  queue this = [Demo.trackA; Demo.trackC] /\
  processQueue this <> this /\
  queueLock (processQueue this) = false /\
  queue (processQueue this) = [Demo.trackC].
Proof.
  intros this.
  destruct (processQueue_noop_iff_blocked this) as [Hiff Hhand].
  destruct (Hhand Demo.trackA [Demo.trackC] eq_refl eq_refl eq_refl)
    as (_ & _ & _ & _ & Hplay).
  destruct (Hplay _ eq_refl) as (_ & Hlock & Hqueue & _).
  repeat split; try assumption.
  intros Hsame. apply Hiff in Hsame. destruct Hsame as [H|[H|H]]; discriminate H.
Defined.

Lemma processQueue_failure_skips_to_next_witness :
  let this := set_queue [Demo.trackB; Demo.trackC] Demo.fresh in
  let error := "resource has already ended"%string in
  (queueLock this = false /\ isIdle (audioPlayer this) = true /\
   queue this = [Demo.trackB; Demo.trackC] /\ created Demo.trackB /\
   AudioPlayer_play (audioPlayer this) (audioResource Demo.trackB) = Thrown error) /\
  calls (afterFailure Demo.trackB [Demo.trackC] error this)
    = [PlayerPlay AudioPlayerIdleState (audioResource Demo.trackB);
       Emit (playingError (Some 2%nat) error)] /\
  processQueue this = processQueue (afterFailure Demo.trackB [Demo.trackC] error this) /\
  exists later,
    calls (processQueue this)
    = calls (afterFailure Demo.trackB [Demo.trackC] error this)
      ++ PlayerPlay AudioPlayerIdleState (audioResource Demo.trackC) :: later.
Proof.
  intros this error.
  assert (Hcreated : created Demo.trackB) by (eexists; split; reflexivity).
  assert (Hthrown : AudioPlayer_play (audioPlayer this) (audioResource Demo.trackB)
                    = Thrown error) by reflexivity.
  destruct (processQueue_failure_skips_to_next this Demo.trackB [Demo.trackC] error
              eq_refl eq_refl eq_refl Hcreated Hthrown)
    as (Hcalls & _ & _ & _ & Hsame & _ & Hnext).
  split; [repeat split; first [exact Hcreated | exact Hthrown]|].
  split; [exact Hcalls|]. split; [exact Hsame|].
  exact (Hnext Demo.trackC [] eq_refl).
Defined.

(** C4, counterexample. On a new subscription, [stop] and then [enqueue]: the
    track is queued, but nothing is handed to the player, the player stays
    idle and no notification is emitted; playback does not resume. The same
    [enqueue] without the [stop] starts the track. *)
Lemma enqueue_after_stop_does_not_resume :
  let stopped := stop Demo.fresh in
  let this := enqueue Demo.trackA stopped in
  queue this = [Demo.trackA] /\
  queueLock this = true /\
  audioPlayer this = AudioPlayerIdleState /\
  handedOff (calls this) = [] /\
  notifications (calls this) = [] /\
  processQueue this = this /\
  handedOff (calls (enqueue Demo.trackA Demo.fresh)) = [audioResource Demo.trackA] /\
  notifications (calls (enqueue Demo.trackA Demo.fresh))
    = [songStarted 1%nat (Demo.info "A" 65)].
Proof. repeat split. Qed.

Lemma stop_halts_for_good_witness :
  let rt := steps Demo.start [CallEnqueue Demo.trackA; CallEnqueue Demo.trackB] in
  let es := [CallEnqueue Demo.trackC; Tick;
             ConnectionStateChange {| state := VoiceConnectionReadyState;
                                      rejoinAttempts := 0 |};
             CallEnqueue Demo.trackA] in
  (forcedStopHalts /\ supervised rt /\ existsb isPlayerStateChange es = false /\
   existsb stops es = false) /\
  let stopped := subscription (step rt CallStop) in
  let later := subscription (steps (step rt CallStop) es) in
  notifications (calls stopped)
    = [songStarted 1%nat (Demo.info "A" 65); songEnded 1%nat (Demo.info "A" 65)] /\
  queue stopped = [] /\
  songNotifications (calls later) = songNotifications (calls stopped) /\
  handedOff (calls later) = handedOff (calls stopped) /\
  queue later = [Demo.trackC; Demo.trackA].
Proof.
  intros rt es.
  assert (Hs : supervised rt) by constructor.
  destruct (stop_halts_for_good rt es Demo_player_halts Hs eq_refl)
    as (Hq & _ & _ & _ & _ & _ & _ & Ho & Hn & Hqueue).
  split; [repeat split; [exact Demo_player_halts | exact Hs]|].
  intros stopped later.
  split; [reflexivity|]. split; [exact Hq|]. split; [exact Hn|]. split; [exact Ho|].
  exact (Hqueue eq_refl).
Defined.

(** C5, counterexample. On a new subscription, [stop], then [enqueue], then
    [stop] again: the state reached after the first [stop] has the track in
    its queue, and the second [stop] removes it. The second [stop] is no
    no-op on the queue (it is one on the lock, on the player and on the
    notifications). *)
Lemma second_stop_empties_the_queue_again :
  let stopped := subscription (steps Demo.start [CallStop; CallEnqueue Demo.trackC]) in
  let again := stop stopped in
  queue stopped = [Demo.trackC] /\
  queue again = [] /\
  queue again <> queue stopped /\
  queueLock again = queueLock stopped /\
  audioPlayer again = audioPlayer stopped /\
  notifications (calls again) = notifications (calls stopped).
Proof. repeat split. intros H. discriminate H. Qed.

Lemma stop_is_idempotent_witness :
  let rt := steps Demo.start [CallEnqueue Demo.trackA; CallEnqueue Demo.trackB] in
  let es := [Tick;
             ConnectionStateChange {| state := VoiceConnectionDestroyedState;
                                      rejoinAttempts := 0 |};
             Tick; CallStop] in
  let es' := [Tick; CallEnqueue Demo.trackC; Tick] in
  (forcedStopHalts /\ supervised rt /\ existsb isPlayerStateChange es = false /\
   existsb isPlayerStateChange es' = false /\ existsb isEnqueue es = false /\
   existsb stops es' = false) /\
  let stopped := subscription (steps (step rt CallStop) es) in
  let again := stop stopped in
  let stopped' := subscription (steps (step rt CallStop) es') in
  let again' := stop stopped' in
  (queue stopped = [] /\
   queue again = queue stopped /\
   queueLock again = queueLock stopped /\
   audioPlayer again = audioPlayer stopped /\
   notifications (calls again) = notifications (calls stopped)) /\
  (queue stopped' = [Demo.trackC] /\
   queue again' = [] /\
   queueLock again' = queueLock stopped' /\
   audioPlayer again' = audioPlayer stopped' /\
   notifications (calls again') = notifications (calls stopped')).
Proof.
  intros rt es es'.
  assert (Hs : supervised rt) by constructor.
  split; [repeat split; [exact Demo_player_halts | exact Hs]|].
  destruct (stop_is_idempotent rt es Demo_player_halts Hs eq_refl)
    as (_ & _ & (_ & Hl & Hp & Hn) & Hsame & _).
  destruct (stop_is_idempotent rt es' Demo_player_halts Hs eq_refl)
    as ((Hfirst & _) & _ & (Hq' & Hl' & Hp' & Hn') & _ & Hsince).
  intros stopped again stopped' again'.
  split.
  - split; [exact (proj1 (Hsame eq_refl))|].
    split; [exact (proj2 (Hsame eq_refl))|].
    split; [exact Hl|]. split; [exact Hp|exact Hn].
  - split; [exact (proj1 (Hsince eq_refl))|]. split; [exact (eq_trans Hq' Hfirst)|].
    split; [exact Hl'|]. split; [exact Hp'|exact Hn'].
Defined.

Lemma audioPlayer_stateChange_notifications_witness :
  let this := enqueue Demo.trackC (enqueue Demo.trackA Demo.fresh) in
  (audioPlayer this = AudioPlayerPlayingState (createAudioResource true
       {| reference := 1%nat; details := Demo.info "A" 65 |}) /\
   queueLock this = false /\ queue this = [Demo.trackC] /\ created Demo.trackC) /\
  let this' := audioPlayer_setState processQueue AudioPlayerIdleState this in
  queue this' = [] /\
  calls this'
  = calls this
    ++ [Emit (songEnded 1%nat (Demo.info "A" 65));
        PlayerPlay AudioPlayerIdleState (audioResource Demo.trackC);
        Emit (songStarted 3%nat (Demo.info "C" 3600))].
Proof.
  intros this.
  assert (Hcreated : created Demo.trackC) by (eexists; split; reflexivity).
  split; [repeat split; exact Hcreated|].
  destruct (audioPlayer_stateChange_notifications this AudioPlayerIdleState)
    as (_ & _ & _ & _ & Hnext).
  destruct (Hnext _ Demo.trackC [] _ eq_refl eq_refl eq_refl eq_refl Hcreated
              eq_refl eq_refl) as (Hq & _ & Hcalls).
  split; [exact Hq|exact Hcalls].
Defined.

Lemma close_4014_waits_for_connecting_witness :
  let c := {| state := VoiceConnectionDisconnectedState WebSocketClose (Some 4014);
              rejoinAttempts := 0 |} in
  let connecting := {| state := VoiceConnectionConnectingState; rejoinAttempts := 0 |} in
  let signalling := {| state := VoiceConnectionSignallingState; rejoinAttempts := 0 |} in
  let late := repeat Tick (Z.to_nat 2500) ++ [CallEnqueue Demo.trackA]
              ++ repeat Tick (Z.to_nat 2499) in
  let early := repeat Tick (Z.to_nat 1200) in
  let busy := repeat Tick (Z.to_nat 100) ++ [ConnectionStateChange signalling]
              ++ repeat Tick (Z.to_nat 4899) in
  let held := step Demo.start (ConnectionStateChange signalling) in
  let rt1 := step Demo.start (ConnectionStateChange c) in
  let rt1' := step held (ConnectionStateChange c) in
  (supervised Demo.start /\ pending Demo.start = [] /\
   supervised held /\ waiting isGraceTask [] held /\
   isWebSocketClose4014 (state c) = true /\
   forallb isQuiet late = true /\ ticks late = 4999 /\
   forallb isQuiet early = true /\ ticks early < 5000 /\
   forallb undisturbed busy = true /\ ticks busy = 4999 /\
   connectionStatus (state connecting) = Connecting) /\
  connectionCalls (calls (subscription (steps rt1 late))) = [] /\
  connectionCalls (calls (subscription (step (steps rt1 late) Tick)))
    = [ConnectionDestroy RemovedFromChannel] /\
  connectionCalls
    (calls (subscription (step (steps rt1 early) (ConnectionStateChange connecting))))
    = [] /\
  pending rt1' = [readyTask 20000; graceTask 5000] /\
  removals (calls (subscription (step (steps rt1' busy) Tick)))
    = [ConnectionDestroy RemovedFromChannel].
Proof.
  intros c connecting signalling late early busy held rt1 rt1'.
  assert (Hs : supervised Demo.start) by constructor.
  assert (Hs' : supervised held) by (repeat constructor).
  assert (Hw' : waiting isGraceTask [] held) by reflexivity.
  assert (Hlate : forallb isQuiet late = true) by (vm_compute; reflexivity).
  assert (Hearly : forallb isQuiet early = true) by (vm_compute; reflexivity).
  assert (Hbusy : forallb undisturbed busy = true) by (vm_compute; reflexivity).
  assert (Hticks : ticks late = 4999) by (vm_compute; reflexivity).
  assert (Hticks' : ticks early < 5000) by (vm_compute; reflexivity).
  assert (Hticks'' : ticks busy = 4999) by (vm_compute; reflexivity).
  split; [repeat split; assumption|].
  destruct (close_4014_waits_for_connecting Demo.start c Hs eq_refl)
    as (_ & Hsilent & _).
  destruct (close_4014_waits_for_connecting held c Hs' eq_refl)
    as ((_ & Hpending) & _ & Hamong).
  destruct (Hsilent eq_refl late Hlate) as (Hbefore & Htimeout).
  destruct (Hsilent eq_refl early Hearly) as (Hhealed & _).
  destruct (Hamong Hw' busy Hbusy) as (_ & Hexpired).
  assert (Hbelow : ticks late < 5000) by (rewrite Hticks; reflexivity).
  destruct (Hbefore Hbelow) as (Hnothing & _).
  destruct (Htimeout Hticks) as (Hdestroy & _).
  destruct (Hhealed Hticks') as (_ & Hconnecting).
  destruct (Hexpired Hticks'') as (Hremoved & _).
  split; [exact Hnothing|]. split; [exact Hdestroy|].
  split; [exact (Hconnecting connecting eq_refl)|].
  split; [exact Hpending|exact Hremoved].
Defined.

Lemma disconnect_backoff_then_rejoin_witness :
  let c := {| state := VoiceConnectionDisconnectedState EndpointRemoved None;
              rejoinAttempts := 2 |} in
  let c5 := {| state := VoiceConnectionDisconnectedState WebSocketClose (Some 4006);
               rejoinAttempts := 5 |} in
  let signalling := {| state := VoiceConnectionSignallingState; rejoinAttempts := 2 |} in
  let connecting := {| state := VoiceConnectionConnectingState; rejoinAttempts := 2 |} in
  let es := repeat Tick (Z.to_nat 7000) ++ [CallEnqueue Demo.trackA]
            ++ repeat Tick (Z.to_nat 7999) in
  let busy := repeat Tick (Z.to_nat 3000) ++ [ConnectionStateChange connecting]
              ++ repeat Tick (Z.to_nat 11999) in
  let held := step Demo.start (ConnectionStateChange signalling) in
  let rt1 := step Demo.start (ConnectionStateChange c) in
  let rt1' := step held (ConnectionStateChange c) in
  (supervised Demo.start /\ pending Demo.start = [] /\
   supervised held /\ waiting isBackoffTask [] held /\
   connectionStatus (state c) = Disconnected /\
   isWebSocketClose4014 (state c) = false /\ forallb isQuiet es = true /\
   0 <= rejoinAttempts c < 5 /\ ticks es = (rejoinAttempts c + 1) * 5000 - 1 /\
   existsb reportsRecoverable busy = false /\
   ticks busy = (rejoinAttempts c + 1) * 5000 - 1 /\
   5 <= rejoinAttempts c5) /\
  connectionCalls (calls (subscription (steps rt1 es))) = [] /\
  connectionCalls (calls (subscription (step (steps rt1 es) Tick))) = [ConnectionRejoin] /\
  now (step (steps rt1 es) Tick) = 15000 /\
  pending rt1' = [readyTask 20000; backoffTask 15000] /\
  rejoins (calls (subscription (steps rt1' busy))) = [] /\
  rejoins (calls (subscription (step (steps rt1' busy) Tick))) = [ConnectionRejoin] /\
  calls (subscription (step held (ConnectionStateChange c5)))
    = [ConnectionDestroy NoAttemptsLeft].
Proof.
  intros c c5 signalling connecting es busy held rt1 rt1'.
  assert (Hs : supervised Demo.start) by constructor.
  assert (Hs' : supervised held) by (repeat constructor).
  assert (Hw' : waiting isBackoffTask [] held) by reflexivity.
  assert (Hes : forallb isQuiet es = true) by (vm_compute; reflexivity).
  assert (Hticks : ticks es = (rejoinAttempts c + 1) * 5000 - 1)
    by (vm_compute; reflexivity).
  assert (Hbusy : existsb reportsRecoverable busy = false) by (vm_compute; reflexivity).
  assert (Hticks' : ticks busy = (rejoinAttempts c + 1) * 5000 - 1)
    by (vm_compute; reflexivity).
  assert (Hn : 0 <= rejoinAttempts c < 5) by (cbn; lia).
  assert (Hn5 : 5 <= rejoinAttempts c5) by (cbn; lia).
  split; [repeat split; try assumption; apply Hn|].
  destruct (disconnect_backoff_then_rejoin Demo.start c es Hs eq_refl eq_refl Hes)
    as (_ & Hsilent & _).
  destruct (Hsilent Hn eq_refl) as (Hquiet & Hdue).
  destruct (Hdue Hticks) as (Hrejoin & Hnow & _).
  destruct (disconnect_backoff_then_rejoin held c [] Hs' eq_refl eq_refl eq_refl)
    as (Hstart & _ & Hamong & _).
  destruct (Hstart (proj2 Hn)) as (_ & Hpending).
  destruct (Hamong Hn Hw' busy Hbusy) as (Hnone & Hone).
  destruct (Hone Hticks') as (Hrejoined & _).
  destruct (disconnect_backoff_then_rejoin held c5 [] Hs' eq_refl eq_refl eq_refl)
    as (_ & _ & _ & Hgiveup & _).
  split; [apply Hquiet; rewrite Hticks; cbn; lia|].
  split; [exact Hrejoin|]. split; [exact Hnow|].
  split; [exact Hpending|].
  split; [apply Hnone; rewrite Hticks'; cbn; lia|].
  split; [exact Hrejoined|].
  exact (proj1 (Hgiveup Hn5)).
Defined.

Lemma ready_bound_under_guard_witness :
  let c := {| state := VoiceConnectionSignallingState; rejoinAttempts := 0 |} in
  let connecting := {| state := VoiceConnectionConnectingState; rejoinAttempts := 0 |} in
  let ready := {| state := VoiceConnectionReadyState; rejoinAttempts := 0 |} in
  let destroyed := {| state := VoiceConnectionDestroyedState; rejoinAttempts := 0 |} in
  let lost := {| state := VoiceConnectionDisconnectedState EndpointRemoved None;
                 rejoinAttempts := 4 |} in
  let es := repeat Tick (Z.to_nat 19999) in
  let early := repeat Tick (Z.to_nat 300) in
  let rest := repeat Tick (Z.to_nat 19699) in
  let busy := repeat Tick (Z.to_nat 5000) ++ [ConnectionStateChange connecting]
              ++ repeat Tick (Z.to_nat 14999) in
  let brief := repeat Tick (Z.to_nat 300) ++ [ConnectionStateChange connecting]
               ++ repeat Tick (Z.to_nat 200) in
  let delayed := step Demo.start (ConnectionStateChange lost) in
  let rt1 := step Demo.start (ConnectionStateChange c) in
  let rt1' := step delayed (ConnectionStateChange c) in
  (supervised Demo.start /\ guarded Demo.start /\ pending Demo.start = [] /\
   supervised delayed /\ guarded delayed /\
   (connectionStatus (state c) = Connecting \/ connectionStatus (state c) = Signalling) /\
   readyLock (subscription Demo.start) = false /\
   readyLock (subscription delayed) = false /\
   forallb isQuiet es = true /\ ticks es = 19999 /\
   forallb isQuiet early = true /\ ticks early < 20000 /\
   forallb isQuiet rest = true /\ ticks early + ticks rest = 19999 /\
   existsb reportsReady busy = false /\ ticks busy = 19999 /\
   existsb reportsReady brief = false /\ ticks brief < 20000) /\
  readyLock (subscription rt1) = true /\
  pending (step (steps rt1 early) (ConnectionStateChange connecting))
    = [readyTask 20000] /\
  pending (step (steps rt1 early) (ConnectionStateChange ready)) = [] /\
  readyLock (subscription (step (steps rt1 early) (ConnectionStateChange ready))) = false /\
  connectionCalls (calls (subscription (step (steps rt1 es) Tick)))
    = [ConnectionDestroy NotReadyInTime] /\
  connectionCalls
    (calls (subscription
       (step (steps (step (steps rt1 early) (ConnectionStateChange destroyed)) rest) Tick)))
    = [] /\
  readyBounds rt1' = 1%nat /\
  readyBounds (steps rt1' brief) = 1%nat /\
  readyBounds (step (steps rt1' brief) (ConnectionStateChange ready)) = 0%nat /\
  expiries (calls (subscription (step (steps rt1' brief) (ConnectionStateChange ready))))
    = [] /\
  readyLock (subscription (step (steps rt1' busy) Tick)) = false /\
  readyBounds (step (steps rt1' busy) Tick) = 0%nat.
Proof.
  intros c connecting ready destroyed lost es early rest busy brief delayed rt1 rt1'.
  assert (Hs : supervised Demo.start) by constructor.
  assert (Hg : guarded Demo.start) by reflexivity.
  assert (Hs' : supervised delayed) by (repeat constructor).
  assert (Hg' : guarded delayed) by reflexivity.
  assert (Hes : forallb isQuiet es = true) by (vm_compute; reflexivity).
  assert (Hearly : forallb isQuiet early = true) by (vm_compute; reflexivity).
  assert (Hrest : forallb isQuiet rest = true) by (vm_compute; reflexivity).
  assert (Hbusy : existsb reportsReady busy = false) by (vm_compute; reflexivity).
  assert (Hbrief : existsb reportsReady brief = false) by (vm_compute; reflexivity).
  assert (Hticks : ticks es = 19999) by (vm_compute; reflexivity).
  assert (Hticks1 : ticks early < 20000) by (vm_compute; reflexivity).
  assert (Hticks2 : ticks early + ticks rest = 19999) by (vm_compute; reflexivity).
  assert (Hticks3 : ticks busy = 19999) by (vm_compute; reflexivity).
  assert (Hticks4 : ticks brief < 20000) by (vm_compute; reflexivity).
  split; [repeat split; try assumption; right; reflexivity|].
  destruct (ready_bound_under_guard Demo.start c es Hs Hg (or_intror eq_refl) eq_refl Hes)
    as ((Hlock & _) & Hsilent & _).
  destruct (Hsilent eq_refl) as (_ & _ & Hexpire & _).
  destruct (ready_bound_under_guard Demo.start c early Hs Hg (or_intror eq_refl) eq_refl
              Hearly) as (_ & Hsilent' & _).
  destruct (Hsilent' eq_refl) as (_ & Hrunning & _ & Hdestroyed).
  destruct (ready_bound_under_guard delayed c [] Hs' Hg' (or_intror eq_refl) eq_refl
              eq_refl) as ((_ & Hstarted & _) & _ & _ & Hamong).
  destruct (Hrunning Hticks1) as (_ & Hagain & Hready).
  destruct (Hagain connecting (or_introl eq_refl)) as (_ & Hsame & _).
  destruct (Hready ready eq_refl) as (Hfree & Hnone & _).
  destruct (Hexpire Hticks) as (_ & _ & _ & Hcalls).
  destruct (Hdestroyed destroyed rest eq_refl Hrest Hticks2) as (_ & _ & Hquiet).
  destruct (Hamong brief Hbrief) as (Hduring & _).
  destruct (Hduring Hticks4) as (_ & Hone & _ & Hends).
  destruct (Hends ready eq_refl) as (_ & Hzero & Hnever & _).
  destruct (Hamong busy Hbusy) as (_ & Hover).
  destruct (Hover Hticks3) as (Hunlocked & Hnobound & _).
  split; [exact Hlock|]. split; [exact Hsame|]. split; [exact Hnone|].
  split; [exact Hfree|]. split; [exact Hcalls|]. split; [exact Hquiet|].
  split; [exact Hstarted|].
  split; [exact Hone|]. split; [exact Hzero|]. split; [exact Hnever|].
  split; [exact Hunlocked|exact Hnobound].
Defined.

(* ================================================================== *)
(** * The further properties on the concrete player and world *)
(* ================================================================== *)

Lemma Demo_player_starts : @playStarts Demo.carried Demo.player.
Proof.
  intros st [r|] newState; cbn; [|discriminate].
  destruct (playStream r); [|discriminate].
  intros H. injection H as <-. reflexivity.
Qed.

Lemma queueLock_free_between_events_witness :
  let es := [CallEnqueue Demo.trackA; CallEnqueue Demo.trackB;
             PlayerStateChange AudioPlayerIdleState; Tick; CallEnqueue Demo.trackC] in
  (supervised Demo.start /\ queueLock (subscription Demo.start) = false /\
   existsb stops es = false) /\
  queueLock (subscription (steps Demo.start es)) = false.
Proof.
  intros es.
  assert (Hs : supervised Demo.start) by constructor.
  split; [repeat split; exact Hs|].
  exact (queueLock_free_between_events Demo.start es Hs eq_refl eq_refl).
Defined.

Lemma idle_player_means_empty_queue_witness :
  let es := [CallEnqueue Demo.trackA; CallEnqueue Demo.trackB;
             PlayerStateChange AudioPlayerIdleState; Tick] in
  let this := subscription (steps Demo.start es) in
  (playStarts /\ existsb stops es = false /\ isIdle (audioPlayer this) = true) /\
  queue this = [].
Proof.
  intros es this.
  split; [repeat split; exact Demo_player_starts|].
  exact (idle_player_means_empty_queue Demo.connection es Demo_player_starts eq_refl eq_refl).
Defined.

Lemma processQueue_skips_every_failure_witness :
  let this := set_queue [Demo.trackB; Demo.trackB; Demo.trackA; Demo.trackC] Demo.fresh in
  let failed := [(Demo.trackB, "resource has already ended"%string);
                 (Demo.trackB, "resource has already ended"%string)] in
  (queueLock this = false /\ audioPlayer this = AudioPlayerIdleState /\ allThrow failed /\
   queue this = map fst failed ++ Demo.trackA :: [Demo.trackC]) /\
  queue (processQueue this) = [Demo.trackC] /\
  notifications (calls (processQueue this))
  = [playingError (Some 2%nat) "resource has already ended"%string;
     playingError (Some 2%nat) "resource has already ended"%string;
     songStarted 1%nat (Demo.info "A" 65)].
Proof.
  intros this failed.
  assert (Hfailed : allThrow failed) by (repeat constructor).
  split; [repeat split; exact Hfailed|].
  destruct (processQueue_skips_every_failure this failed eq_refl eq_refl Hfailed)
    as [_ Hnext].
  destruct (Hnext Demo.trackA [Demo.trackC] _ eq_refl eq_refl) as (Hq & _ & _ & Hc).
  split; [exact Hq|]. rewrite Hc. reflexivity.
Defined.

Lemma connection_trouble_leaves_playback_alone_witness :
  let rt := steps Demo.start [CallEnqueue Demo.trackA; CallEnqueue Demo.trackC] in
  let es := [ConnectionStateChange
               {| state := VoiceConnectionDisconnectedState WebSocketClose (Some 4014);
                  rejoinAttempts := 0 |};
             Tick; Tick;
             ConnectionStateChange
               {| state := VoiceConnectionDisconnectedState EndpointRemoved None;
                  rejoinAttempts := 7 |};
             Tick;
             ConnectionStateChange
               {| state := VoiceConnectionReadyState; rejoinAttempts := 0 |}] in
  (supervised rt /\ forallb isConnectionWeather es = true) /\
  let this := subscription rt in
  let this' := subscription (steps rt es) in
  audioPlayer this' = audioPlayer this /\
  queue this' = [Demo.trackC] /\
  queueLock this' = queueLock this /\
  handedOff (calls this') = handedOff (calls this) /\
  notifications (calls this') = [songStarted 1%nat (Demo.info "A" 65)].
Proof.
  intros rt es.
  assert (Hs : supervised rt) by constructor.
  split; [split; [exact Hs|reflexivity]|].
  destruct (connection_trouble_leaves_playback_alone rt es Hs eq_refl)
    as (Hp & Hq & Hl & Ho & Hn).
  intros this this'.
  split; [exact Hp|]. split; [exact Hq|]. split; [exact Hl|]. split; [exact Ho|exact Hn].
Defined.

Lemma destroyed_connection_ends_playback_witness :
  let rt := steps Demo.start [CallEnqueue Demo.trackA; CallEnqueue Demo.trackC] in
  let c := {| state := VoiceConnectionDestroyedState; rejoinAttempts := 0 |} in
  let es := [CallEnqueue Demo.trackA; Tick] in
  (forcedStopHalts /\ supervised rt /\ connectionStatus (state c) = Destroyed /\
   existsb isPlayerStateChange es = false /\ existsb stops es = false) /\
  let ended := subscription (step rt (ConnectionStateChange c)) in
  let later := subscription (steps (step rt (ConnectionStateChange c)) es) in
  queue ended = [] /\
  notifications (calls ended)
  = [songStarted 1%nat (Demo.info "A" 65); songEnded 1%nat (Demo.info "A" 65)] /\
  handedOff (calls later) = handedOff (calls ended) /\
  queue later = [Demo.trackA].
Proof.
  intros rt c es.
  assert (Hs : supervised rt) by constructor.
  split; [repeat split; [exact Demo_player_halts|exact Hs]|].
  destruct (destroyed_connection_ends_playback rt c es Demo_player_halts Hs eq_refl eq_refl)
    as (Hq & _ & _ & _ & Hn & _ & _ & Ho & _ & Hlater).
  intros ended later.
  split; [exact Hq|]. split; [exact Hn|]. split; [exact Ho|exact (Hlater eq_refl)].
Defined.

Lemma disconnects_and_answers_balance_witness :
  let lost n := ConnectionStateChange
                  {| state := VoiceConnectionDisconnectedState EndpointRemoved None;
                     rejoinAttempts := n |} in
  let es := [lost 0; Tick; lost 1; lost 5] ++ repeat Tick (Z.to_nat 5000) in
  supervised Demo.start /\
  (List.length (rejoins (calls (subscription (steps Demo.start es))))
   + backoffs (steps Demo.start es) = 2)%nat /\
  surrenders (calls (subscription (steps Demo.start es)))
  = [ConnectionDestroy NoAttemptsLeft].
Proof.
  intros lost es.
  assert (Hs : supervised Demo.start) by constructor.
  split; [exact Hs|].
  destruct (disconnects_and_answers_balance Demo.start es Hs) as [Hr Hx].
  split; [rewrite Hr; vm_compute; reflexivity|rewrite Hx; vm_compute; reflexivity].
Defined.

Lemma grace_period_destroys_a_destroyed_connection_witness :
  let c := {| state := VoiceConnectionDisconnectedState WebSocketClose (Some 4014);
              rejoinAttempts := 0 |} in
  let c' := {| state := VoiceConnectionDestroyedState; rejoinAttempts := 0 |} in
  let before := repeat Tick (Z.to_nat 1000) in
  let after := repeat Tick (Z.to_nat 3999) in
  (supervised Demo.start /\ waiting isGraceTask [] Demo.start /\
   isWebSocketClose4014 (state c) = true /\ connectionStatus (state c') = Destroyed /\
   forallb undisturbed before = true /\ forallb isQuiet after = true /\
   ticks before + ticks after = 4999) /\
  let rt2 := steps (step (steps (step Demo.start (ConnectionStateChange c)) before)
                         (ConnectionStateChange c')) after in
  connectionStatus (state (voiceConnection (subscription rt2))) = Destroyed /\
  removals (calls (subscription (step rt2 Tick)))
  = [ConnectionDestroy RemovedFromChannel].
Proof.
  intros c c' before after.
  assert (Hs : supervised Demo.start) by constructor.
  assert (Hbefore : forallb undisturbed before = true) by (vm_compute; reflexivity).
  assert (Hafter : forallb isQuiet after = true) by (vm_compute; reflexivity).
  assert (Hticks : ticks before + ticks after = 4999) by (vm_compute; reflexivity).
  split; [repeat split; assumption|].
  destruct (grace_period_destroys_a_destroyed_connection Demo.start c c' before after
              Hs eq_refl eq_refl eq_refl Hbefore Hafter Hticks) as (Hst & _ & Hr).
  intros rt2. split; [exact Hst|exact Hr].
Defined.

Lemma isURL_rejects_other_characters_witness :
  existsb (fun c => negb (urlCharacter c))
    (list_ascii_of_string "https://www.youtube.com/watch?v=dQw4w9WgXcQ") = true /\
  isURL "https://www.youtube.com/watch?v=dQw4w9WgXcQ" = false /\
  isURL "never gonna give you up topic" = false.
Proof.
  split; [reflexivity|]. split.
  - apply (isURL_rejects_other_characters "https://www.youtube.com/watch?v=dQw4w9WgXcQ").
    reflexivity.
  - apply (isURL_rejects_other_characters "never gonna give you up topic"). reflexivity.
Defined.

Lemma isURL_accepts_dotted_words_witness :
  let first := list_ascii_of_string "mr" in
  let second := list_ascii_of_string "brightside" in
  (first <> [] /\ forallb isLower first = true /\ (2 <= List.length second)%nat /\
   forallb isLower second = true) /\
  isURL "mr.brightside" = true.
Proof.
  intros first second.
  assert (Hne : first <> []) by discriminate.
  assert (Hlen : (2 <= List.length second)%nat) by (cbn; lia).
  split; [repeat split; try assumption; reflexivity|].
  exact (isURL_accepts_dotted_words first second Hne eq_refl Hlen eq_refl).
Defined.

Lemma create_from_accepted_query_has_no_link_witness :
  let run := Track_create_run DemoWorld.world "https://www.youtube.com/watch" 7%nat
               DemoWorld.events in
  isURL "https://www.youtube.com/watch" = true /\
  existsb isBrowserCall (fst run) = false /\
  snd run = Pending.
Proof.
  intros run. split; [vm_compute; reflexivity|].
  destruct (create_from_accepted_query_has_no_link DemoWorld.world
              "https://www.youtube.com/watch" 7%nat DemoWorld.events)
    as (_ & Hnone & _); [vm_compute; reflexivity|].
  split; [exact Hnone|vm_compute; reflexivity].
Defined.

Lemma create_is_rejected_when_the_search_throws_witness :
  let query := "never gonna give you up topic"%string in
  let run := Track_create_run DemoWorld.unreachable query 7%nat DemoWorld.events in
  (isURL query = false /\
   snd (fetchURL DemoWorld.unreachable query [])
   = inl "net::ERR_INTERNET_DISCONNECTED"%string /\
   close (puppeteer DemoWorld.unreachable) = inr tt) /\
  snd run = Rejected "net::ERR_INTERNET_DISCONNECTED"%string /\
  fst run
  = [PuppeteerLaunch; BrowserNewPage;
     PageGoto "https://www.youtube.com/results?search_query=never%20gonna%20give%20you%20up%20topic"] /\
  existsb isBrowserClose (fst run) = false.
Proof.
  intros query run.
  assert (Hurl : isURL query = false) by (vm_compute; reflexivity).
  split; [repeat split; exact Hurl|].
  destruct (create_is_rejected_when_the_search_throws DemoWorld.unreachable query 7%nat
              DemoWorld.events "net::ERR_INTERNET_DISCONNECTED"%string Hurl eq_refl)
    as (Hrejected & Hcalls & _ & Hclose).
  split; [exact Hrejected|]. split; [exact (eq_trans Hcalls eq_refl)|exact (Hclose eq_refl)].
Defined.

Lemma create_never_settles_when_metadata_fails_witness :
  let query := "https://www.youtube.com/watch"%string in
  (Track_lookup DemoWorld.world query = ([], inr None) /\
   metadataOf DemoWorld.world None
   = inl (BasicInfoFailed "No video id found: undefined"%string)) /\
  Track_create_run DemoWorld.world query 7%nat (DemoWorld.events ++ [StreamError DemoWorld.aborted])
  = ([Ytdl None ytdlOptions; GetBasicInfo None], Pending).
Proof.
  intros query.
  assert (Hlookup : Track_lookup DemoWorld.world query = ([], inr None))
    by (vm_compute; reflexivity).
  split; [split; [exact Hlookup|reflexivity]|].
  exact (create_never_settles_when_metadata_fails DemoWorld.world query 7%nat
           (DemoWorld.events ++ [StreamError DemoWorld.aborted]) [] None _ Hlookup eq_refl).
Defined.

Lemma create_is_settled_by_the_first_answer_witness :
  let query := "never gonna give you up topic"%string in
  let link := Some "https://www.youtube.com/watch?v=dQw4w9WgXcQ"%string in
  let log := fst (Track_lookup DemoWorld.world query) in
  let details := {| title := "Never Gonna Give You Up";
                    duration := durationWrapper 213;
                    uploadedBy := "Rick Astley(undefined)";
                    coverArt := "https://i.ytimg.com/vi/dQw4w9WgXcQ/default.jpg" |} in
  (Track_lookup DemoWorld.world query = (log, inr link) /\
   metadataOf DemoWorld.world link = inr details) /\
  snd (Track_create_run DemoWorld.world query 7%nat
         ([Readable] ++ [StreamError DemoWorld.aborted; Probed DemoWorld.probed]))
  = Rejected DemoWorld.aborted /\
  snd (Track_create_run DemoWorld.world query 7%nat
         ([Readable; Readable] ++ [Probed DemoWorld.probed; StreamError DemoWorld.aborted]))
  = Fulfilled (Track_create query 7%nat link details DemoWorld.probed).
Proof.
  intros query link log details.
  assert (Hlookup : Track_lookup DemoWorld.world query = (log, inr link))
    by (vm_compute; reflexivity).
  assert (Hmeta : metadataOf DemoWorld.world link = inr details) by reflexivity.
  split; [split; assumption|].
  destruct (create_is_settled_by_the_first_answer DemoWorld.world query 7%nat log link
              details 1 [Probed DemoWorld.probed] Hlookup Hmeta) as (_ & Herror & _).
  destruct (create_is_settled_by_the_first_answer DemoWorld.world query 7%nat log link
              details 1 [StreamError DemoWorld.aborted] Hlookup Hmeta)
    as (_ & _ & _ & Hprobed).
  split; [exact (Herror DemoWorld.aborted)|exact (proj1 (Hprobed DemoWorld.probed))].
Defined.

Lemma create_by_search_yields_the_track_witness :
  let query := "never gonna give you up topic"%string in
  let w := DemoWorld.world in
  let address :=
    ("https://www.youtube.com/results?search_query=" ++ encodeURIComponent w query)%string in
  let link := "https://www.youtube.com/watch?v=dQw4w9WgXcQ"%string in
  (isURL query = false /\
   launch (puppeteer w) = inr tt /\ newPage (puppeteer w) = inr tt /\
   goto (puppeteer w) address = inr tt /\
   waitForSelector (puppeteer w) "a#video-title" = inr tt /\
   hrefOfFirstHit (puppeteer w) "a#video-title" = inr (Some "/watch?v=dQw4w9WgXcQ"%string) /\
   close (puppeteer w) = inr tt /\
   getBasicInfo w (Some link) = inr DemoWorld.video /\
   thumbnails DemoWorld.video
   = ["https://i.ytimg.com/vi/dQw4w9WgXcQ/default.jpg"%string]) /\
  exists track,
    snd (Track_create_run w query 7%nat ([Readable] ++ [Probed DemoWorld.probed]))
    = Fulfilled track /\
    url track = Some link /\
    option_map (fun r => uploadedBy (details (metadata r))) (audioResource track)
    = Some "Rick Astley(undefined)"%string /\
    option_map (fun r => timestamp (duration (details (metadata r)))) (audioResource track)
    = Some "3:33"%string.
Proof.
  intros query w address link.
  assert (Hurl : isURL query = false) by (vm_compute; reflexivity).
  split; [repeat split; exact Hurl|].
  destruct (create_by_search_yields_the_track w query 7%nat
              (Some "/watch?v=dQw4w9WgXcQ"%string) DemoWorld.video
              "https://i.ytimg.com/vi/dQw4w9WgXcQ/default.jpg"%string [] 0 DemoWorld.probed []
              Hurl eq_refl eq_refl eq_refl eq_refl eq_refl eq_refl eq_refl eq_refl)
    as [Hrun _].
  eexists. split; [exact Hrun|]. repeat split.
Defined.

Lemma criticalError_reports_each_player_error_witness :
  let failure : @AudioPlayerError Demo.carried :=
    {| errorResource := createAudioResource true
                          {| reference := 1%nat; details := Demo.info "A" 65 |};
       errorValue := "decoder failed"%string |} in
  let es := [CallEnqueue Demo.trackA; PlayerError failure; CallEnqueue Demo.trackB;
             PlayerStateChange AudioPlayerIdleState; Tick; CallStop] in
  supervised Demo.start /\
  criticalErrors (calls (subscription (steps Demo.start es)))
  = [criticalError 1%nat failure].
Proof.
  intros failure es.
  assert (Hs : supervised Demo.start) by constructor.
  split; [exact Hs|].
  exact (criticalError_reports_each_player_error Demo.start es Hs).
Defined.

Lemma durationWrapper_fields_agree_witness :
  - 2 ^ 52 <= -1 <= 2 ^ 52 /\
  flatMinutes (durationWrapper (-1)) = Number_of_Z (-1) /\
  seconds (durationWrapper (-1)) = Number_of_Z 59 /\
  timestamp (durationWrapper (-1)) = "-1:59"%string.
Proof.
  split; [lia|].
  destruct (durationWrapper_fields_agree (-1) ltac:(lia))
    as (Hflat & Hsec & _ & _ & Hneg).
  split; [exact Hflat|]. split; [exact Hsec|].
  exact (proj2 (Hneg ltac:(lia))).
Defined.

Lemma tracks_play_in_enqueue_order_witness :
  let es := [CallEnqueue Demo.trackA; CallEnqueue Demo.trackC; Tick] in
  let rt := steps Demo.start es in
  let this := subscription rt in
  existsb stops es = false /\
  (* A was handed over at once, C waits behind it *)
  handedOff (calls this) = [audioResource Demo.trackA] /\
  queue this = [Demo.trackC] /\
  (* a third track goes to the tail *)
  queue (subscription (step rt (CallEnqueue Demo.trackB))) = [Demo.trackC; Demo.trackB] /\
  (* when A ends, C is popped and handed over *)
  (let next := subscription (step rt (PlayerStateChange AudioPlayerIdleState)) in
   queue next = [] /\
   audioPlayer next = AudioPlayerPlayingState
                        (createAudioResource true
                           {| reference := 3%nat; details := Demo.info "C" 3600 |}) /\
   handedOff (calls next) = [audioResource Demo.trackA; audioResource Demo.trackC]).
Proof.
  intros es rt this. split; [reflexivity|].
  destruct (tracks_play_in_enqueue_order Demo.connection es eq_refl)
    as ((Horder & _ & _) & Henqueue & Hdrain & _).
  destruct (Henqueue Demo.trackB) as [Htail _].
  split; [reflexivity|]. split; [reflexivity|].
  split; [exact (f_equal queue (Htail eq_refl))|].
  exact (Hdrain Demo.trackC [] _ eq_refl eq_refl eq_refl).
Defined.
